(** * Distributed COPY: a shallow embedding of [tsl/src/remote/dist_copy.c]

    The development follows the file top-down: the scalar types and the
    error sites, the wire helpers and the two row encoders, the partition
    point of a row, the batching loop, the transport with the multiplexed
    flush, and the batch pass that routes rows to data nodes. *)

From Stdlib Require Import ZArith Lia List String Ascii Bool.
From Stdlib.Strings Require Import Byte.
From stdpp Require Import base list functions.
Import ListNotations.
Local Open Scope Z_scope.

(* ================================================================= *)
(** ** Scalars, limits and error sites *)

Definition Oid := Z.
Definition Datum := Z.
Definition AttrNumber := Z.
Definition FmgrInfo := Oid.

Definition DEFAULT_PG_DELIMITER : ascii := "009"%char.
Definition DEFAULT_PG_NULL_VALUE : string := "\N"%string.
Definition MAX_BATCH_ROWS : Z := 1024.
Definition MAX_BATCH_BYTES : Z := 10 * 1024 * 1024.

(** PostgreSQL's allocation limit: no [StringInfo] holds more bytes. *)
Definition MaxAllocSize : Z := 1073741823.

Definition wrap (w : Z) (z : Z) : Z := z mod 2 ^ w.
Definition swrap (w : Z) (z : Z) : Z := (z + 2 ^ (w - 1)) mod 2 ^ w - 2 ^ (w - 1).
Definition uint16 := wrap 16.
Definition uint32 := wrap 32.
Definition uint64 := wrap 64.
Definition int32 := swrap 32.
Definition int64 := swrap 64.

Definition DatumGetInt32 (d : Datum) : Z := int32 d.
Definition AttrNumberGetAttrOffset (attno : AttrNumber) : Z := attno - 1.

(** C array read [a[i]]; the callers stay in range, the default stands for
    the zero bytes of [palloc0]. *)
Definition aref {A} (d : A) (a : list A) (i : Z) : A :=
  if i <? 0 then d else default d (a !! Z.to_nat i).

(** One constructor for each [ereport(ERROR)] / [elog(ERROR)] of the file,
    and one for an error raised inside a callee that lives elsewhere. *)
Inductive Error :=
| ErrDefaultForPartitioningColumn (column_name : string)
| ErrNotNullViolation (column_name : string)
| ErrInvalidDimensionType
| ErrValueRequired (column_name : string)
| ErrWrongStatusProcessing (server_id : Oid)
| ErrWrongStatus (server_oid : Oid)
| ErrNoCopyInProgress
| ErrCouldNotEndCopy
| ErrCouldNotFlush
| ErrConsumeInput
| ErrSetBlocking
| ErrNullResult
| ErrResultError (result_status : Z)
| ErrNonNullResult (result_status : Z)
| ErrBeginCopy
| ErrPutCopyData
| ErrCouldNotSendCopyData
| ErrEndCopy
| ErrBinaryNotSupported
| ErrRequiresParameter (defname : string)
| ErrUnrecognizedNodeType
| ErrUnexpectedNameNode
| ErrInterrupt
| ErrCallee (code : Z).

Inductive Res (A : Type) :=
| Ok (a : A)
| Raise (e : Error).
Arguments Ok {A} a.
Arguments Raise {A} e.

Definition res_bind {A B} (r : Res A) (k : A -> Res B) : Res B :=
  match r with
  | Ok a => k a
  | Raise e => Raise e
  end.

Fixpoint res_mapM {A B} (f : A -> Res B) (l : list A) : Res (list B) :=
  match l with
  | [] => Ok []
  | x :: l' =>
      res_bind (f x) (fun y => res_bind (res_mapM f l') (fun ys => Ok (y :: ys)))
  end.

(* ================================================================= *)
(** ** Catalog and function manager

    Type lookups and datum conversions belong to PostgreSQL and to
    other TimescaleDB modules; the embedding takes them as one record. *)

Record PartitioningInfo := {
  partfunc : Oid;
  rettype : Oid
}.

Record Catalog := {
  getTypeInputInfo : Oid -> Oid * Oid;
  getTypeOutputInfo : Oid -> Oid;
  getTypeBinaryOutputInfo : Oid -> Oid;
  InputFunctionCall : FmgrInfo -> string -> Oid -> Z -> Res Datum;
  OutputFunctionCall : FmgrInfo -> Datum -> string;
  SendFunctionCall : FmgrInfo -> Datum -> list byte;
  ts_partitioning_func_apply : PartitioningInfo -> Oid -> Datum -> Res Datum;
  ts_time_value_to_internal : Datum -> Oid -> Res Z;
  quote_identifier : string -> string;
  TypeNameToString : Z -> string;
  string_of_long : Z -> string
}.

(* ================================================================= *)
(** ** StringInfo and network byte order *)

Definition StringInfo := list byte.

Definition makeStringInfo : StringInfo := [].
Definition len (s : StringInfo) : Z := Z.of_nat (length s).

Definition appendBinaryStringInfo (s : StringInfo) (data : list byte) : StringInfo :=
  s ++ data.

(** [appendStringInfo(s, "%s%c", str, c)] *)
Definition appendStringInfo_sc (s : StringInfo) (str : string) (c : ascii) : StringInfo :=
  s ++ list_byte_of_string str ++ [byte_of_ascii c].

Definition byte_of_Z (z : Z) : byte :=
  match Byte.of_N (Z.to_N (z mod 256)) with
  | Some b => b
  | None => x00
  end.

Definition Z_of_byte (b : byte) : Z := Z.of_N (Byte.to_N b).

(** The bytes held by [buf16] after [buf16 = pg_hton16(x)], lowest address
    first. *)
Definition pg_hton16 (x : Z) : list byte :=
  [byte_of_Z (Z.shiftr x 8); byte_of_Z x].

Definition pg_hton32 (x : Z) : list byte :=
  [byte_of_Z (Z.shiftr x 24); byte_of_Z (Z.shiftr x 16);
   byte_of_Z (Z.shiftr x 8); byte_of_Z x].

(** Value of a byte string read as a big-endian unsigned number. *)
Definition be_value (bs : list byte) : Z :=
  fold_left (fun acc b => acc * 256 + Z_of_byte b) bs 0.

(* ================================================================= *)
(** ** Binary row encoding *)

Definition binary_field_step (cat : Catalog) (values : list Datum) (nulls : list bool)
    (out_functions : list FmgrInfo) (row_data : StringInfo) (attnum : AttrNumber)
    : StringInfo :=
  let offset := AttrNumberGetAttrOffset attnum in
  if aref false nulls offset then
    let buf32 := pg_hton32 (uint32 (-1)) in
    appendBinaryStringInfo row_data buf32
  else
    let value := aref 0 values offset in
    let outputbytes := SendFunctionCall cat (aref 0 out_functions offset) value in
    let output_length := len outputbytes in
    let buf32 := pg_hton32 (uint32 output_length) in
    let row_data := appendBinaryStringInfo row_data buf32 in
    appendBinaryStringInfo row_data outputbytes.

Definition generate_binary_copy_data (cat : Catalog) (values : list Datum)
    (nulls : list bool) (attnums : list AttrNumber) (out_functions : list FmgrInfo)
    : StringInfo :=
  let row_data := makeStringInfo in
  let buf16 := pg_hton16 (uint16 (Z.of_nat (length attnums))) in
  let row_data := appendBinaryStringInfo row_data buf16 in
  fold_left (binary_field_step cat values nulls out_functions) attnums row_data.

(** The layout in the words of the specification: a big-endian number of
    [w] bytes, the field count, then one length-prefixed field per selected
    column, a null being the bare length [0xFFFFFFFF]. *)
Fixpoint be_bytes (w : nat) (n : Z) : list byte :=
  match w with
  | O => []
  | S w' => be_bytes w' (n / 256) ++ [byte_of_Z n]
  end.

Definition binary_field_spec (cat : Catalog) (values : list Datum) (nulls : list bool)
    (out_functions : list FmgrInfo) (attnum : AttrNumber) : list byte :=
  if aref false nulls (attnum - 1) then be_bytes 4 4294967295
  else
    let v := SendFunctionCall cat (aref 0 out_functions (attnum - 1))
                              (aref 0 values (attnum - 1)) in
    be_bytes 4 (Z.of_nat (length v)) ++ v.

Definition binary_row_spec (cat : Catalog) (values : list Datum) (nulls : list bool)
    (attnums : list AttrNumber) (out_functions : list FmgrInfo) : list byte :=
  be_bytes 2 (Z.of_nat (length attnums))
  ++ concat (map (binary_field_spec cat values nulls out_functions) attnums).

(* ================================================================= *)
(** ** Text row encoding and the COPY options *)

(** The value nodes a [DefElem] argument can hold. *)
Inductive NameNode :=
| NameString (s : string)
| NameStar
| NameOther (tag : Z).

Inductive Node :=
| T_Integer (i : Z)
| T_Float (s : string)
| T_String (s : string)
| T_TypeName (typ : Z)
| T_List (names : list NameNode)
| T_A_Star
| T_Other (tag : Z).

Record DefElem := {
  defname : string;
  arg : option Node
}.

Definition strVal (n : option Node) : string :=
  match n with
  | Some (T_String s) | Some (T_Float s) => s
  | _ => EmptyString
  end.

Fixpoint name_list_loop (cat : Catalog) (names : list NameNode) (first : bool)
    (acc : string) : Res string :=
  match names with
  | [] => Ok acc
  | name :: rest =>
      let acc := if first then acc else (acc ++ ", ")%string in
      match name with
      | NameString s => name_list_loop cat rest false (acc ++ quote_identifier cat s)%string
      | NameStar => name_list_loop cat rest false (acc ++ "*")%string
      | NameOther _ => Raise ErrUnexpectedNameNode
      end
  end.

Definition name_list_to_string (cat : Catalog) (names : list NameNode) : Res string :=
  name_list_loop cat names true EmptyString.

Definition def_get_string (cat : Catalog) (def : DefElem) : Res string :=
  match arg def with
  | None => Raise (ErrRequiresParameter (defname def))
  | Some (T_Integer i) => Ok (string_of_long cat i)
  | Some (T_Float s) => Ok s
  | Some (T_String s) => Ok s
  | Some (T_TypeName t) => Ok (TypeNameToString cat t)
  | Some (T_List names) => name_list_to_string cat names
  | Some T_A_Star => Ok "*"%string
  | Some (T_Other _) => Raise ErrUnrecognizedNodeType
  end.

(** [delim_string[0]]; an empty C string starts with its terminator. *)
Definition first_char (s : string) : ascii :=
  match s with
  | String c _ => c
  | EmptyString => zero
  end.

(** State of the loop of [validate_options]: the two out-parameters and the
    local flag. *)
Record OptionsState := {
  opt_delimiter : ascii;
  opt_null_string : string;
  delimiter_found : bool
}.

Definition validate_option (cat : Catalog) (st : OptionsState) (defel : DefElem)
    : Res OptionsState :=
  if String.eqb (defname defel) "format" then
    let fmt := strVal (arg defel) in
    if String.eqb fmt "binary" then Raise ErrBinaryNotSupported
    else if String.eqb fmt "csv" && negb (delimiter_found st) then
      Ok {| opt_delimiter := ","%char;
            opt_null_string := opt_null_string st;
            delimiter_found := delimiter_found st |}
    else Ok st
  else if String.eqb (defname defel) "delimiter" then
    res_bind (def_get_string cat defel) (fun delim_string =>
      Ok {| opt_delimiter := first_char delim_string;
            opt_null_string := opt_null_string st;
            delimiter_found := true |})
  else if String.eqb (defname defel) "null" then
    res_bind (def_get_string cat defel) (fun s =>
      Ok {| opt_delimiter := opt_delimiter st;
            opt_null_string := s;
            delimiter_found := delimiter_found st |})
  else Ok st.

Fixpoint validate_options_loop (cat : Catalog) (copy_options : list DefElem)
    (st : OptionsState) : Res OptionsState :=
  match copy_options with
  | [] => Ok st
  | defel :: rest =>
      res_bind (validate_option cat st defel) (validate_options_loop cat rest)
  end.

(** Returns the pair written through [delimiter] and [null_string]. *)
Definition validate_options (cat : Catalog) (copy_options : list DefElem)
    : Res (ascii * string) :=
  res_bind
    (validate_options_loop cat copy_options
       {| opt_delimiter := DEFAULT_PG_DELIMITER;
          opt_null_string := DEFAULT_PG_NULL_VALUE;
          delimiter_found := false |})
    (fun st => Ok (opt_delimiter st, opt_null_string st)).

(** [fields[i] ? fields[i] : null_string]; a slot outside the array reads
    as a null pointer here (the C code never looks there when [nfields]
    is at least one). *)
Definition field_or_null (fields : list (option string)) (null_string : string)
    (i : Z) : string :=
  match aref None fields i with
  | Some s => s
  | None => null_string
  end.

(** [0, 1, ..., n-1], the values taken by a C counter loop. *)
Definition upto (n : Z) : list Z := map Z.of_nat (seq 0 (Z.to_nat n)).

(** The encoding part of [parse_next_text_row], after
    [NextCopyFromRawFields] has stored the raw fields of the row. *)
Definition text_row_data (fields : list (option string)) (nfields : Z)
    (null_string : string) (delimiter : ascii) : StringInfo :=
  let row_data := makeStringInfo in
  let row_data :=
    fold_left (fun row_data i =>
                 appendStringInfo_sc row_data (field_or_null fields null_string i) delimiter)
              (upto (nfields - 1)) row_data in
  appendStringInfo_sc row_data (field_or_null fields null_string (nfields - 1)) "010"%char.

(** The layout in the words of the specification: the text of every
    field, or the null marker, joined by the delimiter and closed by a
    newline. *)
Definition field_text (null_string : string) (f : option string) : string :=
  match f with Some s => s | None => null_string end.

Definition text_row_spec (fields : list (option string)) (null_string : string)
    (delimiter : ascii) : string :=
  (String.concat (String delimiter EmptyString) (map (field_text null_string) fields)
   ++ String "010"%char EmptyString)%string.

(* ================================================================= *)
(** ** Partition dimensions and the point of a row *)

Inductive DimensionType :=
| DIMENSION_TYPE_OPEN
| DIMENSION_TYPE_CLOSED
| DIMENSION_TYPE_ANY.

Record Dimension := {
  dim_type : DimensionType;
  column_attno : AttrNumber;
  column_name : string;
  column_type : Oid;
  partitioning : option PartitioningInfo
}.

Record FormData_pg_attribute := {
  atttypid : Oid;
  att_typmod : Z
}.

Record Hyperspace := {
  dimensions : list Dimension
}.

Record Hypertable := {
  main_table_relid : Oid;
  rel_desc : list FormData_pg_attribute;
  space : Hyperspace
}.

Definition num_dimensions (hs : Hyperspace) : Z := Z.of_nat (length (dimensions hs)).

Record CopyDimensionInfo := {
  dim : Dimension;
  corresponding_copy_field : Z;
  default_value : Datum;
  io_func : FmgrInfo;
  typioparams : Oid;
  atttypmod : Z
}.

Definition Point := list Z.

(** The inner [foreach] of [generate_copy_dimensions]: the value of [i]
    when the loop is left. *)
Fixpoint attno_index (attnums : list AttrNumber) (attno : AttrNumber) (i : Z) : Z :=
  match attnums with
  | [] => i
  | a :: rest => if a =? attno then i else attno_index rest attno (i + 1)
  end.

Definition null_attribute : FormData_pg_attribute := {| atttypid := 0; att_typmod := 0 |}.

Definition generate_copy_dimension (cat : Catalog) (attnums : list AttrNumber)
    (ht : Hypertable) (d : Dimension) : Res CopyDimensionInfo :=
  let i := attno_index attnums (column_attno d) 0 in
  if i =? Z.of_nat (length attnums) then
    Raise (ErrDefaultForPartitioningColumn (column_name d))
  else
    let attribute :=
      aref null_attribute (rel_desc ht) (AttrNumberGetAttrOffset (column_attno d)) in
    let '(in_func_oid, ioparams) := getTypeInputInfo cat (atttypid attribute) in
    Ok {| dim := d;
          corresponding_copy_field := i;
          default_value := 0;
          io_func := in_func_oid;
          typioparams := ioparams;
          atttypmod := att_typmod attribute |}.

Definition generate_copy_dimensions (cat : Catalog) (dims : list Dimension)
    (attnums : list AttrNumber) (ht : Hypertable) : Res (list CopyDimensionInfo) :=
  res_mapM (generate_copy_dimension cat attnums ht) dims.

(** [fields[info->corresponding_copy_field]] is read without a look at the
    number of fields of the row: [fields] is the array of
    [NextCopyFromRawFields] as the last row left it, see
    [store_raw_fields]. *)
Definition get_copy_dimension_datum (cat : Catalog) (fields : list (option string))
    (info : CopyDimensionInfo) : Res Datum :=
  if negb (corresponding_copy_field info =? -1) then
    match aref None fields (corresponding_copy_field info) with
    | None =>
        match dim_type (dim info) with
        | DIMENSION_TYPE_OPEN => Raise (ErrNotNullViolation (column_name (dim info)))
        | _ => Ok 0
        end
    | Some field =>
        InputFunctionCall cat (io_func info) field (typioparams info) (atttypmod info)
    end
  else Ok (default_value info).

Definition InvalidOid : Oid := 0.

Definition convert_datum_to_dim_idx (cat : Catalog) (datum : Datum) (d : Dimension)
    : Res Z :=
  res_bind
    (match partitioning d with
     | Some p => ts_partitioning_func_apply cat p InvalidOid datum
     | None => Ok datum
     end)
    (fun datum =>
       match dim_type d with
       | DIMENSION_TYPE_OPEN =>
           let dimtype :=
             match partitioning d with
             | None => column_type d
             | Some p => rettype p
             end in
           ts_time_value_to_internal cat datum dimtype
       | DIMENSION_TYPE_CLOSED => Ok (int64 (DatumGetInt32 datum))
       | DIMENSION_TYPE_ANY => Raise ErrInvalidDimensionType
       end).

Definition calculate_hyperspace_point_from_fields (cat : Catalog)
    (data : list (option string)) (dims : list CopyDimensionInfo) : Res Point :=
  res_mapM (fun info =>
              res_bind (get_copy_dimension_datum cat data info) (fun datum =>
                convert_datum_to_dim_idx cat datum (dim info)))
           dims.

Definition calculate_hyperspace_point_from_binary (cat : Catalog) (values : list Datum)
    (nulls : list bool) (hs : Hyperspace) : Res Point :=
  res_mapM (fun d =>
              let datum := aref 0 values (column_attno d - 1) in
              if aref false nulls (column_attno d - 1) then
                Raise (ErrValueRequired (column_name d))
              else convert_datum_to_dim_idx cat datum d)
           (dimensions hs).

(* ================================================================= *)
(** ** Copy contexts and the two row readers *)

Record TextCopyContext := {
  ndimensions : Z;
  text_dimensions : list CopyDimensionInfo;
  text_out_functions : list FmgrInfo;
  delimiter : ascii;
  null_string : string;
  fields : list (option string);
  nfields : Z
}.

Record BinaryCopyContext := {
  bin_out_functions : list FmgrInfo;
  values : list Datum;
  nulls : list bool
}.

(** What the COPY source yields for one input row: the raw fields handed
    out by [NextCopyFromRawFields] and the converted columns handed out by
    [NextCopyFrom]. *)
Record InputRow := {
  raw_fields : list (option string);
  row_values : list Datum;
  row_nulls : list bool
}.

(** The array written through [functions]; the return value is its size. *)
Definition get_copy_conversion_functions (cat : Catalog) (tupDesc : list FormData_pg_attribute)
    (copy_attnums : list AttrNumber) (binary : bool) : list FmgrInfo :=
  fold_left (fun functions attnum =>
               let offset := AttrNumberGetAttrOffset attnum in
               let attr := aref null_attribute tupDesc offset in
               let out_func_oid :=
                 if binary then getTypeBinaryOutputInfo cat (atttypid attr)
                 else getTypeOutputInfo cat (atttypid attr) in
               <[Z.to_nat offset := out_func_oid]> functions)
            copy_attnums (replicate (length tupDesc) 0).

Definition generate_text_copy_context (cat : Catalog) (options : list DefElem)
    (ht : Hypertable) (attnums : list AttrNumber) : Res TextCopyContext :=
  let out_functions := get_copy_conversion_functions cat (rel_desc ht) attnums false in
  res_bind (validate_options cat options) (fun '(delim, null) =>
  res_bind (generate_copy_dimensions cat (dimensions (space ht)) attnums ht) (fun dims =>
    Ok {| ndimensions := num_dimensions (space ht);
          text_dimensions := dims;
          text_out_functions := out_functions;
          delimiter := delim;
          null_string := null;
          fields := [];
          nfields := 0 |})).

Definition generate_binary_copy_context (cat : Catalog) (ht : Hypertable)
    (attnums : list AttrNumber) : BinaryCopyContext :=
  let out_functions := get_copy_conversion_functions cat (rel_desc ht) attnums true in
  let columns := length (rel_desc ht) in
  {| bin_out_functions := out_functions;
     values := replicate columns 0;
     nulls := replicate columns false |}.

(** What [NextCopyFromRawFields] leaves in its array of field pointers:
    the array is its own and serves every row, so the fields of the row
    overwrite the first [nfields] slots and the slots after them keep what
    an earlier row left there.  [get_copy_dimension_datum] reads the array
    by index without looking at [nfields]; only the [Assert] of
    [parse_next_text_row] says that the row has a field for every copied
    column.  A slot that no row has written reads as a null pointer here. *)
Definition store_raw_fields (raw old : list (option string)) : list (option string) :=
  raw ++ skipn (length raw) old.

(** [next] is the next row of the source, [None] at its end; the result is
    [None] where the C function returns [NULL]. *)
Definition parse_next_text_row (next : option InputRow) (attnums : list AttrNumber)
    (ctx : TextCopyContext) : option (StringInfo * TextCopyContext) :=
  match next with
  | None => None
  | Some row =>
      let ctx := {| ndimensions := ndimensions ctx;
                    text_dimensions := text_dimensions ctx;
                    text_out_functions := text_out_functions ctx;
                    delimiter := delimiter ctx;
                    null_string := null_string ctx;
                    fields := store_raw_fields (raw_fields row) (fields ctx);
                    nfields := Z.of_nat (length (raw_fields row)) |} in
      Some (text_row_data (fields ctx) (nfields ctx) (null_string ctx) (delimiter ctx), ctx)
  end.

Definition parse_next_binary_row (cat : Catalog) (next : option InputRow)
    (attnums : list AttrNumber) (ctx : BinaryCopyContext)
    : option (StringInfo * BinaryCopyContext) :=
  match next with
  | None => None
  | Some row =>
      let ctx := {| bin_out_functions := bin_out_functions ctx;
                    values := row_values row;
                    nulls := row_nulls row |} in
      Some (generate_binary_copy_data cat (values ctx) (nulls ctx) attnums
              (bin_out_functions ctx), ctx)
  end.

Definition get_current_point_for_text_copy (cat : Catalog) (ctx : TextCopyContext)
    : Res Point :=
  calculate_hyperspace_point_from_fields cat (fields ctx) (text_dimensions ctx).

Definition get_current_point_for_binary_copy (cat : Catalog) (ctx : BinaryCopyContext)
    (hs : Hyperspace) : Res Point :=
  calculate_hyperspace_point_from_binary cat (values ctx) (nulls ctx) hs.

(** Classification of COPY options used to state what [validate_options]
    returns. *)
Definition is_format (d : DefElem) : bool := String.eqb (defname d) "format".
Definition is_csv_format (d : DefElem) : bool :=
  is_format d && String.eqb (strVal (arg d)) "csv".
Definition is_binary_format (d : DefElem) : bool :=
  is_format d && String.eqb (strVal (arg d)) "binary".
Definition is_delimiter (d : DefElem) : bool := String.eqb (defname d) "delimiter".
Definition is_null (d : DefElem) : bool := String.eqb (defname d) "null".

(* ================================================================= *)
(** ** Sample catalog and table

    A two-dimensional table: an open dimension on column 1 and a closed
    dimension on column 2 whose partitioning function adds 7. *)

Definition demo_catalog : Catalog :=
  {| getTypeInputInfo := fun t => (t, t);
     getTypeOutputInfo := fun t => t;
     getTypeBinaryOutputInfo := fun t => t;
     InputFunctionCall := fun _ s _ _ => Ok (Z.of_nat (String.length s));
     OutputFunctionCall := fun _ _ => EmptyString;
     SendFunctionCall := fun _ d => be_bytes 4 d;
     ts_partitioning_func_apply := fun _ _ d => Ok (d + 7);
     ts_time_value_to_internal := fun d _ => Ok d;
     quote_identifier := fun s => s;
     TypeNameToString := fun _ => EmptyString;
     string_of_long := fun _ => EmptyString |}.

Definition demo_time_dimension : Dimension :=
  {| dim_type := DIMENSION_TYPE_OPEN; column_attno := 1; column_name := "time";
     column_type := 1184; partitioning := None |}.

Definition demo_space_dimension : Dimension :=
  {| dim_type := DIMENSION_TYPE_CLOSED; column_attno := 2; column_name := "device";
     column_type := 23;
     partitioning := Some {| partfunc := 4001; rettype := 23 |} |}.

Definition demo_hypertable : Hypertable :=
  {| main_table_relid := 16384;
     rel_desc := [ {| atttypid := 1184; att_typmod := -1 |};
                   {| atttypid := 23; att_typmod := -1 |};
                   {| atttypid := 25; att_typmod := -1 |} ];
     space := {| dimensions := [demo_time_dimension; demo_space_dimension] |} |}.

Definition demo_csv_options : list DefElem :=
  [ {| defname := "format"; arg := Some (T_String "csv") |} ].

Definition demo_row : InputRow :=
  {| raw_fields := [Some "1"%string; None; Some "x"%string];
     row_values := [1; 0; 0];
     row_nulls := [false; true; false] |}.

(* ================================================================= *)
(** ** The batch of rows

    The three batch fields of [RemoteCopyContext].  The loop that fills a
    batch looks at a row only through its length, so the row type is left
    open; the list holds the slots [0, current_batch_rows) of the C
    array. *)

Record RowBatch (Row : Type) := {
  batch_rows : list Row;
  current_batch_rows : Z;
  current_batch_bytes : Z
}.
Arguments batch_rows {Row} _.
Arguments current_batch_rows {Row} _.
Arguments current_batch_bytes {Row} _.

Section BatchLoop.
Context {Row : Type}.
Variable row_len : Row -> Z.

Definition empty_batch : RowBatch Row :=
  {| batch_rows := []; current_batch_rows := 0; current_batch_bytes := 0 |}.

(** The bookkeeping at the end of [read_next_copy_row]. *)
Definition batch_add (b : RowBatch Row) (row_data : Row) : RowBatch Row :=
  {| batch_rows := batch_rows b ++ [row_data];
     current_batch_rows := current_batch_rows b + 1;
     current_batch_bytes := int32 (current_batch_bytes b + row_len row_data) |}.

(** The test that lets the loop of [remote_distributed_copy] go on
    reading, once a row was read. *)
Definition batch_has_room (b : RowBatch Row) : bool :=
  (current_batch_rows b <? MAX_BATCH_ROWS) && (current_batch_bytes b <? MAX_BATCH_BYTES).

(** The loop of [remote_distributed_copy] over a source that yields the
    rows [src]: the batches handed to [remote_copy_process_and_send_data],
    in order, and the final value of [processed]. *)
Fixpoint copy_batches (src : list Row) (b : RowBatch Row) (processed : Z)
    : list (RowBatch Row) * Z :=
  match src with
  | [] => ([b], uint64 (processed + current_batch_rows b))
  | row_data :: src' =>
      let b := batch_add b row_data in
      if batch_has_room b then copy_batches src' b processed
      else
        let '(sent, total) :=
          copy_batches src' empty_batch (uint64 (processed + current_batch_rows b)) in
        (b :: sent, total)
  end.

Definition batch_bytes (rows : list Row) : Z :=
  fold_right (fun r acc => row_len r + acc) 0 rows.

(** What holds of the batch whenever the loop is about to read a row. *)
Record filling (b : RowBatch Row) : Prop := {
  filling_rows : current_batch_rows b = Z.of_nat (length (batch_rows b));
  filling_bytes : current_batch_bytes b = batch_bytes (batch_rows b);
  filling_lens : Forall (fun r => 0 <= row_len r <= MaxAllocSize) (batch_rows b);
  filling_room : batch_has_room b = true
}.

(** What holds of a batch handed to the send phase. *)
Record handed (b : RowBatch Row) : Prop := {
  handed_rows : current_batch_rows b = Z.of_nat (length (batch_rows b));
  handed_max_rows : current_batch_rows b <= MAX_BATCH_ROWS;
  handed_bytes : current_batch_bytes b = batch_bytes (batch_rows b);
  handed_before_last : batch_bytes (removelast (batch_rows b)) < MAX_BATCH_BYTES
}.
End BatchLoop.

(* ================================================================= *)
(** ** Connections, chunks and the outside world *)

(** Modelled from the spec: the declaration of [TSConnectionStatus] is in
    [remote/connection.h]; the channel states are idle, uploading,
    processing and error.  The first three carry the names used by this
    file. *)
Inductive TSConnectionStatus :=
| CONN_IDLE
| CONN_PROCESSING
| CONN_COPY_IN
| CONN_ERROR.

Definition status_eqb (a b : TSConnectionStatus) : bool :=
  match a, b with
  | CONN_IDLE, CONN_IDLE | CONN_PROCESSING, CONN_PROCESSING
  | CONN_COPY_IN, CONN_COPY_IN | CONN_ERROR, CONN_ERROR => true
  | _, _ => false
  end.

(** A [TSConnection *]: connections are told apart by their address. *)
Definition TSConnection := Z.

Record TSConnectionId := {
  server_id : Oid;
  user_id : Oid
}.

Definition remote_connection_id (server_oid user_oid : Oid) : TSConnectionId :=
  {| server_id := server_oid; user_id := user_oid |}.

Record ConnData := {
  conn_status : TSConnectionStatus;
  conn_nonblocking : bool
}.

Record ChunkDataNode := {
  foreign_server_oid : Oid
}.

Record Chunk := {
  chunk_id : Z;
  data_nodes : list ChunkDataNode;
  is_compressed : bool;
  is_unordered : bool
}.

Record DataNodeConnection := {
  id : TSConnectionId;
  connection : TSConnection
}.

Record CopyConnectionState := {
  data_node_connections : list DataNodeConnection;
  connections_in_use : list TSConnection;
  using_binary : bool;
  outgoing_copy_cmd : string
}.

Definition PGRES_COMMAND_OK : Z := 1.
Definition PGRES_COPY_IN : Z := 4.
Definition WL_SOCKET_READABLE : Z := 2.
Definition WL_SOCKET_WRITEABLE : Z := 4.

(** Every call that leaves this file is recorded with what it returned.
    [EvFlushActiveConnections] marks an entry into
    [flush_active_connections], [EvProcessBatch] an entry into
    [remote_copy_process_and_send_data] with the size of the batch. *)
Inductive Event :=
| EvGetConnection (id : TSConnectionId) (conn : TSConnection)
| EvBeginCopy (conn : TSConnection) (cmd : string) (binary : bool) (ok : bool)
| EvPutCopyData (conn : TSConnection) (data : list byte) (res : Z)
| EvRemotePutCopyData (conn : TSConnection) (data : list byte) (ok : bool)
| EvEndCopy (conn : TSConnection) (ok : bool)
| EvGetResult (conn : TSConnection) (res : option Z)
| EvPutCopyEnd (conn : TSConnection) (res : Z)
| EvFlush (conn : TSConnection) (res : Z)
| EvConsumeInput (conn : TSConnection) (res : Z)
| EvIsBusy (conn : TSConnection) (res : Z)
| EvSetNonblocking (conn : TSConnection) (arg : Z) (res : Z)
| EvWait (set : list (TSConnection * Z))
| EvFindChunk (p : Point) (chunk : option Chunk)
| EvCreateChunk (p : Point) (chunk : Chunk)
| EvSetUnordered (chunk : Z)
| EvFlushActiveConnections
| EvProcessBatch (rows : Z) (bytes : Z).

(** What the outside answers to one call: a C integer, or a chunk. *)
Inductive Answer :=
| AInt (z : Z)
| AChunk (c : Chunk).

(** The mutable state a copy runs in: the connection objects, the
    [CopyConnectionState] embedded in the copy context (kept here because
    the error handlers read it as the failed code left it), the current
    user, the answers the outside will give, in call order, and the calls
    made so far.  When the answers run out every call takes its untroubled
    default. *)
Record World := {
  conns : TSConnection -> ConnData;
  connection_state : CopyConnectionState;
  current_user : Oid;
  answers : list Answer;
  trace : list Event
}.

Definition with_conns (w : World) (c : TSConnection -> ConnData) : World :=
  {| conns := c; connection_state := connection_state w;
     current_user := current_user w; answers := answers w; trace := trace w |}.

Definition with_state (w : World) (s : CopyConnectionState) : World :=
  {| conns := conns w; connection_state := s;
     current_user := current_user w; answers := answers w; trace := trace w |}.

Definition with_answers (w : World) (a : list Answer) : World :=
  {| conns := conns w; connection_state := connection_state w;
     current_user := current_user w; answers := a; trace := trace w |}.

Definition with_trace (w : World) (t : list Event) : World :=
  {| conns := conns w; connection_state := connection_state w;
     current_user := current_user w; answers := answers w; trace := t |}.

Definition M (A : Type) : Type := World -> Res A * World.

Definition ret {A} (a : A) : M A := fun w => (Ok a, w).

Definition raise {A} (e : Error) : M A := fun w => (Raise e, w).

Definition bind {A B} (m : M A) (k : A -> M B) : M B :=
  fun w =>
    match m w with
    | (Ok a, w') => k a w'
    | (Raise e, w') => (Raise e, w')
    end.

Declare Scope copy_scope.
Delimit Scope copy_scope with copy.
Notation "'let*' x ':=' m 'in' k" := (bind m (fun x => k))
  (at level 10, x pattern, m at level 100, k at level 200) : copy_scope.
Notation "m '>>' k" := (bind m (fun _ => k))
  (at level 100, k at level 200, right associativity) : copy_scope.
Local Open Scope copy_scope.

Definition lift {A} (r : Res A) : M A := fun w => (r, w).

(** [PG_TRY(); body PG_CATCH(); handler; PG_RE_THROW(); PG_END_TRY();] *)
Definition try_catch {A} (body : M A) (handler : M unit) : M A :=
  fun w =>
    match body w with
    | (Ok a, w') => (Ok a, w')
    | (Raise e, w') =>
        match handler w' with
        | (Ok _, w'') => (Raise e, w'')
        | (Raise e', w'') => (Raise e', w'')
        end
    end.

Fixpoint foldM {A B} (f : B -> A -> M B) (l : list A) (b : B) : M B :=
  match l with
  | [] => ret b
  | x :: l' => let* b' := f b x in foldM f l' b'
  end.

Fixpoint mapM {A B} (f : A -> M B) (l : list A) : M (list B) :=
  match l with
  | [] => ret []
  | x :: l' => let* y := f x in let* ys := mapM f l' in ret (y :: ys)
  end.

Definition forM {A} (f : A -> M unit) (l : list A) : M unit :=
  foldM (fun _ x => f x) l tt.

(** The world once the event [e] is recorded, and once the next answer is
    used up. *)
Definition log (w : World) (e : Event) : World := with_trace w (trace w ++ [e]).
Definition pop (w : World) : World := with_answers w (tail (answers w)).

Definition emit (e : Event) : M unit := fun w => (Ok tt, log w e).

Definition next_answer : M (option Answer) := fun w => (Ok (head (answers w)), pop w).

(** The next answer read as a C integer, [dflt] when there is none. *)
Definition int_answer (dflt : Z) (a : list Answer) : Z :=
  match head a with
  | Some (AInt z) => z
  | _ => dflt
  end.

Definition next_int (dflt : Z) : M Z :=
  let* a := next_answer in
  ret (match a with Some (AInt z) => z | _ => dflt end).

Definition set_conn (conn : TSConnection) (d : ConnData) : M unit :=
  fun w => (Ok tt, with_conns w (<[conn := d]> (conns w))).

Definition get_conn (conn : TSConnection) : M ConnData :=
  fun w => (Ok (conns w conn), w).

Definition get_state : M CopyConnectionState :=
  fun w => (Ok (connection_state w), w).

Definition put_state (s : CopyConnectionState) : M unit :=
  fun w => (Ok tt, with_state w s).

Definition GetUserId : M Oid := fun w => (Ok (current_user w), w).

Definition pending_answers : M nat := fun w => (Ok (length (answers w)), w).

(** *** The transport

    Modelled from the spec: the connection layer and libpq are consumed as
    put bytes, get result, flush, consume, set blocking mode and begin or
    end upload; a successful begin takes an idle channel to uploading (and
    to non-blocking mode, which [flush_active_connections] asserts), a
    successful end takes it back to idle. *)

Definition remote_connection_get_status (conn : TSConnection) : M TSConnectionStatus :=
  let* d := get_conn conn in ret (conn_status d).

Definition remote_connection_set_status (conn : TSConnection) (s : TSConnectionStatus)
    : M unit :=
  let* d := get_conn conn in
  set_conn conn {| conn_status := s; conn_nonblocking := conn_nonblocking d |}.

Definition remote_dist_txn_get_connection (id : TSConnectionId) : M TSConnection :=
  let* z := next_int 0 in
  if z <? 0 then raise (ErrCallee z)
  else emit (EvGetConnection id z) >> ret z.

Definition remote_connection_begin_copy (conn : TSConnection) (copycmd : string)
    (binary : bool) : M bool :=
  let* z := next_int 1 in
  let ok := negb (z =? 0) in
  emit (EvBeginCopy conn copycmd binary ok) >>
  (if ok then set_conn conn {| conn_status := CONN_COPY_IN; conn_nonblocking := true |}
   else ret tt) >>
  ret ok.

Definition remote_connection_put_copy_data (conn : TSConnection) (data : list byte)
    : M bool :=
  let* z := next_int 1 in
  let ok := negb (z =? 0) in
  emit (EvRemotePutCopyData conn data ok) >> ret ok.

Definition remote_connection_end_copy (conn : TSConnection) : M bool :=
  let* z := next_int 1 in
  let ok := negb (z =? 0) in
  emit (EvEndCopy conn ok) >>
  (if ok then set_conn conn {| conn_status := CONN_IDLE; conn_nonblocking := false |}
   else ret tt) >>
  ret ok.

Definition PQgetResult (conn : TSConnection) : M (option Z) :=
  let* z := next_int (-1) in
  let res := if z <? 0 then None else Some z in
  emit (EvGetResult conn res) >> ret res.

Definition PQputCopyEnd (conn : TSConnection) : M Z :=
  let* z := next_int 1 in emit (EvPutCopyEnd conn z) >> ret z.

Definition PQputCopyData (conn : TSConnection) (data : list byte) : M Z :=
  let* z := next_int 1 in emit (EvPutCopyData conn data z) >> ret z.

Definition PQflush (conn : TSConnection) : M Z :=
  let* z := next_int 0 in emit (EvFlush conn z) >> ret z.

Definition PQconsumeInput (conn : TSConnection) : M Z :=
  let* z := next_int 1 in emit (EvConsumeInput conn z) >> ret z.

Definition PQisBusy (conn : TSConnection) : M Z :=
  let* z := next_int 0 in emit (EvIsBusy conn z) >> ret z.

Definition PQsetnonblocking (conn : TSConnection) (arg : Z) : M Z :=
  let* z := next_int 0 in
  emit (EvSetNonblocking conn arg z) >>
  (if z =? 0 then
     let* d := get_conn conn in
     set_conn conn {| conn_status := conn_status d; conn_nonblocking := negb (arg =? 0) |}
   else ret tt) >>
  ret z.

Definition CHECK_FOR_INTERRUPTS : M unit :=
  let* z := next_int 0 in
  if z =? 0 then ret tt else raise ErrInterrupt.

(** *** The chunk directory

    Modelled from the spec: a lookup by point that finds the owning chunk or
    none, and a creation that returns the new chunk, each chunk with the
    data nodes that hold it. *)

Definition ts_hypertable_find_chunk_for_point (point : Point) : M (option Chunk) :=
  let* a := next_answer in
  let chunk := match a with Some (AChunk c) => Some c | _ => None end in
  emit (EvFindChunk point chunk) >> ret chunk.

Definition ts_hypertable_create_chunk_for_point (point : Point) : M Chunk :=
  let* a := next_answer in
  match a with
  | Some (AChunk c) => emit (EvCreateChunk point c) >> ret c
  | Some (AInt z) => raise (ErrCallee z)
  | None => raise (ErrCallee 0)
  end.

Definition ts_chunk_set_unordered (chunk : Chunk) : M unit :=
  emit (EvSetUnordered (chunk_id chunk)).

(* ================================================================= *)
(** ** The connection cache of a copy *)

Definition list_member (l : list TSConnection) (conn : TSConnection) : bool :=
  existsb (Z.eqb conn) l.

(** [lappend(state->connections_in_use, connection)] behind its
    [list_member] guard. *)
Definition add_connection_in_use (conn : TSConnection) : M unit :=
  let* state := get_state in
  if list_member (connections_in_use state) conn then ret tt
  else put_state {| data_node_connections := data_node_connections state;
                    connections_in_use := connections_in_use state ++ [conn];
                    using_binary := using_binary state;
                    outgoing_copy_cmd := outgoing_copy_cmd state |}.

Definition cache_connection (entry : DataNodeConnection) : M unit :=
  let* state := get_state in
  put_state {| data_node_connections := data_node_connections state ++ [entry];
               connections_in_use := connections_in_use state;
               using_binary := using_binary state;
               outgoing_copy_cmd := outgoing_copy_cmd state |}.

(** The cache scan of [create_connection_list_for_chunk]: both parts of the
    identity are compared. *)
Definition find_cached_connection (required_id : TSConnectionId)
    (cache : list DataNodeConnection) : option TSConnection :=
  option_map connection
    (List.find (fun entry => (server_id required_id =? server_id (id entry))
                             && (user_id required_id =? user_id (id entry))) cache).

(** One turn of the [foreach] of [create_connection_list_for_chunk], first
    half: the cached connection of the identity, or a new one that is
    cached. *)
Definition cached_connection (required_id : TSConnectionId) : M TSConnection :=
  let* state := get_state in
  match find_cached_connection required_id (data_node_connections state) with
  | Some connection => ret connection
  | None =>
      let* connection := remote_dist_txn_get_connection required_id in
      cache_connection {| id := required_id; connection := connection |} >>
      ret connection
  end.

(** Second half: the status checks. *)
Definition begin_copy_unless_processing (required_id : TSConnectionId)
    (connection : TSConnection) : M unit :=
  let* state := get_state in
  let* status := remote_connection_get_status connection in
  if status_eqb status CONN_PROCESSING then
    raise (ErrWrongStatusProcessing (server_id required_id))
  else
    let* status := remote_connection_get_status connection in
    if status_eqb status CONN_IDLE then
      let* ok := remote_connection_begin_copy connection (outgoing_copy_cmd state)
                   (using_binary state) in
      if negb ok then raise ErrBeginCopy
      else add_connection_in_use connection
    else ret tt.

Definition connection_for_data_node (userid : Oid) (result : list TSConnection)
    (cdn : ChunkDataNode) : M (list TSConnection) :=
  let required_id := remote_connection_id (foreign_server_oid cdn) userid in
  let* connection := cached_connection required_id in
  let result := result ++ [connection] in
  begin_copy_unless_processing required_id connection >>
  ret result.

Definition create_connection_list_for_chunk (chunk_data_nodes : list ChunkDataNode)
    (userid : Oid) : M (list TSConnection) :=
  foldM (connection_for_data_node userid) chunk_data_nodes [].

(* ================================================================= *)
(** ** Flushing the active connections *)

(** First loop: end the COPY on every connection that is in COPY_IN. *)
Definition flush_end_copy (to_end_copy : list TSConnection) (conn : TSConnection)
    : M (list TSConnection) :=
  let* status := remote_connection_get_status conn in
  if negb (status_eqb status CONN_COPY_IN) then ret to_end_copy
  else
    let* res := PQgetResult conn in
    match res with
    | Some st =>
        if st =? PGRES_COPY_IN then
          let to_end_copy := to_end_copy ++ [conn] in
          let* r := PQputCopyEnd conn in
          if negb (r =? 1) then raise ErrCouldNotEndCopy
          else remote_connection_set_status conn CONN_PROCESSING >> ret to_end_copy
        else raise ErrNoCopyInProgress
    | None => raise ErrNoCopyInProgress
    end.

(** One connection in one round of the flush loop; the accumulator is
    [to_flush_next] with the parallel list [wait_events]. *)
Definition flush_connection (acc : list TSConnection * list Z) (conn : TSConnection)
    : M (list TSConnection * list Z) :=
  let '(to_flush_next, wait_events) := acc in
  let* res := PQflush conn in
  if res =? -1 then raise ErrCouldNotFlush
  else if res =? 0 then
    let* res := PQconsumeInput conn in
    if res =? 0 then raise ErrConsumeInput
    else
      let* busy := PQisBusy conn in
      if negb (busy =? 0) then
        ret (to_flush_next ++ [conn], wait_events ++ [WL_SOCKET_READABLE])
      else ret acc
  else ret (to_flush_next ++ [conn], wait_events ++ [WL_SOCKET_WRITEABLE]).

(** The [for (;;)] loop.  A round that leaves a connection busy has used up
    at least one answer of the outside, so the number of pending answers
    bounds the rounds; [fuel] counts them and [None] tells that it ran
    out. *)
Fixpoint flush_loop (fuel : nat) (to_flush : list TSConnection) : M (option unit) :=
  match fuel with
  | O => ret None
  | S fuel =>
      CHECK_FOR_INTERRUPTS >>
      let* (to_flush_next, wait_events) := foldM flush_connection to_flush ([], []) in
      if Z.of_nat (length to_flush_next) =? 0 then ret (Some tt)
      else
        emit (EvWait (combine to_flush_next wait_events)) >>
        flush_loop fuel to_flush_next
  end.

(** Third loop: back to idle and to blocking mode. *)
Definition flush_cleanup (conn : TSConnection) : M unit :=
  remote_connection_set_status conn CONN_IDLE >>
  let* r := PQsetnonblocking conn 0 in
  if negb (r =? 0) then raise ErrSetBlocking else ret tt.

(** Fourth loop: the result of the ended COPY. *)
Definition flush_verify (conn : TSConnection) : M unit :=
  let* res := PQgetResult conn in
  match res with
  | None => raise ErrNullResult
  | Some st =>
      if negb (st =? PGRES_COMMAND_OK) then raise (ErrResultError st)
      else
        let* res := PQgetResult conn in
        match res with
        | Some st' => raise (ErrNonNullResult st')
        | None => ret tt
        end
  end.

(** The first two loops: the connections whose COPY was ended, once all of
    them are flushed and have answered; [None] when the loop bound was
    reached, which [flush_drain_returns] excludes. *)
Definition flush_drain : M (option (list TSConnection)) :=
  let* state := get_state in
  let* to_end_copy := foldM flush_end_copy (connections_in_use state) [] in
  let* fuel := pending_answers in
  let* done := flush_loop (S fuel) to_end_copy in
  ret (option_map (fun _ => to_end_copy) done).

Definition flush_active_connections : M unit :=
  emit EvFlushActiveConnections >>
  let* drained := flush_drain in
  match drained with
  | None => raise (ErrCallee 0)
  | Some to_end_copy =>
      forM flush_cleanup to_end_copy >>
      forM flush_verify to_end_copy
  end.

Definition end_copy_on_data_node (failure : bool) (conn : TSConnection) : M bool :=
  let* status := remote_connection_get_status conn in
  if status_eqb status CONN_COPY_IN then
    let* ok := remote_connection_end_copy conn in
    ret (if negb ok then true else failure)
  else ret failure.

Definition end_copy_on_data_nodes : M unit :=
  let* state := get_state in
  let* failure := foldM end_copy_on_data_node (connections_in_use state) false in
  if failure then raise ErrEndCopy else ret tt.

Definition remote_copy_end : M unit :=
  flush_active_connections >> end_copy_on_data_nodes.

(* ================================================================= *)
(** ** The copy context *)

Inductive DataContext :=
| TextContext (ctx : TextCopyContext)
| BinaryContext (ctx : BinaryCopyContext).

(** The fields of [RemoteCopyContext] but [connection_state], which is
    part of the [World]; [binary_operation] is the tag of
    [data_context]. *)
Record RemoteCopyContext := {
  ht : Hypertable;
  attnums : list AttrNumber;
  data_context : DataContext;
  batch : RowBatch StringInfo;
  batch_points : list Point
}.

Definition binary_operation (context : RemoteCopyContext) : bool :=
  match data_context context with
  | BinaryContext _ => true
  | TextContext _ => false
  end.

Record CopyStmt := {
  attlist : list string;
  options : list DefElem
}.

Definition is_supported_binary_option (option : string) : bool :=
  String.eqb option "oids" || String.eqb option "freeze" || String.eqb option "encoding".

Fixpoint deparse_attlist (cat : Catalog) (attlist : list string) (first : bool)
    (command : string) : string :=
  match attlist with
  | [] => command
  | name :: rest =>
      let command := if first then command else (command ++ ", ")%string in
      deparse_attlist cat rest false (command ++ quote_identifier cat name)%string
  end.

Definition deparse_option (cat : Catalog) (binary : bool) (acc : bool * string)
    (defel : DefElem) : Res (bool * string) :=
  let '(first, command) := acc in
  let option := defname defel in
  if binary && negb (is_supported_binary_option option) then Ok acc
  else
    let command := if first then command else (command ++ ", ")%string in
    if String.eqb option "delimiter" || String.eqb option "null"
       || String.eqb option "quote" || String.eqb option "escape"
       || String.eqb option "encoding" then
      res_bind (def_get_string cat defel) (fun s =>
        Ok (false, (command ++ option ++ " '" ++ s ++ "'")%string))
    else if String.eqb option "force_not_null" || String.eqb option "force_null" then
      res_bind (def_get_string cat defel) (fun s =>
        Ok (false, (command ++ option ++ " (" ++ s ++ ")")%string))
    else if match arg defel with None => true | Some _ => false end
            && (String.eqb option "oids" || String.eqb option "freeze"
                || String.eqb option "header") then
      Ok (false, (command ++ option)%string)
    else
      res_bind (def_get_string cat defel) (fun s =>
        Ok (false, (command ++ option ++ " " ++ s)%string)).

Fixpoint deparse_options (cat : Catalog) (binary : bool) (opts : list DefElem)
    (acc : bool * string) : Res (bool * string) :=
  match opts with
  | [] => Ok acc
  | defel :: rest =>
      res_bind (deparse_option cat binary acc defel) (deparse_options cat binary rest)
  end.

(** [quote_qualified_identifier] is rendered with [quote_identifier] and a
    dot. *)
Definition deparse_copy_cmd (cat : Catalog) (stmt : CopyStmt) (schema_name table_name : string)
    (binary : bool) : Res string :=
  let command :=
    ("COPY " ++ quote_identifier cat schema_name ++ "." ++ quote_identifier cat table_name
     ++ " ")%string in
  let command :=
    match attlist stmt with
    | [] => command
    | _ => (deparse_attlist cat (attlist stmt) true (command ++ "(") ++ ") ")%string
    end in
  let command := (command ++ "FROM STDIN")%string in
  if match options stmt with [] => false | _ => true end || binary then
    res_bind (deparse_options cat binary (options stmt) (true, (command ++ " WITH (")%string))
      (fun '(first, command) =>
         let command :=
           if binary then
             (command ++ (if first then EmptyString else ", ") ++ "FORMAT binary")%string
           else command in
         Ok (command ++ ")")%string)
  else Ok command.

(** The context and the initial [connection_state]. *)
Definition remote_copy_begin (cat : Catalog) (stmt : CopyStmt) (table : Hypertable)
    (schema_name table_name : string) (attnums : list AttrNumber) (binary_copy : bool)
    : Res (RemoteCopyContext * CopyConnectionState) :=
  res_bind (deparse_copy_cmd cat stmt schema_name table_name binary_copy) (fun cmd =>
  let state := {| data_node_connections := [];
                  connections_in_use := [];
                  using_binary := binary_copy;
                  outgoing_copy_cmd := cmd |} in
  res_bind
    (if binary_copy then Ok (BinaryContext (generate_binary_copy_context cat table attnums))
     else res_bind (generate_text_copy_context cat (options stmt) table attnums)
            (fun ctx => Ok (TextContext ctx)))
    (fun data =>
       Ok ({| ht := table; attnums := attnums; data_context := data;
              batch := empty_batch; batch_points := [] |}, state))).

(** [next] is the next row of the source, [None] at its end; the result is
    [None] where the C function returns [false]. *)
Definition read_next_copy_row (cat : Catalog) (context : RemoteCopyContext)
    (next : option InputRow) : Res (option RemoteCopyContext) :=
  let parsed :=
    match data_context context with
    | BinaryContext ctx =>
        option_map (fun '(row_data, ctx) => (row_data, BinaryContext ctx))
                   (parse_next_binary_row cat next (attnums context) ctx)
    | TextContext ctx =>
        option_map (fun '(row_data, ctx) => (row_data, TextContext ctx))
                   (parse_next_text_row next (attnums context) ctx)
    end in
  match parsed with
  | None => Ok None
  | Some (row_data, data) =>
      res_bind
        (match data with
         | BinaryContext ctx =>
             get_current_point_for_binary_copy cat ctx (space (ht context))
         | TextContext ctx => get_current_point_for_text_copy cat ctx
         end)
        (fun point =>
           Ok (Some {| ht := ht context; attnums := attnums context;
                       data_context := data;
                       batch := batch_add len (batch context) row_data;
                       batch_points := batch_points context ++ [point] |}))
  end.

(* ================================================================= *)
(** ** One batch: routing, connections, sending *)

Record DataNodeRows := {
  server_oid : Oid;
  dn_connection : TSConnection;
  rows_total : Z;
  row_indices : list Z
}.

Definition add_row_index (dn : DataNodeRows) (row_in_batch : Z) : DataNodeRows :=
  {| server_oid := server_oid dn; dn_connection := dn_connection dn;
     rows_total := rows_total dn + 1;
     row_indices := row_indices dn ++ [row_in_batch] |}.

(** The scan for the insert state of a data node, the creation of a
    missing one at the end of the list, and the recording of the row. *)
Fixpoint schedule_row (row_in_batch : Z) (nodes : list DataNodeRows)
    (chunk_data_node : ChunkDataNode) : list DataNodeRows :=
  match nodes with
  | [] =>
      [add_row_index {| server_oid := foreign_server_oid chunk_data_node;
                        dn_connection := 0; rows_total := 0; row_indices := [] |}
                     row_in_batch]
  | data_node_rows :: rest =>
      if foreign_server_oid chunk_data_node =? server_oid data_node_rows then
        add_row_index data_node_rows row_in_batch :: rest
      else data_node_rows :: schedule_row row_in_batch rest chunk_data_node
  end.

(** One turn of the first loop; the accumulator is [did_flush] with the
    list [data_nodes]. *)
Definition route_row (context : RemoteCopyContext) (acc : bool * list DataNodeRows)
    (row_in_batch : Z) : M (bool * list DataNodeRows) :=
  let '(did_flush, nodes) := acc in
  let point := aref [] (batch_points context) row_in_batch in
  let* found := ts_hypertable_find_chunk_for_point point in
  let* (did_flush, chunk) :=
    match found with
    | Some chunk => ret (did_flush, chunk)
    | None =>
        (if negb did_flush then flush_active_connections else ret tt) >>
        let* chunk := ts_hypertable_create_chunk_for_point point in
        ret (true, chunk)
    end in
  (if is_compressed chunk && negb (is_unordered chunk)
   then ts_chunk_set_unordered chunk else ret tt) >>
  ret (did_flush, fold_left (schedule_row row_in_batch) (data_nodes chunk) nodes).

(** The cache scan of the batch pass: only the server is compared. *)
Definition find_server_connection (server : Oid) (cache : list DataNodeConnection)
    : option TSConnection :=
  option_map connection (List.find (fun entry => server =? server_id (id entry)) cache).

(** Second loop, first half: the cached connection of the data node, or a
    new one that is cached. *)
Definition data_node_connection (server : Oid) : M TSConnection :=
  let* state := get_state in
  match find_server_connection server (data_node_connections state) with
  | Some conn => ret conn
  | None =>
      let* userid := GetUserId in
      let required_id := remote_connection_id server userid in
      let* conn := remote_dist_txn_get_connection required_id in
      cache_connection {| id := required_id; connection := conn |} >>
      ret conn
  end.

(** Second loop, second half: begin COPY on the connection if needed. *)
Definition begin_copy_if_needed (server : Oid) (conn : TSConnection) : M unit :=
  let* state := get_state in
  let* status := remote_connection_get_status conn in
  if status_eqb status CONN_IDLE then
    let* ok := remote_connection_begin_copy conn (outgoing_copy_cmd state)
                 (using_binary state) in
    if negb ok then raise ErrBeginCopy
    else add_connection_in_use conn
  else if status_eqb status CONN_COPY_IN then ret tt
  else raise (ErrWrongStatus server).

(** One turn of the second loop: the data node with its connection. *)
Definition open_data_node_connection (data_node : DataNodeRows) : M DataNodeRows :=
  let* conn := data_node_connection (server_oid data_node) in
  begin_copy_if_needed (server_oid data_node) conn >>
  ret {| server_oid := server_oid data_node; dn_connection := conn;
         rows_total := rows_total data_node;
         row_indices := row_indices data_node |}.

(** The buffer [copy_data] built for one data node. *)
Definition node_copy_data (context : RemoteCopyContext) (dn : DataNodeRows) : StringInfo :=
  fold_left (fun copy_data row =>
               let row_data :=
                 aref [] (batch_rows (batch context)) (aref 0 (row_indices dn) row) in
               appendBinaryStringInfo copy_data row_data)
            (upto (rows_total dn)) [].

(** One turn of the third loop. *)
Definition send_data_node (context : RemoteCopyContext) (dn : DataNodeRows) : M unit :=
  let copy_data := node_copy_data context dn in
  let* res := PQputCopyData (dn_connection dn) copy_data in
  if res =? -1 then raise ErrCouldNotSendCopyData else ret tt.

Definition route_rows (context : RemoteCopyContext) : M (list DataNodeRows) :=
  let n := current_batch_rows (batch context) in
  let* (_, nodes) := foldM (route_row context) (upto n) (false, []) in
  ret nodes.

(** The second and the third loop. *)
Definition open_and_send (context : RemoteCopyContext) (nodes : list DataNodeRows)
    : M unit :=
  let* nodes := mapM open_data_node_connection nodes in
  forM (send_data_node context) nodes.

Definition remote_copy_process_and_send_data (context : RemoteCopyContext) : M unit :=
  emit (EvProcessBatch (current_batch_rows (batch context))
                       (current_batch_bytes (batch context))) >>
  let* nodes := route_rows context in
  open_and_send context nodes.

(* ================================================================= *)
(** ** The load *)

Definition reset_batch (context : RemoteCopyContext) : RemoteCopyContext :=
  {| ht := ht context; attnums := attnums context; data_context := data_context context;
     batch := empty_batch; batch_points := [] |}.

(** The end of the loop body, from [remote_copy_process_and_send_data]
    on. *)
Definition send_batch (context : RemoteCopyContext) (processed : Z) : M Z :=
  remote_copy_process_and_send_data context >>
  ret (uint64 (processed + current_batch_rows (batch context))).

(** The [while (true)] loop of [remote_distributed_copy] over the rows
    [src] that the source still holds; [eof] is the case where
    [read_next_copy_row] returned [false]. *)
Fixpoint copy_loop (cat : Catalog) (src : list InputRow) (context : RemoteCopyContext)
    (processed : Z) : M Z :=
  CHECK_FOR_INTERRUPTS >>
  let* read := lift (read_next_copy_row cat context (head src)) in
  match read, src with
  | Some context, _ :: src' =>
      if batch_has_room (batch context) then copy_loop cat src' context processed
      else
        let* processed := send_batch context processed in
        copy_loop cat src' (reset_batch context) processed
  | Some context, [] => send_batch context processed
  | None, _ => send_batch context processed
  end.

Definition remote_distributed_copy (cat : Catalog) (stmt : CopyStmt) (table : Hypertable)
    (schema_name table_name : string) (attnums : list AttrNumber) (binary : bool)
    (src : list InputRow) : M Z :=
  let* (context, state) :=
    lift (remote_copy_begin cat stmt table schema_name table_name attnums binary) in
  put_state state >>
  let* processed := try_catch (copy_loop cat src context 0) remote_copy_end in
  remote_copy_end >>
  ret processed.

(* ================================================================= *)
(** ** Sending one slot *)

Record TupleTableSlot := {
  tts_values : list Datum;
  tts_isnull : list bool
}.

Record ChunkInsertState := {
  cis_chunk_id : Z;
  chunk_data_nodes : list ChunkDataNode;
  cis_user_id : Oid
}.

Definition send_copy_data (row_data : StringInfo) (connections : list TSConnection)
    : M bool :=
  forM (fun conn =>
          let* ok := remote_connection_put_copy_data conn row_data in
          if negb ok then raise ErrPutCopyData else ret tt) connections >>
  ret true.

(** The text branch of [remote_copy_send_slot]: one attribute. *)
Definition slot_text_step (cat : Catalog) (textctx : TextCopyContext) (slot : TupleTableSlot)
    (last : nat) (acc : nat * StringInfo) (attnum : AttrNumber) : nat * StringInfo :=
  let '(pos, row_data) := acc in
  let delim := if Nat.eqb pos last then "010"%char else delimiter textctx in
  let off := AttrNumberGetAttrOffset attnum in
  let text :=
    if aref false (tts_isnull slot) off then null_string textctx
    else OutputFunctionCall cat (aref 0 (text_out_functions textctx) off)
                            (aref 0 (tts_values slot) off) in
  (S pos, appendStringInfo_sc row_data text delim).

Definition slot_row_data (cat : Catalog) (context : RemoteCopyContext) (slot : TupleTableSlot)
    : StringInfo :=
  match data_context context with
  | BinaryContext binctx =>
      let cleared :=
        fold_left (fun nulls i => <[Z.to_nat i := false]> nulls)
                  (upto (Z.of_nat (length (attnums context)))) (nulls binctx) in
      let '(vals, nls) :=
        fold_left (fun '(vals, nls) attnum =>
                     let i := AttrNumberGetAttrOffset attnum in
                     (<[Z.to_nat i := aref 0 (tts_values slot) i]> vals,
                      <[Z.to_nat i := aref false (tts_isnull slot) i]> nls))
                  (attnums context) (values binctx, cleared) in
      generate_binary_copy_data cat vals nls (attnums context) (bin_out_functions binctx)
  | TextContext textctx =>
      snd (fold_left (slot_text_step cat textctx slot (pred (length (attnums context))))
                     (attnums context) (O, makeStringInfo))
  end.

Definition remote_copy_send_slot (cat : Catalog) (context : RemoteCopyContext)
    (slot : TupleTableSlot) (cis : ChunkInsertState) : M bool :=
  let row_data := slot_row_data cat context slot in
  try_catch
    (let* connections :=
       create_connection_list_for_chunk (chunk_data_nodes cis) (cis_user_id cis) in
     send_copy_data row_data connections)
    remote_copy_end.

(* ================================================================= *)
(** ** Classes of events and outcomes, used to state the properties *)

(** The calls made by the loops of [flush_active_connections]. *)
Definition is_flush_io (e : Event) : bool :=
  match e with
  | EvGetResult _ _ | EvPutCopyEnd _ _ | EvFlush _ _ | EvConsumeInput _ _
  | EvIsBusy _ _ | EvSetNonblocking _ _ _ | EvWait _ => true
  | _ => false
  end.

Definition is_flush_marker (e : Event) : bool :=
  match e with
  | EvFlushActiveConnections => true
  | _ => false
  end.

Definition is_create_chunk (e : Event) : bool :=
  match e with
  | EvCreateChunk _ _ => true
  | _ => false
  end.

Definition is_put_copy_data (e : Event) : bool :=
  match e with
  | EvPutCopyData _ _ _ => true
  | _ => false
  end.

(** The errors raised by the first three loops of
    [flush_active_connections]. *)
Definition is_flush_error (e : Error) : bool :=
  match e with
  | ErrNoCopyInProgress | ErrCouldNotEndCopy | ErrCouldNotFlush | ErrConsumeInput
  | ErrInterrupt | ErrSetBlocking => true
  | _ => false
  end.

(** The errors raised by the fourth loop of [flush_active_connections]. *)
Definition is_verify_error (e : Error) : bool :=
  match e with
  | ErrNullResult | ErrResultError _ | ErrNonNullResult _ => true
  | _ => false
  end.

(** What the fourth loop sees on a connection whose COPY ended well: a
    command acknowledgement, then no further result. *)
Definition verified (conn : TSConnection) : list Event :=
  [EvGetResult conn (Some PGRES_COMMAND_OK); EvGetResult conn None].

(** The three other things it can see, and the error of each. *)
Inductive verify_failure (conn : TSConnection) : list Event -> Error -> Prop :=
| missing_result :
    verify_failure conn [EvGetResult conn None] ErrNullResult
| error_result st :
    st <> PGRES_COMMAND_OK ->
    verify_failure conn [EvGetResult conn (Some st)] (ErrResultError st)
| extra_result st :
    verify_failure conn
      [EvGetResult conn (Some PGRES_COMMAND_OK); EvGetResult conn (Some st)]
      (ErrNonNullResult st).

(** Outcome of the fourth loop over [ended]: the calls it made and what it
    returned. *)
Definition verify_outcome (ended : list TSConnection) (evs : list Event) (r : Res unit)
    : Prop :=
  match r with
  | Ok _ => evs = concat (map verified ended)
  | Raise e =>
      exists done conn rest bad,
        ended = done ++ conn :: rest
        /\ evs = concat (map verified done) ++ bad
        /\ verify_failure conn bad e
  end.

(** A connection back in the state the code outside COPY expects. *)
Definition idle_blocking (w : World) (c : TSConnection) : Prop :=
  conn_status (conns w c) = CONN_IDLE /\ conn_nonblocking (conns w c) = false.

(** Events that are neither part of a flush nor a chunk creation, and
    events that are not part of a flush. *)
Definition quiet (e : Event) : Prop :=
  is_flush_marker e = false /\ is_create_chunk e = false /\ is_flush_io e = false.

Definition after_flush (e : Event) : Prop :=
  is_flush_marker e = false /\ is_flush_io e = false.

Definition flush_io (e : Event) : Prop := is_flush_io e = true.

(** The events of a pass in which [flush_active_connections] runs at most
    once, and then before any chunk is created: either no flush and no
    creation at all, or one flush, with its calls [fl], after events [pre]
    without creation. *)
Definition flush_once (evs : list Event) : Prop :=
  Forall quiet evs
  \/ exists pre fl post,
      evs = pre ++ EvFlushActiveConnections :: fl ++ post
      /\ Forall quiet pre /\ Forall flush_io fl /\ Forall after_flush post.

(** The data nodes of a chunk, and the chunks that a pass resolved for its
    rows, in row order: a chunk is either found or created. *)
Definition chunk_servers (c : Chunk) : list Oid := map foreign_server_oid (data_nodes c).

Definition resolved_chunk (e : Event) : list Chunk :=
  match e with
  | EvFindChunk _ (Some c) => [c]
  | EvCreateChunk _ c => [c]
  | _ => []
  end.

Definition resolved_chunks (evs : list Event) : list Chunk := flat_map resolved_chunk evs.

(** The rows of a batch that go to the data node [server], in batch order,
    when [chunks] lists the chunk of every row; and their encoded bytes put
    end to end. *)
Definition rows_for (server : Oid) (chunks : list Chunk) : list Z :=
  flat_map (fun '(i, c) => if existsb (Z.eqb server) (chunk_servers c) then [i] else [])
           (combine (upto (Z.of_nat (length chunks))) chunks).

Definition node_payload (rows : list StringInfo) (server : Oid) (chunks : list Chunk)
    : list byte :=
  concat (map (aref [] rows) (rows_for server chunks)).

(* ================================================================= *)
(** ** Runs of the copy: what a run leaves, appends and raises *)

(** A relation between the world before and after that every run of [m]
    respects, whatever it returns. *)
Definition follows (R : World -> World -> Prop) {A} (m : M A) : Prop :=
  forall w r w', m w = (r, w') -> R w w'.

(** Relations of the frame kind: what a run leaves as it was. *)
Definition same_conns (w w' : World) : Prop := conns w' = conns w.
Definition same_state (w w' : World) : Prop := connection_state w' = connection_state w.
Definition same_user (w w' : World) : Prop := current_user w' = current_user w.
Definition answers_le (w w' : World) : Prop :=
  (length (answers w') <= length (answers w))%nat.

(** The run appends events, all of them in the class [phi]. *)
Definition extends (phi : Event -> Prop) (w w' : World) : Prop :=
  exists evs, trace w' = trace w ++ evs /\ Forall phi evs.

Definition raises (P : Error -> Prop) {A} (m : M A) : Prop :=
  forall w e w', m w = (Raise e, w') -> P e.

(** The chunk that the next answer holds, if it is one. *)
Definition chunk_answer (a : list Answer) : option Chunk :=
  match head a with
  | Some (AChunk c) => Some c
  | _ => None
  end.

(* ================================================================= *)
(** ** Partition columns that are not copied *)

(** The first dimension whose column is not among the copied columns. *)
Fixpoint first_missing (attnums : list AttrNumber) (dims : list Dimension)
    : option Dimension :=
  match dims with
  | [] => None
  | d :: rest =>
      if existsb (Z.eqb (column_attno d)) attnums then first_missing attnums rest
      else Some d
  end.

(* ================================================================= *)
(** ** The schedule of a batch *)

(** The (row, data node) pairs of a batch, in the order the first loop
    meets them. *)
Definition row_pairs (sched : list (Z * Chunk)) : list (Z * Oid) :=
  flat_map (fun '(i, c) => map (fun s => (i, s)) (chunk_servers c)) sched.

Definition pair_rows (s : Oid) (pairs : list (Z * Oid)) : list Z :=
  map fst (List.filter (fun p => snd p =? s) pairs).

Definition node_of (s : Oid) : ChunkDataNode := {| foreign_server_oid := s |}.

Record scheduled (pairs : list (Z * Oid)) (nodes : list DataNodeRows) : Prop := {
  sched_nodup : List.NoDup (map server_oid nodes);
  sched_servers : forall s, In s (map server_oid nodes) <-> In s (map snd pairs);
  sched_rows :
    Forall (fun dn => row_indices dn = pair_rows (server_oid dn) pairs
                      /\ rows_total dn = Z.of_nat (length (row_indices dn))) nodes
}.

(** The list [data_nodes] after the first loop, given the chunk of every
    row. *)
Definition schedule (sched : list (Z * Chunk)) (nodes : list DataNodeRows)
    : list DataNodeRows :=
  fold_left (fun nodes '(i, c) => fold_left (schedule_row i) (data_nodes c) nodes)
            sched nodes.

(** The cache only grows at its end. *)
Definition cache_grows (w w' : World) : Prop :=
  exists more,
    data_node_connections (connection_state w')
    = data_node_connections (connection_state w) ++ more.

(** Events that are neither a resolution of a chunk nor a write of COPY
    data. *)
Definition plain (e : Event) : Prop :=
  resolved_chunk e = [] /\ is_put_copy_data e = false.

Definition not_put (e : Event) : Prop := is_put_copy_data e = false.

(* ================================================================= *)
(** ** Connections and uploads over a pass and over a load *)

(** What the second and third loop do to the connections: each is left as
    it was, or was idle and is now in COPY_IN after a successful begin. *)
Definition begun (w w' : World) : Prop :=
  exists evs,
    trace w' = trace w ++ evs
    /\ forall c,
        conns w' c = conns w c
        \/ (conn_status (conns w c) = CONN_IDLE
            /\ conn_status (conns w' c) = CONN_COPY_IN
            /\ exists cmd b, In (EvBeginCopy c cmd b true) evs).

Definition any_event (e : Event) : Prop := True.

Definition begins (c : TSConnection) (e : Event) : bool :=
  match e with
  | EvBeginCopy c' _ _ ok => (c' =? c) && ok
  | _ => false
  end.

Definition writes (c : TSConnection) (e : Event) : bool :=
  match e with
  | EvPutCopyData c' _ _ => c' =? c
  | _ => false
  end.

Definition closes (c : TSConnection) (e : Event) : bool :=
  match e with
  | EvPutCopyEnd c' r => (c' =? c) && (r =? 1)
  | EvEndCopy c' ok => (c' =? c) && ok
  | _ => false
  end.

(** One call seen by the connection [c]: [Some open] tells whether an
    upload is open on [c]; [None] that a COPY was begun on [c] while one
    was open, or that rows were written to [c] outside an upload. *)
Definition upload_step (c : TSConnection) (st : option bool) (e : Event) : option bool :=
  match st with
  | None => None
  | Some open =>
      if begins c e then (if open then None else Some true)
      else if writes c e then (if open then Some true else None)
      else if closes c e then Some false
      else Some open
  end.

Definition uploads (c : TSConnection) (open : bool) (evs : list Event) : option bool :=
  fold_left (upload_step c) evs (Some open).

Definition is_passive (e : Event) : bool :=
  match e with
  | EvBeginCopy _ _ _ true | EvPutCopyData _ _ _ => false
  | _ => true
  end.

Definition is_inert (e : Event) : bool :=
  match e with
  | EvBeginCopy _ _ _ true | EvPutCopyData _ _ _ | EvPutCopyEnd _ _ | EvEndCopy _ _ => false
  | _ => true
  end.

Definition passive (e : Event) : Prop := is_passive e = true.
Definition inert (e : Event) : Prop := is_inert e = true.

Definition uploading (w : World) (c : TSConnection) : Prop :=
  conn_status (conns w c) = CONN_COPY_IN.

Definition tracks (w : World) (c : TSConnection) (open : bool) : Prop :=
  open = true <-> uploading w c.

(** The calls made between [w] and [w'] keep every connection's uploads in
    order, and what they leave open is what is in COPY_IN. *)
Definition bracketed (w w' : World) : Prop :=
  exists evs,
    trace w' = trace w ++ evs
    /\ forall c open, tracks w c open ->
         exists open', uploads c open evs = Some open' /\ tracks w' c open'.

(** Between [w] and [w'] no COPY is begun and no row is written; a
    connection leaves COPY_IN exactly when its upload is closed. *)
Definition winds_down (w w' : World) : Prop :=
  exists evs,
    trace w' = trace w ++ evs
    /\ Forall passive evs
    /\ forall c, if existsb (closes c) evs then ~ uploading w' c
                 else uploading w' c <-> uploading w c.

(** The connections of [cs] are out of COPY_IN. *)
Definition ended_all (cs : list TSConnection) (w : World) : Prop :=
  forall c, In c cs -> ~ uploading w c.

(** The data nodes a connection was asked for, in call order. *)
Definition opened_event (e : Event) : list Oid :=
  match e with
  | EvGetConnection id _ => [server_id id]
  | _ => []
  end.

Definition opened (evs : list Event) : list Oid := flat_map opened_event evs.

Definition cached_servers (w : World) : list Oid :=
  map (fun entry => server_id (id entry)) (data_node_connections (connection_state w)).

(** Between [w] and [w'] a connection is asked for only on behalf of a data
    node that has none in the cache, and it is cached. *)
Definition opens_once (w w' : World) : Prop :=
  exists evs,
    trace w' = trace w ++ evs
    /\ cached_servers w' = cached_servers w ++ opened evs
    /\ (List.NoDup (cached_servers w) -> List.NoDup (cached_servers w')).

Definition no_connection (e : Event) : Prop := opened_event e = [].

(* ================================================================= *)
(** ** The batches of a load *)

(** The bytes that [read_next_copy_row] adds to the batch for a row. *)
Definition encoded (cat : Catalog) (context : RemoteCopyContext) (row : InputRow)
    : StringInfo :=
  match data_context context with
  | BinaryContext ctx =>
      generate_binary_copy_data cat (row_values row) (row_nulls row) (attnums context)
        (bin_out_functions ctx)
  | TextContext ctx =>
      text_row_data (raw_fields row) (Z.of_nat (length (raw_fields row)))
        (null_string ctx) (delimiter ctx)
  end.

Definition is_process_batch (e : Event) : bool :=
  match e with
  | EvProcessBatch _ _ => true
  | _ => false
  end.

Definition not_process_batch (e : Event) : Prop := is_process_batch e = false.

(** The entry into [remote_copy_process_and_send_data] with the batch
    [b]. *)
Definition batch_event (b : RowBatch StringInfo) : Event :=
  EvProcessBatch (current_batch_rows b) (current_batch_bytes b).

(* ================================================================= *)
(** ** Sample loads and passes *)

Definition demo_space_info : CopyDimensionInfo :=
  {| dim := demo_space_dimension; corresponding_copy_field := 1; default_value := 0;
     io_func := 23; typioparams := 23; atttypmod := -1 |}.

Definition demo_world (a : list Answer) : World :=
  {| conns := fun _ => {| conn_status := CONN_IDLE; conn_nonblocking := false |};
     connection_state := {| data_node_connections := []; connections_in_use := [];
                            using_binary := false; outgoing_copy_cmd := EmptyString |};
     current_user := 10;
     answers := a;
     trace := [] |}.

Definition demo_chunk (n : Z) : Chunk :=
  {| chunk_id := n; data_nodes := [ {| foreign_server_oid := 501 |} ];
     is_compressed := false; is_unordered := false |}.

Definition demo_stmt : CopyStmt := {| attlist := []; options := demo_csv_options |}.

Definition demo_late_row : InputRow :=
  {| raw_fields := [Some "22"%string; None; Some "y"%string];
     row_values := [22; 0; 0];
     row_nulls := [false; true; false] |}.

(** What the outside answers when a connection's COPY is ended by
    [flush_active_connections]: COPY_IN, the end accepted, no interrupt,
    flushed, input consumed, not busy, blocking mode set, command ok, no
    further result. *)
Definition demo_flush_answers : list Answer :=
  [AInt 4; AInt 1; AInt 0; AInt 0; AInt 1; AInt 0; AInt 0; AInt 1; AInt (-1)].

(** 1025 rows for one data node: 1024 rows of an existing chunk fill the
    first batch, the last row needs a new chunk. *)
Definition demo_two_batches : list InputRow := repeat demo_row 1024 ++ [demo_late_row].

(** The answers, in call order: no interrupt while the first 1024 rows are
    read; the chunk of each of them; connection 5 for data node 501, its COPY
    begun, the rows written; no interrupt at the last row and at the end of
    the source; no chunk for the last row, the flush of connection 5, the
    new chunk, the COPY begun again, the row written; the flush at the end
    of the load. *)
Definition demo_two_batches_answers : list Answer :=
  repeat (AInt 0) 1024 ++ repeat (AChunk (demo_chunk 1)) 1024
  ++ [AInt 5; AInt 1; AInt 1]
  ++ [AInt 0; AInt 0]
  ++ [AInt 0] ++ demo_flush_answers
  ++ [AChunk (demo_chunk 2); AInt 1; AInt 1]
  ++ demo_flush_answers.

(** Two rows of existing chunks: one batch, whose COPY is ended by the flush
    at the end of the load. *)
Definition demo_one_batch_answers : list Answer :=
  [AInt 0; AInt 0; AInt 0]
  ++ [AChunk (demo_chunk 1); AChunk (demo_chunk 1); AInt 5; AInt 1; AInt 1]
  ++ demo_flush_answers.

Definition demo_load (src : list InputRow) (a : list Answer) : Res Z * World :=
  remote_distributed_copy demo_catalog demo_stmt demo_hypertable "public" "metrics"
    [1; 2; 3] false src (demo_world a).

Definition demo_time_info : CopyDimensionInfo :=
  {| dim := demo_time_dimension; corresponding_copy_field := 0; default_value := 0;
     io_func := 1184; typioparams := 1184; atttypmod := -1 |}.

Definition demo_text_context : TextCopyContext :=
  {| ndimensions := 2;
     text_dimensions := [demo_time_info; demo_space_info];
     text_out_functions := [1184; 23; 25];
     delimiter := ","%char;
     null_string := DEFAULT_PG_NULL_VALUE;
     fields := [];
     nfields := 0 |}.

(** A batch of two rows, the second one later in time than any chunk. *)
Definition demo_context : RemoteCopyContext :=
  {| ht := demo_hypertable;
     attnums := [1; 2; 3];
     data_context := TextContext demo_text_context;
     batch := batch_add len
                (batch_add len empty_batch (list_byte_of_string ("1,\N,x" ++ String "010" EmptyString)))
                (list_byte_of_string ("22,\N,y" ++ String "010" EmptyString));
     batch_points := [[1; 7]; [2; 7]] |}.

Definition demo_copy_cmd : string := "COPY public.metrics FROM STDIN WITH (format csv)".

(** The world in which the connections [uploading] are in COPY_IN, in use
    and cached for the data nodes 501, 502, ... in this order. *)
Definition demo_uploading_world (uploading : list TSConnection) (a : list Answer) : World :=
  {| conns := fun c =>
       if list_member uploading c
       then {| conn_status := CONN_COPY_IN; conn_nonblocking := true |}
       else {| conn_status := CONN_IDLE; conn_nonblocking := false |};
     connection_state :=
       {| data_node_connections :=
            map (fun '(i, c) => {| id := remote_connection_id (501 + i) 10;
                                   connection := c |})
                (combine (upto (Z.of_nat (length uploading))) uploading);
          connections_in_use := uploading;
          using_binary := false;
          outgoing_copy_cmd := demo_copy_cmd |};
     current_user := 10;
     answers := a;
     trace := [] |}.

Definition demo_chunk_on (n : Z) (server : Oid) : Chunk :=
  {| chunk_id := n; data_nodes := [ {| foreign_server_oid := server |} ];
     is_compressed := false; is_unordered := false |}.

(** Connection 5 of data node 501 is mid-upload; the first row has its
    chunk there, the second one needs a new chunk, which is made on data
    node 502 and gets connection 6. *)
Definition demo_pass_answers : list Answer :=
  [AChunk (demo_chunk_on 1 501); AInt 0] ++ demo_flush_answers
  ++ [AChunk (demo_chunk_on 2 502); AInt 1; AInt 6; AInt 1; AInt 1; AInt 1].

Definition demo_pass : Res unit * World :=
  remote_copy_process_and_send_data demo_context (demo_uploading_world [5] demo_pass_answers).

(** Scenario E: the connections 5 and 6 are mid-upload; both COPYs are
    ended and flushed, then the result of connection 5 is an error. *)
Definition demo_failed_flush_answers : list Answer :=
  [AInt 4; AInt 1; AInt 4; AInt 1;
   AInt 0; AInt 0; AInt 1; AInt 0; AInt 0; AInt 1; AInt 0;
   AInt 0; AInt 0;
   AInt 7].

Definition demo_failed_flush : Res unit * World :=
  flush_active_connections (demo_uploading_world [5; 6] demo_failed_flush_answers).

(** A connection in the processing state when rows are to be sent. *)
Definition demo_processing_world : World :=
  with_conns (demo_uploading_world [5] [])
    (<[5 := {| conn_status := CONN_PROCESSING; conn_nonblocking := true |}]>
       (conns (demo_uploading_world [5] []))).

(* ================================================================= *)
(** ** The options of a COPY statement, one by one *)

(** What [validate_options] objects to in one option, if anything: the
    binary format, and an argument of [delimiter] or [null] that
    [def_get_string] does not take. *)
Definition option_error (cat : Catalog) (d : DefElem) : option Error :=
  if is_format d then
    if is_binary_format d then Some ErrBinaryNotSupported else None
  else if is_delimiter d || is_null d then
    match def_get_string cat d with
    | Raise e => Some e
    | Ok _ => None
    end
  else None.

Fixpoint first_error (cat : Catalog) (opts : list DefElem) : option Error :=
  match opts with
  | [] => None
  | d :: rest =>
      match option_error cat d with
      | Some e => Some e
      | None => first_error cat rest
      end
  end.

(** The text of one node of a name list. *)
Definition name_text (cat : Catalog) (name : NameNode) : string :=
  match name with
  | NameString s => quote_identifier cat s
  | NameStar => "*"
  | NameOther _ => EmptyString
  end.

Definition is_name (name : NameNode) : bool :=
  match name with
  | NameOther _ => false
  | _ => true
  end.

Definition binary_options (opts : list DefElem) : list DefElem :=
  List.filter (fun d => is_supported_binary_option (defname d)) opts.

(** The head of every deparsed command: the table, the columns, the
    source. *)
Definition copy_cmd_head (cat : Catalog) (stmt : CopyStmt) (schema_name table_name : string)
    : string :=
  let command :=
    ("COPY " ++ quote_identifier cat schema_name ++ "." ++ quote_identifier cat table_name
     ++ " ")%string in
  let command :=
    match attlist stmt with
    | [] => command
    | _ => (deparse_attlist cat (attlist stmt) true (command ++ "(") ++ ") ")%string
    end in
  (command ++ "FROM STDIN")%string.

(* ================================================================= *)
(** ** The end of a copy *)

Definition is_end_copy (e : Event) : bool :=
  match e with
  | EvEndCopy _ _ => true
  | _ => false
  end.

Definition is_failed_end_copy (e : Event) : bool :=
  match e with
  | EvEndCopy _ false => true
  | _ => false
  end.

(** No connection in use is in COPY_IN. *)
Definition none_uploading (w : World) : Prop :=
  forall c, In c (connections_in_use (connection_state w)) -> ~ uploading w c.

(* ================================================================= *)
(** ** The slot path *)

Definition is_remote_put (e : Event) : bool :=
  match e with
  | EvRemotePutCopyData _ _ _ => true
  | _ => false
  end.

(** A connection on which rows may be written as far as
    [create_connection_list_for_chunk] checks: neither idle nor
    processing. *)
Definition copy_ready (w : World) (c : TSConnection) : Prop :=
  conn_status (conns w c) <> CONN_IDLE /\ conn_status (conns w c) <> CONN_PROCESSING.

(** What [slot_getattr] gives for a column of the slot, as a text field:
    nothing for a null, else the output of the column's function. *)
Definition slot_field (cat : Catalog) (textctx : TextCopyContext) (slot : TupleTableSlot)
    (attnum : AttrNumber) : option string :=
  let off := AttrNumberGetAttrOffset attnum in
  if aref false (tts_isnull slot) off then None
  else Some (OutputFunctionCall cat (aref 0 (text_out_functions textctx) off)
                                (aref 0 (tts_values slot) off)).

(** Events of the slot path before its writes: no write and no flush. *)
Definition slot_setup (e : Event) : Prop :=
  is_remote_put e = false /\ is_flush_marker e = false.

(** A binary context whose arrays still hold an earlier row. *)
Definition demo_binary_context : RemoteCopyContext :=
  {| ht := demo_hypertable;
     attnums := [1; 2; 3];
     data_context := BinaryContext {| bin_out_functions := [1184; 23; 25];
                                      values := [99; 98; 97];
                                      nulls := [true; true; true] |};
     batch := empty_batch;
     batch_points := [] |}.

Definition demo_slot : TupleTableSlot :=
  {| tts_values := [7; 0; 9]; tts_isnull := [false; true; false] |}.

(** The chunk of the slot is on the data nodes 501 and 502. *)
Definition demo_insert_state : ChunkInsertState :=
  {| cis_chunk_id := 1;
     chunk_data_nodes := [ {| foreign_server_oid := 501 |}; {| foreign_server_oid := 502 |} ];
     cis_user_id := 10 |}.

(* ================================================================= *)
(** ** Reading a binary row back

    A reader of the layout that [generate_binary_copy_data] writes, as the
    receiving side has to read it: the field count, then for each field its
    length and, unless the length is that of a null, its bytes.  It is used
    to state that a row can be read back. *)

Fixpoint read_binary_fields (n : nat) (bs : list byte)
    : option (list (option (list byte)) * list byte) :=
  match n with
  | O => Some ([], bs)
  | S n' =>
      if (length bs <? 4)%nat then None
      else
        let l := be_value (firstn 4 bs) in
        let bs := skipn 4 bs in
        if l =? 4294967295 then
          option_map (fun '(fs, rest) => (None :: fs, rest)) (read_binary_fields n' bs)
        else if (length bs <? Z.to_nat l)%nat then None
        else
          option_map (fun '(fs, rest) => (Some (firstn (Z.to_nat l) bs) :: fs, rest))
                     (read_binary_fields n' (skipn (Z.to_nat l) bs))
  end.

Definition read_binary_row (bs : list byte) : option (list (option (list byte))) :=
  if (length bs <? 2)%nat then None
  else
    match read_binary_fields (Z.to_nat (be_value (firstn 2 bs))) (skipn 2 bs) with
    | Some (fs, []) => Some fs
    | _ => None
    end.

(** The value bytes of a column of the row, nothing for a null. *)
Definition binary_field_value (cat : Catalog) (values : list Datum) (nulls : list bool)
    (out_functions : list FmgrInfo) (attnum : AttrNumber) : option (list byte) :=
  if aref false nulls (attnum - 1) then None
  else Some (SendFunctionCall cat (aref 0 out_functions (attnum - 1))
                              (aref 0 values (attnum - 1))).

(* ================================================================= *)
(** ** What a pass is given *)

(** Every point that is looked up or gets a chunk has [n] coordinates, and
    every batch that enters a pass fits the row array. *)
Definition pass_input_ok (n : nat) (e : Event) : Prop :=
  match e with
  | EvFindChunk p _ | EvCreateChunk p _ => length p = n
  | EvProcessBatch rows _ => 0 <= rows <= MAX_BATCH_ROWS
  | _ => True
  end.

(** The batch fields of a context agree: as many points as rows, the row
    counter at their number, every point with [n] coordinates, and [n]
    dimensions to compute the next point from. *)
Record context_ok (n : nat) (context : RemoteCopyContext) : Prop := {
  ok_rows : current_batch_rows (batch context)
            = Z.of_nat (length (batch_rows (batch context)));
  ok_points : length (batch_points context) = length (batch_rows (batch context));
  ok_coords : Forall (fun p : Point => length p = n) (batch_points context);
  ok_dims : match data_context context with
            | TextContext ctx => length (text_dimensions ctx) = n
            | BinaryContext _ => length (dimensions (space (ht context))) = n
            end
}.

(* ================================================================= *)
(** ** The point of a text row and where the row is routed *)

(** One coordinate of the point of a text row: the body of the loop of
    [calculate_hyperspace_point_from_fields]. *)
Definition text_coordinate (cat : Catalog) (fields : list (option string))
    (info : CopyDimensionInfo) : Res Z :=
  res_bind (get_copy_dimension_datum cat fields info) (fun datum =>
    convert_datum_to_dim_idx cat datum (dim info)).

(** The chunks that a pass resolved, each with the point it was found or
    created for. *)
Definition route_of (e : Event) : list (Point * Chunk) :=
  match e with
  | EvFindChunk p (Some c) => [(p, c)]
  | EvCreateChunk p c => [(p, c)]
  | _ => []
  end.

Definition routes (evs : list Event) : list (Point * Chunk) := flat_map route_of evs.

Definition no_route (e : Event) : Prop := route_of e = [].

(** A short row after a full one: the second slot keeps the field of the
    earlier row. *)
Definition demo_short_row : InputRow :=
  {| raw_fields := [Some "1"%string]; row_values := [1]; row_nulls := [false] |}.

(* ================================================================= *)
(** ** The phases of a flush *)

(** What the first loop calls on a connection in COPY_IN whose COPY it
    ends. *)
Definition ended_copy (conn : TSConnection) : list Event :=
  [EvGetResult conn (Some PGRES_COPY_IN); EvPutCopyEnd conn 1].

(** The calls of the flush loop, and those it makes on the connection
    [conn]. *)
Definition is_drain_io (e : Event) : bool :=
  match e with
  | EvFlush _ _ | EvConsumeInput _ _ | EvIsBusy _ _ | EvWait _ => true
  | _ => false
  end.

Definition drain_call_on (conn : TSConnection) (e : Event) : bool :=
  match e with
  | EvFlush c _ | EvConsumeInput c _ | EvIsBusy c _ => c =? conn
  | _ => false
  end.

(** The flush loop is done with [conn]: its write buffer is flushed, its
    input is consumed and it is not busy, and the loop calls nothing on it
    afterwards. *)
Definition drained (conn : TSConnection) (evs : list Event) : Prop :=
  exists pre r post,
    evs = pre ++ [EvFlush conn 0; EvConsumeInput conn r; EvIsBusy conn 0] ++ post
    /\ r <> 0
    /\ Forall (fun e => drain_call_on conn e = false) post.

(** What the third loop calls on a connection. *)
Definition cleaned_up (conn : TSConnection) : Event := EvSetNonblocking conn 0 0.

(* ================================================================= *)
(** ** A connection left in the error state *)



(* ================================================================= *)
(** * Proofs *)

(* ================================================================= *)
(** * Proofs: wire helpers *)

Lemma Z_of_byte_of_Z z : Z_of_byte (byte_of_Z z) = z mod 256.
Proof.
  unfold Z_of_byte, byte_of_Z.
  assert (Hr : 0 <= z mod 256 < 256) by (apply Z.mod_pos_bound; lia).
  destruct (Byte.of_N (Z.to_N (z mod 256))) as [b|] eqn:E.
  - apply Byte.to_of_N in E. rewrite E. lia.
  - apply Byte.of_N_None_iff in E. lia.
Qed.

Lemma byte_of_Z_mod a b : a mod 256 = b mod 256 -> byte_of_Z a = byte_of_Z b.
Proof. unfold byte_of_Z. intros ->. reflexivity. Qed.

Lemma mod_div_mod n k m :
  0 < k -> 0 < m -> (n mod (k * m * 256)) / k mod 256 = n / k mod 256.
Proof.
  intros Hk Hm.
  rewrite (Z.div_mod n (k * m * 256)) at 2 by lia.
  replace (k * m * 256 * (n / (k * m * 256)) + n mod (k * m * 256))
    with (n mod (k * m * 256) + (n / (k * m * 256) * m * 256) * k) by lia.
  rewrite Z.div_add by lia.
  replace (n / (k * m * 256) * m * 256) with ((n / (k * m * 256) * m) * 256) by lia.
  rewrite Z.mod_add by lia. reflexivity.
Qed.

Lemma pg_hton16_be n : pg_hton16 (uint16 n) = be_bytes 2 n.
Proof.
  unfold pg_hton16, uint16, wrap. cbn [be_bytes app].
  f_equal; [|f_equal].
  - apply byte_of_Z_mod. rewrite Z.shiftr_div_pow2 by lia.
    change (2 ^ 16) with (256 * 1 * 256). change (2 ^ 8) with 256.
    apply mod_div_mod; lia.
  - apply byte_of_Z_mod. change (2 ^ 16) with (256 * 256).
    apply Z.mod_mod_divide. exists 256. lia.
Qed.

Lemma pg_hton32_be n : pg_hton32 (uint32 n) = be_bytes 4 n.
Proof.
  unfold pg_hton32, uint32, wrap. cbn [be_bytes app].
  rewrite !Z.shiftr_div_pow2 by lia. rewrite !Z.div_div by lia.
  f_equal; [|f_equal; [|f_equal; [|f_equal]]]; apply byte_of_Z_mod.
  - change (2 ^ 32) with (2 ^ 24 * 1 * 256). change (256 * 256 * 256) with (2 ^ 24).
    apply mod_div_mod; lia.
  - change (2 ^ 32) with (2 ^ 16 * 256 * 256). change (256 * 256) with (2 ^ 16).
    apply mod_div_mod; lia.
  - change (2 ^ 32) with (2 ^ 8 * 65536 * 256). change 256 with (2 ^ 8) at 3.
    apply mod_div_mod; lia.
  - change (2 ^ 32) with (256 * 16777216).
    apply Z.mod_mod_divide. exists 16777216. lia.
Qed.

Lemma be_value_app bs b : be_value (bs ++ [b]) = be_value bs * 256 + Z_of_byte b.
Proof. unfold be_value. rewrite fold_left_app. reflexivity. Qed.

Lemma be_value_be_bytes w n :
  0 <= n < 256 ^ Z.of_nat w -> be_value (be_bytes w n) = n.
Proof.
  revert n. induction w as [|w IH]; intros n Hn.
  - cbn in *. lia.
  - cbn [be_bytes]. rewrite be_value_app, Z_of_byte_of_Z.
    rewrite Nat2Z.inj_succ, Z.pow_succ_r in Hn by lia.
    rewrite IH.
    + rewrite (Z.div_mod n 256) at 3 by lia. lia.
    + split; [apply Z.div_pos; lia | apply Z.div_lt_upper_bound; lia].
Qed.

Lemma length_be_bytes w n : length (be_bytes w n) = w.
Proof.
  revert n. induction w as [|w IH]; intros n; [reflexivity|].
  cbn [be_bytes]. rewrite length_app, IH. cbn. lia.
Qed.

(* ================================================================= *)
(** * Proofs: binary rows *)

Section BinaryRows.
Context (cat : Catalog) (values : list Datum) (nulls : list bool)
        (out_functions : list FmgrInfo).

Lemma binary_field_step_spec row_data attnum :
  binary_field_step cat values nulls out_functions row_data attnum
  = row_data ++ binary_field_spec cat values nulls out_functions attnum.
Proof.
  unfold binary_field_step, binary_field_spec, AttrNumberGetAttrOffset,
    appendBinaryStringInfo, len.
  destruct (aref false nulls (attnum - 1)).
  - rewrite pg_hton32_be. reflexivity.
  - cbv zeta. rewrite pg_hton32_be, <- app_assoc. reflexivity.
Qed.

Lemma binary_fields_fold attnums row_data :
  fold_left (binary_field_step cat values nulls out_functions) attnums row_data
  = row_data ++ concat (map (binary_field_spec cat values nulls out_functions) attnums).
Proof.
  revert row_data. induction attnums as [|a l IH]; intros row_data; cbn.
  - now rewrite app_nil_r.
  - rewrite IH, binary_field_step_spec, <- app_assoc. reflexivity.
Qed.

Lemma generate_binary_copy_data_spec attnums :
  generate_binary_copy_data cat values nulls attnums out_functions
  = binary_row_spec cat values nulls attnums out_functions.
Proof.
  unfold generate_binary_copy_data, binary_row_spec, appendBinaryStringInfo,
    makeStringInfo.
  cbv zeta. rewrite binary_fields_fold, pg_hton16_be. reflexivity.
Qed.

(** C5: in binary mode a row is the 2-byte big-endian count of the
    selected columns followed, in selection order, by one field per column:
    a 4-byte big-endian length and that many value bytes, or the bare
    length 0xFFFFFFFF for a null. *)
Theorem generate_binary_copy_data_layout attnums :
  Z.of_nat (length attnums) < 65536 ->
  Forall (fun a =>
            len (SendFunctionCall cat (aref 0 out_functions (a - 1))
                                  (aref 0 values (a - 1))) <= MaxAllocSize) attnums ->
  let row := generate_binary_copy_data cat values nulls attnums out_functions in
  let field := binary_field_spec cat values nulls out_functions in
  row = be_bytes 2 (Z.of_nat (length attnums)) ++ concat (map field attnums)
  /\ be_value (be_bytes 2 (Z.of_nat (length attnums))) = Z.of_nat (length attnums)
  /\ Forall (fun a =>
               if aref false nulls (a - 1) then field a = [xff; xff; xff; xff]
               else exists lenb v,
                   field a = lenb ++ v
                   /\ v = SendFunctionCall cat (aref 0 out_functions (a - 1))
                                           (aref 0 values (a - 1))
                   /\ length lenb = 4%nat
                   /\ be_value lenb = Z.of_nat (length v)) attnums.
Proof.
  intros Hn Hlen row field. subst row field. split; [|split].
  - apply generate_binary_copy_data_spec.
  - apply be_value_be_bytes. change (256 ^ Z.of_nat 2) with 65536. lia.
  - eapply Forall_impl; [|exact Hlen]. intros a Ha. cbv beta in Ha.
    unfold binary_field_spec.
    destruct (aref false nulls (a - 1)); [reflexivity|].
    eexists _, _. split; [reflexivity|]. split; [reflexivity|].
    split; [apply length_be_bytes|].
    apply be_value_be_bytes. unfold len, MaxAllocSize in Ha.
    change (256 ^ Z.of_nat 4) with 4294967296. lia.
Qed.
End BinaryRows.

(* ================================================================= *)
(** * Proofs: text rows and options *)

Lemma list_byte_of_string_app s1 s2 :
  list_byte_of_string (s1 ++ s2) = list_byte_of_string s1 ++ list_byte_of_string s2.
Proof.
  unfold list_byte_of_string.
  induction s1 as [|c s1 IH]; cbn; [reflexivity|]. now rewrite IH.
Qed.

Lemma aref_nat {A} (d : A) (l : list A) (i : nat) :
  aref d l (Z.of_nat i) = default d (l !! i).
Proof.
  unfold aref. destruct (Z.ltb_spec (Z.of_nat i) 0); [lia|].
  now rewrite Nat2Z.id.
Qed.

Lemma upto_length_snoc {A} (l : list A) x :
  upto (Z.of_nat (length (l ++ [x]))) = upto (Z.of_nat (length l)) ++ [Z.of_nat (length l)].
Proof.
  unfold upto. rewrite !Nat2Z.id, length_app. cbn [length].
  replace (length l + 1)%nat with (S (length l)) by lia.
  rewrite seq_S, map_app. reflexivity.
Qed.

Lemma string_concat_cons sep y ys :
  ys <> [] -> String.concat sep (y :: ys) = (y ++ sep ++ String.concat sep ys)%string.
Proof. destruct ys; [congruence | reflexivity]. Qed.

Section TextRows.
Context (null_string : string) (delimiter : ascii).

Local Abbreviation field_text := (field_text null_string).

Lemma field_or_null_lookup fields (i : nat) f :
  fields !! i = Some f -> field_or_null fields null_string (Z.of_nat i) = field_text f.
Proof. intros H. unfold field_or_null. rewrite aref_nat, H. reflexivity. Qed.

Lemma leading_fields_fold init rest acc :
  fold_left (fun row_data i =>
               appendStringInfo_sc row_data
                 (field_or_null (init ++ rest) null_string i) delimiter)
            (upto (Z.of_nat (length init))) acc
  = acc ++ concat (map (fun f => list_byte_of_string (field_text f)
                                   ++ [byte_of_ascii delimiter]) init).
Proof.
  revert rest. induction init as [|x init IH] using rev_ind; intros rest.
  - cbn. now rewrite app_nil_r.
  - rewrite upto_length_snoc, fold_left_app. cbn [fold_left].
    rewrite <- app_assoc, IH.
    rewrite (field_or_null_lookup _ _ x).
    + unfold appendStringInfo_sc. rewrite map_app, concat_app. cbn.
      rewrite app_nil_r, <- !app_assoc. reflexivity.
    + rewrite lookup_app_r by lia. now rewrite Nat.sub_diag.
Qed.

Lemma concat_snoc_bytes init x :
  list_byte_of_string
    (String.concat (String delimiter EmptyString) (map field_text (init ++ [x])))
  = concat (map (fun f => list_byte_of_string (field_text f)
                            ++ [byte_of_ascii delimiter]) init)
    ++ list_byte_of_string (field_text x).
Proof.
  induction init as [|a init IH].
  - reflexivity.
  - cbn [app map concat]. rewrite <- app_assoc, <- IH.
    rewrite string_concat_cons by (destruct init; discriminate).
    rewrite !list_byte_of_string_app, <- app_assoc. reflexivity.
Qed.

Lemma text_row_data_spec fields :
  fields <> [] ->
  text_row_data fields (Z.of_nat (length fields)) null_string delimiter
  = list_byte_of_string (text_row_spec fields null_string delimiter).
Proof.
  intros Hne. destruct fields as [|x init _] using rev_ind; [congruence|].
  unfold text_row_data, text_row_spec, makeStringInfo. cbv zeta.
  rewrite length_app. cbn [length].
  replace (Z.of_nat (length init + 1) - 1) with (Z.of_nat (length init)) by lia.
  rewrite leading_fields_fold.
  rewrite (field_or_null_lookup _ _ x)
    by (rewrite lookup_app_r by lia; now rewrite Nat.sub_diag).
  unfold appendStringInfo_sc.
  rewrite list_byte_of_string_app.
  rewrite concat_snoc_bytes.
  cbn. rewrite <- app_assoc. reflexivity.
Qed.

(** The row is made of the first [nfields] slots: what an earlier row left
    behind them does not show in it. *)
Lemma text_row_data_stored raw old :
  text_row_data (store_raw_fields raw old) (Z.of_nat (length raw)) null_string delimiter
  = text_row_data raw (Z.of_nat (length raw)) null_string delimiter.
Proof.
  unfold store_raw_fields. destruct raw as [|x init _] using rev_ind; [reflexivity|].
  rewrite text_row_data_spec by (destruct init; discriminate).
  unfold text_row_data, text_row_spec, makeStringInfo. cbv zeta.
  rewrite length_app. cbn [length].
  replace (Z.of_nat (length init + 1) - 1) with (Z.of_nat (length init)) by lia.
  rewrite <- !app_assoc. rewrite leading_fields_fold.
  rewrite (field_or_null_lookup _ _ x)
    by (rewrite lookup_app_r by lia; now rewrite Nat.sub_diag).
  unfold appendStringInfo_sc.
  rewrite list_byte_of_string_app.
  rewrite concat_snoc_bytes.
  cbn. rewrite <- app_assoc. reflexivity.
Qed.
End TextRows.

Section Options.
Context (cat : Catalog).

(** Without a [delimiter] and a [null] option the loop only ever switches
    the delimiter to a comma, on a [format csv] option. *)
Lemma validate_options_loop_plain opts st :
  forallb (fun d => negb (is_delimiter d) && negb (is_null d)
                    && negb (is_binary_format d)) opts = true ->
  delimiter_found st = false ->
  validate_options_loop cat opts st
  = Ok {| opt_delimiter :=
            if existsb is_csv_format opts then ","%char else opt_delimiter st;
          opt_null_string := opt_null_string st;
          delimiter_found := false |}.
Proof.
  revert st. induction opts as [|d opts IH]; intros st Hall Hfound.
  - cbn. destruct st; cbn in *; now subst.
  - cbn [forallb] in Hall. apply andb_prop in Hall as [Hd Hall].
    apply andb_prop in Hd as [Hd Hbin]. apply andb_prop in Hd as [Hdel Hnull].
    cbn [validate_options_loop existsb].
    unfold validate_option, is_csv_format, is_binary_format, is_format,
      is_delimiter, is_null in *.
    destruct (String.eqb (defname d) "format") eqn:Ef; cbn [andb negb] in *.
    + apply negb_true_iff in Hbin. rewrite Hbin, Hfound. cbn [negb andb].
      destruct (String.eqb (strVal (arg d)) "csv") eqn:Ec;
        cbn [res_bind orb andb].
      * rewrite IH by (auto). cbn. destruct (existsb _ opts); reflexivity.
      * rewrite IH by auto. reflexivity.
    + apply negb_true_iff in Hdel, Hnull. rewrite Hdel, Hnull.
      cbn [res_bind orb]. now rewrite IH.
Qed.

Lemma validate_options_loop_delimiter opts st st' :
  forallb (fun d => negb (is_delimiter d)) opts = true ->
  delimiter_found st = false ->
  validate_options_loop cat opts st = Ok st' ->
  delimiter_found st' = false
  /\ opt_delimiter st'
     = if existsb is_csv_format opts then ","%char else opt_delimiter st.
Proof.
  revert st. induction opts as [|d opts IH]; intros st Hall Hfound Hrun.
  - cbn in Hrun. injection Hrun as <-. auto.
  - cbn [forallb] in Hall. apply andb_prop in Hall as [Hdel Hall].
    apply negb_true_iff in Hdel.
    cbn [validate_options_loop existsb] in *.
    unfold validate_option, is_csv_format, is_format, is_delimiter in *.
    rewrite Hdel, Hfound in Hrun.
    destruct (String.eqb (defname d) "format") eqn:Ef.
    + destruct (String.eqb (strVal (arg d)) "binary"); [discriminate|].
      destruct (String.eqb (strVal (arg d)) "csv") eqn:Ec;
        cbn [res_bind andb orb negb] in *.
      * apply IH in Hrun as [H1 H2]; auto. split; [exact H1|].
        rewrite H2. cbn. destruct (existsb _ opts); reflexivity.
      * apply IH in Hrun; auto.
    + cbn [andb orb].
      destruct (String.eqb (defname d) "null").
      * destruct (def_get_string cat d); [|discriminate].
        cbn [res_bind] in Hrun. apply IH in Hrun; auto.
      * cbn [res_bind] in Hrun. apply IH in Hrun; auto.
Qed.

Lemma validate_options_loop_null opts st st' :
  forallb (fun d => negb (is_null d)) opts = true ->
  validate_options_loop cat opts st = Ok st' ->
  opt_null_string st' = opt_null_string st.
Proof.
  revert st. induction opts as [|d opts IH]; intros st Hall Hrun.
  - cbn in Hrun. now injection Hrun as <-.
  - cbn [forallb] in Hall. apply andb_prop in Hall as [Hnull Hall].
    apply negb_true_iff in Hnull.
    cbn [validate_options_loop] in Hrun.
    unfold validate_option, is_null in *. rewrite Hnull in Hrun.
    destruct (String.eqb (defname d) "format").
    + destruct (String.eqb (strVal (arg d)) "binary"); [discriminate|].
      destruct (_ && _); cbn [res_bind] in Hrun; apply IH in Hrun; auto.
    + destruct (String.eqb (defname d) "delimiter").
      * destruct (def_get_string cat d); [|discriminate].
        cbn [res_bind] in Hrun. apply IH in Hrun; auto.
      * cbn [res_bind] in Hrun. apply IH in Hrun; auto.
Qed.

Lemma validate_options_defaults opts delim null :
  validate_options cat opts = Ok (delim, null) ->
  (forallb (fun d => negb (is_delimiter d)) opts = true ->
   delim = if existsb is_csv_format opts then ","%char else DEFAULT_PG_DELIMITER)
  /\ (forallb (fun d => negb (is_null d)) opts = true ->
      null = DEFAULT_PG_NULL_VALUE).
Proof.
  unfold validate_options. intros Hrun.
  destruct (validate_options_loop cat opts _) as [st'|] eqn:E; [|discriminate].
  cbn in Hrun. injection Hrun as <- <-. split; intros H.
  - eapply validate_options_loop_delimiter in E as [_ E]; eauto.
  - eapply validate_options_loop_null in E; eauto.
Qed.

(** C6: in text mode a row is the text of each selected column, or the
    null marker for an absent field, joined by the delimiter and closed by
    a newline; the delimiter is a tab unless an option sets it, a comma
    under [format csv] without a [delimiter] option; the null marker is
    backslash-N unless a [null] option sets it. *)
Theorem parse_next_text_row_encoding options ht attnums ctx row :
  generate_text_copy_context cat options ht attnums = Ok ctx ->
  raw_fields row <> [] ->
  (exists ctx',
      parse_next_text_row (Some row) attnums ctx
      = Some (list_byte_of_string
                (text_row_spec (raw_fields row) (null_string ctx) (delimiter ctx)),
              ctx')
      /\ delimiter ctx' = delimiter ctx
      /\ null_string ctx' = null_string ctx)
  /\ (forallb (fun d => negb (is_delimiter d)) options = true ->
      delimiter ctx
      = if existsb is_csv_format options then ","%char else DEFAULT_PG_DELIMITER)
  /\ (forallb (fun d => negb (is_null d)) options = true ->
      null_string ctx = DEFAULT_PG_NULL_VALUE).
Proof.
  intros Hctx Hne. unfold generate_text_copy_context in Hctx.
  destruct (validate_options cat options) as [[delim null]|] eqn:Ev; [|discriminate].
  cbn [res_bind] in Hctx.
  destruct (generate_copy_dimensions _ _ _ _) as [dims|]; [|discriminate].
  cbn [res_bind] in Hctx. injection Hctx as <-. cbn [delimiter null_string].
  split.
  - eexists. unfold parse_next_text_row.
    cbn [fields nfields delimiter null_string].
    rewrite text_row_data_stored, text_row_data_spec by exact Hne. auto.
  - apply validate_options_defaults, Ev.
Qed.
End Options.

(** Scenario A of the specification, obtained from the theorem. *)
Lemma parse_next_text_row_scenario_A :
  exists ctx ctx',
    generate_text_copy_context demo_catalog demo_csv_options demo_hypertable [1; 2; 3]
    = Ok ctx
    /\ parse_next_text_row (Some demo_row) [1; 2; 3] ctx
       = Some (list_byte_of_string
                 (String "1" (String "," (String "\" (String "N" (String ","
                    (String "x" (String "010" EmptyString))))))),
               ctx').
Proof.
  eexists. 
  destruct (parse_next_text_row_encoding demo_catalog demo_csv_options demo_hypertable
              [1; 2; 3] _ demo_row eq_refl) as [[ctx' [Hrow _]] _].
  - discriminate.
  - exists ctx'. split; [reflexivity|]. exact Hrow.
Defined.

(* ================================================================= *)
(** * Proofs: partition dimensions *)

Lemma attno_index_bounds attnums attno i :
  i <= attno_index attnums attno i <= i + Z.of_nat (length attnums).
Proof.
  revert i. induction attnums as [|a l IH]; intros i; cbn [attno_index length].
  - lia.
  - destruct (a =? attno); [lia|]. specialize (IH (i + 1)). lia.
Qed.

Lemma attno_index_missing attnums attno i :
  attno_index attnums attno i = i + Z.of_nat (length attnums) <-> ~ In attno attnums.
Proof.
  revert i. induction attnums as [|a l IH]; intros i; cbn [attno_index length In].
  - split; [tauto | lia].
  - destruct (Z.eqb_spec a attno) as [->|Hne].
    + split; [lia | tauto].
    + specialize (IH (i + 1)). split; intros H.
      * intros [?|Hin]; [congruence|]. apply IH in Hin; [exact Hin | lia].
      * assert (Hn : ~ In attno l) by tauto. apply IH in Hn. lia.
Qed.

Lemma attno_index_found attnums attno i :
  In attno attnums ->
  attnums !! Z.to_nat (attno_index attnums attno i - i) = Some attno.
Proof.
  revert i. induction attnums as [|a l IH]; intros i; cbn [attno_index In].
  - tauto.
  - intros Hin. destruct (Z.eqb_spec a attno) as [->|Hne].
    + now rewrite Z.sub_diag.
    + destruct Hin as [?|Hin]; [congruence|].
      pose proof (attno_index_bounds l attno (i + 1)).
      replace (Z.to_nat (attno_index l attno (i + 1) - i))
        with (S (Z.to_nat (attno_index l attno (i + 1) - (i + 1)))) by lia.
      cbn. now apply IH.
Qed.

Section Dimensions.
Context (cat : Catalog).

Lemma generate_copy_dimension_missing attnums ht d :
  ~ In (column_attno d) attnums ->
  generate_copy_dimension cat attnums ht d
  = Raise (ErrDefaultForPartitioningColumn (column_name d)).
Proof.
  intros H. unfold generate_copy_dimension.
  apply (attno_index_missing attnums (column_attno d) 0) in H.
  rewrite Z.add_0_l in H. rewrite H, Z.eqb_refl. reflexivity.
Qed.

Lemma generate_copy_dimension_present attnums ht d :
  In (column_attno d) attnums ->
  exists info,
    generate_copy_dimension cat attnums ht d = Ok info
    /\ dim info = d
    /\ 0 <= corresponding_copy_field info < Z.of_nat (length attnums)
    /\ attnums !! Z.to_nat (corresponding_copy_field info) = Some (column_attno d).
Proof.
  intros Hin. unfold generate_copy_dimension.
  pose proof (attno_index_bounds attnums (column_attno d) 0) as Hb.
  pose proof (attno_index_missing attnums (column_attno d) 0) as Hm.
  pose proof (attno_index_found attnums (column_attno d) 0 Hin) as Hf.
  rewrite Z.sub_0_r in Hf.
  destruct (Z.eqb_spec (attno_index attnums (column_attno d) 0)
                       (Z.of_nat (length attnums))) as [E|E].
  - exfalso. apply Hm; [lia | exact Hin].
  - destruct (getTypeInputInfo cat _) as [f p]. eexists. split; [reflexivity|].
    cbn. repeat split; try lia. exact Hf.
Qed.

Lemma existsb_eqb_In a l : existsb (Z.eqb a) l = true <-> In a l.
Proof.
  rewrite existsb_exists. split.
  - intros [x [Hin Hx]]. apply Z.eqb_eq in Hx. now subst.
  - intros Hin. exists a. split; [exact Hin | apply Z.eqb_refl].
Qed.

Lemma generate_copy_dimensions_result dims attnums ht :
  match first_missing attnums dims with
  | Some d =>
      generate_copy_dimensions cat dims attnums ht
      = Raise (ErrDefaultForPartitioningColumn (column_name d))
  | None =>
      exists infos,
        generate_copy_dimensions cat dims attnums ht = Ok infos
        /\ map dim infos = dims
        /\ Forall (fun info =>
                     0 <= corresponding_copy_field info < Z.of_nat (length attnums)
                     /\ attnums !! Z.to_nat (corresponding_copy_field info)
                        = Some (column_attno (dim info))) infos
  end.
Proof.
  unfold generate_copy_dimensions.
  induction dims as [|d dims IH]; cbn [first_missing res_mapM].
  - exists []. auto.
  - destruct (existsb (Z.eqb (column_attno d)) attnums) eqn:E.
    + apply existsb_eqb_In in E.
      destruct (generate_copy_dimension_present attnums ht d E)
        as [info [Hi [Hd [Hr Hl]]]].
      rewrite Hi. cbn [res_bind].
      destruct (first_missing attnums dims) as [m|].
      * rewrite IH. reflexivity.
      * destruct IH as [infos [Hs [Hm Hf]]]. rewrite Hs. cbn [res_bind].
        exists (info :: infos). split; [reflexivity|]. split.
        -- cbn. now rewrite Hd, Hm.
        -- constructor; [|exact Hf]. rewrite Hd. auto.
    + rewrite generate_copy_dimension_missing; [reflexivity|].
      intros Hin. apply existsb_eqb_In in Hin. congruence.
Qed.
End Dimensions.

(** The specification puts the row at coordinate 0; with the
    partitioning function of the sample table it lands at 7.  In a binary
    load the same null is rejected. *)
Lemma null_closed_coordinate_not_zero :
  calculate_hyperspace_point_from_fields demo_catalog [Some "5"%string; None]
    [demo_space_info] = Ok [7]
  /\ calculate_hyperspace_point_from_fields demo_catalog [Some "5"%string; None]
       [demo_space_info] <> Ok [0]
  /\ calculate_hyperspace_point_from_binary demo_catalog (row_values demo_row)
       (row_nulls demo_row) (space demo_hypertable)
     = Raise (ErrValueRequired "device").
Proof. split; [reflexivity | split; [discriminate | reflexivity]]. Qed.

(* ================================================================= *)
(** * Proofs: the batching loop *)

Lemma int32_small z : - 2147483648 <= z < 2147483648 -> int32 z = z.
Proof.
  intros H. unfold int32, swrap.
  change (2 ^ (32 - 1)) with 2147483648. change (2 ^ 32) with 4294967296.
  rewrite Z.mod_small by lia. lia.
Qed.

Section BatchLoopProofs.
Context {Row : Type} (row_len : Row -> Z).

Local Abbreviation bytes_of := (batch_bytes row_len).

Lemma batch_bytes_app l1 l2 : bytes_of (l1 ++ l2) = bytes_of l1 + bytes_of l2.
Proof.
  unfold batch_bytes. induction l1 as [|r l1 IH]; cbn; [reflexivity | rewrite IH; lia].
Qed.

Lemma batch_bytes_nonneg l :
  Forall (fun r => 0 <= row_len r <= MaxAllocSize) l -> 0 <= bytes_of l.
Proof. unfold batch_bytes. induction 1; cbn; lia. Qed.

Lemma has_room_iff (b : RowBatch Row) :
  batch_has_room b = true
  <-> current_batch_rows b < MAX_BATCH_ROWS /\ current_batch_bytes b < MAX_BATCH_BYTES.
Proof. unfold batch_has_room. rewrite andb_true_iff, !Z.ltb_lt. tauto. Qed.

Lemma filling_empty : filling row_len empty_batch.
Proof. split; cbn; auto. Qed.

Lemma batch_add_exact b r :
  filling row_len b -> 0 <= row_len r <= MaxAllocSize ->
  current_batch_bytes (batch_add row_len b r) = current_batch_bytes b + row_len r.
Proof.
  intros [Hr Hb Hl Hroom] Hlen. apply has_room_iff in Hroom as [_ Hbytes].
  pose proof (batch_bytes_nonneg _ Hl).
  cbn. apply int32_small. unfold MAX_BATCH_BYTES, MaxAllocSize in *. lia.
Qed.

Lemma batch_add_handed b r :
  filling row_len b -> 0 <= row_len r <= MaxAllocSize -> handed row_len (batch_add row_len b r).
Proof.
  intros Hf Hlen. pose proof (batch_add_exact b r Hf Hlen) as Hex.
  destruct Hf as [Hr Hb Hl Hroom]. apply has_room_iff in Hroom as [Hrows Hbytes].
  split.
  - cbn. rewrite length_app. cbn. lia.
  - cbn. lia.
  - rewrite Hex. cbn [batch_add batch_rows]. rewrite batch_bytes_app. cbn. lia.
  - cbn [batch_add batch_rows]. rewrite removelast_last. lia.
Qed.

Lemma batch_add_filling b r :
  filling row_len b -> 0 <= row_len r <= MaxAllocSize ->
  batch_has_room (batch_add row_len b r) = true -> filling row_len (batch_add row_len b r).
Proof.
  intros Hf Hlen Hroom. destruct (batch_add_handed b r Hf Hlen) as [H1 _ H3 _].
  split; auto. cbn. apply Forall_app. split; [apply Hf | auto].
Qed.

Lemma filling_handed b : filling row_len b -> handed row_len b.
Proof.
  intros [Hr Hb Hl Hroom]. apply has_room_iff in Hroom as [Hrows Hbytes].
  split; auto; [lia|].
  destruct (batch_rows b) as [|x l _] using rev_ind; [cbn; unfold MAX_BATCH_BYTES; lia|].
  rewrite removelast_last. rewrite batch_bytes_app in Hb. cbn in Hb.
  apply Forall_app in Hl as [_ Hx]. inversion Hx; subst. lia.
Qed.

Lemma copy_batches_shape src b processed :
  Forall (fun r => 0 <= row_len r <= MaxAllocSize) src ->
  filling row_len b ->
  exists full last,
    fst (copy_batches row_len src b processed) = full ++ [last]
    /\ Forall (fun f => handed row_len f /\ batch_has_room f = false) full
    /\ handed row_len last /\ batch_has_room last = true
    /\ concat (map batch_rows (full ++ [last])) = batch_rows b ++ src.
Proof.
  intros Hsrc. revert b processed.
  induction Hsrc as [|r src Hr Hsrc IH]; intros b processed Hb.
  - exists [], b. cbn. rewrite !app_nil_r.
    split; [reflexivity|]. split; [constructor|].
    split; [now apply filling_handed|]. split; [apply Hb | reflexivity].
  - cbn [copy_batches].
    destruct (batch_has_room (batch_add row_len b r)) eqn:Eroom.
    + destruct (IH (batch_add row_len b r) processed) as [full [last H]].
      { now apply batch_add_filling. }
      exists full, last. cbn [batch_add batch_rows] in H.
      rewrite <- app_assoc in H. exact H.
    + destruct (copy_batches row_len src empty_batch _) as [sent total] eqn:Erec.
      destruct (IH empty_batch (uint64 (processed + current_batch_rows
                                                        (batch_add row_len b r))))
        as [full [last [H1 [H2 [H3 [H4 H5]]]]]]; [apply filling_empty|].
      rewrite Erec in H1. cbn [fst] in H1. subst sent.
      exists (batch_add row_len b r :: full), last. cbn [fst].
      split; [reflexivity|]. split; [|split; [exact H3|split; [exact H4|]]].
      * constructor; [|exact H2]. split; [now apply batch_add_handed | exact Eroom].
      * cbn [app map concat]. rewrite H5. cbn. now rewrite <- app_assoc.
Qed.

(** C1 (as the code has it): every batch handed to the send phase holds at
    most 1024 rows and stays below 10 MiB until its last row is added, so
    the byte threshold closes a batch but does not cap it; every batch
    but the last is closed by one of the two thresholds, the last one, at
    the end of the source, is below both; no row is lost or repeated. *)
Theorem copy_batches_bounds src :
  Forall (fun r => 0 <= row_len r <= MaxAllocSize) src ->
  exists full last,
    fst (copy_batches row_len src empty_batch 0) = full ++ [last]
    /\ Forall (fun b =>
                 Z.of_nat (length (batch_rows b)) <= MAX_BATCH_ROWS
                 /\ bytes_of (removelast (batch_rows b)) < MAX_BATCH_BYTES
                 /\ current_batch_rows b = Z.of_nat (length (batch_rows b))
                 /\ current_batch_bytes b = bytes_of (batch_rows b))
              (full ++ [last])
    /\ Forall (fun b =>
                 Z.of_nat (length (batch_rows b)) = MAX_BATCH_ROWS
                 \/ MAX_BATCH_BYTES <= bytes_of (batch_rows b)) full
    /\ Z.of_nat (length (batch_rows last)) < MAX_BATCH_ROWS
    /\ bytes_of (batch_rows last) < MAX_BATCH_BYTES
    /\ concat (map batch_rows (full ++ [last])) = src.
Proof.
  intros Hsrc.
  destruct (copy_batches_shape src empty_batch 0 Hsrc filling_empty)
    as [full [last [H1 [H2 [H3 [H4 H5]]]]]].
  exists full, last. split; [exact H1|].
  assert (Hh : forall b, handed row_len b ->
               Z.of_nat (length (batch_rows b)) <= MAX_BATCH_ROWS
               /\ bytes_of (removelast (batch_rows b)) < MAX_BATCH_BYTES
               /\ current_batch_rows b = Z.of_nat (length (batch_rows b))
               /\ current_batch_bytes b = bytes_of (batch_rows b)).
  { intros b [Ha Hb Hc Hd]. repeat split; auto. lia. }
  split; [|split; [|split; [|split]]].
  - apply Forall_app. split.
    + eapply Forall_impl; [|exact H2]. intros b [Hb _]. cbv beta. now apply Hh.
    + constructor; [now apply Hh | constructor].
  - eapply Forall_impl; [|exact H2]. intros b [[Ha Hb Hc Hd] Hroom]. cbv beta.
    unfold batch_has_room in Hroom. apply andb_false_iff in Hroom.
    rewrite !Z.ltb_ge in Hroom. lia.
  - apply has_room_iff in H4. destruct H3. lia.
  - apply has_room_iff in H4. destruct H3. lia.
  - exact H5.
Qed.
End BatchLoopProofs.

(** A source of two rows of 6 MiB each: both go into one batch of 12 MiB,
    above the 10 MiB that the specification gives as a bound. *)
Lemma batch_exceeds_byte_threshold :
  exists b rest,
    fst (copy_batches (fun n : Z => n) [6291456; 6291456] empty_batch 0) = b :: rest
    /\ batch_rows b = [6291456; 6291456]
    /\ current_batch_bytes b = 12582912
    /\ MAX_BATCH_BYTES < current_batch_bytes b.
Proof. eexists _, _. split; [reflexivity|]. cbn. repeat split; reflexivity. Qed.

Lemma copy_batches_bounds_witness :
  exists full last,
    fst (copy_batches (fun n : Z => n) [6291456; 6291456; 5] empty_batch 0) = full ++ [last]
    /\ Forall (fun b =>
                 Z.of_nat (length (batch_rows b)) <= MAX_BATCH_ROWS
                 /\ batch_bytes (fun n : Z => n) (removelast (batch_rows b)) < MAX_BATCH_BYTES
                 /\ current_batch_rows b = Z.of_nat (length (batch_rows b))
                 /\ current_batch_bytes b = batch_bytes (fun n : Z => n) (batch_rows b))
              (full ++ [last])
    /\ Forall (fun b =>
                 Z.of_nat (length (batch_rows b)) = MAX_BATCH_ROWS
                 \/ MAX_BATCH_BYTES <= batch_bytes (fun n : Z => n) (batch_rows b)) full
    /\ Z.of_nat (length (batch_rows last)) < MAX_BATCH_ROWS
    /\ batch_bytes (fun n : Z => n) (batch_rows last) < MAX_BATCH_BYTES
    /\ concat (map batch_rows (full ++ [last])) = [6291456; 6291456; 5].
Proof.
  apply (copy_batches_bounds (fun n : Z => n) [6291456; 6291456; 5]).
  repeat constructor; unfold MaxAllocSize; lia.
Defined.

(* ================================================================= *)
(** * Proofs: the state-and-error monad *)

Lemma bind_inv {A B} (m : M A) (k : A -> M B) w r w' :
  bind m k w = (r, w') ->
  (exists a w1, m w = (Ok a, w1) /\ k a w1 = (r, w'))
  \/ (exists e, m w = (Raise e, w') /\ r = Raise e).
Proof.
  unfold bind. destruct (m w) as [[a|e] w1]; intros H.
  - left. eauto.
  - right. injection H as <- <-. eauto.
Qed.

Lemma bind_ok {A B} (m : M A) (k : A -> M B) w a w1 :
  m w = (Ok a, w1) -> bind m k w = k a w1.
Proof. unfold bind. now intros ->. Qed.

Lemma bind_ret {A B} (a : A) (k : A -> M B) w : bind (ret a) k w = k a w.
Proof. reflexivity. Qed.

Lemma bind_raise {A B} (m : M A) (k : A -> M B) w e w1 :
  m w = (Raise e, w1) -> bind m k w = (Raise e, w1).
Proof. unfold bind. now intros ->. Qed.

Section Follows.
Context (R : World -> World -> Prop).
Hypothesis R_refl : forall w, R w w.
Hypothesis R_trans : forall w1 w2 w3, R w1 w2 -> R w2 w3 -> R w1 w3.

Lemma follows_ret {A} (a : A) : follows R (ret a).
Proof. intros w r w' H. injection H as _ <-. apply R_refl. Qed.

Lemma follows_raise {A} e : follows R (@raise A e).
Proof. intros w r w' H. injection H as _ <-. apply R_refl. Qed.

Lemma follows_lift {A} (x : Res A) : follows R (lift x).
Proof. intros w r w' H. injection H as _ <-. apply R_refl. Qed.

Lemma follows_bind {A B} (m : M A) (k : A -> M B) :
  follows R m -> (forall a, follows R (k a)) -> follows R (bind m k).
Proof.
  intros Hm Hk w r w' H. apply bind_inv in H as [(a & w1 & H1 & H2)|(e & H1 & _)].
  - eapply R_trans; [eapply Hm | eapply Hk]; eauto.
  - eapply Hm; eauto.
Qed.

Lemma follows_foldM {A B} (f : B -> A -> M B) l b :
  (forall b x, follows R (f b x)) -> follows R (foldM f l b).
Proof.
  intros Hf. revert b. induction l as [|x l IH]; intros b; cbn [foldM].
  - apply follows_ret.
  - apply follows_bind; auto.
Qed.

Lemma follows_forM {A} (f : A -> M unit) l :
  (forall x, follows R (f x)) -> follows R (forM f l).
Proof. intros Hf. apply follows_foldM. auto. Qed.

Lemma follows_mapM {A B} (f : A -> M B) l :
  (forall x, follows R (f x)) -> follows R (mapM f l).
Proof.
  intros Hf. induction l as [|x l IH]; cbn [mapM].
  - apply follows_ret.
  - apply follows_bind; [auto|]. intros y. apply follows_bind; [auto|].
    intros ys. apply follows_ret.
Qed.

Lemma follows_try_catch {A} (body : M A) handler :
  follows R body -> follows R handler -> follows R (try_catch body handler).
Proof.
  intros Hb Hh w r w' H. unfold try_catch in H.
  destruct (body w) as [[a|e] w1] eqn:Eb.
  - injection H as _ <-. eapply Hb; eauto.
  - destruct (handler w1) as [[u|e'] w2] eqn:Eh; injection H as _ <-;
      (eapply R_trans; [eapply Hb | eapply Hh]; eauto).
Qed.
End Follows.

Create HintDb frames.

Ltac frame_side :=
  first [ solve [eauto]
        | solve [unfold same_conns, same_state, same_user, answers_le;
                 intros; first [congruence | lia]] ].

Ltac head_of t :=
  match t with
  | ?f _ => head_of f
  | _ => t
  end.

(* ----------------------------------------------------------------- *)
(** ** Growth of the trace *)

Lemma extends_refl phi w : extends phi w w.
Proof. exists []. now rewrite app_nil_r. Qed.

Lemma extends_trans phi w1 w2 w3 :
  extends phi w1 w2 -> extends phi w2 w3 -> extends phi w1 w3.
Proof.
  intros (e1 & H1 & F1) (e2 & H2 & F2). exists (e1 ++ e2).
  rewrite H2, H1, app_assoc. split; [reflexivity | now apply Forall_app].
Qed.

Lemma extends_weaken (phi psi : Event -> Prop) w w' :
  (forall e, phi e -> psi e) -> extends phi w w' -> extends psi w w'.
Proof. intros H (evs & E & F). exists evs. split; [exact E | eapply Forall_impl; eauto]. Qed.

#[global] Hint Resolve extends_refl extends_trans : core.

Lemma emits_emit phi e : phi e -> follows (extends phi) (emit e).
Proof. intros He w r w' H. injection H as _ <-. exists [e]. cbn. auto. Qed.

Lemma emits_next_answer phi : follows (extends phi) next_answer.
Proof. intros w r w' H. injection H as _ <-. exists []. cbn. now rewrite app_nil_r. Qed.

Lemma emits_set_conn phi c d : follows (extends phi) (set_conn c d).
Proof. intros w r w' H. injection H as _ <-. exists []. cbn. now rewrite app_nil_r. Qed.

Lemma emits_get_conn phi c : follows (extends phi) (get_conn c).
Proof. intros w r w' H. injection H as _ <-. exists []. cbn. now rewrite app_nil_r. Qed.

Lemma emits_get_state phi : follows (extends phi) get_state.
Proof. intros w r w' H. injection H as _ <-. exists []. cbn. now rewrite app_nil_r. Qed.

Lemma emits_put_state phi s : follows (extends phi) (put_state s).
Proof. intros w r w' H. injection H as _ <-. exists []. cbn. now rewrite app_nil_r. Qed.

Lemma emits_GetUserId phi : follows (extends phi) GetUserId.
Proof. intros w r w' H. injection H as _ <-. exists []. cbn. now rewrite app_nil_r. Qed.

Lemma emits_pending_answers phi : follows (extends phi) pending_answers.
Proof. intros w r w' H. injection H as _ <-. exists []. cbn. now rewrite app_nil_r. Qed.

#[global] Hint Resolve emits_next_answer emits_set_conn emits_get_conn emits_get_state
  emits_put_state emits_GetUserId emits_pending_answers : frames.

(** A base operation under a frame relation. *)
Ltac frame_base :=
  let H := fresh in
  intros ? ? ? H; injection H as _ <-;
  unfold same_conns, same_state, same_user, answers_le; cbn;
  first [ reflexivity | lia | destruct (answers _); cbn; lia
        | exists []; cbn; rewrite ?app_nil_r; solve [auto] ].

(** Walk through binds, loops and case distinctions, unfolding the
    functions met on the way, down to the base operations. *)
Ltac frame :=
  repeat first
    [ solve [eauto with frames]
    | apply follows_ret; frame_side
    | apply follows_raise; frame_side
    | apply follows_lift; frame_side
    | apply follows_bind; [frame_side .. | | intros ?]
    | apply follows_foldM; [frame_side .. | intros ? ?]
    | apply follows_forM; [frame_side .. | intros ?]
    | apply follows_mapM; [frame_side .. | intros ?]
    | apply follows_try_catch; [frame_side .. | |]
    | match goal with
      | |- follows _ (if ?b then _ else _) => destruct b
      | |- follows _ (match ?x with _ => _ end) => destruct x
      end
    | solve [eauto with frames]
    | solve [apply emits_emit; cbn;
             first [reflexivity | tauto | discriminate | congruence
                   | repeat split; reflexivity]]
    | solve [frame_base]
    | match goal with
      | |- follows _ ?m => let h := head_of m in progress unfold h
      end ].

Lemma emits_next_int phi d : follows (extends phi) (next_int d).
Proof. frame. Qed.
#[global] Hint Resolve emits_next_int : frames.

Lemma emits_CHECK_FOR_INTERRUPTS phi : follows (extends phi) CHECK_FOR_INTERRUPTS.
Proof. frame. Qed.

Lemma emits_get_status phi c : follows (extends phi) (remote_connection_get_status c).
Proof. frame. Qed.

Lemma emits_set_status phi c s : follows (extends phi) (remote_connection_set_status c s).
Proof. frame. Qed.

Lemma emits_add_connection_in_use phi c : follows (extends phi) (add_connection_in_use c).
Proof. frame. Qed.

Lemma emits_cache_connection phi e : follows (extends phi) (cache_connection e).
Proof. frame. Qed.

#[global] Hint Resolve emits_CHECK_FOR_INTERRUPTS emits_get_status emits_set_status
  emits_add_connection_in_use emits_cache_connection : frames.

(* ----------------------------------------------------------------- *)
(** ** Frames of the flush *)

Lemma flush_loop_emits fuel cs : follows (extends flush_io) (flush_loop fuel cs).
Proof.
  unfold flush_io. revert cs. induction fuel as [|fuel IH]; intros cs; cbn [flush_loop]; frame.
Qed.

Lemma flush_loop_same_conns fuel cs : follows same_conns (flush_loop fuel cs).
Proof. revert cs. induction fuel as [|fuel IH]; intros cs; cbn [flush_loop]; frame. Qed.

Lemma flush_loop_same_state fuel cs : follows same_state (flush_loop fuel cs).
Proof. revert cs. induction fuel as [|fuel IH]; intros cs; cbn [flush_loop]; frame. Qed.

Lemma flush_loop_answers_le fuel cs : follows answers_le (flush_loop fuel cs).
Proof. revert cs. induction fuel as [|fuel IH]; intros cs; cbn [flush_loop]; frame. Qed.

#[global] Hint Resolve flush_loop_emits flush_loop_same_conns flush_loop_same_state
  flush_loop_answers_le : frames.

Lemma foldM_flush_connection_answers_le cs acc :
  follows answers_le (foldM flush_connection cs acc).
Proof. frame. Qed.

Lemma flush_active_connections_same_state : follows same_state flush_active_connections.
Proof. frame. Qed.

Lemma flush_active_connections_same_user : follows same_user flush_active_connections.
Proof.
  assert (forall fuel cs, follows same_user (flush_loop fuel cs)).
  { induction fuel as [|fuel IH]; intros cs; cbn [flush_loop]; frame. }
  frame.
Qed.

Lemma flush_active_connections_answers_le : follows answers_le flush_active_connections.
Proof. frame. Qed.

#[global] Hint Resolve flush_active_connections_same_state
  flush_active_connections_same_user flush_active_connections_answers_le : frames.

(* ----------------------------------------------------------------- *)
(** ** What a run can raise *)

Section Raises.
Context (P : Error -> Prop).

Lemma raises_ret {A} (a : A) : raises P (ret a).
Proof. intros w e w' H. discriminate H. Qed.

Lemma raises_raise {A} e : P e -> raises P (@raise A e).
Proof. intros He w e' w' H. injection H as <- _. exact He. Qed.

Lemma raises_bind {A B} (m : M A) (k : A -> M B) :
  raises P m -> (forall a, raises P (k a)) -> raises P (bind m k).
Proof.
  intros Hm Hk w e w' H. apply bind_inv in H as [(a & w1 & H1 & H2)|(e' & H1 & E)].
  - eapply Hk; eauto.
  - injection E as ->. eapply Hm; eauto.
Qed.

Lemma raises_foldM {A B} (f : B -> A -> M B) l b :
  (forall b x, raises P (f b x)) -> raises P (foldM f l b).
Proof.
  intros Hf. revert b. induction l as [|x l IH]; intros b; cbn [foldM].
  - apply raises_ret.
  - apply raises_bind; auto.
Qed.

Lemma raises_forM {A} (f : A -> M unit) l :
  (forall x, raises P (f x)) -> raises P (forM f l).
Proof. intros Hf. apply raises_foldM. auto. Qed.

Lemma raises_mapM {A B} (f : A -> M B) l :
  (forall x, raises P (f x)) -> raises P (mapM f l).
Proof.
  intros Hf. induction l as [|x l IH]; cbn [mapM].
  - apply raises_ret.
  - apply raises_bind; [auto|]. intros y. apply raises_bind; [auto|].
    intros ys. apply raises_ret.
Qed.
End Raises.

Lemma never_raises_weaken {A} (m : M A) (P : Error -> Prop) :
  raises (fun _ => False) m -> raises P m.
Proof. intros H w e w' E. destruct (H w e w' E). Qed.

Lemma emit_never_raises e : raises (fun _ => False) (emit e).
Proof. intros w e' w' H. discriminate H. Qed.
Lemma next_answer_never_raises : raises (fun _ => False) next_answer.
Proof. intros w e' w' H. discriminate H. Qed.
Lemma set_conn_never_raises c d : raises (fun _ => False) (set_conn c d).
Proof. intros w e' w' H. discriminate H. Qed.
Lemma get_conn_never_raises c : raises (fun _ => False) (get_conn c).
Proof. intros w e' w' H. discriminate H. Qed.
Lemma get_state_never_raises : raises (fun _ => False) get_state.
Proof. intros w e' w' H. discriminate H. Qed.
Lemma put_state_never_raises s : raises (fun _ => False) (put_state s).
Proof. intros w e' w' H. discriminate H. Qed.
Lemma GetUserId_never_raises : raises (fun _ => False) GetUserId.
Proof. intros w e' w' H. discriminate H. Qed.
Lemma pending_answers_never_raises : raises (fun _ => False) pending_answers.
Proof. intros w e' w' H. discriminate H. Qed.

Create HintDb raises.
#[global] Hint Resolve emit_never_raises next_answer_never_raises set_conn_never_raises
  get_conn_never_raises get_state_never_raises put_state_never_raises
  GetUserId_never_raises pending_answers_never_raises : raises.

Ltac raises_walk :=
  repeat first
    [ solve [eauto with raises]
    | apply raises_ret
    | apply raises_raise; cbn; solve [auto | tauto | discriminate | congruence | eauto]
    | apply raises_bind; [| intros ?]
    | apply raises_foldM; intros ? ?
    | apply raises_forM; intros ?
    | apply raises_mapM; intros ?
    | match goal with
      | |- raises _ (if ?b then _ else _) => destruct b
      | |- raises _ (match ?x with _ => _ end) => destruct x
      end
    | solve [eauto with raises]
    | solve [apply never_raises_weaken; eauto with raises]
    | match goal with
      | |- raises _ ?m => let h := head_of m in progress unfold h
      end ].

Lemma next_int_never_raises d : raises (fun _ => False) (next_int d).
Proof. unfold next_int. raises_walk. Qed.
#[global] Hint Resolve next_int_never_raises : raises.

Lemma get_status_never_raises c : raises (fun _ => False) (remote_connection_get_status c).
Proof. unfold remote_connection_get_status. raises_walk. Qed.
Lemma set_status_never_raises c s :
  raises (fun _ => False) (remote_connection_set_status c s).
Proof. unfold remote_connection_set_status. raises_walk. Qed.
Lemma PQgetResult_never_raises c : raises (fun _ => False) (PQgetResult c).
Proof. unfold PQgetResult. raises_walk. Qed.
Lemma PQputCopyEnd_never_raises c : raises (fun _ => False) (PQputCopyEnd c).
Proof. unfold PQputCopyEnd. raises_walk. Qed.
Lemma PQputCopyData_never_raises c d : raises (fun _ => False) (PQputCopyData c d).
Proof. unfold PQputCopyData. raises_walk. Qed.
Lemma PQflush_never_raises c : raises (fun _ => False) (PQflush c).
Proof. unfold PQflush. raises_walk. Qed.
Lemma PQconsumeInput_never_raises c : raises (fun _ => False) (PQconsumeInput c).
Proof. unfold PQconsumeInput. raises_walk. Qed.
Lemma PQisBusy_never_raises c : raises (fun _ => False) (PQisBusy c).
Proof. unfold PQisBusy. raises_walk. Qed.
Lemma PQsetnonblocking_never_raises c a : raises (fun _ => False) (PQsetnonblocking c a).
Proof. unfold PQsetnonblocking. raises_walk. Qed.
Lemma begin_copy_never_raises c cmd b :
  raises (fun _ => False) (remote_connection_begin_copy c cmd b).
Proof. unfold remote_connection_begin_copy. raises_walk. Qed.
Lemma end_copy_never_raises c : raises (fun _ => False) (remote_connection_end_copy c).
Proof. unfold remote_connection_end_copy. raises_walk. Qed.
Lemma put_copy_data_never_raises c d :
  raises (fun _ => False) (remote_connection_put_copy_data c d).
Proof. unfold remote_connection_put_copy_data. raises_walk. Qed.
Lemma find_chunk_never_raises p :
  raises (fun _ => False) (ts_hypertable_find_chunk_for_point p).
Proof. unfold ts_hypertable_find_chunk_for_point. raises_walk. Qed.
Lemma set_unordered_never_raises c : raises (fun _ => False) (ts_chunk_set_unordered c).
Proof. unfold ts_chunk_set_unordered. raises_walk. Qed.
Lemma add_connection_in_use_never_raises c :
  raises (fun _ => False) (add_connection_in_use c).
Proof. unfold add_connection_in_use. raises_walk. Qed.
Lemma cache_connection_never_raises e : raises (fun _ => False) (cache_connection e).
Proof. unfold cache_connection. raises_walk. Qed.

#[global] Hint Resolve get_status_never_raises set_status_never_raises
  PQgetResult_never_raises PQputCopyEnd_never_raises PQputCopyData_never_raises
  PQflush_never_raises PQconsumeInput_never_raises PQisBusy_never_raises
  PQsetnonblocking_never_raises begin_copy_never_raises end_copy_never_raises
  put_copy_data_never_raises find_chunk_never_raises set_unordered_never_raises
  add_connection_in_use_never_raises cache_connection_never_raises : raises.

(** A call that cannot raise goes on with its value. *)
Lemma bind_total {A B} (m : M A) (k : A -> M B) w r w' :
  raises (fun _ => False) m ->
  bind m k w = (r, w') ->
  exists a w1, m w = (Ok a, w1) /\ k a w1 = (r, w').
Proof.
  intros Hm H. apply bind_inv in H as [H|(e & H & _)]; [exact H|].
  destruct (Hm _ _ _ H).
Qed.

(* ----------------------------------------------------------------- *)
(** ** The calls, one by one *)

Lemma next_int_eq d w : next_int d w = (Ok (int_answer d (answers w)), pop w).
Proof. reflexivity. Qed.

Lemma get_status_eq c w :
  remote_connection_get_status c w = (Ok (conn_status (conns w c)), w).
Proof. reflexivity. Qed.

Lemma set_status_eq c s w :
  remote_connection_set_status c s w
  = (Ok tt, with_conns w (<[c := {| conn_status := s;
                                     conn_nonblocking := conn_nonblocking (conns w c) |}]>
                            (conns w))).
Proof. reflexivity. Qed.

Lemma PQgetResult_eq c w :
  let z := int_answer (-1) (answers w) in
  let res := if z <? 0 then None else Some z in
  PQgetResult c w = (Ok res, log (pop w) (EvGetResult c res)).
Proof. reflexivity. Qed.

Lemma PQputCopyEnd_eq c w :
  let z := int_answer 1 (answers w) in
  PQputCopyEnd c w = (Ok z, log (pop w) (EvPutCopyEnd c z)).
Proof. reflexivity. Qed.

Lemma PQputCopyData_eq c d w :
  let z := int_answer 1 (answers w) in
  PQputCopyData c d w = (Ok z, log (pop w) (EvPutCopyData c d z)).
Proof. reflexivity. Qed.

Lemma PQflush_eq c w :
  let z := int_answer 0 (answers w) in
  PQflush c w = (Ok z, log (pop w) (EvFlush c z)).
Proof. reflexivity. Qed.

Lemma PQconsumeInput_eq c w :
  let z := int_answer 1 (answers w) in
  PQconsumeInput c w = (Ok z, log (pop w) (EvConsumeInput c z)).
Proof. reflexivity. Qed.

Lemma PQisBusy_eq c w :
  let z := int_answer 0 (answers w) in
  PQisBusy c w = (Ok z, log (pop w) (EvIsBusy c z)).
Proof. reflexivity. Qed.

Lemma CHECK_FOR_INTERRUPTS_raises :
  raises (fun e => e = ErrInterrupt) CHECK_FOR_INTERRUPTS.
Proof. raises_walk. Qed.

Lemma CHECK_FOR_INTERRUPTS_eq w :
  CHECK_FOR_INTERRUPTS w
  = (if int_answer 0 (answers w) =? 0 then Ok tt else Raise ErrInterrupt, pop w).
Proof.
  unfold CHECK_FOR_INTERRUPTS. rewrite (bind_ok _ _ _ _ _ (next_int_eq 0 w)).
  destruct (_ =? 0); reflexivity.
Qed.

Lemma PQsetnonblocking_eq c arg w :
  let z := int_answer 0 (answers w) in
  let w1 := log (pop w) (EvSetNonblocking c arg z) in
  PQsetnonblocking c arg w
  = (Ok z,
     if z =? 0 then
       with_conns w1 (<[c := {| conn_status := conn_status (conns w c);
                                conn_nonblocking := negb (arg =? 0) |}]> (conns w))
     else w1).
Proof.
  cbv zeta. unfold PQsetnonblocking.
  rewrite (bind_ok _ _ _ _ _ (next_int_eq 0 w)).
  cbn. destruct (_ =? 0); reflexivity.
Qed.

Lemma begin_copy_eq c cmd b w :
  let ok := negb (int_answer 1 (answers w) =? 0) in
  let w1 := log (pop w) (EvBeginCopy c cmd b ok) in
  remote_connection_begin_copy c cmd b w
  = (Ok ok,
     if ok then
       with_conns w1 (<[c := {| conn_status := CONN_COPY_IN; conn_nonblocking := true |}]>
                        (conns w))
     else w1).
Proof.
  cbv zeta. unfold remote_connection_begin_copy.
  rewrite (bind_ok _ _ _ _ _ (next_int_eq 1 w)).
  cbn. destruct (negb _); reflexivity.
Qed.

Lemma end_copy_eq c w :
  let ok := negb (int_answer 1 (answers w) =? 0) in
  let w1 := log (pop w) (EvEndCopy c ok) in
  remote_connection_end_copy c w
  = (Ok ok,
     if ok then
       with_conns w1 (<[c := {| conn_status := CONN_IDLE; conn_nonblocking := false |}]>
                        (conns w))
     else w1).
Proof.
  cbv zeta. unfold remote_connection_end_copy.
  rewrite (bind_ok _ _ _ _ _ (next_int_eq 1 w)).
  cbn. destruct (negb _); reflexivity.
Qed.

Lemma put_copy_data_eq c d w :
  let ok := negb (int_answer 1 (answers w) =? 0) in
  remote_connection_put_copy_data c d w
  = (Ok ok, log (pop w) (EvRemotePutCopyData c d ok)).
Proof. reflexivity. Qed.

Lemma get_connection_eq id w :
  let z := int_answer 0 (answers w) in
  remote_dist_txn_get_connection id w
  = if z <? 0 then (Raise (ErrCallee z), pop w)
    else (Ok z, log (pop w) (EvGetConnection id z)).
Proof.
  cbv zeta. unfold remote_dist_txn_get_connection.
  rewrite (bind_ok _ _ _ _ _ (next_int_eq 0 w)).
  destruct (_ <? 0); reflexivity.
Qed.

Lemma find_chunk_eq p w :
  ts_hypertable_find_chunk_for_point p w
  = (Ok (chunk_answer (answers w)), log (pop w) (EvFindChunk p (chunk_answer (answers w)))).
Proof. reflexivity. Qed.

Lemma create_chunk_eq p w :
  ts_hypertable_create_chunk_for_point p w
  = match chunk_answer (answers w) with
    | Some c => (Ok c, log (pop w) (EvCreateChunk p c))
    | None => (Raise (ErrCallee (int_answer 0 (answers w))), pop w)
    end.
Proof.
  unfold ts_hypertable_create_chunk_for_point, chunk_answer, int_answer, bind, next_answer.
  destruct (head (answers w)) as [[z|c]|]; reflexivity.
Qed.

(* ================================================================= *)
(** * Proofs: flushing the active connections *)

Ltac run H eq := erewrite bind_ok in H by (apply eq); cbv zeta in H.

Ltac done_run H :=
  first [ injection H as <- <- | injection H as _ <- | idtac ].

(** ** The fourth loop *)

Lemma flush_verify_outcome c w r w' :
  flush_verify c w = (r, w') ->
  conns w' = conns w
  /\ connection_state w' = connection_state w
  /\ exists evs,
      trace w' = trace w ++ evs
      /\ match r with
         | Ok _ => evs = verified c
         | Raise e => verify_failure c evs e
         end.
Proof.
  intros H. unfold flush_verify in H. run H PQgetResult_eq.
  set (z := int_answer (-1) (answers w)) in H. clearbody z.
  destruct (z <? 0).
  - injection H as <- <-. cbn. repeat split. eexists. split; [reflexivity|]. constructor.
  - destruct (Z.eqb_spec z PGRES_COMMAND_OK) as [Heq|Hne]; [subst z|]; cbn [negb] in H.
    + run H PQgetResult_eq.
      set (z' := int_answer (-1) _) in H. clearbody z'.
      destruct (z' <? 0); injection H as <- <-; cbn; repeat split;
        rewrite <- app_assoc; eexists; (split; [reflexivity|]).
      * reflexivity.
      * constructor.
    + injection H as <- <-. cbn. repeat split. eexists. split; [reflexivity|].
      now constructor.
Qed.

Lemma forM_flush_verify_outcome cs w r w' :
  forM flush_verify cs w = (r, w') ->
  conns w' = conns w
  /\ connection_state w' = connection_state w
  /\ exists evs, trace w' = trace w ++ evs /\ verify_outcome cs evs r.
Proof.
  unfold forM. revert w. induction cs as [|c cs IH]; intros w H; cbn [foldM] in H.
  - injection H as <- <-. repeat split. exists []. now rewrite app_nil_r.
  - apply bind_inv in H as [(a & w1 & H1 & H2)|(e & H1 & ->)].
    + apply flush_verify_outcome in H1 as (C1 & S1 & evs1 & T1 & O1). cbv beta in O1.
      destruct a. apply IH in H2 as (C2 & S2 & evs2 & T2 & O2).
      split; [congruence|]. split; [congruence|].
      exists (evs1 ++ evs2). split; [now rewrite T2, T1, app_assoc|].
      subst evs1. destruct r as [u|e]; cbn in *.
      * now rewrite O2.
      * destruct O2 as (done & conn & rest & bad & E1 & E2 & F).
        exists (c :: done), conn, rest, bad. subst. cbn.
        repeat split; auto.
    + apply flush_verify_outcome in H1 as (C1 & S1 & evs1 & T1 & O1).
      repeat split; auto. exists evs1. split; [exact T1|].
      exists [], c, cs, evs1. auto.
Qed.

(** ** The third loop *)

Lemma flush_cleanup_outcome c w r w' :
  flush_cleanup c w = (r, w') ->
  connection_state w' = connection_state w
  /\ (forall c', c' <> c -> conns w' c' = conns w c')
  /\ conn_status (conns w' c) = CONN_IDLE
  /\ exists z,
      trace w' = trace w ++ [EvSetNonblocking c 0 z]
      /\ match r with
         | Ok _ => z = 0 /\ conn_nonblocking (conns w' c) = false
         | Raise e => e = ErrSetBlocking
         end.
Proof.
  intros H. unfold flush_cleanup in H. run H set_status_eq.
  run H PQsetnonblocking_eq.
  set (z := int_answer 0 _) in H. clearbody z. cbn in H.
  destruct (Z.eqb_spec z 0) as [Heq|Hz]; [subst z|]; cbn in H; injection H as <- <-; cbn.
  - repeat split.
    + intros c' Hc. now rewrite !fn_lookup_insert_ne by congruence.
    + rewrite fn_lookup_insert. cbn. now rewrite fn_lookup_insert.
    + exists 0. rewrite fn_lookup_insert. auto.
  - repeat split.
    + intros c' Hc. now rewrite !fn_lookup_insert_ne by congruence.
    + now rewrite fn_lookup_insert.
    + exists z. auto.
Qed.

Lemma forM_flush_cleanup_outcome cs w r w' :
  forM flush_cleanup cs w = (r, w') ->
  connection_state w' = connection_state w
  /\ (forall c, ~ In c cs -> conns w' c = conns w c)
  /\ exists evs,
      trace w' = trace w ++ evs
      /\ Forall (fun e => is_flush_io e = true) evs
      /\ match r with
         | Ok _ =>
             forall c, In c cs -> idle_blocking w' c /\ In (EvSetNonblocking c 0 0) evs
         | Raise e => e = ErrSetBlocking
         end.
Proof.
  unfold forM. revert w. induction cs as [|c cs IH]; intros w H; cbn [foldM] in H.
  - injection H as <- <-. split; [reflexivity|]. split; [reflexivity|].
    exists []. rewrite app_nil_r. split; [reflexivity|]. split; [constructor|].
    intros c0 [].
  - apply bind_inv in H as [(a & w1 & H1 & H2)|(e & H1 & ->)].
    + apply flush_cleanup_outcome in H1 as (S1 & C1 & I1 & z & T1 & [-> N1]).
      destruct a. apply IH in H2 as (S2 & C2 & evs2 & T2 & F2 & O2).
      split; [congruence|]. split.
      { intros c' Hc'. cbn in Hc'. rewrite C2, C1; intuition congruence. }
      exists (EvSetNonblocking c 0 0 :: evs2).
      split; [rewrite T2, T1, <- app_assoc; reflexivity|].
      split; [constructor; auto|].
      destruct r as [u|e]; [|exact O2].
      intros c' [->|Hin].
      * split; [|now left].
        destruct (in_dec Z.eq_dec c' cs) as [Hin|Hout].
        -- apply O2, Hin.
        -- unfold idle_blocking. rewrite (C2 c' Hout). auto.
      * destruct (O2 c' Hin). split; [auto | now right].
    + apply flush_cleanup_outcome in H1 as (S1 & C1 & I1 & z & T1 & ->).
      split; [auto|]. split.
      { intros c' Hc'. cbn in Hc'. apply C1. intuition congruence. }
      exists [EvSetNonblocking c 0 z]. repeat split; auto.
Qed.

(** ** The first loop *)

Lemma flush_end_copy_outcome acc c w r w' :
  flush_end_copy acc c w = (r, w') ->
  connection_state w' = connection_state w
  /\ (forall c', c' <> c -> conns w' c' = conns w c')
  /\ exists evs,
      trace w' = trace w ++ evs
      /\ Forall (fun e => is_flush_io e = true) evs
      /\ match r with
         | Ok l =>
             if status_eqb (conn_status (conns w c)) CONN_COPY_IN
             then l = acc ++ [c] /\ In (EvPutCopyEnd c 1) evs
                  /\ conn_status (conns w' c) = CONN_PROCESSING
             else l = acc /\ evs = [] /\ conns w' = conns w
         | Raise e => is_flush_error e = true
         end.
Proof.
  intros H. unfold flush_end_copy in H. run H get_status_eq.
  destruct (status_eqb (conn_status (conns w c)) CONN_COPY_IN); cbn [negb] in H.
  - run H PQgetResult_eq.
    set (z := int_answer (-1) (answers w)) in H. clearbody z.
    destruct (z <? 0).
    + injection H as <- <-. cbn. repeat split. eexists. split; [reflexivity|]. auto.
    + destruct (z =? PGRES_COPY_IN).
      * run H PQputCopyEnd_eq.
        set (z' := int_answer 1 _) in H. clearbody z'.
        destruct (Z.eqb_spec z' 1) as [Heq|Hz]; [subst z'|]; cbn [negb] in H.
        -- run H set_status_eq.
           injection H as <- <-. cbn. repeat split.
           ++ intros c' Hc. now rewrite fn_lookup_insert_ne by congruence.
           ++ rewrite <- app_assoc. eexists. split; [reflexivity|].
              split; [repeat constructor|].
              split; [reflexivity|]. split; [cbn; auto|].
              now rewrite fn_lookup_insert.
        -- injection H as <- <-. cbn. repeat split.
           rewrite <- app_assoc. eexists. split; [reflexivity|].
           split; [repeat constructor | reflexivity].
      * injection H as <- <-. cbn. repeat split. eexists. split; [reflexivity|]. auto.
  - injection H as <- <-. repeat split. exists []. rewrite app_nil_r. auto.
Qed.

Lemma status_eqb_eq a b : status_eqb a b = true <-> a = b.
Proof. destruct a, b; cbn; split; congruence. Qed.

Lemma foldM_flush_end_copy_outcome cs acc w r w' :
  foldM flush_end_copy cs acc w = (r, w') ->
  connection_state w' = connection_state w
  /\ (forall c, ~ In c cs -> conns w' c = conns w c)
  /\ exists evs,
      trace w' = trace w ++ evs
      /\ Forall (fun e => is_flush_io e = true) evs
      /\ match r with
         | Ok l =>
             exists ended,
               l = acc ++ ended
               /\ (forall c, In c ended -> In c cs /\ In (EvPutCopyEnd c 1) evs)
               /\ (forall c, In c cs -> conn_status (conns w c) = CONN_COPY_IN ->
                             In c ended)
         | Raise e => is_flush_error e = true
         end.
Proof.
  revert acc w. induction cs as [|c cs IH]; intros acc w H; cbn [foldM] in H.
  - injection H as <- <-. split; [reflexivity|]. split; [reflexivity|].
    exists []. rewrite app_nil_r. split; [reflexivity|]. split; [constructor|].
    exists []. rewrite app_nil_r. split; [reflexivity|]. split; intros c0 [].
  - apply bind_inv in H as [(a & w1 & H1 & H2)|(e & H1 & ->)].
    + apply flush_end_copy_outcome in H1 as (S1 & C1 & evs1 & T1 & F1 & O1).
      apply IH in H2 as (S2 & C2 & evs2 & T2 & F2 & O2).
      split; [congruence|]. split.
      { intros c' Hc'. cbn in Hc'. rewrite C2, C1; intuition congruence. }
      exists (evs1 ++ evs2). split; [now rewrite T2, T1, app_assoc|].
      split; [now apply Forall_app|].
      destruct r as [l|e]; [|exact O2].
      destruct O2 as (ended & El & Hended & Hall).
      destruct (status_eqb (conn_status (conns w c)) CONN_COPY_IN) eqn:Est.
      * destruct O1 as (-> & Hput & Hproc).
        exists (c :: ended). split; [now rewrite El, <- app_assoc|]. split.
        -- intros c' [->|Hin].
           ++ split; [now left | apply in_or_app; now left].
           ++ destruct (Hended c' Hin). split; [now right | apply in_or_app; now right].
        -- intros c' [->|Hin] Hst; [now left|].
           destruct (Z.eq_dec c' c) as [->|Hne]; [now left|].
           right. apply Hall; [exact Hin|]. now rewrite C1.
      * destruct O1 as (-> & -> & Hc).
        exists ended. split; [exact El|]. split.
        -- intros c' Hin. destruct (Hended c' Hin). split; [now right | auto].
        -- intros c' [->|Hin] Hst.
           ++ apply status_eqb_eq in Hst. congruence.
           ++ apply Hall; [exact Hin|]. now rewrite Hc.
    + apply flush_end_copy_outcome in H1 as (S1 & C1 & evs1 & T1 & F1 & O1).
      split; [auto|]. split.
      { intros c' Hc'. cbn in Hc'. apply C1. intuition congruence. }
      exists evs1. auto.
Qed.

(** ** The second loop comes to an end *)

Lemma flush_connection_quiet acc c w :
  answers w = [] ->
  exists w', flush_connection acc c w = (Ok acc, w') /\ answers w' = [].
Proof.
  intros Hq. unfold flush_connection. destruct acc as [next events].
  erewrite bind_ok by apply PQflush_eq. cbv zeta.
  rewrite Hq. cbn [int_answer head Z.eqb].
  erewrite bind_ok by apply PQconsumeInput_eq. cbv zeta.
  cbn [answers log pop with_trace with_answers]. rewrite Hq. cbn [tail int_answer head Z.eqb].
  erewrite bind_ok by apply PQisBusy_eq. cbv zeta.
  cbn [answers log pop with_trace with_answers]. rewrite Hq. cbn.
  eexists. split; [reflexivity|]. cbn. now rewrite Hq.
Qed.

Lemma foldM_flush_connection_quiet cs acc w :
  answers w = [] ->
  exists w', foldM flush_connection cs acc w = (Ok acc, w') /\ answers w' = [].
Proof.
  revert w. induction cs as [|c cs IH]; intros w Hq; cbn [foldM].
  - eexists. split; [reflexivity | exact Hq].
  - destruct (flush_connection_quiet acc c w Hq) as (w1 & E1 & Q1).
    rewrite (bind_ok _ _ _ _ _ E1). now apply IH.
Qed.

Lemma flush_loop_returns fuel cs w r w' :
  (length (answers w) < fuel)%nat ->
  flush_loop fuel cs w = (r, w') -> r <> Ok None.
Proof.
  revert cs w. induction fuel as [|fuel IH]; intros cs w Hfuel H; [lia|].
  cbn [flush_loop] in H.
  apply bind_inv in H as [(u & w1 & H1 & H2)|(e & _ & ->)]; [|discriminate].
  apply bind_inv in H2 as [([next events] & w2 & H2 & H3)|(e & _ & ->)]; [|discriminate].
  destruct (Z.of_nat (length next) =? 0) eqn:Enext.
  - injection H3 as <- _. discriminate.
  - apply bind_inv in H3 as [(u' & w3 & H3 & H4)|(e & _ & ->)]; [|discriminate].
    eapply IH; [|exact H4].
    assert (L1 : answers w1 = tail (answers w)).
    { rewrite CHECK_FOR_INTERRUPTS_eq in H1. now injection H1 as _ <-. }
    assert (L2 : answers_le w1 w2) by (eapply foldM_flush_connection_answers_le; eauto).
    assert (L3 : answers w3 = answers w2) by (injection H3 as _ <-; reflexivity).
    unfold answers_le in L2. rewrite L3.
    destruct (answers w) as [|a rest] eqn:Ea.
    + exfalso. cbn in L1.
      destruct (foldM_flush_connection_quiet cs ([], []) w1 L1) as (w2' & E & _).
      rewrite E in H2. injection H2 as <- _ _. discriminate Enext.
    + rewrite L1 in L2. cbn in *. lia.
Qed.

Lemma flush_drain_returns w r w' : flush_drain w = (r, w') -> r <> Ok None.
Proof.
  unfold flush_drain. intros H.
  run H (fun w => eq_refl : get_state w = (Ok (connection_state w), w)).
  apply bind_inv in H as [(l & w1 & H1 & H2)|(e & _ & ->)]; [|discriminate].
  run H2 (fun w => eq_refl : pending_answers w = (Ok (length (answers w)), w)).
  apply bind_inv in H2 as [(done & w2 & H2 & H3)|(e & _ & ->)]; [|discriminate].
  apply flush_loop_returns in H2; [|lia].
  injection H3 as <- _. destruct done; [discriminate | congruence].
Qed.

(** ** The whole flush *)

Lemma flush_loop_raises fuel cs :
  raises (fun e => is_flush_error e = true) (flush_loop fuel cs).
Proof.
  revert cs. induction fuel as [|fuel IH]; intros cs; cbn [flush_loop]; raises_walk.
Qed.

Lemma emit_eq e w : emit e w = (Ok tt, log w e).
Proof. reflexivity. Qed.

Lemma get_state_eq w : get_state w = (Ok (connection_state w), w).
Proof. reflexivity. Qed.

Lemma pending_answers_eq w : pending_answers w = (Ok (length (answers w)), w).
Proof. reflexivity. Qed.

Lemma flush_drain_outcome w r w' :
  flush_drain w = (r, w') ->
  connection_state w' = connection_state w
  /\ exists evs,
      trace w' = trace w ++ evs
      /\ Forall flush_io evs
      /\ match r with
         | Ok (Some ended) =>
             (forall c, In c (connections_in_use (connection_state w)) ->
                        conn_status (conns w c) = CONN_COPY_IN -> In c ended)
             /\ (forall c, In c ended -> In (EvPutCopyEnd c 1) evs)
         | Ok None => False
         | Raise e => is_flush_error e = true
         end.
Proof.
  intros H. pose proof (flush_drain_returns _ _ _ H) as Hret.
  unfold flush_drain in H. run H get_state_eq.
  apply bind_inv in H as [(l & w1 & H1 & H2)|(e & H1 & ->)].
  - apply foldM_flush_end_copy_outcome in H1 as (S1 & C1 & evs1 & T1 & F1 & O1).
    destruct O1 as (ended & El & Hended & Hall). cbn in El. subst l.
    run H2 pending_answers_eq.
    apply bind_inv in H2 as [(done & w2 & H2 & H3)|(e & H2 & ->)].
    + pose proof (flush_loop_emits _ _ _ _ _ H2) as (evs2 & T2 & F2).
      pose proof (flush_loop_same_state _ _ _ _ _ H2) as S2.
      injection H3 as <- <-. split; [unfold same_state in S2; congruence|].
      exists (evs1 ++ evs2). split; [now rewrite T2, T1, app_assoc|].
      split; [apply Forall_app; auto|].
      destruct done as [u|]; cbn in *; [|congruence].
      split; [exact Hall|]. intros c Hc. apply in_or_app. left. now apply Hended.
    + pose proof (flush_loop_emits _ _ _ _ _ H2) as (evs2 & T2 & F2).
      pose proof (flush_loop_same_state _ _ _ _ _ H2) as S2.
      split; [unfold same_state in S2; congruence|].
      exists (evs1 ++ evs2). split; [now rewrite T2, T1, app_assoc|].
      split; [apply Forall_app; auto|].
      eapply flush_loop_raises; eauto.
  - apply foldM_flush_end_copy_outcome in H1 as (S1 & C1 & evs1 & T1 & F1 & O1).
    split; [exact S1|]. exists evs1. auto.
Qed.

(** ** The phases of a flush *)

(** ** The first loop, call by call *)

Lemma flush_end_copy_calls acc c w l w' :
  flush_end_copy acc c w = (Ok l, w') ->
  exists ended,
    l = acc ++ ended
    /\ trace w' = trace w ++ concat (map ended_copy ended)
    /\ (ended = [] \/ ended = [c]).
Proof.
  intros H. unfold flush_end_copy in H. run H get_status_eq.
  destruct (status_eqb (conn_status (conns w c)) CONN_COPY_IN); cbn [negb] in H.
  - run H PQgetResult_eq.
    destruct (int_answer (-1) (answers w) <? 0); [discriminate|].
    destruct (Z.eqb_spec (int_answer (-1) (answers w)) PGRES_COPY_IN) as [E|]; [|discriminate].
    rewrite E in H. run H PQputCopyEnd_eq.
    match type of H with context [int_answer 1 ?a] => set (z := int_answer 1 a) in * end.
    destruct (Z.eqb_spec z 1) as [Ez|]; cbn [negb] in H; [|discriminate].
    rewrite Ez in H. run H set_status_eq. injection H as <- <-.
    exists [c]. split; [reflexivity|]. split; [|auto].
    cbn. now rewrite <- app_assoc.
  - injection H as <- <-. exists []. rewrite !app_nil_r. auto.
Qed.

Lemma foldM_flush_end_copy_calls cs acc w l w' :
  foldM flush_end_copy cs acc w = (Ok l, w') ->
  exists ended,
    l = acc ++ ended /\ trace w' = trace w ++ concat (map ended_copy ended).
Proof.
  revert acc w. induction cs as [|c cs IH]; intros acc w H; cbn [foldM] in H.
  - injection H as <- <-. exists []. now rewrite !app_nil_r.
  - apply bind_inv in H as [(a & w1 & H1 & H2)|(e & _ & E)]; [|discriminate].
    apply flush_end_copy_calls in H1 as (e1 & -> & T1 & _).
    apply IH in H2 as (e2 & -> & T2).
    exists (e1 ++ e2). split; [now rewrite app_assoc|].
    now rewrite T2, T1, map_app, concat_app, app_assoc.
Qed.

(** ** The flush loop *)

Lemma drained_app_l c pre evs : drained c evs -> drained c (pre ++ evs).
Proof.
  intros (p & r & post & -> & Hr & Hpost). exists (pre ++ p), r, post.
  split; [now rewrite <- app_assoc | auto].
Qed.

Lemma drained_app_r c evs more :
  drained c evs -> Forall (fun e => drain_call_on c e = false) more -> drained c (evs ++ more).
Proof.
  intros (p & r & post & -> & Hr & Hpost) Hmore. exists p, r, (post ++ more).
  split; [now rewrite <- !app_assoc|]. split; [exact Hr | now apply Forall_app].
Qed.

(** One connection in one round: either the loop is done with it, or it
    stays on the list for the next round. *)
Lemma flush_connection_calls next wait c w acc' w' :
  flush_connection (next, wait) c w = (Ok acc', w') ->
  exists evs,
    trace w' = trace w ++ evs
    /\ Forall (fun e => is_drain_io e = true) evs
    /\ (forall c', c' <> c -> Forall (fun e => drain_call_on c' e = false) evs)
    /\ ((fst acc' = next /\ drained c evs) \/ fst acc' = next ++ [c]).
Proof.
  intros H. unfold flush_connection in H. run H PQflush_eq.
  assert (Hother : forall c', c' <> c -> (c =? c') = false)
    by (intros c' Hne; apply Z.eqb_neq; congruence).
  match type of H with context [int_answer 0 ?a] => set (f := int_answer 0 a) in * end.
  destruct (f =? -1); [discriminate|].
  destruct (Z.eqb_spec f 0) as [Ef|].
  - run H PQconsumeInput_eq.
    match type of H with context [int_answer 1 ?a] => set (ci := int_answer 1 a) in * end.
    destruct (Z.eqb_spec ci 0) as [|Hci]; [discriminate|].
    run H PQisBusy_eq.
    match type of H with context [int_answer 0 ?a] => set (b := int_answer 0 a) in * end.
    exists [EvFlush c f; EvConsumeInput c ci; EvIsBusy c b].
    split.
    { destruct (negb (b =? 0)); injection H as _ <-; cbn; now rewrite <- !app_assoc. }
    split; [repeat constructor|].
    split.
    { intros c' Hne. repeat constructor; cbn; eauto. }
    destruct (Z.eqb_spec b 0) as [Eb|]; cbn [negb] in H; injection H as <- _.
    + left. split; [reflexivity|]. exists [], ci, []. rewrite Ef, Eb. auto.
    + right. reflexivity.
  - injection H as <- <-. exists [EvFlush c f].
    split; [reflexivity|]. split; [repeat constructor|].
    split; [|right; reflexivity].
    intros c' Hne. repeat constructor; cbn; eauto.
Qed.

Lemma foldM_flush_connection_calls cs next wait w next' wait' w' :
  foldM flush_connection cs (next, wait) w = (Ok (next', wait'), w') ->
  exists evs busy,
    trace w' = trace w ++ evs
    /\ Forall (fun e => is_drain_io e = true) evs
    /\ next' = next ++ busy
    /\ (forall c, In c busy -> In c cs)
    /\ (forall c, ~ In c cs -> Forall (fun e => drain_call_on c e = false) evs)
    /\ (forall c, In c cs -> In c busy \/ drained c evs).
Proof.
  revert next wait w. induction cs as [|c cs IH]; intros next wait w H; cbn [foldM] in H.
  - injection H as <- <- <-. exists [], []. rewrite !app_nil_r.
    repeat split; auto; intros c [].
  - apply bind_inv in H as [([next1 wait1] & w1 & H1 & H2)|(e & _ & E)]; [|discriminate].
    apply flush_connection_calls in H1 as (evs1 & T1 & D1 & O1 & S1). cbn [fst] in S1.
    apply IH in H2 as (evs2 & busy2 & T2 & D2 & -> & B2 & O2 & S2).
    assert (Hc : ~ In c cs -> Forall (fun e => drain_call_on c e = false) evs2)
      by (intros Hn; now apply O2).
    destruct S1 as [[-> Hdone]| ->].
    + exists (evs1 ++ evs2), busy2.
      split; [now rewrite T2, T1, app_assoc|]. split; [now apply Forall_app|].
      split; [reflexivity|]. split; [intros x Hx; right; now apply B2|].
      split.
      { intros x Hx. apply Forall_app. split.
        - apply O1. intros ->. apply Hx. now left.
        - apply O2. intros Hin. apply Hx. now right. }
      intros x Hx. destruct (in_dec Z.eq_dec x cs) as [Hin|Hnin].
      * destruct (S2 x Hin) as [Hb|Hd]; [now left|]. right. now apply drained_app_l.
      * destruct Hx as [<-|Hx]; [|contradiction]. right. apply drained_app_r; auto.
    + exists (evs1 ++ evs2), (c :: busy2).
      split; [now rewrite T2, T1, app_assoc|]. split; [now apply Forall_app|].
      split; [now rewrite <- app_assoc|].
      split; [intros x [<-|Hx]; [now left | right; now apply B2]|].
      split.
      { intros x Hx. apply Forall_app. split.
        - apply O1. intros ->. apply Hx. now left.
        - apply O2. intros Hin. apply Hx. now right. }
      intros x Hx. destruct (in_dec Z.eq_dec x cs) as [Hin|Hnin].
      * destruct (S2 x Hin) as [Hb|Hd]; [left; now right|]. right. now apply drained_app_l.
      * destruct Hx as [<-|Hx]; [|contradiction]. left. now left.
Qed.

(** When the loop returns it is done with every connection it was given,
    and it has called nothing on any other. *)
Lemma flush_loop_drains fuel cs w w' :
  flush_loop fuel cs w = (Ok (Some tt), w') ->
  exists evs,
    trace w' = trace w ++ evs
    /\ Forall (fun e => is_drain_io e = true) evs
    /\ (forall c, ~ In c cs -> Forall (fun e => drain_call_on c e = false) evs)
    /\ (forall c, In c cs -> drained c evs).
Proof.
  revert cs w. induction fuel as [|fuel IH]; intros cs w H; cbn [flush_loop] in H;
    [discriminate|].
  apply bind_inv in H as [(u & w1 & H1 & H2)|(e & _ & E)]; [|discriminate].
  assert (T1 : trace w1 = trace w).
  { rewrite CHECK_FOR_INTERRUPTS_eq in H1. now injection H1 as _ <-. }
  apply bind_inv in H2 as [([next wait] & w2 & H2 & H3)|(e & _ & E)]; [|discriminate].
  apply foldM_flush_connection_calls in H2 as (evs2 & busy & T2 & D2 & -> & B2 & O2 & S2).
  cbn [app] in H3.
  destruct (Z.of_nat (length busy) =? 0) eqn:Eb.
  - injection H3 as <-. exists evs2. split; [now rewrite T2, T1|]. split; [exact D2|].
    split; [exact O2|]. intros c Hc. destruct (S2 c Hc) as [Hin|Hd]; [|exact Hd].
    destruct busy; [destruct Hin | discriminate].
  - run H3 emit_eq. apply IH in H3 as (evs3 & T3 & D3 & O3 & S3).
    exists (evs2 ++ EvWait (combine busy wait) :: evs3).
    split; [rewrite T3; cbn; rewrite T2, T1; now rewrite <- !app_assoc|].
    split; [apply Forall_app; split; [exact D2 | constructor; [reflexivity | exact D3]]|].
    split.
    + intros c Hc. apply Forall_app. split; [now apply O2|].
      constructor; [reflexivity|]. apply O3. intros Hin. apply Hc. now apply B2.
    + intros c Hc. destruct (in_dec Z.eq_dec c busy) as [Hin|Hnin].
      * apply drained_app_l. change (?e :: evs3) with ([e] ++ evs3).
        apply drained_app_l. now apply S3.
      * destruct (S2 c Hc) as [Hin|Hd]; [contradiction|].
        apply drained_app_r; [exact Hd|].
        constructor; [reflexivity | now apply O3].
Qed.

(** ** The third loop, call by call *)

Lemma forM_flush_cleanup_calls cs w w' :
  forM flush_cleanup cs w = (Ok tt, w') ->
  trace w' = trace w ++ map cleaned_up cs.
Proof.
  unfold forM. revert w. induction cs as [|c cs IH]; intros w H; cbn [foldM] in H.
  - injection H as <-. now rewrite app_nil_r.
  - apply bind_inv in H as [(a & w1 & H1 & H2)|(e & _ & E)]; [|discriminate].
    apply flush_cleanup_outcome in H1 as (_ & _ & _ & z & T1 & [-> _]).
    destruct a. apply IH in H2. rewrite H2, T1. cbn. now rewrite <- app_assoc.
Qed.

(** ** The first two loops *)

Lemma flush_drain_phases w ended w' :
  flush_drain w = (Ok (Some ended), w') ->
  exists evs_drain,
    trace w' = trace w ++ concat (map ended_copy ended) ++ evs_drain
    /\ Forall (fun e => is_drain_io e = true) evs_drain
    /\ (forall c, In c ended -> drained c evs_drain).
Proof.
  intros H. unfold flush_drain in H. run H get_state_eq.
  apply bind_inv in H as [(l & w1 & H1 & H2)|(e & _ & E)]; [|discriminate].
  apply foldM_flush_end_copy_calls in H1 as (ended' & -> & T1). cbn [app] in H2.
  run H2 pending_answers_eq.
  apply bind_inv in H2 as [(done & w2 & H2 & H3)|(e & _ & E)]; [|discriminate].
  destruct done as [[]|]; cbn [option_map] in H3; [|discriminate].
  injection H3 as <- <-.
  apply flush_loop_drains in H2 as (evs2 & T2 & D2 & _ & S2).
  exists evs2. split; [now rewrite T2, T1, <- app_assoc | auto].
Qed.

(** C3: once the flush has ended the COPY of its connections and the flush
    loop is done with each of them (write buffer flushed, input consumed,
    not busy) and all are back to idle and to blocking mode, the fourth
    loop wants from each of them a command acknowledgement followed by no
    further result; a missing result, another result status and an extra
    result each raise an error.  When such an error is raised, every
    connection that was in COPY_IN has been sent the end of its COPY, has
    been drained and has been reset, in this order of phases; the fourth
    loop itself stops at the first connection that fails. *)
Theorem flush_active_connections_verifies w r w' :
  flush_active_connections w = (r, w') ->
  (exists e, r = Raise e /\ is_flush_error e = true)
  \/ (exists ended evs_drain evs_verify,
        trace w' = trace w ++ EvFlushActiveConnections
                     :: concat (map ended_copy ended) ++ evs_drain
                        ++ map cleaned_up ended ++ evs_verify
        /\ (forall c, In c (connections_in_use (connection_state w)) ->
                      conn_status (conns w c) = CONN_COPY_IN -> In c ended)
        /\ Forall (fun e => is_drain_io e = true) evs_drain
        /\ (forall c, In c ended -> drained c evs_drain)
        /\ (forall c, In c ended -> idle_blocking w' c)
        /\ verify_outcome ended evs_verify r).
Proof.
  intros H. unfold flush_active_connections in H. run H emit_eq.
  apply bind_inv in H as [(res & w1 & Hd & H)|(e & Hd & ->)].
  - pose proof (flush_drain_outcome _ _ _ Hd) as (S1 & evs1 & T1 & F1 & O1).
    destruct res as [ended|]; [|contradiction]. destruct O1 as [Hall _].
    apply flush_drain_phases in Hd as (evs_drain & Td & Fd & Dd).
    apply bind_inv in H as [(u & w2 & Hc & Hv)|(e & Hc & ->)].
    + pose proof (forM_flush_cleanup_outcome _ _ _ _ Hc) as (S2 & C2 & evs2 & _ & _ & O2).
      destruct u. apply forM_flush_cleanup_calls in Hc as Tc.
      apply forM_flush_verify_outcome in Hv as (C3 & S3 & evs3 & T3 & O3).
      right. exists ended, evs_drain, evs3.
      split.
      { rewrite T3, Tc, Td. cbn. rewrite <- !app_assoc. reflexivity. }
      split; [exact Hall|]. split; [exact Fd|]. split; [exact Dd|]. split; [|exact O3].
      intros c Hin. destruct (O2 c Hin) as [[Hi Hb] _].
      unfold idle_blocking. rewrite C3. auto.
    + apply forM_flush_cleanup_outcome in Hc as (S2 & C2 & evs2 & T2 & F2 & ->).
      left. eauto.
  - apply flush_drain_outcome in Hd as (S1 & evs1 & T1 & F1 & O1).
    left. eauto.
Qed.

(* ================================================================= *)
(** * Proofs: one flush per pass *)

(** Equalities between traces, from the equations in the context. *)
Ltac trace_eq :=
  repeat first
    [ progress cbn [trace log pop with_trace with_answers with_conns with_state app]
    | progress (rewrite <- ?app_assoc)
    | match goal with
      | T : trace ?w = _ |- context [trace ?w] => rewrite T
      end ];
  try reflexivity.

Lemma flush_active_connections_events w r w' :
  flush_active_connections w = (r, w') ->
  exists fl, trace w' = trace w ++ EvFlushActiveConnections :: fl /\ Forall flush_io fl.
Proof.
  intros H. unfold flush_active_connections in H. run H emit_eq.
  assert (F : follows (extends flush_io)
                (let* drained := flush_drain in
                 match drained with
                 | Some to_end_copy =>
                     forM flush_cleanup to_end_copy >> forM flush_verify to_end_copy
                 | None => raise (ErrCallee 0)
                 end)) by (unfold flush_io; frame).
  apply F in H as (fl & T & Ffl). exists fl. split; [|exact Ffl].
  rewrite T. cbn. now rewrite <- app_assoc.
Qed.

Lemma quiet_after_flush e : quiet e -> after_flush e.
Proof. unfold quiet, after_flush. tauto. Qed.

Lemma flush_once_quiet_app a b : Forall quiet a -> flush_once b -> flush_once (a ++ b).
Proof.
  intros Ha [Hb|(pre & fl & post & E & Hpre & Hfl & Hpost)].
  - left. now apply Forall_app.
  - right. exists (a ++ pre), fl, post. subst b. rewrite <- app_assoc.
    split; [reflexivity|]. split; [now apply Forall_app | auto].
Qed.

Lemma flushed_app pre fl post evs :
  Forall quiet pre -> Forall flush_io fl -> Forall after_flush post ->
  Forall after_flush evs ->
  flush_once ((pre ++ EvFlushActiveConnections :: fl ++ post) ++ evs).
Proof.
  intros Hpre Hfl Hpost Hevs. right. exists pre, fl, (post ++ evs).
  split; [now rewrite <- !app_assoc; cbn; rewrite <- app_assoc|].
  repeat split; auto. now apply Forall_app.
Qed.

Lemma set_unordered_if_needed_events chunk w r w' :
  (if is_compressed chunk && negb (is_unordered chunk)
   then ts_chunk_set_unordered chunk else ret tt) w = (r, w') ->
  r = Ok tt
  /\ exists evs,
      trace w' = trace w ++ evs /\ Forall quiet evs /\ resolved_chunks evs = [].
Proof.
  destruct (_ && _); intros H; injection H as <- <-; split; auto.
  - exists [EvSetUnordered (chunk_id chunk)]. split; [reflexivity|].
    split; [repeat constructor | reflexivity].
  - exists []. now rewrite app_nil_r.
Qed.

(** One row: with [did_flush] set nothing of a flush shows; without it
    either the chunk is found and nothing of a flush or a creation shows, or
    the row brings the one flush of the pass and sets [did_flush]. *)
Lemma route_row_events context did_flush nodes i w r w' :
  route_row context (did_flush, nodes) i w = (r, w') ->
  exists evs,
    trace w' = trace w ++ evs
    /\ (did_flush = true ->
        Forall after_flush evs /\ forall df n, r = Ok (df, n) -> df = true)
    /\ (did_flush = false ->
        (Forall quiet evs /\ forall df n, r = Ok (df, n) -> df = false)
        \/ ((exists pre fl post,
                evs = pre ++ EvFlushActiveConnections :: fl ++ post
                /\ Forall quiet pre /\ Forall flush_io fl /\ Forall after_flush post)
            /\ forall df n, r = Ok (df, n) -> df = true)).
Proof.
  intros H. unfold route_row in H. run H find_chunk_eq.
  set (p := aref [] (batch_points context) i) in *.
  destruct (chunk_answer (answers w)) as [chunk|] eqn:Echunk.
  - (* the chunk exists *)
    rewrite bind_ret in H.
    apply bind_inv in H as [(u & w1 & H1 & H2)|(e & H1 & ->)].
    + apply set_unordered_if_needed_events in H1 as (_ & evs1 & T1 & Q1 & _).
      injection H2 as <- <-.
      exists (EvFindChunk p (Some chunk) :: evs1). split.
      { trace_eq. }
      assert (Q : Forall quiet (EvFindChunk p (Some chunk) :: evs1))
        by (constructor; [repeat split | exact Q1]).
      split; intros ->.
      * split; [eapply Forall_impl; [apply quiet_after_flush | exact Q]|].
        intros df n E. now injection E as <- _.
      * left. split; [exact Q|]. intros df n E. now injection E as <- _.
    + apply set_unordered_if_needed_events in H1 as (E & _). discriminate.
  - (* the chunk has to be created *)
    apply bind_inv in H as [([df chunk] & w1 & H1 & H2)|(e & H1 & ->)].
    + apply bind_inv in H1 as [(u & w0 & H0 & H1)|(e & H0 & E)]; [|discriminate].
      unfold bind in H1. rewrite create_chunk_eq in H1.
      destruct (chunk_answer (answers w0)) as [c|]; [|discriminate].
      injection H1 as <- <- <-.
      apply bind_inv in H2 as [(u' & w2 & H2 & H3)|(e & H2 & ->)];
        [|apply set_unordered_if_needed_events in H2 as (E & _); discriminate].
      apply set_unordered_if_needed_events in H2 as (_ & evs2 & T2 & Q2 & _).
      injection H3 as <- <-.
      destruct did_flush; cbn [negb] in H0.
      * injection H0 as _ <-.
        exists (EvFindChunk p None :: EvCreateChunk p c :: evs2). split.
        { trace_eq. }
        split; [|discriminate]. intros _. split.
        -- constructor; [repeat split|]. constructor; [repeat split|].
           eapply Forall_impl; [apply quiet_after_flush | exact Q2].
        -- intros df n E. now injection E as <- _.
      * apply flush_active_connections_events in H0 as (fl & T0 & Ffl).
        exists ([EvFindChunk p None] ++ EvFlushActiveConnections :: fl
                ++ (EvCreateChunk p c :: evs2)).
        split.
        { trace_eq. }
        split; [discriminate|]. intros _. right. split.
        -- exists [EvFindChunk p None], fl, (EvCreateChunk p c :: evs2).
           split; [reflexivity|]. split; [repeat constructor|]. split; [exact Ffl|].
           constructor; [repeat split|].
           eapply Forall_impl; [apply quiet_after_flush | exact Q2].
        -- intros df n E. now injection E as <- _.
    + apply bind_inv in H1 as [(u & w0 & H0 & H1)|(e' & H0 & E)].
      * unfold bind in H1. rewrite create_chunk_eq in H1.
        destruct (chunk_answer (answers w0)) as [c|]; [discriminate|].
        injection H1 as <- <-.
        destruct did_flush; cbn [negb] in H0.
        -- injection H0 as _ <-. exists [EvFindChunk p None].
           split; [reflexivity|]. split; [|discriminate]. intros _.
           split; [repeat constructor | discriminate].
        -- apply flush_active_connections_events in H0 as (fl & T0 & Ffl).
           exists ([EvFindChunk p None] ++ EvFlushActiveConnections :: fl ++ []).
           split.
           { rewrite app_nil_r. trace_eq. }
           split; [discriminate|]. intros _. right. split; [|discriminate].
           exists [EvFindChunk p None], fl, []. repeat split; auto. repeat constructor.
      * injection E as <-.
        destruct did_flush; cbn [negb] in H0; [discriminate|].
        apply flush_active_connections_events in H0 as (fl & T0 & Ffl).
        exists ([EvFindChunk p None] ++ EvFlushActiveConnections :: fl ++ []).
        split.
        { rewrite app_nil_r. trace_eq. }
        split; [discriminate|]. intros _. right. split; [|discriminate].
        exists [EvFindChunk p None], fl, []. repeat split; auto. repeat constructor.
Qed.

Lemma foldM_route_row_events context rows did_flush nodes w r w' :
  foldM (route_row context) rows (did_flush, nodes) w = (r, w') ->
  exists evs,
    trace w' = trace w ++ evs
    /\ if did_flush then Forall after_flush evs else flush_once evs.
Proof.
  revert did_flush nodes w.
  induction rows as [|i rows IH]; intros did_flush nodes w H; cbn [foldM] in H.
  - injection H as <- <-. exists []. rewrite app_nil_r. split; [reflexivity|].
    destruct did_flush; [constructor | left; constructor].
  - apply bind_inv in H as [([df nodes'] & w1 & H1 & H2)|(e & H1 & ->)].
    + apply route_row_events in H1 as (evs1 & T1 & Ht & Hf).
      apply IH in H2 as (evs2 & T2 & Hrest).
      exists (evs1 ++ evs2). split; [trace_eq|].
      destruct did_flush.
      * destruct (Ht eq_refl) as [A1 Hdf]. rewrite (Hdf _ _ eq_refl) in Hrest.
        now apply Forall_app.
      * destruct (Hf eq_refl) as [[Q1 Hdf]|[(pre & fl & post & E & Hp & Hfl & Hpo) Hdf]].
        -- rewrite (Hdf _ _ eq_refl) in Hrest. now apply flush_once_quiet_app.
        -- rewrite (Hdf _ _ eq_refl) in Hrest. subst evs1. now apply flushed_app.
    + apply route_row_events in H1 as (evs1 & T1 & Ht & Hf).
      exists evs1. split; [exact T1|].
      destruct did_flush.
      * apply Ht. reflexivity.
      * destruct (Hf eq_refl) as [[Q1 _]|[(pre & fl & post & E & Hp & Hfl & Hpo) _]].
        -- now left.
        -- right. eauto 10.
Qed.

Lemma flush_once_app_quiet a b : flush_once a -> Forall quiet b -> flush_once (a ++ b).
Proof.
  intros [Ha|(pre & fl & post & E & Hpre & Hfl & Hpost)] Hb.
  - left. now apply Forall_app.
  - right. exists pre, fl, (post ++ b). subst a.
    split; [now rewrite <- app_assoc; cbn; rewrite <- app_assoc|].
    repeat split; auto. apply Forall_app. split; [exact Hpost|].
    eapply Forall_impl; [apply quiet_after_flush | exact Hb].
Qed.

Lemma open_and_send_quiet context nodes :
  follows (extends quiet) (open_and_send context nodes).
Proof. unfold quiet. frame. Qed.

Lemma process_batch_flush_once context w r w' :
  remote_copy_process_and_send_data context w = (r, w') ->
  exists evs, trace w' = trace w ++ evs /\ flush_once evs.
Proof.
  intros H. unfold remote_copy_process_and_send_data in H. run H emit_eq.
  set (start := EvProcessBatch _ _) in H.
  apply bind_inv in H as [(nodes & w1 & H1 & H2)|(e & H1 & ->)].
  - unfold route_rows in H1.
    apply bind_inv in H1 as [([df nodes'] & w0 & H0 & H1)|(e & H0 & E)]; [|discriminate].
    injection H1 as <- <-.
    apply foldM_route_row_events in H0 as (evs0 & T0 & F0).
    apply open_and_send_quiet in H2 as (evs2 & T2 & Q2).
    exists ([start] ++ evs0 ++ evs2). split; [trace_eq|].
    apply flush_once_quiet_app; [repeat constructor|].
    now apply flush_once_app_quiet.
  - unfold route_rows in H1.
    apply bind_inv in H1 as [([df nodes'] & w0 & H0 & H1)|(e' & H0 & E)]; [discriminate|].
    apply foldM_route_row_events in H0 as (evs0 & T0 & F0).
    exists ([start] ++ evs0). split; [trace_eq|].
    apply flush_once_quiet_app; [repeat constructor | exact F0].
Qed.

(** Consequences of [flush_once], in plain terms. *)
Lemma flush_once_count evs :
  flush_once evs -> (length (List.filter is_flush_marker evs) <= 1)%nat.
Proof.
  assert (Hnone : forall (P : Event -> Prop) l,
             (forall e, P e -> is_flush_marker e = false) ->
             Forall P l -> List.filter is_flush_marker l = []).
  { intros P l HP. induction 1 as [|e l He _ IH]; [reflexivity|].
    cbn. now rewrite (HP e He). }
  intros [Hq|(pre & fl & post & -> & Hpre & Hfl & Hpost)].
  - rewrite (Hnone quiet); [cbn; lia | unfold quiet; tauto | exact Hq].
  - rewrite List.filter_app. cbn. rewrite List.filter_app.
    rewrite (Hnone quiet pre), (Hnone flush_io fl), (Hnone after_flush post); auto.
    + unfold after_flush. tauto.
    + unfold flush_io. intros [] He; cbn in *; congruence.
    + unfold quiet. tauto.
Qed.

Lemma flush_once_before_create evs pre' p c post' :
  flush_once evs -> evs = pre' ++ EvCreateChunk p c :: post' ->
  In EvFlushActiveConnections pre'.
Proof.
  intros [Hq|(pre & fl & post & -> & Hpre & Hfl & Hpost)] E.
  - subst evs. apply Forall_app in Hq as [_ Hq]. inversion Hq as [|? ? [_ [Hc _]] _].
    discriminate Hc.
  - revert pre' E Hpre. induction pre as [|a pre IH]; intros pre' E Hpre.
    + destruct pre' as [|b pre']; cbn in E; [discriminate|].
      injection E as <- _. now left.
    + destruct pre' as [|b pre']; cbn in E.
      * injection E as -> _. inversion Hpre as [|? ? [_ [Hc _]] _]. discriminate Hc.
      * injection E as <- E. right. apply IH; [exact E|]. now inversion Hpre.
Qed.

(** C2: in one pass over a batch [flush_active_connections] is entered at
    most once, however many chunks the pass creates, and every chunk
    creation of the pass comes after that flush. *)
Theorem process_batch_flushes_once context w r w' :
  remote_copy_process_and_send_data context w = (r, w') ->
  exists evs,
    trace w' = trace w ++ evs
    /\ flush_once evs
    /\ (length (List.filter is_flush_marker evs) <= 1)%nat
    /\ (forall pre p c post,
          evs = pre ++ EvCreateChunk p c :: post -> In EvFlushActiveConnections pre).
Proof.
  intros H. apply process_batch_flush_once in H as (evs & T & F).
  exists evs. split; [exact T|]. split; [exact F|]. split.
  - now apply flush_once_count.
  - intros pre p c post E. eapply flush_once_before_create; eauto.
Qed.

(* ================================================================= *)
(** * Proofs: routing the rows of a batch *)

(** ** The schedule, as a function of the chunks *)

Lemma pair_rows_snoc s pairs i s' :
  pair_rows s (pairs ++ [(i, s')]) = pair_rows s pairs ++ (if s' =? s then [i] else []).
Proof.
  unfold pair_rows. rewrite List.filter_app, map_app. cbn.
  destruct (s' =? s); reflexivity.
Qed.

Lemma schedule_row_servers i nodes s :
  map server_oid (schedule_row i nodes (node_of s))
  = map server_oid nodes ++ (if existsb (Z.eqb s) (map server_oid nodes) then [] else [s]).
Proof.
  induction nodes as [|dn nodes IH]; cbn; [reflexivity|].
  destruct (Z.eqb_spec s (server_oid dn)) as [E|E]; cbn.
  - now rewrite app_nil_r.
  - now rewrite IH.
Qed.

Lemma schedule_row_rows (P P' : DataNodeRows -> Prop) i nodes s :
  List.NoDup (map server_oid nodes) ->
  Forall P nodes ->
  (forall dn, P dn -> server_oid dn <> s -> P' dn) ->
  (forall dn, P dn -> server_oid dn = s -> P' (add_row_index dn i)) ->
  (~ In s (map server_oid nodes) ->
   P' (add_row_index {| server_oid := s; dn_connection := 0; rows_total := 0;
                        row_indices := [] |} i)) ->
  Forall P' (schedule_row i nodes (node_of s)).
Proof.
  intros Hnd HP Hother Hsame Hnew.
  induction nodes as [|dn nodes IH]; cbn.
  - constructor; [|constructor]. apply Hnew. intros [].
  - inversion Hnd as [|? ? Hnotin Hnd']; subst. inversion HP as [|? ? Hdn HP']; subst.
    destruct (Z.eqb_spec s (server_oid dn)) as [E|E].
    + constructor; [now apply Hsame|].
      rewrite Forall_forall in HP' |- *. intros dn' Hin. apply Hother; [auto|].
      intros E'. apply Hnotin. rewrite <- E, <- E'. now apply in_map.
    + constructor; [apply Hother; auto|]. apply IH; auto.
      intros Hn. apply Hnew. cbn. intros [?|?]; [congruence | contradiction].
Qed.

Lemma existsb_eqb_In_Z a l : existsb (Z.eqb a) l = true <-> In a l.
Proof.
  rewrite existsb_exists. split.
  - intros [x [Hin Hx]]. apply Z.eqb_eq in Hx. now subst.
  - intros Hin. exists a. split; [exact Hin | apply Z.eqb_refl].
Qed.

Lemma pair_rows_absent s pairs : ~ In s (map snd pairs) -> pair_rows s pairs = [].
Proof.
  unfold pair_rows. induction pairs as [|[i s'] pairs IH]; cbn; [reflexivity|].
  intros H. destruct (Z.eqb_spec s' s) as [E|E]; [tauto|]. apply IH. tauto.
Qed.

Lemma scheduled_step pairs nodes i s :
  scheduled pairs nodes ->
  scheduled (pairs ++ [(i, s)]) (schedule_row i nodes (node_of s)).
Proof.
  intros [Hnd Hsrv Hrows]. split.
  - rewrite schedule_row_servers.
    destruct (existsb (Z.eqb s) (map server_oid nodes)) eqn:E.
    + now rewrite app_nil_r.
    + apply List.NoDup_app; [exact Hnd | repeat constructor; intros [] |].
      intros x Hx [<-|[]]. apply existsb_eqb_In_Z in Hx. congruence.
  - intros s'. rewrite schedule_row_servers, map_app, !in_app_iff, Hsrv. cbn.
    destruct (existsb (Z.eqb s) (map server_oid nodes)) eqn:E; cbn; [|tauto].
    apply existsb_eqb_In_Z in E. apply Hsrv in E. split; [tauto|].
    intros [?|[<-|[]]]; auto.
  - eapply schedule_row_rows; [exact Hnd | exact Hrows | | |].
    + intros dn [Hr Ht] Hne. rewrite pair_rows_snoc.
      destruct (Z.eqb_spec s (server_oid dn)); [congruence|]. now rewrite app_nil_r.
    + intros dn [Hr Ht] <-. cbn. rewrite pair_rows_snoc, Z.eqb_refl, Hr, Ht.
      split; [reflexivity|]. rewrite !length_app. cbn. rewrite Hr. lia.
    + intros Hn. cbn. rewrite pair_rows_snoc, Z.eqb_refl.
      rewrite pair_rows_absent; [auto|]. now rewrite <- Hsrv.
Qed.

Lemma node_of_eta cdn : cdn = node_of (foreign_server_oid cdn).
Proof. now destruct cdn. Qed.

Lemma scheduled_chunk pairs nodes i c :
  scheduled pairs nodes ->
  scheduled (pairs ++ map (fun s => (i, s)) (chunk_servers c))
            (fold_left (schedule_row i) (data_nodes c) nodes).
Proof.
  unfold chunk_servers. revert pairs nodes.
  induction (data_nodes c) as [|cdn l IH]; intros pairs nodes H; cbn.
  - now rewrite app_nil_r.
  - rewrite (node_of_eta cdn) at 2.
    replace (pairs ++ (i, foreign_server_oid cdn) :: map (fun s => (i, s))
                        (map foreign_server_oid l))
      with ((pairs ++ [(i, foreign_server_oid cdn)])
              ++ map (fun s => (i, s)) (map foreign_server_oid l))
      by now rewrite <- app_assoc.
    apply IH. now apply scheduled_step.
Qed.

Lemma scheduled_schedule sched pairs nodes :
  scheduled pairs nodes -> scheduled (pairs ++ row_pairs sched) (schedule sched nodes).
Proof.
  revert pairs nodes. induction sched as [|[i c] sched IH]; intros pairs nodes H; cbn.
  - now rewrite app_nil_r.
  - rewrite app_assoc. apply IH. now apply scheduled_chunk.
Qed.

Lemma scheduled_nil : scheduled [] [].
Proof. split; cbn; [constructor | tauto | constructor]. Qed.

(** With no data node twice on a chunk, the rows of a node are the rows
    whose chunk is on the node. *)
Lemma pair_rows_chunk s i l :
  List.NoDup l ->
  pair_rows s (map (fun s' => (i, s')) l) = if existsb (Z.eqb s) l then [i] else [].
Proof.
  unfold pair_rows. induction 1 as [|a l Hnotin Hnd IH]; cbn; [reflexivity|].
  rewrite (Z.eqb_sym s a).
  destruct (Z.eqb_spec a s) as [->|E]; cbn.
  - rewrite IH. destruct (existsb (Z.eqb s) l) eqn:Ex; [|reflexivity].
    apply existsb_eqb_In_Z in Ex. contradiction.
  - exact IH.
Qed.

Lemma pair_rows_app s a b : pair_rows s (a ++ b) = pair_rows s a ++ pair_rows s b.
Proof. unfold pair_rows. now rewrite List.filter_app, map_app. Qed.

Lemma pair_rows_row_pairs s sched :
  Forall (fun p => List.NoDup (chunk_servers (snd p))) sched ->
  pair_rows s (row_pairs sched)
  = flat_map (fun '(i, c) => if existsb (Z.eqb s) (chunk_servers c) then [i] else [])
             sched.
Proof.
  induction 1 as [|[i c] sched Hc _ IH]; [reflexivity|].
  unfold row_pairs in *. cbn [flat_map snd] in *.
  rewrite pair_rows_app, IH, pair_rows_chunk by exact Hc. reflexivity.
Qed.

Lemma row_pairs_servers s sched :
  In s (map snd (row_pairs sched))
  <-> exists c, In c (map snd sched) /\ In s (chunk_servers c).
Proof.
  induction sched as [|[i c] sched IH]; cbn.
  - split; [tauto | intros (c & [] & _)].
  - rewrite map_app, in_app_iff, IH, map_map. cbn. rewrite map_id. split.
    + intros [H|(c' & H1 & H2)]; [exists c; auto | exists c'; auto].
    + intros (c' & [<-|H1] & H2); [now left | right; eauto].
Qed.

(* ================================================================= *)
(** * Proofs: what each data node is sent *)

Lemma resolved_chunks_app a b :
  resolved_chunks (a ++ b) = resolved_chunks a ++ resolved_chunks b.
Proof. apply flat_map_app. Qed.

Lemma resolved_chunks_none (P : Event -> Prop) evs :
  (forall e, P e -> resolved_chunk e = []) -> Forall P evs -> resolved_chunks evs = [].
Proof.
  intros HP. induction 1 as [|e l He _ IH]; [reflexivity|].
  unfold resolved_chunks in *. cbn. now rewrite (HP e He), IH.
Qed.

Lemma flush_io_unresolved e : flush_io e -> resolved_chunk e = [].
Proof. unfold flush_io. destruct e; cbn; congruence. Qed.

(** ** The first loop *)

Lemma route_row_result context did_flush nodes i w df nodes' w' :
  route_row context (did_flush, nodes) i w = (Ok (df, nodes'), w') ->
  exists evs chunk,
    trace w' = trace w ++ evs
    /\ resolved_chunks evs = [chunk]
    /\ nodes' = fold_left (schedule_row i) (data_nodes chunk) nodes.
Proof.
  intros H. unfold route_row in H. run H find_chunk_eq.
  set (p := aref [] (batch_points context) i) in *.
  destruct (chunk_answer (answers w)) as [chunk|] eqn:Echunk.
  - rewrite bind_ret in H.
    apply bind_inv in H as [(u & w1 & H1 & H2)|(e & H1 & E)]; [|discriminate].
    apply set_unordered_if_needed_events in H1 as (_ & evs1 & T1 & Q1 & R1).
    injection H2 as <- <- <-.
    exists (EvFindChunk p (Some chunk) :: evs1), chunk. split; [trace_eq|].
    split; [|reflexivity].
    change (EvFindChunk p (Some chunk) :: evs1) with ([EvFindChunk p (Some chunk)] ++ evs1).
    now rewrite resolved_chunks_app, R1.
  - apply bind_inv in H as [([df0 chunk] & w1 & H1 & H2)|(e & H1 & E)]; [|discriminate].
    apply bind_inv in H1 as [(u & w0 & H0 & H1)|(e & H0 & E)]; [|discriminate].
    unfold bind in H1. rewrite create_chunk_eq in H1.
    destruct (chunk_answer (answers w0)) as [c|]; [|discriminate].
    injection H1 as <- <- <-.
    apply bind_inv in H2 as [(u' & w2 & H2 & H3)|(e & H2 & E)]; [|discriminate].
    apply set_unordered_if_needed_events in H2 as (_ & evs2 & T2 & Q2 & R2).
    injection H3 as <- <- <-.
    destruct did_flush; cbn [negb] in H0.
    + injection H0 as _ <-.
      exists ([EvFindChunk p None; EvCreateChunk p c] ++ evs2), c. split; [trace_eq|].
      split; [|reflexivity]. now rewrite resolved_chunks_app, R2.
    + apply flush_active_connections_events in H0 as (fl & T0 & Ffl).
      exists (([EvFindChunk p None; EvFlushActiveConnections] ++ fl)
              ++ [EvCreateChunk p c] ++ evs2), c.
      split; [trace_eq|]. split; [|reflexivity].
      rewrite !resolved_chunks_app, R2.
      rewrite (resolved_chunks_none flush_io fl); auto using flush_io_unresolved.
Qed.

Lemma foldM_route_row_result context rows did_flush nodes w df nodes' w' :
  foldM (route_row context) rows (did_flush, nodes) w = (Ok (df, nodes'), w') ->
  exists evs,
    trace w' = trace w ++ evs
    /\ length (resolved_chunks evs) = length rows
    /\ nodes' = schedule (combine rows (resolved_chunks evs)) nodes.
Proof.
  revert did_flush nodes w.
  induction rows as [|i rows IH]; intros did_flush nodes w H; cbn [foldM] in H.
  - injection H as <- <- <-. exists []. now rewrite app_nil_r.
  - apply bind_inv in H as [([df1 nodes1] & w1 & H1 & H2)|(e & H1 & E)]; [|discriminate].
    apply route_row_result in H1 as (evs1 & chunk & T1 & R1 & ->).
    apply IH in H2 as (evs2 & T2 & L2 & ->).
    exists (evs1 ++ evs2). split; [trace_eq|].
    rewrite resolved_chunks_app, R1. cbn. now rewrite L2.
Qed.

(** ** The second loop *)

Lemma cache_grows_refl w : cache_grows w w.
Proof. exists []. now rewrite app_nil_r. Qed.

Lemma cache_grows_trans w1 w2 w3 :
  cache_grows w1 w2 -> cache_grows w2 w3 -> cache_grows w1 w3.
Proof. intros [a Ha] [b Hb]. exists (a ++ b). now rewrite Hb, Ha, app_assoc. Qed.

#[global] Hint Resolve cache_grows_refl cache_grows_trans : core.

Lemma same_state_cache_grows w w' : same_state w w' -> cache_grows w w'.
Proof. unfold same_state. intros H. exists []. now rewrite H, app_nil_r. Qed.

Lemma cache_connection_grows e : follows cache_grows (cache_connection e).
Proof. intros w r w' H. injection H as _ <-. now exists [e]. Qed.

Lemma add_connection_in_use_grows c : follows cache_grows (add_connection_in_use c).
Proof.
  intros w r w' H. unfold add_connection_in_use in H. run H get_state_eq.
  destruct (list_member _ _); injection H as _ <-; exists []; cbn; now rewrite app_nil_r.
Qed.

Lemma follows_same_state_cache_grows {A} (m : M A) :
  follows same_state m -> follows cache_grows m.
Proof. intros H w r w' E. apply same_state_cache_grows. eapply H; eauto. Qed.

Lemma begin_copy_same_state c cmd b :
  follows same_state (remote_connection_begin_copy c cmd b).
Proof. frame. Qed.

Lemma get_connection_same_state i : follows same_state (remote_dist_txn_get_connection i).
Proof. frame. Qed.

Lemma get_status_same_state c : follows same_state (remote_connection_get_status c).
Proof. frame. Qed.

#[global] Hint Resolve cache_connection_grows add_connection_in_use_grows : frames.

Lemma open_data_node_connection_cache_grows dn :
  follows cache_grows (open_data_node_connection dn).
Proof.
  unfold open_data_node_connection, data_node_connection, begin_copy_if_needed. frame.
Qed.

Lemma find_server_connection_app s cache more conn :
  find_server_connection s cache = Some conn ->
  find_server_connection s (cache ++ more) = Some conn.
Proof.
  unfold find_server_connection. induction cache as [|e cache IH]; cbn; [discriminate|].
  destruct (s =? server_id (id e)); auto.
Qed.

Lemma find_server_connection_snoc s cache e :
  find_server_connection s cache = None -> server_id (id e) = s ->
  find_server_connection s (cache ++ [e]) = Some (connection e).
Proof.
  unfold find_server_connection. intros Hnone <-.
  induction cache as [|e' cache IH]; cbn in *.
  - now rewrite Z.eqb_refl.
  - destruct (server_id (id e) =? server_id (id e')); [discriminate | auto].
Qed.

Lemma GetUserId_eq w : GetUserId w = (Ok (current_user w), w).
Proof. reflexivity. Qed.

Lemma cache_connection_eq e w :
  cache_connection e w
  = (Ok tt, with_state w
              {| data_node_connections := data_node_connections (connection_state w) ++ [e];
                 connections_in_use := connections_in_use (connection_state w);
                 using_binary := using_binary (connection_state w);
                 outgoing_copy_cmd := outgoing_copy_cmd (connection_state w) |}).
Proof. reflexivity. Qed.

(** The connection that the second loop takes for a data node ends up in
    the cache under the server of the node. *)
Lemma data_node_connection_cached s w conn w' :
  data_node_connection s w = (Ok conn, w') ->
  find_server_connection s (data_node_connections (connection_state w')) = Some conn.
Proof.
  intros H. unfold data_node_connection in H. run H get_state_eq.
  destruct (find_server_connection s _) as [c|] eqn:Efind.
  - injection H as <- <-. exact Efind.
  - run H GetUserId_eq. unfold bind in H. rewrite get_connection_eq in H.
    destruct (_ <? 0); [discriminate|].
    rewrite cache_connection_eq in H. injection H as <- <-. cbn.
    now apply find_server_connection_snoc.
Qed.

Lemma open_data_node_connection_result dn w dn' w' :
  open_data_node_connection dn w = (Ok dn', w') ->
  server_oid dn' = server_oid dn
  /\ rows_total dn' = rows_total dn
  /\ row_indices dn' = row_indices dn
  /\ find_server_connection (server_oid dn)
       (data_node_connections (connection_state w')) = Some (dn_connection dn').
Proof.
  intros H. unfold open_data_node_connection in H.
  apply bind_inv in H as [(conn & w1 & H1 & H2)|(e & H1 & E)]; [|discriminate].
  apply bind_inv in H2 as [(u & w2 & H2 & H3)|(e & H2 & E)]; [|discriminate].
  injection H3 as <- <-. cbn. repeat split.
  apply data_node_connection_cached in H1.
  assert (G : cache_grows w1 w2).
  { eapply (_ : follows cache_grows (begin_copy_if_needed _ _)); eauto. }
  destruct G as [more ->]. now apply find_server_connection_app.
  Unshelve. unfold begin_copy_if_needed. frame.
Qed.

Lemma mapM_open_result nodes w nodes' w' :
  mapM open_data_node_connection nodes w = (Ok nodes', w') ->
  Forall2 (fun dn dn' =>
             server_oid dn' = server_oid dn
             /\ rows_total dn' = rows_total dn
             /\ row_indices dn' = row_indices dn
             /\ find_server_connection (server_oid dn)
                  (data_node_connections (connection_state w'))
                = Some (dn_connection dn')) nodes nodes'.
Proof.
  revert w nodes'. induction nodes as [|dn nodes IH]; intros w nodes' H; cbn [mapM] in H.
  - injection H as <- <-. constructor.
  - apply bind_inv in H as [(dn' & w1 & H1 & H2)|(e & H1 & E)]; [|discriminate].
    apply bind_inv in H2 as [(rest & w2 & H2 & H3)|(e & H2 & E)]; [|discriminate].
    injection H3 as <- <-.
    assert (G : cache_grows w1 w2).
    { eapply (follows_mapM cache_grows); eauto.
      intros x. apply open_data_node_connection_cache_grows. }
    apply open_data_node_connection_result in H1 as (A1 & A2 & A3 & A4).
    constructor; [|eauto]. repeat split; auto.
    destruct G as [more ->]. now apply find_server_connection_app.
Qed.

(** ** The third loop *)

Lemma send_data_node_outcome context dn w r w' :
  send_data_node context dn w = (r, w') ->
  exists res,
    trace w' = trace w ++ [EvPutCopyData (dn_connection dn) (node_copy_data context dn) res]
    /\ (r = Ok tt /\ res <> -1 \/ r = Raise ErrCouldNotSendCopyData /\ res = -1).
Proof.
  intros H. unfold send_data_node in H. run H PQputCopyData_eq.
  set (res := int_answer 1 _) in H. clearbody res. exists res.
  destruct (Z.eqb_spec res (-1)); injection H as <- <-; auto.
Qed.

Lemma forM_send_data_node_result context nodes w w' :
  forM (send_data_node context) nodes w = (Ok tt, w') ->
  exists evs,
    trace w' = trace w ++ evs
    /\ Forall2 (fun dn e =>
                  exists res,
                    e = EvPutCopyData (dn_connection dn) (node_copy_data context dn) res
                    /\ res <> -1) nodes evs.
Proof.
  unfold forM. revert w. induction nodes as [|dn nodes IH]; intros w H; cbn [foldM] in H.
  - injection H as <-. exists []. rewrite app_nil_r. split; [reflexivity | constructor].
  - apply bind_inv in H as [(u & w1 & H1 & H2)|(e & H1 & E)]; [|discriminate].
    destruct u. apply send_data_node_outcome in H1 as (res & T1 & [[_ Hres]|[E _]]);
      [|discriminate].
    apply IH in H2 as (evs & T2 & F2).
    eexists (_ :: evs). split; [trace_eq|]. constructor; eauto.
Qed.

(** ** The buffer of a data node *)

Lemma fold_left_ext_in {A B} (f g : B -> A -> B) l acc :
  (forall x, In x l -> forall b, f b x = g b x) -> fold_left f l acc = fold_left g l acc.
Proof.
  revert acc. induction l as [|x l IH]; intros acc H; cbn; [reflexivity|].
  rewrite (H x) by now left. apply IH. intros y Hy. apply H. now right.
Qed.

Lemma fold_upto_aref {A B} (g : B -> A -> B) (d : A) (l : list A) (acc : B) :
  fold_left (fun acc i => g acc (aref d l i)) (upto (Z.of_nat (length l))) acc
  = fold_left g l acc.
Proof.
  revert acc. induction l as [|x l IH] using rev_ind; intros acc; [reflexivity|].
  rewrite upto_length_snoc, !fold_left_app. cbn [fold_left].
  rewrite aref_nat, lookup_app_r, Nat.sub_diag by lia. cbn [lookup default].
  f_equal. rewrite <- IH. apply fold_left_ext_in.
  intros i Hi acc'. f_equal. unfold upto in Hi. apply in_map_iff in Hi as (k & <- & Hk).
  apply in_seq in Hk. rewrite !aref_nat, lookup_app_l by lia. reflexivity.
Qed.

Lemma node_copy_data_concat context dn :
  rows_total dn = Z.of_nat (length (row_indices dn)) ->
  node_copy_data context dn
  = concat (map (aref [] (batch_rows (batch context))) (row_indices dn)).
Proof.
  intros Ht. unfold node_copy_data. rewrite Ht.
  rewrite (fold_upto_aref
             (fun copy_data idx =>
                appendBinaryStringInfo copy_data (aref [] (batch_rows (batch context)) idx))).
  unfold appendBinaryStringInfo.
  assert (G : forall l acc,
             fold_left (fun (cd : StringInfo) idx =>
                          cd ++ aref [] (batch_rows (batch context)) idx) l acc
             = acc ++ concat (map (aref [] (batch_rows (batch context))) l)).
  { induction l as [|x l IH]; intros acc; cbn; [now rewrite app_nil_r|].
    now rewrite IH, <- app_assoc. }
  apply G.
Qed.

Lemma flush_loop_not_put fuel cs : follows (extends not_put) (flush_loop fuel cs).
Proof.
  unfold not_put. revert cs.
  induction fuel as [|fuel IH]; intros cs; cbn [flush_loop]; frame.
Qed.
#[global] Hint Resolve flush_loop_not_put : frames.

Lemma route_rows_not_put context : follows (extends not_put) (route_rows context).
Proof. unfold not_put. frame. Qed.

Lemma mapM_open_plain nodes :
  follows (extends plain) (mapM open_data_node_connection nodes).
Proof. unfold plain. frame. Qed.

Lemma filter_none (P : Event -> Prop) (f : Event -> bool) evs :
  (forall e, P e -> f e = false) -> Forall P evs -> List.filter f evs = [].
Proof.
  intros HP. induction 1 as [|e l He _ IH]; [reflexivity|]. cbn. now rewrite (HP e He).
Qed.

Lemma sends_are_puts context nodes evs :
  Forall2 (fun dn e =>
             exists res,
               e = EvPutCopyData (dn_connection dn) (node_copy_data context dn) res
               /\ res <> -1) nodes evs ->
  List.filter is_put_copy_data evs = evs /\ resolved_chunks evs = [].
Proof.
  induction 1 as [|dn e nodes evs (res & -> & _) _ [IH1 IH2]]; [auto|].
  unfold resolved_chunks in *. cbn. now rewrite IH1, IH2.
Qed.

Lemma upto_length n : length (upto n) = Z.to_nat n.
Proof. unfold upto. now rewrite length_map, length_seq. Qed.

Lemma map_snd_combine {A B} (l : list A) (l' : list B) :
  length l = length l' -> map snd (combine l l') = l'.
Proof.
  revert l'. induction l as [|x l IH]; intros [|y l'] H; cbn in *; try congruence.
  f_equal. apply IH. lia.
Qed.

(** C7: in a pass that succeeds, the writes of COPY data are one per data
    node that holds the chunk of some row, each on the cached connection of
    that node, and each carries the encoded rows whose chunk is on that
    node, in batch order and nothing else. *)
Theorem process_batch_sends_node_rows context w w' :
  remote_copy_process_and_send_data context w = (Ok tt, w') ->
  exists evs nodes,
    trace w' = trace w ++ evs
    /\ let chunks := resolved_chunks evs in
       let rows := batch_rows (batch context) in
       length chunks = Z.to_nat (current_batch_rows (batch context))
       /\ (Forall (fun c => List.NoDup (chunk_servers c)) chunks ->
           List.NoDup (map server_oid nodes)
           /\ (forall s, In s (map server_oid nodes)
                         <-> exists c, In c chunks /\ In s (chunk_servers c))
           /\ Forall (fun dn =>
                        find_server_connection (server_oid dn)
                          (data_node_connections (connection_state w'))
                        = Some (dn_connection dn)) nodes
           /\ Forall2 (fun dn e =>
                         exists res,
                           e = EvPutCopyData (dn_connection dn)
                                 (node_payload rows (server_oid dn) chunks) res
                           /\ res <> -1)
                      nodes (List.filter is_put_copy_data evs)).
Proof.
  intros H. unfold remote_copy_process_and_send_data in H. run H emit_eq.
  set (start := EvProcessBatch _ _) in H.
  apply bind_inv in H as [(nodes0 & w1 & H1 & H2)|(e & H1 & E)]; [|discriminate].
  pose proof (route_rows_not_put _ _ _ _ H1) as (evs0' & T0' & NP0).
  unfold route_rows in H1.
  apply bind_inv in H1 as [([df nodes0'] & w0 & H0 & H1)|(e & H0 & E)]; [|discriminate].
  injection H1 as <- <-.
  apply foldM_route_row_result in H0 as (evs0 & T0 & L0 & ->).
  assert (evs0' = evs0) by (rewrite T0 in T0'; now apply app_inv_head in T0'). subst evs0'.
  unfold open_and_send in H2.
  apply bind_inv in H2 as [(nodes1 & w2 & H2 & H3)|(e & H2 & E)]; [|discriminate].
  pose proof (mapM_open_plain _ _ _ _ H2) as (evs1 & T1 & P1).
  pose proof (follows_forM same_state (fun w => eq_refl)
                (fun a b c (H : same_state a b) (H' : same_state b c) =>
                   eq_trans H' H)
                (send_data_node context) nodes1) as Hss.
  apply mapM_open_result in H2.
  pose proof H3 as H3'.
  apply forM_send_data_node_result in H3 as (evs2 & T2 & F2).
  destruct (sends_are_puts _ _ _ F2) as [Fil2 Res2].
  assert (S2 : same_state w2 w').
  { eapply Hss; [|exact H3']. intros dn. unfold send_data_node. frame. }
  clear Hss H3'.
  set (n := current_batch_rows (batch context)) in *.
  set (chunks := resolved_chunks evs0) in *.
  rewrite upto_length in L0.
  assert (Rall : resolved_chunks ([start] ++ evs0 ++ evs1 ++ evs2) = chunks).
  { rewrite !resolved_chunks_app, Res2.
    rewrite (resolved_chunks_none plain evs1); [|unfold plain; tauto|exact P1].
    cbn. now rewrite !app_nil_r. }
  assert (Fall : List.filter is_put_copy_data ([start] ++ evs0 ++ evs1 ++ evs2) = evs2).
  { rewrite !List.filter_app, Fil2.
    rewrite (filter_none not_put _ evs0), (filter_none plain _ evs1); auto.
    unfold plain. tauto. }
  exists ([start] ++ evs0 ++ evs1 ++ evs2), nodes1.
  split; [trace_eq|]. cbv zeta. rewrite Rall, Fall. split; [exact L0|].
  intros Hnd.
  pose proof (scheduled_schedule (combine (upto n) chunks) [] [] scheduled_nil)
    as [Snd Ssrv Srows].
  cbn [app] in *.
  assert (Hsrv : map server_oid nodes1 = map server_oid (schedule (combine (upto n) chunks) [])).
  { clear -H2. induction H2 as [|? ? ? ? (A & _) _ IH]; cbn; [reflexivity|]. now rewrite A, IH. }
  assert (Hlen : length (upto n) = length chunks) by (rewrite upto_length; lia).
  assert (Hupto : upto (Z.of_nat (length chunks)) = upto n).
  { unfold upto. rewrite L0, Nat2Z.id. reflexivity. }
  split; [now rewrite Hsrv|]. split.
  { intros s. rewrite Hsrv, Ssrv, row_pairs_servers, map_snd_combine by exact Hlen.
    reflexivity. }
  assert (Hsched : Forall (fun p : Z * Chunk => List.NoDup (chunk_servers (snd p)))
                          (combine (upto n) chunks)).
  { rewrite Forall_forall in Hnd |- *. intros [i c] Hin. apply Hnd.
    eapply in_combine_r; eauto. }
  split.
  { unfold same_state in S2. rewrite S2.
    clear -H2. induction H2 as [|? ? ? ? (A & _ & _ & B) _ IH]; constructor; auto.
    now rewrite A. }
  clear -H2 F2 Srows Hsched Hupto.
  revert evs2 F2 Srows.
  induction H2 as [|dn0 dn1 l0 l1 (A & B & C & _) _ IH]; intros evs2 F2 Srows.
  - inversion F2. constructor.
  - inversion F2 as [|? e ? evs' (res & -> & Hres) F2']; subst.
    inversion Srows as [|? ? [Hrows Htot] Srows']; subst.
    constructor; [|now apply IH].
    exists res. split; [|exact Hres]. f_equal.
    rewrite node_copy_data_concat by congruence.
    unfold node_payload, rows_for. rewrite C, Hrows, A, Hupto.
    now rewrite pair_rows_row_pairs.
Qed.

(* ================================================================= *)
(** * Proofs: the status of a connection that is sent rows *)

Lemma begun_refl w : begun w w.
Proof. exists []. rewrite app_nil_r. auto. Qed.

Lemma begun_trans w1 w2 w3 : begun w1 w2 -> begun w2 w3 -> begun w1 w3.
Proof.
  intros (e1 & T1 & H1) (e2 & T2 & H2). exists (e1 ++ e2).
  split; [now rewrite T2, T1, app_assoc|].
  intros c. destruct (H1 c) as [A|(A1 & A2 & cmd & b & A3)],
              (H2 c) as [B|(B1 & B2 & cmd' & b' & B3)].
  - left. congruence.
  - right. rewrite <- A. repeat split; auto. exists cmd', b'. apply in_or_app. now right.
  - right. rewrite B. repeat split; auto. exists cmd, b. apply in_or_app. now left.
  - congruence.
Qed.

#[global] Hint Resolve begun_refl begun_trans : core.

Lemma begun_of_same_conns {A} (m : M A) :
  follows same_conns m -> follows (extends any_event) m -> follows begun m.
Proof.
  intros Hc He w r w' H. destruct (He _ _ _ H) as (evs & T & _).
  exists evs. split; [exact T|]. intros c. left. now rewrite (Hc _ _ _ H).
Qed.

Ltac begun_same := apply begun_of_same_conns; unfold any_event; frame.

Lemma data_node_connection_begun s : follows begun (data_node_connection s).
Proof. begun_same. Qed.

Lemma add_connection_in_use_begun c : follows begun (add_connection_in_use c).
Proof. begun_same. Qed.

Lemma get_state_begun : follows begun get_state.
Proof. begun_same. Qed.

Lemma get_status_begun c : follows begun (remote_connection_get_status c).
Proof. begun_same. Qed.

Lemma send_data_node_begun context dn : follows begun (send_data_node context dn).
Proof. begun_same. Qed.

Lemma begin_copy_begun c cmd b w ok w' :
  conn_status (conns w c) = CONN_IDLE ->
  remote_connection_begin_copy c cmd b w = (Ok ok, w') ->
  begun w w' /\ (ok = true -> conn_status (conns w' c) = CONN_COPY_IN).
Proof.
  intros Hidle H. rewrite begin_copy_eq in H. cbv zeta in H.
  destruct (negb _); injection H as <- <-.
  - split.
    + exists [EvBeginCopy c cmd b true]. split; [reflexivity|]. intros c'. cbn.
      destruct (Z.eq_dec c c') as [<-|Hne].
      * right. rewrite fn_lookup_insert. split; [exact Hidle|]. split; [reflexivity|].
        exists cmd, b. now left.
      * left. now rewrite fn_lookup_insert_ne.
    + intros _. cbn. now rewrite fn_lookup_insert.
  - split; [|discriminate]. exists [EvBeginCopy c cmd b false]. split; [reflexivity|].
    intros c'. now left.
Qed.

Lemma begin_copy_if_needed_outcome server conn w r w' :
  begin_copy_if_needed server conn w = (r, w') ->
  begun w w'
  /\ match r with
     | Ok _ =>
         conn_status (conns w' conn) = CONN_COPY_IN
         /\ (conn_status (conns w conn) = CONN_IDLE
             \/ conn_status (conns w conn) = CONN_COPY_IN)
     | Raise e =>
         (e = ErrBeginCopy /\ conn_status (conns w conn) = CONN_IDLE)
         \/ (e = ErrWrongStatus server /\ w' = w
             /\ conn_status (conns w conn) <> CONN_IDLE
             /\ conn_status (conns w conn) <> CONN_COPY_IN)
     end.
Proof.
  intros H. unfold begin_copy_if_needed in H. run H get_state_eq. run H get_status_eq.
  destruct (conn_status (conns w conn)) eqn:Est; cbn [status_eqb] in H.
  - apply bind_inv in H as [(ok & w1 & H1 & H2)|(e & H1 & ->)].
    + apply begin_copy_begun in H1 as [B1 C1]; [|exact Est].
      destruct ok; cbn [negb] in H2.
      * pose proof (add_connection_in_use_begun _ _ _ _ H2) as B2.
        assert (S2 : same_conns w1 w').
        { eapply (_ : follows same_conns (add_connection_in_use conn)); eauto. }
        assert (r = Ok tt).
        { destruct r as [[]|e]; [reflexivity|].
          destruct (add_connection_in_use_never_raises _ _ _ _ H2). }
        subst r. split; [eauto|]. unfold same_conns in S2. rewrite S2. auto.
      * injection H2 as <- <-. split; [exact B1|]. now left.
    + destruct (begin_copy_never_raises _ _ _ _ _ _ H1).
  - injection H as <- <-. split; [apply begun_refl|]. right. repeat split; congruence.
  - injection H as <- <-. split; [apply begun_refl|]. rewrite Est. auto.
  - injection H as <- <-. split; [apply begun_refl|]. right. repeat split; congruence.
  Unshelve. frame.
Qed.

Lemma begin_copy_if_needed_begun server conn :
  follows begun (begin_copy_if_needed server conn).
Proof. intros w r w' H. now apply begin_copy_if_needed_outcome in H. Qed.

#[global] Hint Resolve data_node_connection_begun add_connection_in_use_begun
  get_state_begun get_status_begun send_data_node_begun begin_copy_if_needed_begun : frames.

Lemma open_data_node_connection_begun dn : follows begun (open_data_node_connection dn).
Proof. unfold open_data_node_connection. frame. Qed.

#[global] Hint Resolve open_data_node_connection_begun : frames.

Lemma begun_keeps_copy_in w w' c :
  begun w w' -> conn_status (conns w c) = CONN_COPY_IN ->
  conn_status (conns w' c) = CONN_COPY_IN.
Proof. intros (evs & _ & H) Hc. destruct (H c) as [->|(A & _)]; congruence. Qed.

Lemma begun_keeps_processing w w' c :
  begun w w' -> conn_status (conns w c) = CONN_PROCESSING ->
  conn_status (conns w' c) = CONN_PROCESSING.
Proof. intros (evs & _ & H) Hc. destruct (H c) as [->|(A & _)]; congruence. Qed.

Lemma same_conns_data_node_connection s : follows same_conns (data_node_connection s).
Proof. frame. Qed.

Lemma open_data_node_connection_status dn w dn' w' :
  open_data_node_connection dn w = (Ok dn', w') ->
  conn_status (conns w' (dn_connection dn')) = CONN_COPY_IN.
Proof.
  intros H. unfold open_data_node_connection in H.
  apply bind_inv in H as [(conn & w1 & H1 & H2)|(e & H1 & E)]; [|discriminate].
  apply bind_inv in H2 as [(u & w2 & H2 & H3)|(e & H2 & E)]; [|discriminate].
  injection H3 as <- <-. cbn.
  now apply begin_copy_if_needed_outcome in H2 as (_ & C & _).
Qed.

Lemma mapM_open_status nodes w nodes' w' :
  mapM open_data_node_connection nodes w = (Ok nodes', w') ->
  Forall (fun dn => conn_status (conns w' (dn_connection dn)) = CONN_COPY_IN) nodes'.
Proof.
  revert w nodes'. induction nodes as [|dn nodes IH]; intros w nodes' H; cbn [mapM] in H.
  - injection H as <- <-. constructor.
  - apply bind_inv in H as [(dn' & w1 & H1 & H2)|(e & H1 & E)]; [|discriminate].
    apply bind_inv in H2 as [(rest & w2 & H2 & H3)|(e & H2 & E)]; [|discriminate].
    injection H3 as <- <-.
    constructor; [|eauto].
    apply open_data_node_connection_status in H1.
    eapply begun_keeps_copy_in; [|exact H1].
    eapply (follows_mapM begun); eauto with frames.
Qed.

(** A data node whose cached connection is in the processing state stops
    the second loop. *)
Lemma mapM_open_processing nodes w r w' dn conn :
  mapM open_data_node_connection nodes w = (r, w') ->
  In dn nodes ->
  find_server_connection (server_oid dn) (data_node_connections (connection_state w))
  = Some conn ->
  conn_status (conns w conn) = CONN_PROCESSING ->
  exists e, r = Raise e.
Proof.
  revert w r w'.
  induction nodes as [|dn0 nodes IH]; intros w r w' H Hin Hfind Hst; [destruct Hin|].
  cbn [mapM] in H.
  apply bind_inv in H as [(dn' & w1 & H1 & H2)|(e & H1 & ->)]; [|eauto].
  destruct Hin as [->|Hin].
  - exfalso. unfold open_data_node_connection in H1.
    apply bind_inv in H1 as [(c & w2 & H1 & H3)|(e & H1 & E)]; [|discriminate].
    unfold data_node_connection in H1. run H1 get_state_eq. rewrite Hfind in H1.
    injection H1 as <- <-.
    apply bind_inv in H3 as [(u & w2 & H1 & H3)|(e & H1 & E)]; [|discriminate].
    apply begin_copy_if_needed_outcome in H1 as (_ & _ & [A|A]); congruence.
  - apply bind_inv in H2 as [(rest & w2 & H2 & H3)|(e & H2 & ->)]; [|eauto].
    exfalso. enough (exists e, Ok rest = Raise e) as [e E] by discriminate E.
    eapply IH; [exact H2 | exact Hin | |].
    + destruct (open_data_node_connection_cache_grows _ _ _ _ H1) as [more ->].
      now apply find_server_connection_app.
    + eapply begun_keeps_processing; [|exact Hst].
      eapply open_data_node_connection_begun; eauto.
Qed.

Lemma forM_send_events context nodes w r w' :
  forM (send_data_node context) nodes w = (r, w') ->
  conns w' = conns w
  /\ exists evs,
      trace w' = trace w ++ evs
      /\ Forall (fun e =>
                   exists dn res,
                     In dn nodes
                     /\ e = EvPutCopyData (dn_connection dn) (node_copy_data context dn) res)
                evs.
Proof.
  unfold forM. revert w. induction nodes as [|dn nodes IH]; intros w H; cbn [foldM] in H.
  - injection H as <- <-. split; [reflexivity|]. exists []. now rewrite app_nil_r.
  - assert (Sc : follows same_conns (send_data_node context dn)) by frame.
    apply bind_inv in H as [(u & w1 & H1 & H2)|(e & H1 & ->)].
    + pose proof (Sc _ _ _ H1) as C1. destruct u.
      apply send_data_node_outcome in H1 as (res & T1 & _).
      apply IH in H2 as (C2 & evs & T2 & F2). unfold same_conns in C1.
      split; [congruence|].
      eexists (_ :: evs). split; [trace_eq|]. constructor.
      * exists dn, res. split; [now left | reflexivity].
      * eapply Forall_impl; [|exact F2]. intros e (dn' & res' & Hin & ->).
        exists dn', res'. split; [now right | reflexivity].
    + pose proof (Sc _ _ _ H1) as C1.
      apply send_data_node_outcome in H1 as (res & T1 & _).
      split; [exact C1|]. eexists [_]. split; [exact T1|]. constructor; [|constructor].
      exists dn, res. split; [now left | reflexivity].
Qed.

Lemma status_eqb_refl s : status_eqb s s = true.
Proof. now destruct s. Qed.

(** A connection found in the processing state when rows are about
    to be sent raises an error, in the batch pass and in the slot path alike,
    and the pass then sends nothing; the rows of a pass are written only to
    connections that are in COPY_IN, each of which was in COPY_IN already
    or was idle and had its COPY begun in this pass. *)
Theorem rows_sent_only_in_copy_in :
  (forall context nodes w r w',
      open_and_send context nodes w = (r, w') ->
      exists evs,
        trace w' = trace w ++ evs
        /\ (forall conn data res,
              In (EvPutCopyData conn data res) evs ->
              conn_status (conns w' conn) = CONN_COPY_IN
              /\ (conn_status (conns w conn) = CONN_COPY_IN
                  \/ (conn_status (conns w conn) = CONN_IDLE
                      /\ exists cmd b, In (EvBeginCopy conn cmd b true) evs)))
        /\ (forall dn conn,
              In dn nodes ->
              find_server_connection (server_oid dn)
                (data_node_connections (connection_state w)) = Some conn ->
              conn_status (conns w conn) = CONN_PROCESSING ->
              (exists e, r = Raise e)
              /\ Forall (fun e => is_put_copy_data e = false) evs))
  /\ (forall server conn w,
         conn_status (conns w conn) = CONN_PROCESSING ->
         begin_copy_if_needed server conn w = (Raise (ErrWrongStatus server), w))
  /\ (forall required_id conn w,
         conn_status (conns w conn) = CONN_PROCESSING ->
         begin_copy_unless_processing required_id conn w
         = (Raise (ErrWrongStatusProcessing (server_id required_id)), w)).
Proof.
  split; [|split].
  - intros context nodes w r w' H. unfold open_and_send in H.
    apply bind_inv in H as [(nodes1 & w1 & H1 & H2)|(e & H1 & ->)].
    + pose proof (mapM_open_plain _ _ _ _ H1) as (evs1 & T1 & P1).
      pose proof (follows_mapM begun begun_refl begun_trans _ nodes
                    open_data_node_connection_begun _ _ _ H1) as (evs1' & T1' & B1).
      assert (evs1' = evs1) by (rewrite T1 in T1'; now apply app_inv_head in T1').
      subst evs1'.
      pose proof (mapM_open_status _ _ _ _ H1) as St1.
      pose proof H1 as H1'.
      apply forM_send_events in H2 as (C2 & evs2 & T2 & F2).
      exists (evs1 ++ evs2). split; [trace_eq|]. split.
      * intros conn data res Hin. apply in_app_or in Hin as [Hin|Hin].
        { rewrite Forall_forall in P1. destruct (P1 _ Hin) as [_ Hp]. discriminate Hp. }
        rewrite Forall_forall in F2. destruct (F2 _ Hin) as (dn & res' & Hdn & E).
        injection E as -> _ _.
        rewrite Forall_forall in St1. specialize (St1 dn Hdn).
        split; [now rewrite C2|].
        destruct (B1 (dn_connection dn)) as [Eq|(A1 & A2 & cmd & b & A3)].
        -- left. now rewrite <- Eq.
        -- right. split; [exact A1|]. exists cmd, b. apply in_or_app. now left.
      * intros dn conn Hin Hfind Hst.
        destruct (mapM_open_processing _ _ _ _ _ _ H1' Hin Hfind Hst) as [e E].
        discriminate E.
    + pose proof (mapM_open_plain _ _ _ _ H1) as (evs1 & T1 & P1).
      exists evs1. split; [exact T1|]. split.
      * intros conn data res Hin.
        rewrite Forall_forall in P1. destruct (P1 _ Hin) as [_ Hp]. discriminate Hp.
      * intros dn conn Hin Hfind Hst. split; [eauto|].
        eapply Forall_impl; [|exact P1]. now intros a [_ Hp].
  - intros server conn w Hst. unfold begin_copy_if_needed.
    erewrite bind_ok by apply get_state_eq. erewrite bind_ok by apply get_status_eq.
    now rewrite Hst.
  - intros required_id conn w Hst. unfold begin_copy_unless_processing.
    erewrite bind_ok by apply get_state_eq. erewrite bind_ok by apply get_status_eq.
    now rewrite Hst.
Qed.

(* ================================================================= *)
(** * Proofs: the uploads of a connection over a load *)

(** ** The life of an upload, read off the calls *)

Lemma uploads_none c evs : fold_left (upload_step c) evs None = None.
Proof. induction evs; [reflexivity | exact IHevs]. Qed.

Lemma uploads_app c open a b :
  uploads c open (a ++ b)
  = match uploads c open a with
    | Some o => uploads c o b
    | None => None
    end.
Proof.
  unfold uploads. rewrite fold_left_app.
  destruct (fold_left (upload_step c) a (Some open)); [reflexivity | apply uploads_none].
Qed.

Lemma passive_step c open e :
  passive e ->
  upload_step c (Some open) e = Some (if closes c e then false else open).
Proof.
  unfold passive. destruct e; cbn; try reflexivity; try discriminate.
  - destruct ok; [discriminate|]. now rewrite andb_false_r.
  - now destruct ((conn =? c) && ok).
  - now destruct ((conn =? c) && (res =? 1)).
Qed.

Lemma uploads_passive c open evs :
  Forall passive evs ->
  uploads c open evs = Some (open && negb (existsb (closes c) evs)).
Proof.
  unfold uploads. intros H. revert open.
  induction H as [|e evs He _ IH]; intros open; cbn [fold_left existsb].
  - now rewrite andb_true_r.
  - rewrite passive_step by exact He. rewrite IH.
    destruct (closes c e); cbn; [now rewrite andb_false_r | reflexivity].
Qed.

Lemma inert_passive e : inert e -> passive e.
Proof.
  unfold inert, passive. destruct e; cbn; try reflexivity; try discriminate.
  now destruct ok.
Qed.

Lemma inert_closes c e : inert e -> closes c e = false.
Proof. unfold inert. destruct e; cbn; try reflexivity; try discriminate. Qed.

Lemma inert_closes_all c evs : Forall inert evs -> existsb (closes c) evs = false.
Proof.
  induction 1 as [|e evs He _ IH]; [reflexivity|].
  cbn. now rewrite inert_closes, IH.
Qed.

Lemma bracketed_refl w : bracketed w w.
Proof. exists []. rewrite app_nil_r. split; [reflexivity|]. intros c open H. eauto. Qed.

Lemma bracketed_trans w1 w2 w3 : bracketed w1 w2 -> bracketed w2 w3 -> bracketed w1 w3.
Proof.
  intros (e1 & T1 & H1) (e2 & T2 & H2). exists (e1 ++ e2).
  split; [now rewrite T2, T1, app_assoc|].
  intros c open H. destruct (H1 c open H) as (o1 & U1 & K1).
  destruct (H2 c o1 K1) as (o2 & U2 & K2).
  exists o2. rewrite uploads_app, U1. auto.
Qed.

Lemma winds_down_refl w : winds_down w w.
Proof.
  exists []. rewrite app_nil_r. split; [reflexivity|]. split; [constructor|].
  intros c. cbn. tauto.
Qed.

Lemma winds_down_trans w1 w2 w3 : winds_down w1 w2 -> winds_down w2 w3 -> winds_down w1 w3.
Proof.
  intros (e1 & T1 & P1 & H1) (e2 & T2 & P2 & H2). exists (e1 ++ e2).
  split; [now rewrite T2, T1, app_assoc|]. split; [now apply Forall_app|].
  intros c. specialize (H1 c). specialize (H2 c). rewrite existsb_app.
  destruct (existsb (closes c) e1), (existsb (closes c) e2); cbn; tauto.
Qed.

#[global] Hint Resolve bracketed_refl bracketed_trans winds_down_refl winds_down_trans : core.

Lemma winds_down_bracketed w w' : winds_down w w' -> bracketed w w'.
Proof.
  intros (evs & T & P & H). exists evs. split; [exact T|].
  intros c open Ht. rewrite uploads_passive by exact P.
  eexists. split; [reflexivity|]. specialize (H c). unfold tracks in *.
  destruct (existsb (closes c) evs); cbn.
  - rewrite andb_false_r. split; [discriminate | tauto].
  - rewrite andb_true_r. tauto.
Qed.

Lemma follows_winds_down_bracketed {A} (m : M A) :
  follows winds_down m -> follows bracketed m.
Proof. intros H w r w' E. apply winds_down_bracketed. eauto. Qed.

Lemma winds_down_inert {A} (m : M A) :
  follows same_conns m -> follows (extends inert) m -> follows winds_down m.
Proof.
  intros Hc He w r w' H. destruct (He _ _ _ H) as (evs & T & F).
  exists evs. split; [exact T|].
  split; [eapply Forall_impl; [|exact F]; apply inert_passive|].
  intros c. rewrite inert_closes_all by exact F.
  unfold uploading. now rewrite (Hc _ _ _ H).
Qed.

Ltac inert_frame := apply winds_down_inert; unfold inert; frame.

Lemma get_state_winds_down : follows winds_down get_state.
Proof. inert_frame. Qed.
Lemma put_state_winds_down s : follows winds_down (put_state s).
Proof. inert_frame. Qed.
Lemma GetUserId_winds_down : follows winds_down GetUserId.
Proof. inert_frame. Qed.
Lemma pending_answers_winds_down : follows winds_down pending_answers.
Proof. inert_frame. Qed.
Lemma CHECK_FOR_INTERRUPTS_winds_down : follows winds_down CHECK_FOR_INTERRUPTS.
Proof. inert_frame. Qed.
Lemma get_status_winds_down c : follows winds_down (remote_connection_get_status c).
Proof. inert_frame. Qed.
Lemma find_chunk_winds_down p : follows winds_down (ts_hypertable_find_chunk_for_point p).
Proof. inert_frame. Qed.
Lemma create_chunk_winds_down p : follows winds_down (ts_hypertable_create_chunk_for_point p).
Proof. inert_frame. Qed.
Lemma set_unordered_winds_down c : follows winds_down (ts_chunk_set_unordered c).
Proof. inert_frame. Qed.
Lemma get_connection_winds_down i : follows winds_down (remote_dist_txn_get_connection i).
Proof. inert_frame. Qed.
Lemma cache_connection_winds_down e : follows winds_down (cache_connection e).
Proof. inert_frame. Qed.
Lemma add_connection_in_use_winds_down c : follows winds_down (add_connection_in_use c).
Proof. inert_frame. Qed.
Lemma PQgetResult_winds_down c : follows winds_down (PQgetResult c).
Proof. inert_frame. Qed.
Lemma flush_loop_winds_down fuel cs : follows winds_down (flush_loop fuel cs).
Proof.
  apply winds_down_inert; [frame|].
  unfold inert. revert cs. induction fuel as [|fuel IH]; intros cs; cbn [flush_loop]; frame.
Qed.

#[global] Hint Resolve get_state_winds_down put_state_winds_down GetUserId_winds_down
  pending_answers_winds_down CHECK_FOR_INTERRUPTS_winds_down get_status_winds_down
  find_chunk_winds_down create_chunk_winds_down set_unordered_winds_down
  get_connection_winds_down cache_connection_winds_down add_connection_in_use_winds_down
  PQgetResult_winds_down flush_loop_winds_down : frames.

(** ** Flushing ends uploads and begins none *)

Lemma winds_down_step w w' evs :
  trace w' = trace w ++ evs ->
  Forall passive evs ->
  (forall c, if existsb (closes c) evs then ~ uploading w' c
             else uploading w' c <-> uploading w c) ->
  winds_down w w'.
Proof. intros. exists evs. auto. Qed.

Lemma flush_end_copy_winds_down acc c : follows winds_down (flush_end_copy acc c).
Proof.
  intros w r w' H. unfold flush_end_copy in H. run H get_status_eq.
  destruct (status_eqb (conn_status (conns w c)) CONN_COPY_IN) eqn:Est; cbn [negb] in H;
    [|injection H as <- <-; apply winds_down_refl].
  run H PQgetResult_eq.
  set (z := int_answer (-1) (answers w)) in H. clearbody z.
  destruct (z <? 0).
  { injection H as <- <-. eapply winds_down_step; [reflexivity | repeat constructor|].
    intros c'. cbn. tauto. }
  destruct (z =? PGRES_COPY_IN).
  2:{ injection H as <- <-. eapply winds_down_step; [reflexivity | repeat constructor|].
      intros c'. cbn. tauto. }
  run H PQputCopyEnd_eq.
  set (z' := int_answer 1 _) in H. clearbody z'.
  destruct (Z.eqb_spec z' 1) as [Heq|Hz]; [subst z'|]; cbn [negb] in H.
  - run H set_status_eq. injection H as <- <-.
    eapply winds_down_step; [cbn; rewrite <- app_assoc; reflexivity | repeat constructor|].
    intros c'. cbn [existsb closes]. unfold uploading. cbn.
    destruct (Z.eqb_spec c c') as [<-|Hne]; cbn.
    + rewrite fn_lookup_insert. cbn. discriminate.
    + rewrite fn_lookup_insert_ne by congruence. tauto.
  - injection H as <- <-.
    eapply winds_down_step; [cbn; rewrite <- app_assoc; reflexivity | repeat constructor|].
    intros c'. cbn [existsb closes]. unfold uploading. cbn.
    destruct (Z.eqb_spec z' 1) as [|_]; [contradiction|].
    rewrite andb_false_r. cbn. tauto.
Qed.

#[global] Hint Resolve flush_end_copy_winds_down : frames.

Lemma foldM_flush_end_copy_winds_down cs acc :
  follows winds_down (foldM flush_end_copy cs acc).
Proof. frame. Qed.

Lemma flush_cleanup_winds_down c w r w' :
  ~ uploading w c -> flush_cleanup c w = (r, w') -> winds_down w w'.
Proof.
  intros Hc H. apply flush_cleanup_outcome in H as (_ & Hother & Hidle & z & T & _).
  eapply winds_down_step; [exact T | repeat constructor|].
  intros c'. cbn. unfold uploading in *.
  destruct (Z.eq_dec c' c) as [->|Hne].
  - rewrite Hidle. split; [discriminate | tauto].
  - now rewrite Hother.
Qed.

Lemma ended_all_winds_down cs w w' :
  winds_down w w' -> ended_all cs w -> ended_all cs w'.
Proof.
  intros (evs & _ & _ & H) Hcs c Hin. specialize (H c). specialize (Hcs c Hin).
  destruct (existsb (closes c) evs); tauto.
Qed.

Lemma forM_flush_cleanup_winds_down cs w r w' :
  ended_all cs w -> forM flush_cleanup cs w = (r, w') -> winds_down w w'.
Proof.
  unfold forM. revert w. induction cs as [|c cs IH]; intros w Hcs H; cbn [foldM] in H.
  - injection H as <- <-. apply winds_down_refl.
  - assert (W : forall r1 w1, flush_cleanup c w = (r1, w1) -> winds_down w w1).
    { intros r1 w1. apply flush_cleanup_winds_down. apply Hcs. now left. }
    apply bind_inv in H as [(u & w1 & H1 & H2)|(e & H1 & ->)]; [|eauto].
    destruct u. eapply winds_down_trans; [eapply W; exact H1|].
    apply IH; [|exact H2].
    eapply ended_all_winds_down; [eapply W; exact H1|].
    intros c' Hin. apply Hcs. now right.
Qed.

Lemma flush_verify_winds_down c : follows winds_down (flush_verify c).
Proof. unfold flush_verify. frame. Qed.

#[global] Hint Resolve flush_verify_winds_down : frames.

Lemma emit_flush_marker_winds_down : follows winds_down (emit EvFlushActiveConnections).
Proof. inert_frame. Qed.

Lemma flush_drain_winds_down w r w' :
  flush_drain w = (r, w') ->
  winds_down w w'
  /\ match r with
     | Ok (Some ended) => ended_all ended w'
     | _ => True
     end.
Proof.
  intros H. unfold flush_drain in H. run H get_state_eq.
  apply bind_inv in H as [(ended & w1 & H1 & H)|(e & H1 & ->)];
    [|split; [eapply foldM_flush_end_copy_winds_down; eauto | exact I]].
  pose proof (foldM_flush_end_copy_winds_down _ _ _ _ _ H1) as W1.
  apply foldM_flush_end_copy_outcome in H1 as (_ & _ & evs1 & T1 & _ & ended' & E & Hin & _).
  cbn [app] in E. subst ended'.
  assert (K1 : ended_all ended w1).
  { intros c Hc. destruct (Hin c Hc) as [_ Hend].
    destruct W1 as (evs & T & _ & HW). rewrite T1 in T. apply app_inv_head in T. subst evs.
    specialize (HW c).
    assert (X : existsb (closes c) evs1 = true).
    { apply existsb_exists. exists (EvPutCopyEnd c 1). split; [exact Hend|].
      cbn. now rewrite Z.eqb_refl. }
    now rewrite X in HW. }
  run H pending_answers_eq.
  apply bind_inv in H as [(done & w2 & H2 & H)|(e & H2 & ->)];
    [|split; [eapply winds_down_trans; [exact W1 | eapply flush_loop_winds_down; eauto]
             | exact I]].
  pose proof (flush_loop_winds_down _ _ _ _ _ H2) as W2.
  injection H as <- <-. split; [eauto|].
  destruct done as [[]|]; cbn [option_map]; [|exact I].
  eapply ended_all_winds_down; eauto.
Qed.

Lemma flush_active_connections_winds_down : follows winds_down flush_active_connections.
Proof.
  intros w r w' H. unfold flush_active_connections in H.
  apply bind_inv in H as [(u & w0 & H0 & H)|(e & H0 & ->)];
    [|eapply emit_flush_marker_winds_down; eauto].
  eapply winds_down_trans; [eapply emit_flush_marker_winds_down; eauto|]. clear H0 u.
  apply bind_inv in H as [(drained & w1 & H1 & H)|(e & H1 & ->)];
    [|eapply flush_drain_winds_down; eauto].
  apply flush_drain_winds_down in H1 as [W1 K1].
  eapply winds_down_trans; [exact W1|].
  destruct drained as [ended|]; [|injection H as <- <-; apply winds_down_refl].
  apply bind_inv in H as [(u & w3 & H3 & H)|(e & H3 & ->)].
  - pose proof (forM_flush_cleanup_winds_down _ _ _ _ K1 H3) as W3.
    eapply winds_down_trans; [exact W3|].
    eapply (follows_forM winds_down); eauto with frames.
  - eapply forM_flush_cleanup_winds_down; eauto.
Qed.

#[global] Hint Resolve flush_active_connections_winds_down : frames.

(** ** Ending the COPY at the end of the load *)

Lemma remote_connection_end_copy_winds_down c :
  follows winds_down (remote_connection_end_copy c).
Proof.
  intros w r w' H. rewrite end_copy_eq in H. cbv zeta in H.
  destruct (negb _); injection H as _ <-.
  - eapply winds_down_step; [reflexivity | repeat constructor|].
    intros c'. cbn [existsb closes]. unfold uploading. cbn.
    destruct (Z.eqb_spec c c') as [<-|Hne]; cbn.
    + rewrite fn_lookup_insert. cbn. discriminate.
    + rewrite fn_lookup_insert_ne by congruence. tauto.
  - eapply winds_down_step; [reflexivity | repeat constructor|].
    intros c'. cbn [existsb closes]. rewrite andb_false_r. cbn. tauto.
Qed.

#[global] Hint Resolve remote_connection_end_copy_winds_down : frames.

Lemma remote_copy_end_winds_down : follows winds_down remote_copy_end.
Proof. unfold remote_copy_end, end_copy_on_data_nodes, end_copy_on_data_node. frame. Qed.

(** ** Beginning a COPY and writing rows *)

Lemma uploads_other c (phi : Event -> Prop) open evs :
  (forall e, phi e -> begins c e = false /\ writes c e = false /\ closes c e = false) ->
  Forall phi evs -> uploads c open evs = Some open.
Proof.
  intros Hphi H. unfold uploads. induction H as [|e evs He _ IH]; [reflexivity|].
  cbn [fold_left upload_step]. destruct (Hphi e He) as (-> & -> & ->). exact IH.
Qed.

Lemma begin_copy_if_needed_bracketed server conn :
  follows bracketed (begin_copy_if_needed server conn).
Proof.
  intros w r w' H. unfold begin_copy_if_needed in H. run H get_state_eq.
  run H get_status_eq.
  destruct (conn_status (conns w conn)) eqn:Est; cbn [status_eqb] in H;
    try (injection H as <- <-; apply bracketed_refl).
  apply bind_inv in H as [(ok & w1 & H1 & H2)|(e & H1 & ->)];
    [|destruct (begin_copy_never_raises _ _ _ _ _ _ H1)].
  assert (B : bracketed w w1).
  { rewrite begin_copy_eq in H1. cbv zeta in H1.
    destruct (negb _); injection H1 as <- <-.
    - exists [EvBeginCopy conn (outgoing_copy_cmd (connection_state w))
                (using_binary (connection_state w)) true].
      split; [reflexivity|]. intros c open Ht. unfold tracks, uploading in *. cbn.
      destruct (Z.eqb_spec conn c) as [<-|Hne]; cbn.
      + rewrite fn_lookup_insert. cbn.
        destruct open; [destruct Ht as [Ht _]; specialize (Ht eq_refl); congruence|].
        exists true. tauto.
      + rewrite fn_lookup_insert_ne by congruence. exists open. tauto.
    - apply winds_down_bracketed.
      eapply winds_down_step; [reflexivity | repeat constructor|].
      intros c. cbn. tauto. }
  destruct ok; cbn [negb] in H2.
  - eapply bracketed_trans; [exact B|]. apply winds_down_bracketed.
    eapply add_connection_in_use_winds_down; eauto.
  - injection H2 as <- <-. exact B.
Qed.

Lemma data_node_connection_winds_down s : follows winds_down (data_node_connection s).
Proof. unfold data_node_connection. frame. Qed.

#[global] Hint Resolve follows_winds_down_bracketed : frames.
#[global] Hint Resolve begin_copy_if_needed_bracketed data_node_connection_winds_down : frames.

Lemma open_data_node_connection_bracketed dn :
  follows bracketed (open_data_node_connection dn).
Proof. unfold open_data_node_connection. frame. Qed.

#[global] Hint Resolve open_data_node_connection_bracketed : frames.

Lemma uploads_writes (conns_in_copy : TSConnection -> Prop) c open evs :
  (open = false -> ~ conns_in_copy c) ->
  Forall (fun e => exists conn data res, e = EvPutCopyData conn data res
                                         /\ conns_in_copy conn) evs ->
  uploads c open evs = Some open.
Proof.
  intros Hopen H. unfold uploads. induction H as [|e evs He _ IH]; [reflexivity|].
  destruct He as (conn & data & res & -> & Hc). cbn [fold_left upload_step begins writes].
  destruct (Z.eqb_spec conn c) as [->|Hne]; cbn; [|exact IH].
  destruct open; [exact IH|]. now destruct Hopen.
Qed.

Lemma forM_send_bracketed context nodes w r w' :
  Forall (fun dn => uploading w (dn_connection dn)) nodes ->
  forM (send_data_node context) nodes w = (r, w') ->
  bracketed w w'.
Proof.
  intros Hst H. apply forM_send_events in H as (Hc & evs & T & F).
  exists evs. split; [exact T|]. intros c open Ht. exists open. split.
  - apply (uploads_writes (uploading w)).
    + intros -> Hup. apply Ht in Hup. discriminate.
    + eapply Forall_impl; [|exact F]. intros e (dn & res & Hin & ->).
      eexists _, _, _. split; [reflexivity|].
      rewrite Forall_forall in Hst. now apply Hst.
  - unfold tracks, uploading in *. now rewrite Hc.
Qed.

Lemma open_and_send_bracketed context nodes : follows bracketed (open_and_send context nodes).
Proof.
  intros w r w' H. unfold open_and_send in H.
  assert (B : forall r1 w1, mapM open_data_node_connection nodes w = (r1, w1) ->
                            bracketed w w1).
  { intros r1 w1. eapply (follows_mapM bracketed); eauto with frames. }
  apply bind_inv in H as [(nodes1 & w1 & H1 & H2)|(e & H1 & ->)]; [|eauto].
  eapply bracketed_trans; [eapply B; exact H1|].
  eapply forM_send_bracketed; [|exact H2].
  now apply mapM_open_status in H1.
Qed.

#[global] Hint Resolve open_and_send_bracketed : frames.

Lemma emit_process_batch_winds_down n b : follows winds_down (emit (EvProcessBatch n b)).
Proof. inert_frame. Qed.

#[global] Hint Resolve emit_process_batch_winds_down : frames.

Lemma route_rows_winds_down context : follows winds_down (route_rows context).
Proof. unfold route_rows, route_row. frame. Qed.

#[global] Hint Resolve route_rows_winds_down : frames.

Lemma process_batch_bracketed context :
  follows bracketed (remote_copy_process_and_send_data context).
Proof. unfold remote_copy_process_and_send_data. frame. Qed.

#[global] Hint Resolve process_batch_bracketed : frames.

Lemma copy_loop_bracketed cat src context processed :
  follows bracketed (copy_loop cat src context processed).
Proof.
  revert context processed.
  induction src as [|row src IH]; intros context processed; cbn [copy_loop];
    unfold send_batch; frame.
Qed.

Lemma remote_copy_end_bracketed : follows bracketed remote_copy_end.
Proof. apply follows_winds_down_bracketed, remote_copy_end_winds_down. Qed.

#[global] Hint Resolve copy_loop_bracketed remote_copy_end_bracketed : frames.

Lemma load_bracketed cat stmt table schema_name table_name attnums binary src :
  follows bracketed
    (remote_distributed_copy cat stmt table schema_name table_name attnums binary src).
Proof. unfold remote_distributed_copy. frame. Qed.

(** ** One connection per data node *)

Lemma opened_app a b : opened (a ++ b) = opened a ++ opened b.
Proof. unfold opened. now rewrite flat_map_app. Qed.

Lemma opened_none evs : Forall no_connection evs -> opened evs = [].
Proof.
  induction 1 as [|e evs He _ IH]; [reflexivity|].
  unfold opened in *. cbn. now rewrite He, IH.
Qed.

Lemma opens_once_refl w : opens_once w w.
Proof. exists []. cbn. now rewrite !app_nil_r. Qed.

Lemma opens_once_trans w1 w2 w3 : opens_once w1 w2 -> opens_once w2 w3 -> opens_once w1 w3.
Proof.
  intros (e1 & T1 & C1 & N1) (e2 & T2 & C2 & N2). exists (e1 ++ e2).
  split; [now rewrite T2, T1, app_assoc|].
  split; [now rewrite C2, C1, opened_app, app_assoc | auto].
Qed.

#[global] Hint Resolve opens_once_refl opens_once_trans : core.

Lemma opens_once_same_state {A} (m : M A) :
  follows same_state m -> follows (extends no_connection) m -> follows opens_once m.
Proof.
  intros Hs He w r w' H. destruct (He _ _ _ H) as (evs & T & F).
  exists evs. split; [exact T|]. unfold cached_servers.
  rewrite (Hs _ _ _ H), (opened_none _ F), app_nil_r. auto.
Qed.

Ltac once_frame := apply opens_once_same_state; unfold no_connection; frame.

Lemma get_state_opens_once : follows opens_once get_state.
Proof. once_frame. Qed.
Lemma GetUserId_opens_once : follows opens_once GetUserId.
Proof. once_frame. Qed.
Lemma CHECK_FOR_INTERRUPTS_opens_once : follows opens_once CHECK_FOR_INTERRUPTS.
Proof. once_frame. Qed.
Lemma get_status_opens_once c : follows opens_once (remote_connection_get_status c).
Proof. once_frame. Qed.
Lemma find_chunk_opens_once p : follows opens_once (ts_hypertable_find_chunk_for_point p).
Proof. once_frame. Qed.
Lemma create_chunk_opens_once p : follows opens_once (ts_hypertable_create_chunk_for_point p).
Proof. once_frame. Qed.
Lemma set_unordered_opens_once c : follows opens_once (ts_chunk_set_unordered c).
Proof. once_frame. Qed.
Lemma begin_copy_opens_once c cmd b :
  follows opens_once (remote_connection_begin_copy c cmd b).
Proof. once_frame. Qed.
Lemma end_copy_opens_once c : follows opens_once (remote_connection_end_copy c).
Proof. once_frame. Qed.
Lemma send_data_node_opens_once context dn : follows opens_once (send_data_node context dn).
Proof. once_frame. Qed.
Lemma emit_process_batch_opens_once n b : follows opens_once (emit (EvProcessBatch n b)).
Proof. once_frame. Qed.
Lemma flush_active_connections_opens_once : follows opens_once flush_active_connections.
Proof.
  apply opens_once_same_state; [frame|].
  intros w r w' H. destruct (flush_active_connections_events _ _ _ H) as (evs & T & F).
  exists (EvFlushActiveConnections :: evs). split; [exact T|].
  constructor; [reflexivity|]. eapply Forall_impl; [|exact F].
  intros e. unfold flush_io, no_connection. now destruct e.
Qed.

Lemma add_connection_in_use_opens_once c : follows opens_once (add_connection_in_use c).
Proof.
  intros w r w' H. unfold add_connection_in_use in H. run H get_state_eq.
  destruct (list_member _ _); injection H as _ <-; [apply opens_once_refl|].
  exists []. cbn. now rewrite !app_nil_r.
Qed.

Lemma find_server_connection_none s cache :
  find_server_connection s cache = None ->
  ~ In s (map (fun entry => server_id (id entry)) cache).
Proof.
  unfold find_server_connection. induction cache as [|e cache IH]; cbn; [tauto|].
  destruct (Z.eqb_spec s (server_id (id e))) as [->|Hne]; cbn; [discriminate|].
  intros H [Heq|Hin]; [congruence | now apply IH].
Qed.

Lemma data_node_connection_opens_once s : follows opens_once (data_node_connection s).
Proof.
  intros w r w' H. unfold data_node_connection in H. run H get_state_eq.
  destruct (find_server_connection s _) eqn:Hfind.
  - injection H as _ <-. apply opens_once_refl.
  - run H GetUserId_eq. unfold bind in H. rewrite get_connection_eq in H. cbv zeta in H.
    destruct (int_answer 0 (answers w) <? 0).
    + injection H as _ <-. exists []. cbn. now rewrite !app_nil_r.
    + rewrite cache_connection_eq in H. injection H as _ <-.
      eexists [_]. split; [reflexivity|]. unfold cached_servers. cbn.
      rewrite map_app. cbn. split; [reflexivity|].
      intros Hnd. apply List.NoDup_app; [exact Hnd | repeat constructor; intros [] |].
      intros x Hin [<-|[]]. now apply find_server_connection_none in Hfind.
Qed.

#[global] Hint Resolve get_state_opens_once GetUserId_opens_once
  CHECK_FOR_INTERRUPTS_opens_once get_status_opens_once find_chunk_opens_once
  create_chunk_opens_once set_unordered_opens_once begin_copy_opens_once
  end_copy_opens_once send_data_node_opens_once emit_process_batch_opens_once
  flush_active_connections_opens_once add_connection_in_use_opens_once
  data_node_connection_opens_once : frames.

Lemma process_batch_opens_once context :
  follows opens_once (remote_copy_process_and_send_data context).
Proof.
  unfold remote_copy_process_and_send_data, route_rows, route_row, open_and_send,
    open_data_node_connection, begin_copy_if_needed.
  frame.
Qed.

#[global] Hint Resolve process_batch_opens_once : frames.

Lemma copy_loop_opens_once cat src context processed :
  follows opens_once (copy_loop cat src context processed).
Proof.
  revert context processed.
  induction src as [|row src IH]; intros context processed; cbn [copy_loop];
    unfold send_batch; frame.
Qed.

Lemma remote_copy_end_opens_once : follows opens_once remote_copy_end.
Proof. unfold remote_copy_end, end_copy_on_data_nodes, end_copy_on_data_node. frame. Qed.

#[global] Hint Resolve copy_loop_opens_once remote_copy_end_opens_once : frames.

Lemma remote_copy_begin_state cat stmt table schema_name table_name attnums binary
    context state :
  remote_copy_begin cat stmt table schema_name table_name attnums binary
  = Ok (context, state) ->
  data_node_connections state = [].
Proof.
  unfold remote_copy_begin, res_bind. intros H.
  destruct (deparse_copy_cmd _ _ _ _ _); [|discriminate].
  destruct binary.
  - now injection H as _ <-.
  - destruct (generate_text_copy_context _ _ _ _); [|discriminate].
    now injection H as _ <-.
Qed.

(** Over a load a connection is asked for at most once per data node. *)
Lemma load_opens_once cat stmt table schema_name table_name attnums binary src w r w' :
  remote_distributed_copy cat stmt table schema_name table_name attnums binary src w
  = (r, w') ->
  exists evs, trace w' = trace w ++ evs /\ List.NoDup (opened evs).
Proof.
  intros H. unfold remote_distributed_copy in H.
  apply bind_inv in H as [([context state] & w0 & H0 & H)|(e & H0 & ->)].
  - unfold lift in H0. injection H0 as H0 <-.
    apply remote_copy_begin_state in H0. unfold bind at 1 in H. cbn [put_state] in H.
    assert (F : follows opens_once
                  (let* processed := try_catch (copy_loop cat src context 0) remote_copy_end in
                   remote_copy_end >> ret processed)) by frame.
    apply F in H as (evs & T & C & N). exists evs. split; [exact T|].
    unfold cached_servers in C, N. cbn in C, N. rewrite H0 in C, N. cbn in C, N.
    rewrite <- C. apply N. constructor.
  - unfold lift in H0. injection H0 as _ <-. exists []. rewrite app_nil_r.
    split; [reflexivity | constructor].
Qed.

(** ** Sample load *)

(* ================================================================= *)

Lemma data_node_connection_hit s w conn :
  find_server_connection s (data_node_connections (connection_state w)) = Some conn ->
  data_node_connection s w = (Ok conn, w).
Proof.
  intros H. unfold data_node_connection. erewrite bind_ok by apply get_state_eq.
  now rewrite H.
Qed.

(** C4, as the code has it: a request for a data node that has a cached
    connection returns that connection and asks for none, in the batch pass
    and, by the full identity, in the slot path; over a load a connection is
    asked for at most once per data node; and on every connection the COPY
    commands and the row writes of a load are in order: a COPY is begun only
    while none is open on the connection, rows are written only while one is
    open, and what is open at the end is what is in COPY_IN.  A connection
    whose COPY was ended by a flush gets a new COPY begun when rows are sent
    to it again. *)
Theorem load_connections_and_uploads :
  (forall s w conn,
      find_server_connection s (data_node_connections (connection_state w)) = Some conn ->
      data_node_connection s w = (Ok conn, w))
  /\ (forall s w conn w1 w2,
         data_node_connection s w = (Ok conn, w1) ->
         cache_grows w1 w2 ->
         data_node_connection s w2 = (Ok conn, w2))
  /\ (forall required_id w conn,
         find_cached_connection required_id (data_node_connections (connection_state w))
         = Some conn ->
         cached_connection required_id w = (Ok conn, w))
  /\ (forall cat stmt table schema_name table_name attnums binary src w r w',
         remote_distributed_copy cat stmt table schema_name table_name attnums binary src w
         = (r, w') ->
         (forall c, ~ uploading w c) ->
         exists evs,
           trace w' = trace w ++ evs
           /\ List.NoDup (opened evs)
           /\ forall c, exists open,
                uploads c false evs = Some open /\ (open = true <-> uploading w' c)).
Proof.
  split; [exact data_node_connection_hit|]. split; [|split].
  - intros s w conn w1 w2 H [more Hmore].
    apply data_node_connection_cached in H. apply data_node_connection_hit.
    rewrite Hmore. now apply find_server_connection_app.
  - intros required_id w conn H. unfold cached_connection.
    erewrite bind_ok by apply get_state_eq. now rewrite H.
  - intros cat stmt table schema_name table_name attnums binary src w r w' H Hidle.
    destruct (load_opens_once _ _ _ _ _ _ _ _ _ _ _ H) as (evs & T & N).
    destruct (load_bracketed _ _ _ _ _ _ _ _ _ _ _ H) as (evs' & T' & B).
    assert (evs' = evs) by (rewrite T in T'; now apply app_inv_head in T'). subst evs'.
    exists evs. split; [exact T|]. split; [exact N|].
    intros c. apply B. split; [discriminate|]. intros Hc. now destruct (Hidle c).
Qed.

(** One load of the sample table: the COPY of connection 5 is begun for the
    first batch, ended by the flush that precedes the new chunk of the last
    row, and begun again for the second batch. *)
Lemma load_begins_copy_twice :
  fst (demo_load demo_two_batches demo_two_batches_answers) = Ok 1025
  /\ opened (trace (snd (demo_load demo_two_batches demo_two_batches_answers))) = [501]
  /\ length (List.filter (begins 5)
               (trace (snd (demo_load demo_two_batches demo_two_batches_answers))))
     = 2%nat.
Proof. vm_compute. repeat split; reflexivity. Qed.

Lemma load_connections_and_uploads_witness :
  fst (demo_load [demo_row; demo_late_row] demo_one_batch_answers) = Ok 2
  /\ exists evs,
      trace (snd (demo_load [demo_row; demo_late_row] demo_one_batch_answers)) = [] ++ evs
      /\ List.NoDup (opened evs)
      /\ forall c, exists open,
           uploads c false evs = Some open
           /\ (open = true
               <-> uploading (snd (demo_load [demo_row; demo_late_row]
                                     demo_one_batch_answers)) c).
Proof.
  split; [vm_compute; reflexivity|].
  apply (proj2 (proj2 (proj2 load_connections_and_uploads))
           demo_catalog demo_stmt demo_hypertable "public"%string "metrics"%string
           [1; 2; 3] false [demo_row; demo_late_row] (demo_world demo_one_batch_answers)
           (fst (demo_load [demo_row; demo_late_row] demo_one_batch_answers))).
  - vm_compute. reflexivity.
  - intros c. vm_compute. discriminate.
Defined.

(* ================================================================= *)
(** * Proofs: a partition column that is not copied *)

Lemma load_setup_raises cat stmt table schema_name table_name attnums binary src w e :
  remote_copy_begin cat stmt table schema_name table_name attnums binary = Raise e ->
  remote_distributed_copy cat stmt table schema_name table_name attnums binary src w
  = (Raise e, w).
Proof. intros H. unfold remote_distributed_copy, bind, lift. now rewrite H. Qed.

Lemma first_missing_In attnums dims d :
  first_missing attnums dims = Some d -> In d dims /\ ~ In (column_attno d) attnums.
Proof.
  induction dims as [|d0 dims IH]; cbn [first_missing]; [discriminate|].
  destruct (existsb (Z.eqb (column_attno d0)) attnums) eqn:E.
  - intros H. destruct (IH H). split; [now right | assumption].
  - intros [= <-]. split; [now left|]. intros Hin.
    apply existsb_eqb_In in Hin. congruence.
Qed.

(** C8, as the code has it: in text mode a partition dimension whose
    column is not among the copied columns stops the load while the copy
    context is set up, whatever the kind of the dimension, with the world
    untouched: no connection is asked for and no row is sent.  No default
    is ever used: once the set-up succeeded every dimension reads a field of
    the row.  In binary mode the set-up makes no such check. *)
Theorem missing_partition_column cat stmt table schema_name table_name attnums src w d :
  first_missing attnums (dimensions (space table)) = Some d ->
  (exists e,
      remote_distributed_copy cat stmt table schema_name table_name attnums false src w
      = (Raise e, w)
      /\ (forall cmd delim_null,
             deparse_copy_cmd cat stmt schema_name table_name false = Ok cmd ->
             validate_options cat (options stmt) = Ok delim_null ->
             e = ErrDefaultForPartitioningColumn (column_name d)))
  /\ (forall ctx,
         generate_text_copy_context cat (options stmt) table attnums <> Ok ctx)
  /\ (forall ht' ctx fields,
         generate_text_copy_context cat (options stmt) ht' attnums = Ok ctx ->
         Forall (fun info =>
                   get_copy_dimension_datum cat fields info
                   = match aref None fields (corresponding_copy_field info) with
                     | None =>
                         match dim_type (dim info) with
                         | DIMENSION_TYPE_OPEN =>
                             Raise (ErrNotNullViolation (column_name (dim info)))
                         | _ => Ok 0
                         end
                     | Some field =>
                         InputFunctionCall cat (io_func info) field (typioparams info)
                           (atttypmod info)
                     end)
                (text_dimensions ctx))
  /\ (forall cmd,
         deparse_copy_cmd cat stmt schema_name table_name true = Ok cmd ->
         exists context state,
           remote_copy_begin cat stmt table schema_name table_name attnums true
           = Ok (context, state)).
Proof.
  intros Hmiss.
  pose proof (generate_copy_dimensions_result cat (dimensions (space table)) attnums table)
    as Hdims. rewrite Hmiss in Hdims.
  assert (Hctx : forall ctx,
             generate_text_copy_context cat (options stmt) table attnums <> Ok ctx).
  { intros ctx. unfold generate_text_copy_context, res_bind.
    destruct (validate_options cat (options stmt)) as [[delim null]|e]; [|discriminate].
    rewrite Hdims. discriminate. }
  split; [|split; [exact Hctx|split]].
  - destruct (remote_copy_begin cat stmt table schema_name table_name attnums false)
      as [[context state]|e] eqn:Hbegin.
    + exfalso. unfold remote_copy_begin, res_bind in Hbegin.
      destruct (deparse_copy_cmd _ _ _ _ _); [|discriminate].
      destruct (generate_text_copy_context cat (options stmt) table attnums) as [ctx|e] eqn:E;
        [|discriminate].
      now destruct (Hctx ctx).
    + exists e. split; [now apply load_setup_raises|].
      intros cmd [delim null] Hcmd Hopt. unfold remote_copy_begin, res_bind in Hbegin.
      rewrite Hcmd in Hbegin. unfold generate_text_copy_context, res_bind in Hbegin.
      rewrite Hopt, Hdims in Hbegin. congruence.
  - intros ht' ctx fields H. unfold generate_text_copy_context, res_bind in H.
    destruct (validate_options cat (options stmt)) as [[delim null]|e]; [|discriminate].
    pose proof (generate_copy_dimensions_result cat (dimensions (space ht')) attnums ht')
      as Hres.
    destruct (first_missing attnums (dimensions (space ht'))).
    + rewrite Hres in H. discriminate.
    + destruct Hres as (infos & Hinfos & _ & Hall). rewrite Hinfos in H.
      injection H as <-. cbn [text_dimensions].
      eapply Forall_impl; [|exact Hall]. intros info [Hrange _].
      unfold get_copy_dimension_datum.
      destruct (Z.eqb_spec (corresponding_copy_field info) (-1)) as [E|_]; [lia|].
      reflexivity.
  - intros cmd Hcmd. unfold remote_copy_begin, res_bind. rewrite Hcmd. eauto.
Qed.

(** The device column, the column of the closed dimension of the sample
    table, is not copied: the load raises and no default is used. *)
Lemma closed_dimension_without_column_raises :
  dim_type demo_space_dimension = DIMENSION_TYPE_CLOSED
  /\ remote_distributed_copy demo_catalog demo_stmt demo_hypertable "public" "metrics"
       [1; 3] false [demo_row] (demo_world [])
     = (Raise (ErrDefaultForPartitioningColumn "device"), demo_world []).
Proof. split; reflexivity. Qed.

Lemma missing_partition_column_witness :
  exists e,
    remote_distributed_copy demo_catalog demo_stmt demo_hypertable "public" "metrics"
      [2; 3] false [demo_row] (demo_world [])
    = (Raise e, demo_world [])
    /\ (forall cmd delim_null,
           deparse_copy_cmd demo_catalog demo_stmt "public" "metrics" false = Ok cmd ->
           validate_options demo_catalog (options demo_stmt) = Ok delim_null ->
           e = ErrDefaultForPartitioningColumn (column_name demo_time_dimension)).
Proof.
  apply (missing_partition_column demo_catalog demo_stmt demo_hypertable
           "public"%string "metrics"%string [2; 3] [demo_row] (demo_world [])
           demo_time_dimension).
  reflexivity.
Defined.

(* ================================================================= *)
(** * Proofs: the batches of a load

    The loop of [remote_distributed_copy] hands to
    [remote_copy_process_and_send_data] the batches that [copy_batches]
    computes from the encoded rows of the source. *)

Lemma read_next_copy_row_end cat context :
  read_next_copy_row cat context None = Ok None.
Proof. unfold read_next_copy_row. now destruct (data_context context). Qed.

Lemma read_next_copy_row_row cat context row r :
  read_next_copy_row cat context (Some row) = Ok r ->
  exists context',
    r = Some context'
    /\ batch context' = batch_add len (batch context) (encoded cat context row)
    /\ forall row', encoded cat context' row' = encoded cat context row'.
Proof.
  unfold read_next_copy_row, encoded, res_bind.
  destruct (data_context context) as [ctx|ctx]; cbn [parse_next_text_row
    parse_next_binary_row option_map fields nfields null_string delimiter values nulls
    bin_out_functions].
  - destruct (get_current_point_for_text_copy _ _); [|discriminate].
    intros [= <-]. eexists. split; [reflexivity|]. cbn.
    rewrite text_row_data_stored. auto.
  - destruct (get_current_point_for_binary_copy _ _ _); [|discriminate].
    intros [= <-]. eexists. split; [reflexivity|]. cbn. auto.
Qed.

Lemma flush_loop_not_process_batch fuel cs :
  follows (extends not_process_batch) (flush_loop fuel cs).
Proof.
  unfold not_process_batch. revert cs.
  induction fuel as [|fuel IH]; intros cs; cbn [flush_loop]; frame.
Qed.

#[global] Hint Resolve flush_loop_not_process_batch : frames.

Lemma pass_not_process_batch context :
  follows (extends not_process_batch)
    (let* nodes := route_rows context in open_and_send context nodes).
Proof. unfold not_process_batch. frame. Qed.

Lemma send_batch_event context processed w p w' :
  send_batch context processed w = (Ok p, w') ->
  p = uint64 (processed + current_batch_rows (batch context))
  /\ exists evs,
      trace w' = trace w ++ evs
      /\ List.filter is_process_batch evs = [batch_event (batch context)].
Proof.
  intros H. unfold send_batch in H.
  apply bind_inv in H as [(u & w1 & H1 & H2)|(e & _ & E)]; [|discriminate].
  injection H2 as <- <-. split; [reflexivity|].
  unfold remote_copy_process_and_send_data in H1. run H1 emit_eq.
  apply pass_not_process_batch in H1 as (evs & T & F).
  eexists (_ :: evs). split; [rewrite T; cbn; now rewrite <- app_assoc|].
  cbn. rewrite (filter_none not_process_batch) by auto. reflexivity.
Qed.

Lemma encoded_reset cat context row :
  encoded cat (reset_batch context) row = encoded cat context row.
Proof. reflexivity. Qed.

(** A load that comes to its end has handed over the batches of
    [copy_batches], in order, and returns its count of rows. *)
Lemma copy_loop_batches cat src context processed w total w' :
  copy_loop cat src context processed w = (Ok total, w') ->
  let batches :=
    copy_batches len (map (encoded cat context) src) (batch context) processed in
  total = snd batches
  /\ exists evs,
      trace w' = trace w ++ evs
      /\ List.filter is_process_batch evs = map batch_event (fst batches).
Proof.
  revert context processed w.
  induction src as [|row src IH]; intros context processed w H; cbn [copy_loop] in H;
    apply bind_inv in H as [([] & w0 & H0 & H)|(e & _ & E)]; try discriminate;
    assert (T0 : trace w0 = trace w)
      by (rewrite CHECK_FOR_INTERRUPTS_eq in H0; now injection H0 as _ <-);
    cbn [head] in H; unfold bind at 1, lift in H.
  - rewrite read_next_copy_row_end in H. cbn [map copy_batches fst snd].
    apply send_batch_event in H as (-> & evs & T & F).
    split; [reflexivity|]. exists evs. now rewrite T, T0.
  - destruct (read_next_copy_row cat context (Some row)) as [r|e] eqn:Hread;
      [|discriminate].
    apply read_next_copy_row_row in Hread as (context' & -> & Hb & Henc).
    cbn [map copy_batches]. rewrite <- Hb.
    assert (Hmap : map (encoded cat context') src = map (encoded cat context) src)
      by (apply map_ext; exact Henc).
    destruct (batch_has_room (batch context')).
    + apply IH in H. cbv zeta in H. rewrite Hmap in H.
      destruct H as (-> & evs & T & F). split; [reflexivity|].
      exists evs. now rewrite T, T0.
    + apply bind_inv in H as [(p & w1 & H1 & H2)|(e & _ & E)]; [|discriminate].
      apply send_batch_event in H1 as (-> & evs1 & T1 & F1).
      apply IH in H2. cbv zeta in H2. cbn [reset_batch batch] in H2.
      rewrite (map_ext _ _ (encoded_reset cat context')), Hmap in H2.
      destruct H2 as (-> & evs2 & T2 & F2).
      destruct (copy_batches len (map (encoded cat context) src) empty_batch _)
        as [sent total'] eqn:Ecb.
      cbn [fst snd] in *. split; [reflexivity|].
      exists (evs1 ++ evs2). split; [now rewrite T2, T1, T0, app_assoc|].
      rewrite List.filter_app, F1, F2. reflexivity.
Qed.

Lemma remote_copy_end_not_process_batch :
  follows (extends not_process_batch) remote_copy_end.
Proof.
  unfold remote_copy_end, end_copy_on_data_nodes, end_copy_on_data_node,
    flush_active_connections, flush_drain, flush_end_copy, flush_cleanup, flush_verify,
    not_process_batch.
  frame.
Qed.

Lemma remote_copy_begin_batch cat stmt table schema_name table_name attnums binary
    context state :
  remote_copy_begin cat stmt table schema_name table_name attnums binary
  = Ok (context, state) ->
  batch context = empty_batch.
Proof.
  unfold remote_copy_begin, res_bind. intros H.
  destruct (deparse_copy_cmd _ _ _ _ _); [|discriminate].
  destruct binary.
  - now injection H as <- _.
  - destruct (generate_text_copy_context _ _ _ _); [|discriminate].
    now injection H as <- _.
Qed.

(** The same for the whole of [remote_distributed_copy]. *)
Lemma load_batches cat stmt table schema_name table_name attnums binary src w total w'
    context state :
  remote_copy_begin cat stmt table schema_name table_name attnums binary
  = Ok (context, state) ->
  remote_distributed_copy cat stmt table schema_name table_name attnums binary src w
  = (Ok total, w') ->
  let batches := copy_batches len (map (encoded cat context) src) empty_batch 0 in
  total = snd batches
  /\ exists evs,
      trace w' = trace w ++ evs
      /\ List.filter is_process_batch evs = map batch_event (fst batches).
Proof.
  intros Hbegin H. unfold remote_distributed_copy in H.
  unfold bind at 1, lift in H. rewrite Hbegin in H.
  unfold bind at 1 in H. cbn [put_state] in H.
  apply bind_inv in H as [(p & w1 & H1 & H2)|(e & _ & E)]; [|discriminate].
  apply bind_inv in H2 as [(u & w2 & H2 & H3)|(e & _ & E)]; [|discriminate].
  injection H3 as <- <-.
  unfold try_catch in H1.
  destruct (copy_loop cat src context 0 _) as [[p'|e] w0] eqn:Hloop.
  - injection H1 as <- <-. apply copy_loop_batches in Hloop. cbv zeta in Hloop.
    rewrite (remote_copy_begin_batch _ _ _ _ _ _ _ _ _ Hbegin) in Hloop.
    destruct Hloop as (-> & evs1 & T1 & F1). split; [reflexivity|].
    apply remote_copy_end_not_process_batch in H2 as (evs2 & T2 & F2).
    exists (evs1 ++ evs2). split; [rewrite T2, T1; cbn; now rewrite app_assoc|].
    rewrite List.filter_app, F1, (filter_none not_process_batch) by auto.
    now rewrite app_nil_r.
  - destruct (remote_copy_end w0) as [[|] ?]; discriminate.
Qed.

(** ** Sample pass: scenario D *)

(* ================================================================= *)
(** * The scenarios of the specification, obtained from the theorems *)

(** Scenario B: two columns, the second one null. *)
Lemma generate_binary_copy_data_scenario_B :
  generate_binary_copy_data demo_catalog [7; 0] [false; true] [1; 2] [23; 23]
  = [x00; x02; x00; x00; x00; x04; x00; x00; x00; x07; xff; xff; xff; xff].
Proof.
  destruct (generate_binary_copy_data_layout demo_catalog [7; 0] [false; true] [23; 23]
              [1; 2]) as [Hrow _].
  - cbn. lia.
  - repeat (apply Forall_cons; [vm_compute; discriminate|]). apply Forall_nil.
  - exact Hrow.
Defined.

(** Scenario D: one flush, before the chunk is created. *)
Lemma process_batch_flushes_once_scenario_D :
  exists evs,
    trace (snd demo_pass) = [] ++ evs
    /\ flush_once evs
    /\ (length (List.filter is_flush_marker evs) <= 1)%nat
    /\ (forall pre p c post,
          evs = pre ++ EvCreateChunk p c :: post -> In EvFlushActiveConnections pre).
Proof.
  apply (process_batch_flushes_once demo_context
           (demo_uploading_world [5] demo_pass_answers) (fst demo_pass)).
  vm_compute. reflexivity.
Defined.

(** Scenario E: the error result of connection 5 is raised once both
    connections are ended, drained and back to idle. *)
Lemma flush_active_connections_scenario_E :
  exists ended evs_drain evs_verify,
    trace (snd demo_failed_flush)
    = [] ++ EvFlushActiveConnections
         :: concat (map ended_copy ended) ++ evs_drain
            ++ map cleaned_up ended ++ evs_verify
    /\ (forall c, In c [5; 6] ->
                  conn_status (conns (demo_uploading_world [5; 6]
                                        demo_failed_flush_answers) c)
                  = CONN_COPY_IN -> In c ended)
    /\ Forall (fun e => is_drain_io e = true) evs_drain
    /\ (forall c, In c ended -> drained c evs_drain)
    /\ (forall c, In c ended -> idle_blocking (snd demo_failed_flush) c)
    /\ verify_outcome ended evs_verify (Raise (ErrResultError 7)).
Proof.
  destruct (flush_active_connections_verifies
              (demo_uploading_world [5; 6] demo_failed_flush_answers)
              (Raise (ErrResultError 7)) (snd demo_failed_flush))
    as [(e & He & Hf)|H].
  - vm_compute. reflexivity.
  - exfalso. injection He as <-. discriminate Hf.
  - exact H.
Defined.

(** Scenario C: the rows of the sample pass go to two data nodes. *)
Lemma process_batch_sends_node_rows_scenario_C :
  exists evs nodes,
    trace (snd demo_pass) = [] ++ evs
    /\ let chunks := resolved_chunks evs in
       let rows := batch_rows (batch demo_context) in
       length chunks = Z.to_nat (current_batch_rows (batch demo_context))
       /\ (Forall (fun c => List.NoDup (chunk_servers c)) chunks ->
           List.NoDup (map server_oid nodes)
           /\ (forall s, In s (map server_oid nodes)
                         <-> exists c, In c chunks /\ In s (chunk_servers c))
           /\ Forall (fun dn => find_server_connection (server_oid dn)
                          (data_node_connections (connection_state (snd demo_pass)))
                        = Some (dn_connection dn)) nodes
           /\ Forall2 (fun dn e => exists res,
                           e = EvPutCopyData (dn_connection dn)
                                 (node_payload rows (server_oid dn) chunks) res
                           /\ res <> -1)
                      nodes (List.filter is_put_copy_data evs)).
Proof.
  apply (process_batch_sends_node_rows demo_context
           (demo_uploading_world [5] demo_pass_answers)).
  vm_compute. reflexivity.
Defined.

Lemma rows_sent_only_in_copy_in_witness :
  begin_copy_if_needed 501 5 demo_processing_world
  = (Raise (ErrWrongStatus 501), demo_processing_world)
  /\ begin_copy_unless_processing (remote_connection_id 501 10) 5 demo_processing_world
     = (Raise (ErrWrongStatusProcessing 501), demo_processing_world).
Proof.
  split.
  - apply (proj1 (proj2 rows_sent_only_in_copy_in) 501 5 demo_processing_world).
    reflexivity.
  - apply (proj2 (proj2 rows_sent_only_in_copy_in) (remote_connection_id 501 10) 5
             demo_processing_world).
    reflexivity.
Defined.

(* ================================================================= *)
(** * Proofs: a connection in the error state *)



(* ================================================================= *)
(** * Proofs: the point of a row with a null partitioning field *)

Lemma res_mapM_lookup {A B} (f : A -> Res B) l r (k : nat) x :
  res_mapM f l = Ok r -> l !! k = Some x ->
  exists y, r !! k = Some y /\ f x = Ok y.
Proof.
  revert r k. induction l as [|a l IH]; intros r k H Hk; [discriminate|].
  cbn [res_mapM] in H. destruct (f a) as [b|] eqn:Ea; [|discriminate].
  cbn [res_bind] in H. destruct (res_mapM f l) as [bs|]; [|discriminate].
  injection H as <-. destruct k as [|k].
  - injection Hk as ->. eauto.
  - cbn in Hk. destruct (IH bs k eq_refl Hk) as (y & Hy & Hf). eauto.
Qed.

Lemma res_mapM_raises_at {A B} (f : A -> Res B) l (k : nat) x e :
  l !! k = Some x -> f x = Raise e ->
  (exists e', res_mapM f l = Raise e')
  /\ (Forall (fun x' => exists y, f x' = Ok y) (take k l) -> res_mapM f l = Raise e).
Proof.
  revert k. induction l as [|a l IH]; intros k Hk Hx; [discriminate|].
  cbn [res_mapM]. destruct k as [|k].
  - injection Hk as ->. rewrite Hx. cbn. eauto.
  - cbn in Hk. destruct (IH k Hk Hx) as [[e' He'] Hfirst].
    destruct (f a) as [b|ea] eqn:Ea; cbn [res_bind].
    + rewrite He'. cbn [res_bind]. split; [eauto|].
      intros Hall. cbn [take] in Hall. inversion Hall; subst.
      rewrite Hfirst in He' by assumption. congruence.
    + split; [eauto|]. intros Hall. cbn [take] in Hall. inversion Hall as [|? ? [y Hy] ?]; subst.
      congruence.
Qed.

(** A field of the row is read from the array as the row has it. *)
Lemma stored_field raw old i :
  0 <= i < Z.of_nat (length raw) ->
  aref None (store_raw_fields raw old) i = aref None raw i.
Proof.
  intros Hi. unfold aref, store_raw_fields.
  destruct (Z.ltb_spec i 0); [lia|]. now rewrite lookup_app_l by lia.
Qed.

(** A row with fewer fields than copied columns, which only the [Assert]
    of [parse_next_text_row] excludes: the coordinate of the closed
    dimension comes from the field that an earlier row left in the second
    slot. *)
Lemma short_row_reads_earlier_field :
  calculate_hyperspace_point_from_fields demo_catalog
    (store_raw_fields (raw_fields demo_short_row)
       [Some "1"%string; Some "22"%string; Some "x"%string])
    [demo_time_info; demo_space_info]
  = Ok [1; 9].
Proof. reflexivity. Qed.

Lemma get_copy_dimension_datum_null cat fields info :
  0 <= corresponding_copy_field info ->
  aref None fields (corresponding_copy_field info) = None ->
  get_copy_dimension_datum cat fields info
  = match dim_type (dim info) with
    | DIMENSION_TYPE_OPEN => Raise (ErrNotNullViolation (column_name (dim info)))
    | _ => Ok 0
    end.
Proof.
  intros Hi Hnull. unfold get_copy_dimension_datum.
  destruct (Z.eqb_spec (corresponding_copy_field info) (-1)); [lia|].
  cbn [negb]. now rewrite Hnull.
Qed.

Lemma read_next_text_row cat context ctx row :
  data_context context = TextContext ctx ->
  read_next_copy_row cat context (Some row)
  = res_bind
      (res_mapM (text_coordinate cat (store_raw_fields (raw_fields row) (fields ctx)))
                (text_dimensions ctx))
      (fun point =>
         Ok (Some {| ht := ht context; attnums := attnums context;
                     data_context :=
                       TextContext
                         {| ndimensions := ndimensions ctx;
                            text_dimensions := text_dimensions ctx;
                            text_out_functions := text_out_functions ctx;
                            delimiter := delimiter ctx;
                            null_string := null_string ctx;
                            fields := store_raw_fields (raw_fields row) (fields ctx);
                            nfields := Z.of_nat (length (raw_fields row)) |};
                     batch := batch_add len (batch context)
                                (text_row_data (raw_fields row)
                                   (Z.of_nat (length (raw_fields row)))
                                   (null_string ctx) (delimiter ctx));
                     batch_points := batch_points context ++ [point] |})).
Proof.
  intros Hctx. unfold read_next_copy_row. rewrite Hctx.
  cbn [parse_next_text_row option_map fields nfields null_string delimiter].
  rewrite text_row_data_stored. reflexivity.
Qed.

(** ** The chunk of a row is looked up at the point of the row *)

Lemma routes_app a b : routes (a ++ b) = routes a ++ routes b.
Proof. unfold routes. now rewrite flat_map_app. Qed.

(** The chunks of the pass, as [resolved_chunks] lists them, are those of
    its routes. *)
Lemma resolved_chunks_routes evs : resolved_chunks evs = map snd (routes evs).
Proof.
  unfold resolved_chunks, routes. induction evs as [|e evs IH]; [reflexivity|].
  cbn [flat_map]. rewrite map_app, IH. f_equal.
  destruct e as [| | | | | | | | | | | |p [c|]| | | |]; reflexivity.
Qed.

Lemma routes_none evs : Forall no_route evs -> routes evs = [].
Proof.
  induction 1 as [|e l He _ IH]; [reflexivity|].
  unfold routes in *. cbn. now rewrite He, IH.
Qed.

Lemma flush_loop_no_route fuel cs : follows (extends no_route) (flush_loop fuel cs).
Proof.
  unfold no_route. revert cs. induction fuel as [|fuel IH]; intros cs; cbn [flush_loop]; frame.
Qed.

#[global] Hint Resolve flush_loop_no_route : frames.

Lemma flush_no_route : follows (extends no_route) flush_active_connections.
Proof.
  unfold flush_active_connections, flush_drain, flush_end_copy, flush_cleanup, flush_verify,
    no_route.
  frame.
Qed.

Lemma set_unordered_no_route chunk :
  follows (extends no_route)
    (if is_compressed chunk && negb (is_unordered chunk)
     then ts_chunk_set_unordered chunk else ret tt).
Proof. unfold no_route, ts_chunk_set_unordered. frame. Qed.

Lemma route_row_routes context acc i w r w' :
  route_row context acc i w = (r, w') ->
  exists evs,
    trace w' = trace w ++ evs
    /\ ((exists c, routes evs = [(aref [] (batch_points context) i, c)])
        \/ (routes evs = [] /\ exists e, r = Raise e)).
Proof.
  destruct acc as [did_flush nodes].
  intros H. unfold route_row in H. run H find_chunk_eq.
  set (p := aref [] (batch_points context) i) in *.
  destruct (chunk_answer (answers w)) as [chunk|] eqn:Echunk.
  - rewrite bind_ret in H.
    assert (F : follows (extends no_route)
                  ((if is_compressed chunk && negb (is_unordered chunk)
                    then ts_chunk_set_unordered chunk else ret tt) >>
                   ret (did_flush,
                        fold_left (schedule_row i) (data_nodes chunk) nodes))).
    { apply follows_bind; [frame_side .. | apply set_unordered_no_route |]. intros _. frame. }
    apply F in H as (evs1 & T1 & F1).
    exists (EvFindChunk p (Some chunk) :: evs1).
    split; [rewrite T1; cbn; now rewrite <- app_assoc|].
    left. exists chunk.
    change (EvFindChunk p (Some chunk) :: evs1) with ([EvFindChunk p (Some chunk)] ++ evs1).
    rewrite routes_app, (routes_none evs1) by exact F1. reflexivity.
  - apply bind_inv in H as [([df0 chunk] & w1 & H1 & H2)|(e & H1 & ->)].
    + apply bind_inv in H1 as [(u & w0 & H0 & H1)|(e & H0 & E)]; [|discriminate].
      assert (F0 : follows (extends no_route)
                     (if negb did_flush then flush_active_connections else ret tt)).
      { destruct did_flush; cbn [negb]; [frame | apply flush_no_route]. }
      apply F0 in H0 as (evs0 & T0 & Fe0).
      unfold bind in H1. rewrite create_chunk_eq in H1.
      destruct (chunk_answer (answers w0)) as [c|]; [|discriminate].
      injection H1 as <- <- <-.
      assert (F : follows (extends no_route)
                    ((if is_compressed c && negb (is_unordered c)
                      then ts_chunk_set_unordered c else ret tt) >>
                     ret (true, fold_left (schedule_row i) (data_nodes c) nodes))).
      { apply follows_bind; [frame_side .. | apply set_unordered_no_route |]. intros _. frame. }
      apply F in H2 as (evs2 & T2 & F2).
      exists (([EvFindChunk p None] ++ evs0) ++ [EvCreateChunk p c] ++ evs2).
      split.
      { rewrite T2. cbn. rewrite T0. cbn. rewrite <- !app_assoc. reflexivity. }
      left. exists c. rewrite !routes_app, (routes_none evs0), (routes_none evs2) by assumption.
      reflexivity.
    + apply bind_inv in H1 as [(u & w0 & H0 & H1)|(e' & H0 & _)].
      * assert (F0 : follows (extends no_route)
                       (if negb did_flush then flush_active_connections else ret tt)).
        { destruct did_flush; cbn [negb]; [frame | apply flush_no_route]. }
        apply F0 in H0 as (evs0 & T0 & Fe0).
        unfold bind in H1. rewrite create_chunk_eq in H1.
        destruct (chunk_answer (answers w0)) as [c|]; [discriminate|].
        injection H1 as _ <-.
        exists ([EvFindChunk p None] ++ evs0). split.
        { cbn. rewrite T0. cbn. rewrite <- !app_assoc. reflexivity. }
        right. rewrite routes_app, (routes_none evs0) by assumption. eauto.
      * assert (F0 : follows (extends no_route)
                       (if negb did_flush then flush_active_connections else ret tt)).
        { destruct did_flush; cbn [negb]; [frame | apply flush_no_route]. }
        apply F0 in H0 as (evs0 & T0 & Fe0).
        exists ([EvFindChunk p None] ++ evs0). split.
        { rewrite T0. cbn. rewrite <- !app_assoc. reflexivity. }
        right. rewrite routes_app, (routes_none evs0) by assumption. eauto.
Qed.

Lemma foldM_route_row_routes context rows acc w r w' :
  foldM (route_row context) rows acc w = (r, w') ->
  exists evs done rest,
    trace w' = trace w ++ evs
    /\ rows = done ++ rest
    /\ map fst (routes evs) = map (aref [] (batch_points context)) done
    /\ (forall x, r = Ok x -> rest = []).
Proof.
  revert acc w. induction rows as [|i rows IH]; intros acc w H; cbn [foldM] in H.
  - injection H as <- <-. exists [], [], []. rewrite app_nil_r. auto.
  - apply bind_inv in H as [(acc' & w1 & H1 & H2)|(e & H1 & ->)].
    + apply route_row_routes in H1 as (evs1 & T1 & [[c R1]|[_ [e E]]]); [|discriminate].
      apply IH in H2 as (evs2 & done & rest & T2 & -> & M2 & O2).
      exists (evs1 ++ evs2), (i :: done), rest.
      split; [now rewrite T2, T1, app_assoc|]. split; [reflexivity|].
      split; [|exact O2]. rewrite routes_app, map_app, R1, M2. reflexivity.
    + apply route_row_routes in H1 as (evs1 & T1 & [[c R1]|[R1 _]]).
      * exists evs1, [i], rows. split; [exact T1|]. split; [reflexivity|].
        split; [now rewrite R1 | discriminate].
      * exists evs1, [], (i :: rows). split; [exact T1|]. split; [reflexivity|].
        split; [now rewrite R1 | discriminate].
Qed.

Lemma map_aref_upto {A} (d : A) (l : list A) :
  map (aref d l) (upto (Z.of_nat (length l))) = l.
Proof.
  induction l as [|x l IH] using rev_ind; [reflexivity|].
  rewrite upto_length_snoc, map_app. cbn [map].
  rewrite aref_nat, lookup_app_r, Nat.sub_diag by lia. cbn [lookup default].
  f_equal. etransitivity; [|exact IH]. apply map_ext_in. intros i Hi.
  unfold upto in Hi. apply in_map_iff in Hi as (k & <- & Hk). apply in_seq in Hk.
  rewrite !aref_nat, lookup_app_l by lia. reflexivity.
Qed.

Lemma open_and_send_no_route context nodes :
  follows (extends no_route) (open_and_send context nodes).
Proof.
  unfold open_and_send, open_data_node_connection, data_node_connection,
    begin_copy_if_needed, send_data_node, no_route.
  frame.
Qed.

(** The chunks of a pass are found or created, row by row, at the points
    of the batch. *)
Lemma pass_routes context w r w' :
  current_batch_rows (batch context) = Z.of_nat (length (batch_points context)) ->
  remote_copy_process_and_send_data context w = (r, w') ->
  exists evs rest,
    trace w' = trace w ++ evs
    /\ batch_points context = map fst (routes evs) ++ rest
    /\ (r = Ok tt -> rest = []).
Proof.
  intros Hn H. unfold remote_copy_process_and_send_data in H. run H emit_eq.
  apply bind_inv in H as [(nodes & w1 & H1 & H2)|(e & H1 & ->)].
  - unfold route_rows in H1.
    apply bind_inv in H1 as [([df nodes'] & w0 & H0 & H1)|(e & _ & E)]; [|discriminate].
    injection H1 as <- <-.
    apply foldM_route_row_routes in H0 as (evs1 & done & rest & T1 & E & M & O).
    rewrite (O _ eq_refl) in E. rewrite app_nil_r in E. subst done.
    apply open_and_send_no_route in H2 as (evs2 & T2 & F2).
    exists (EvProcessBatch (current_batch_rows (batch context))
              (current_batch_bytes (batch context)) :: evs1 ++ evs2), [].
    split; [rewrite T2, T1; cbn; now rewrite <- !app_assoc|].
    split; [|reflexivity]. rewrite app_nil_r.
    change (?e :: evs1 ++ evs2) with ([e] ++ evs1 ++ evs2).
    rewrite !routes_app, (routes_none evs2), app_nil_r by exact F2.
    cbn [routes flat_map route_of app].
    fold (routes evs1). rewrite M, Hn. symmetry. apply map_aref_upto.
  - unfold route_rows in H1.
    apply bind_inv in H1 as [([df nodes'] & w0 & H0 & H1)|(e' & H0 & _)]; [discriminate|].
    apply foldM_route_row_routes in H0 as (evs1 & done & rest & T1 & E & M & O).
    exists (EvProcessBatch (current_batch_rows (batch context))
              (current_batch_bytes (batch context)) :: evs1),
      (map (aref [] (batch_points context)) rest).
    split; [rewrite T1; cbn; now rewrite <- !app_assoc|].
    split; [|discriminate].
    change (?e :: evs1) with ([e] ++ evs1).
    rewrite routes_app. cbn [routes flat_map route_of app]. fold (routes evs1).
    rewrite M, <- map_app, <- E, Hn. symmetry. apply map_aref_upto.
Qed.

Lemma res_mapM_all_ok {A B} (f : A -> Res B) l :
  Forall (fun x => exists y, f x = Ok y) l -> exists r, res_mapM f l = Ok r.
Proof.
  induction 1 as [|x l [y Hy] _ [r IH]]; cbn [res_mapM]; [eauto|].
  rewrite Hy, IH. cbn. eauto.
Qed.

(** C10: in a text load a null in the field of a closed dimension is not
    rejected: the datum is 0 whatever the input function of the column
    would do, the coordinate of the row's point in that dimension is what
    the conversion makes of datum 0 (the partitioning function applied to
    0 and cut to 32 bits, 0 itself only without a partitioning function),
    the row is accepted when its other coordinates are, and the pass looks
    up or creates the chunk of the row at the point with that coordinate.
    A null in the field of an open dimension rejects the row, with the
    not-null violation when no earlier dimension fails. *)
Theorem null_dimension_field cat context ctx row (k : nat) info :
  data_context context = TextContext ctx ->
  text_dimensions ctx !! k = Some info ->
  0 <= corresponding_copy_field info < Z.of_nat (length (raw_fields row)) ->
  aref None (raw_fields row) (corresponding_copy_field info) = None ->
  match dim_type (dim info) with
  | DIMENSION_TYPE_OPEN =>
      (exists e, read_next_copy_row cat context (Some row) = Raise e)
      /\ (Forall (fun info' =>
                    exists c,
                      text_coordinate cat (store_raw_fields (raw_fields row) (fields ctx))
                        info' = Ok c)
                 (take k (text_dimensions ctx)) ->
          read_next_copy_row cat context (Some row)
          = Raise (ErrNotNullViolation (column_name (dim info))))
  | DIMENSION_TYPE_CLOSED =>
      get_copy_dimension_datum cat (store_raw_fields (raw_fields row) (fields ctx)) info
      = Ok 0
      /\ ((exists c, convert_datum_to_dim_idx cat 0 (dim info) = Ok c) ->
          Forall (fun info' =>
                    exists c,
                      text_coordinate cat (store_raw_fields (raw_fields row) (fields ctx))
                        info' = Ok c)
                 (take k (text_dimensions ctx) ++ drop (S k) (text_dimensions ctx)) ->
          exists context', read_next_copy_row cat context (Some row) = Ok (Some context'))
      /\ (forall context',
             read_next_copy_row cat context (Some row) = Ok (Some context') ->
             exists p c,
               batch_points context' = batch_points context ++ [p]
               /\ p !! k = Some c
               /\ convert_datum_to_dim_idx cat 0 (dim info) = Ok c
               /\ match partitioning (dim info) with
                  | None => c = 0
                  | Some part =>
                      exists datum,
                        ts_partitioning_func_apply cat part InvalidOid 0 = Ok datum
                        /\ c = int64 (DatumGetInt32 datum)
                  end
               /\ forall w r w',
                    current_batch_rows (batch context)
                    = Z.of_nat (length (batch_points context)) ->
                    remote_copy_process_and_send_data context' w = (r, w') ->
                    exists evs rest,
                      trace w' = trace w ++ evs
                      /\ batch_points context ++ [p] = map fst (routes evs) ++ rest
                      /\ (r = Ok tt -> rest = []))
  | DIMENSION_TYPE_ANY =>
      get_copy_dimension_datum cat (store_raw_fields (raw_fields row) (fields ctx)) info
      = Ok 0
  end.
Proof.
  intros Hctx Hk Hi Hnull.
  set (fields' := store_raw_fields (raw_fields row) (fields ctx)).
  assert (Hd : get_copy_dimension_datum cat fields' info
               = match dim_type (dim info) with
                 | DIMENSION_TYPE_OPEN =>
                     Raise (ErrNotNullViolation (column_name (dim info)))
                 | _ => Ok 0
                 end).
  { apply get_copy_dimension_datum_null; [lia|].
    unfold fields'. now rewrite stored_field. }
  rewrite (read_next_text_row cat context ctx row Hctx). fold fields'.
  destruct (dim_type (dim info)) eqn:Et.
  - (* open *)
    assert (Hc : text_coordinate cat fields' info
                 = Raise (ErrNotNullViolation (column_name (dim info))))
      by (unfold text_coordinate; now rewrite Hd).
    destruct (res_mapM_raises_at _ _ _ _ _ Hk Hc) as [[e He] Hfirst].
    split; [exists e; now rewrite He|].
    intros Hall. now rewrite (Hfirst Hall).
  - (* closed *)
    assert (Hc : text_coordinate cat fields' info = convert_datum_to_dim_idx cat 0 (dim info))
      by (unfold text_coordinate; now rewrite Hd).
    split; [exact Hd|]. split.
    + intros [c Hconv] Hothers.
      destruct (res_mapM_all_ok (text_coordinate cat fields') (text_dimensions ctx))
        as [p Hp].
      { rewrite <- (take_drop_middle _ _ _ Hk). apply Forall_app in Hothers as [Ha Hb].
        apply Forall_app. split; [exact Ha|]. constructor; [|exact Hb].
        exists c. now rewrite Hc. }
      rewrite Hp. cbn [res_bind]. eauto.
    + intros context' Hread.
      destruct (res_mapM (text_coordinate cat fields') (text_dimensions ctx)) as [p|] eqn:Hp;
        [|discriminate].
      cbn [res_bind] in Hread. injection Hread as <-. cbn [batch_points].
      destruct (res_mapM_lookup _ _ _ _ _ Hp Hk) as (c & Hpc & Hcoord).
      rewrite Hc in Hcoord.
      exists p, c. split; [reflexivity|]. split; [exact Hpc|]. split; [exact Hcoord|].
      split.
      * unfold convert_datum_to_dim_idx in Hcoord. rewrite Et in Hcoord.
        destruct (partitioning (dim info)) as [part|].
        -- destruct (ts_partitioning_func_apply cat part InvalidOid 0) as [datum|];
             [|discriminate].
           cbn [res_bind] in Hcoord. injection Hcoord as <-. eauto.
        -- cbn [res_bind] in Hcoord. now injection Hcoord as <-.
      * intros w r w' Hn Hpass.
        apply pass_routes in Hpass; [exact Hpass|].
        cbn [batch batch_points batch_add current_batch_rows].
        rewrite length_app, Hn. cbn [length]. lia.
  - exact Hd.
Qed.

Lemma null_dimension_field_witness :
  get_copy_dimension_datum demo_catalog
    (store_raw_fields (raw_fields demo_row) (fields demo_text_context)) demo_space_info
  = Ok 0
  /\ ((exists c, convert_datum_to_dim_idx demo_catalog 0 (dim demo_space_info) = Ok c) ->
      Forall (fun info' =>
                exists c,
                  text_coordinate demo_catalog
                    (store_raw_fields (raw_fields demo_row) (fields demo_text_context))
                    info' = Ok c)
             (take 1 (text_dimensions demo_text_context)
              ++ drop 2 (text_dimensions demo_text_context)) ->
      exists context',
        read_next_copy_row demo_catalog demo_context (Some demo_row) = Ok (Some context'))
  /\ (forall context',
         read_next_copy_row demo_catalog demo_context (Some demo_row) = Ok (Some context') ->
         exists p c,
           batch_points context' = batch_points demo_context ++ [p]
           /\ p !! 1%nat = Some c
           /\ convert_datum_to_dim_idx demo_catalog 0 (dim demo_space_info) = Ok c
           /\ (exists datum,
                  ts_partitioning_func_apply demo_catalog {| partfunc := 4001; rettype := 23 |}
                    InvalidOid 0
                  = Ok datum
                  /\ c = int64 (DatumGetInt32 datum))
           /\ forall w r w',
                current_batch_rows (batch demo_context)
                = Z.of_nat (length (batch_points demo_context)) ->
                remote_copy_process_and_send_data context' w = (r, w') ->
                exists evs rest,
                  trace w' = trace w ++ evs
                  /\ batch_points demo_context ++ [p] = map fst (routes evs) ++ rest
                  /\ (r = Ok tt -> rest = [])).
Proof.
  apply (null_dimension_field demo_catalog demo_context demo_text_context demo_row 1
           demo_space_info).
  - reflexivity.
  - reflexivity.
  - cbn. lia.
  - reflexivity.
Defined.

(* ================================================================= *)
(** * Further properties: the options of the statement *)

Lemma validate_options_loop_app cat a b st :
  validate_options_loop cat (a ++ b) st
  = res_bind (validate_options_loop cat a st) (validate_options_loop cat b).
Proof.
  revert st. induction a as [|d a IH]; intros st; cbn [app validate_options_loop].
  - reflexivity.
  - destruct (validate_option cat st d) as [st1|e]; cbn [res_bind]; [apply IH | reflexivity].
Qed.

Lemma validate_options_loop_found cat opts st st' :
  forallb (fun d => negb (is_delimiter d)) opts = true ->
  delimiter_found st = true ->
  validate_options_loop cat opts st = Ok st' ->
  delimiter_found st' = true /\ opt_delimiter st' = opt_delimiter st.
Proof.
  revert st. induction opts as [|d opts IH]; intros st Hno Hf H;
    cbn [validate_options_loop forallb] in *.
  - injection H as <-. auto.
  - apply andb_true_iff in Hno as [Hd Hno]. unfold is_delimiter in Hd.
    destruct (validate_option cat st d) as [st1|e] eqn:E; [|discriminate].
    cbn [res_bind] in H. unfold validate_option in E.
    destruct (String.eqb (defname d) "format").
    + destruct (String.eqb (strVal (arg d)) "binary"); [discriminate|].
      rewrite Hf, andb_false_r in E. injection E as <-. now apply IH.
    + destruct (String.eqb (defname d) "delimiter"); [discriminate|].
      destruct (String.eqb (defname d) "null").
      * destruct (def_get_string cat d); [|discriminate]. injection E as <-.
        apply IH in H; cbn in *; auto.
      * injection E as <-. now apply IH.
Qed.

(** X1: an explicit [delimiter] option decides the delimiter wherever it
    stands with respect to [format csv]: the delimiter is the first
    character of the argument of the last [delimiter] option; in the same
    way the null marker is the argument of the last [null] option. *)
Theorem validate_options_last_wins cat opts pre d post delim null :
  validate_options cat opts = Ok (delim, null) ->
  opts = pre ++ d :: post ->
  (is_delimiter d = true ->
   forallb (fun d => negb (is_delimiter d)) post = true ->
   exists s, def_get_string cat d = Ok s /\ delim = first_char s)
  /\ (is_null d = true ->
      forallb (fun d => negb (is_null d)) post = true ->
      def_get_string cat d = Ok null).
Proof.
  intros H ->. unfold validate_options in H.
  destruct (validate_options_loop cat (pre ++ d :: post) _) as [st'|] eqn:E; [|discriminate].
  cbn [res_bind] in H. injection H as <- <-.
  rewrite validate_options_loop_app in E.
  destruct (validate_options_loop cat pre _) as [st0|]; [|discriminate].
  cbn [res_bind validate_options_loop] in E.
  destruct (validate_option cat st0 d) as [st1|] eqn:Ed; [|discriminate].
  cbn [res_bind] in E. unfold validate_option in Ed. split.
  - intros Hd Hpost. unfold is_delimiter in Hd.
    destruct (String.eqb (defname d) "format") eqn:Ef.
    { apply String.eqb_eq in Ef, Hd. congruence. }
    rewrite Hd in Ed. destruct (def_get_string cat d) as [s|]; [|discriminate].
    injection Ed as <-. exists s. split; [reflexivity|].
    now apply validate_options_loop_found in E as [_ ->].
  - intros Hd Hpost. unfold is_null in Hd.
    destruct (String.eqb (defname d) "format") eqn:Ef.
    { apply String.eqb_eq in Ef, Hd. congruence. }
    destruct (String.eqb (defname d) "delimiter") eqn:Edl.
    { apply String.eqb_eq in Edl, Hd. congruence. }
    rewrite Hd in Ed. destruct (def_get_string cat d) as [s|]; [|discriminate].
    injection Ed as <-. f_equal.
    now apply validate_options_loop_null in E.
Qed.

Lemma validate_options_last_wins_witness :
  exists s,
    def_get_string demo_catalog {| defname := "delimiter"; arg := Some (T_String ";") |}
    = Ok s
    /\ ";"%char = first_char s.
Proof.
  apply (proj1 (validate_options_last_wins demo_catalog
                  [ {| defname := "delimiter"; arg := Some (T_String ";") |};
                    {| defname := "format"; arg := Some (T_String "csv") |} ]
                  [] {| defname := "delimiter"; arg := Some (T_String ";") |}
                  [ {| defname := "format"; arg := Some (T_String "csv") |} ]
                  ";"%char DEFAULT_PG_NULL_VALUE eq_refl eq_refl));
    reflexivity.
Defined.

Lemma validate_option_error cat st d :
  match option_error cat d with
  | Some e => validate_option cat st d = Raise e
  | None => exists st', validate_option cat st d = Ok st'
  end.
Proof.
  unfold option_error, validate_option, is_binary_format, is_format, is_delimiter, is_null.
  destruct (String.eqb (defname d) "format"); cbn [andb].
  - destruct (String.eqb (strVal (arg d)) "binary"); [reflexivity|].
    destruct (_ && _); eauto.
  - destruct (String.eqb (defname d) "delimiter"); cbn [orb].
    + destruct (def_get_string cat d); cbn; eauto.
    + destruct (String.eqb (defname d) "null"); [|eauto].
      destruct (def_get_string cat d); cbn; eauto.
Qed.

(** X2: [validate_options] raises exactly when some option is the binary
    format or is a [delimiter] or [null] option whose argument
    [def_get_string] refuses, and then with the error of the first such
    option; no other option is looked at. *)
Theorem validate_options_errors cat opts :
  match first_error cat opts with
  | Some e => validate_options cat opts = Raise e
  | None => exists delim null, validate_options cat opts = Ok (delim, null)
  end.
Proof.
  unfold validate_options.
  generalize {| opt_delimiter := DEFAULT_PG_DELIMITER;
                opt_null_string := DEFAULT_PG_NULL_VALUE;
                delimiter_found := false |}.
  induction opts as [|d opts IH]; intros st; cbn [first_error validate_options_loop].
  - cbn. eauto.
  - pose proof (validate_option_error cat st d) as Hd.
    destruct (option_error cat d) as [e|].
    + now rewrite Hd.
    + destruct Hd as [st' ->]. cbn [res_bind]. apply IH.
Qed.

(* ================================================================= *)
(** * Further properties: the command sent to the data nodes *)

Lemma string_app_assoc (a b c : string) : ((a ++ b) ++ c = a ++ (b ++ c))%string.
Proof. induction a as [|x a IH]; cbn; [reflexivity | now rewrite IH]. Qed.

Lemma string_app_nil_r (a : string) : (a ++ EmptyString = a)%string.
Proof. induction a as [|x a IH]; cbn; [reflexivity | now rewrite IH]. Qed.

Lemma name_list_loop_good cat names first acc :
  forallb is_name names = true ->
  name_list_loop cat names first acc
  = Ok (acc ++ (if first || match names with [] => true | _ => false end
                then EmptyString else ", ")
            ++ String.concat ", " (map (name_text cat) names))%string.
Proof.
  revert first acc. induction names as [|n names IH]; intros first acc Hall.
  - cbn. rewrite orb_true_r. cbn. now rewrite string_app_nil_r.
  - cbn [forallb] in Hall. apply andb_true_iff in Hall as [Hn Hall].
    cbn [name_list_loop map]. rewrite orb_false_r.
    assert (E : forall s, s = name_text cat n ->
                name_list_loop cat names false
                  ((if first then acc else acc ++ ", ") ++ s)%string
                = Ok (acc ++ (if first then EmptyString else ", ")
                          ++ String.concat ", " (name_text cat n :: map (name_text cat) names))
                     %string).
    { intros s ->. rewrite IH by exact Hall. f_equal. cbn [orb].
      destruct names as [|n' names]; cbn [map String.concat].
      - rewrite !string_app_nil_r. destruct first; cbn; [reflexivity|].
        now rewrite string_app_assoc.
      - destruct first; cbn [append]; rewrite ?string_app_assoc; reflexivity. }
    destruct n; cbn in Hn; try discriminate; now apply E.
Qed.

Lemma name_list_loop_bad cat names first acc :
  forallb is_name names = false ->
  name_list_loop cat names first acc = Raise ErrUnexpectedNameNode.
Proof.
  revert first acc. induction names as [|n names IH]; intros first acc Hall;
    cbn [forallb name_list_loop] in *; [discriminate|].
  destruct n; cbn in Hall; try reflexivity; now apply IH.
Qed.

(** X3: [name_list_to_string] joins the quoted names and stars of the
    list with a comma and a blank, and raises as soon as the list holds a
    node of another kind. *)
Theorem name_list_to_string_joins cat names :
  name_list_to_string cat names
  = if forallb is_name names
    then Ok (String.concat ", " (map (name_text cat) names))
    else Raise ErrUnexpectedNameNode.
Proof.
  unfold name_list_to_string. destruct (forallb is_name names) eqn:E.
  - now rewrite name_list_loop_good.
  - now apply name_list_loop_bad.
Qed.

Lemma deparse_options_binary cat opts acc :
  deparse_options cat true (binary_options opts) acc = deparse_options cat true opts acc.
Proof.
  unfold binary_options. revert acc.
  induction opts as [|d opts IH]; intros acc; cbn [List.filter deparse_options];
    [reflexivity|].
  destruct (is_supported_binary_option (defname d)) eqn:E; cbn [deparse_options].
  - destruct (deparse_option cat true acc d); cbn [res_bind]; [apply IH | reflexivity].
  - unfold deparse_option. destruct acc as [first command].
    rewrite E. cbn [negb andb res_bind]. apply IH.
Qed.

(** X4: for a binary copy the command is made from the options [oids],
    [freeze] and [encoding] only: every other option of the statement is
    left out without being read, and the option list always ends in
    [FORMAT binary]; with none of the three the command is the head
    followed by [WITH (FORMAT binary)]. *)
Theorem deparse_copy_cmd_binary cat stmt schema_name table_name :
  deparse_copy_cmd cat stmt schema_name table_name true
  = deparse_copy_cmd cat {| attlist := attlist stmt;
                            options := binary_options (options stmt) |}
      schema_name table_name true
  /\ (binary_options (options stmt) = [] ->
      deparse_copy_cmd cat stmt schema_name table_name true
      = Ok (copy_cmd_head cat stmt schema_name table_name ++ " WITH (FORMAT binary)")%string).
Proof.
  assert (E : deparse_copy_cmd cat stmt schema_name table_name true
              = deparse_copy_cmd cat {| attlist := attlist stmt;
                                        options := binary_options (options stmt) |}
                  schema_name table_name true).
  { unfold deparse_copy_cmd. cbn [attlist options]. rewrite !orb_true_r.
    now rewrite deparse_options_binary. }
  split; [exact E|]. intros Hnone. rewrite E, Hnone.
  unfold deparse_copy_cmd, copy_cmd_head. cbn [attlist options orb deparse_options res_bind].
  f_equal. now rewrite !string_app_assoc.
Qed.

Lemma deparse_copy_cmd_binary_witness :
  deparse_copy_cmd demo_catalog demo_stmt "public" "metrics" true
  = Ok "COPY public.metrics FROM STDIN WITH (FORMAT binary)"%string.
Proof.
  apply (proj2 (deparse_copy_cmd_binary demo_catalog demo_stmt "public" "metrics")).
  reflexivity.
Defined.

(* ================================================================= *)
(** * Further properties: the output functions of the copied columns *)

Lemma insert_fold_lookup {A} (g : AttrNumber -> A) attnums (l0 : list A) (i : nat) :
  Forall (fun a => 1 <= a <= Z.of_nat (length l0)) attnums ->
  (i < length l0)%nat ->
  let l := fold_left (fun l attnum =>
                        <[Z.to_nat (AttrNumberGetAttrOffset attnum) := g attnum]> l)
                     attnums l0 in
  length l = length l0
  /\ l !! i = if existsb (Z.eqb (Z.of_nat i + 1)) attnums
              then Some (g (Z.of_nat i + 1)) else l0 !! i.
Proof.
  cbv zeta. revert l0. induction attnums as [|a l IH]; intros l0 Hall Hi;
    cbn [fold_left existsb]; [auto|].
  inversion Hall as [|? ? Ha Hl]; subst.
  unfold AttrNumberGetAttrOffset in *.
  destruct (IH (<[Z.to_nat (a - 1) := g a]> l0)) as [IH1 IH2].
  - now rewrite length_insert.
  - now rewrite length_insert.
  - rewrite length_insert in IH1. split; [exact IH1|]. rewrite IH2.
    destruct (existsb (Z.eqb (Z.of_nat i + 1)) l); [now rewrite orb_true_r|].
    rewrite orb_false_r.
    destruct (Z.eqb_spec (Z.of_nat i + 1) a) as [<-|Hne].
    + replace (Z.to_nat (Z.of_nat i + 1 - 1)) with i by lia.
      now apply list_lookup_insert_eq.
    + apply list_lookup_insert_ne. lia.
Qed.

(** X5: the array of output functions has one slot per column of the
    table; the slot of a copied column holds the output function of the
    column's type, the binary one for a binary copy, and the slot of every
    other column is left zero. *)
Theorem get_copy_conversion_functions_slots cat tupDesc copy_attnums binary a :
  Forall (fun a => 1 <= a <= Z.of_nat (length tupDesc)) copy_attnums ->
  1 <= a <= Z.of_nat (length tupDesc) ->
  let functions := get_copy_conversion_functions cat tupDesc copy_attnums binary in
  let typ := atttypid (aref null_attribute tupDesc (a - 1)) in
  length functions = length tupDesc
  /\ aref 0 functions (a - 1)
     = if existsb (Z.eqb a) copy_attnums
       then (if binary then getTypeBinaryOutputInfo cat typ else getTypeOutputInfo cat typ)
       else 0.
Proof.
  intros Hall Ha. cbv zeta. unfold get_copy_conversion_functions.
  pose (g := fun attnum : AttrNumber =>
               let attr := aref null_attribute tupDesc (AttrNumberGetAttrOffset attnum) in
               if binary then getTypeBinaryOutputInfo cat (atttypid attr)
               else getTypeOutputInfo cat (atttypid attr)).
  destruct (insert_fold_lookup g copy_attnums (replicate (length tupDesc) 0)
              (Z.to_nat (a - 1))) as [H1 H2].
  - now rewrite length_replicate.
  - rewrite length_replicate. lia.
  - rewrite length_replicate in H1. subst g. cbv beta zeta in H1, H2.
    cbv zeta. split; [exact H1|].
    unfold aref at 1. destruct (Z.ltb_spec (a - 1) 0); [lia|].
    apply (f_equal (default 0)) in H2. etransitivity; [exact H2|].
    replace (Z.of_nat (Z.to_nat (a - 1)) + 1) with a by lia.
    unfold AttrNumberGetAttrOffset.
    destruct (existsb (Z.eqb a) copy_attnums); [reflexivity|].
    rewrite lookup_replicate_2 by lia. reflexivity.
Qed.

Lemma get_copy_conversion_functions_slots_witness :
  length (get_copy_conversion_functions demo_catalog (rel_desc demo_hypertable) [1; 3] false)
  = 3%nat
  /\ aref 0 (get_copy_conversion_functions demo_catalog (rel_desc demo_hypertable)
               [1; 3] false) (2 - 1) = 0.
Proof.
  apply (get_copy_conversion_functions_slots demo_catalog (rel_desc demo_hypertable)
           [1; 3] false 2).
  - repeat constructor; cbn; lia.
  - cbn. lia.
Defined.

(* ================================================================= *)
(** * Further properties: the point of a binary row *)

Lemma res_mapM_length {A B} (f : A -> Res B) l r :
  res_mapM f l = Ok r -> length r = length l.
Proof.
  revert r. induction l as [|x l IH]; intros r H; cbn [res_mapM] in H.
  - now injection H as <-.
  - destruct (f x); [|discriminate]. cbn [res_bind] in H.
    destruct (res_mapM f l); [|discriminate]. injection H as <-.
    cbn. now rewrite (IH _ eq_refl).
Qed.

Lemma res_mapM_ok {A B} (f : A -> Res B) l r :
  res_mapM f l = Ok r -> Forall (fun x => exists y, f x = Ok y) l.
Proof.
  revert r. induction l as [|x l IH]; intros r H; cbn [res_mapM] in H; [constructor|].
  destruct (f x) eqn:E; [|discriminate]. cbn [res_bind] in H.
  destruct (res_mapM f l); [|discriminate]. constructor; eauto.
Qed.

Lemma res_mapM_first_raise {A B} (f : A -> Res B) pre x post e :
  Forall (fun x => exists y, f x = Ok y) pre ->
  f x = Raise e ->
  res_mapM f (pre ++ x :: post) = Raise e.
Proof.
  intros Hpre Hx. induction Hpre as [|x0 pre [y Hy] _ IH]; cbn [app res_mapM].
  - now rewrite Hx.
  - now rewrite Hy, IH.
Qed.

(** X6: a binary row gets a point only if none of its partitioning columns
    is null, and the point has one coordinate per dimension; the first
    dimension whose column is null, open or closed, stops the row with
    "value required for partitioning column". *)
Theorem calculate_hyperspace_point_from_binary_nulls cat values nulls hs :
  (forall p,
      calculate_hyperspace_point_from_binary cat values nulls hs = Ok p ->
      length p = length (dimensions hs)
      /\ Forall (fun d => aref false nulls (column_attno d - 1) = false) (dimensions hs))
  /\ (forall pre d post,
         dimensions hs = pre ++ d :: post ->
         Forall (fun d => aref false nulls (column_attno d - 1) = false
                          /\ exists c, convert_datum_to_dim_idx cat
                                         (aref 0 values (column_attno d - 1)) d = Ok c) pre ->
         aref false nulls (column_attno d - 1) = true ->
         calculate_hyperspace_point_from_binary cat values nulls hs
         = Raise (ErrValueRequired (column_name d))).
Proof.
  unfold calculate_hyperspace_point_from_binary. split.
  - intros p H. split; [now apply res_mapM_length in H|].
    apply res_mapM_ok in H. eapply Forall_impl; [|exact H].
    intros d [y Hy]. cbv beta in Hy.
    now destruct (aref false nulls (column_attno d - 1)).
  - intros pre d post -> Hpre Hnull. apply res_mapM_first_raise.
    + eapply Forall_impl; [|exact Hpre]. intros d0 [Hn [c Hc]]. cbv beta.
      rewrite Hn. eauto.
    + cbv beta. now rewrite Hnull.
Qed.

Lemma calculate_hyperspace_point_from_binary_nulls_witness :
  calculate_hyperspace_point_from_binary demo_catalog (row_values demo_row)
    (row_nulls demo_row) (space demo_hypertable)
  = Raise (ErrValueRequired "device").
Proof.
  apply (proj2 (calculate_hyperspace_point_from_binary_nulls demo_catalog
                  (row_values demo_row) (row_nulls demo_row) (space demo_hypertable))
           [demo_time_dimension] demo_space_dimension []).
  - reflexivity.
  - repeat constructor. cbn. eauto.
  - reflexivity.
Defined.

(* ================================================================= *)
(** * Further properties: the end of a copy *)

Lemma winds_down_not_uploading w w' c :
  winds_down w w' -> ~ uploading w c -> ~ uploading w' c.
Proof.
  intros (evs & _ & _ & H) Hc. specialize (H c).
  destruct (existsb (closes c) evs); tauto.
Qed.

Lemma flush_ok_none_uploading w w' :
  flush_active_connections w = (Ok tt, w') ->
  connection_state w' = connection_state w /\ none_uploading w'.
Proof.
  intros H.
  pose proof (flush_active_connections_same_state _ _ _ H) as Hst.
  unfold same_state in Hst. split; [exact Hst|].
  unfold flush_active_connections in H. run H emit_eq.
  apply bind_inv in H as [(drained & w1 & H1 & H)|(e & _ & E)]; [|discriminate].
  pose proof (flush_drain_winds_down _ _ _ H1) as [W1 _].
  apply flush_drain_outcome in H1 as (S1 & evs1 & T1 & F1 & O1).
  destruct drained as [ended|]; [|destruct O1].
  destruct O1 as [Hall _].
  apply bind_inv in H as [(u & w2 & H2 & H3)|(e & _ & E)]; [|discriminate].
  apply forM_flush_cleanup_outcome in H2 as (S2 & C2 & evs2 & T2 & F2 & O2).
  apply forM_flush_verify_outcome in H3 as (C3 & _).
  intros c Hin. rewrite Hst in Hin. unfold uploading. rewrite C3.
  destruct (in_dec Z.eq_dec c ended) as [Hc|Hc].
  - destruct (O2 c Hc) as [[Hidle _] _]. rewrite Hidle. discriminate.
  - rewrite C2 by exact Hc. apply (winds_down_not_uploading _ _ c W1).
    intros Hup. apply Hc, Hall; [exact Hin | exact Hup].
Qed.

Lemma end_copy_on_data_node_idle failure c w :
  ~ uploading w c -> end_copy_on_data_node failure c w = (Ok failure, w).
Proof.
  intros Hc. unfold end_copy_on_data_node. erewrite bind_ok by apply get_status_eq.
  destruct (status_eqb (conn_status (conns w c)) CONN_COPY_IN) eqn:E; [|reflexivity].
  apply status_eqb_eq in E. now destruct Hc.
Qed.

Lemma foldM_end_copy_idle l failure w :
  (forall c, In c l -> ~ uploading w c) ->
  foldM end_copy_on_data_node l failure w = (Ok failure, w).
Proof.
  induction l as [|c l IH]; intros Hl; cbn [foldM]; [reflexivity|].
  erewrite bind_ok by (apply end_copy_on_data_node_idle, Hl; now left).
  apply IH. intros c' Hc'. apply Hl. now right.
Qed.

Lemma end_copy_on_data_nodes_idle w :
  none_uploading w -> end_copy_on_data_nodes w = (Ok tt, w).
Proof.
  intros H. unfold end_copy_on_data_nodes. erewrite bind_ok by apply get_state_eq.
  erewrite bind_ok by (apply foldM_end_copy_idle; exact H). reflexivity.
Qed.

Lemma remote_copy_end_events w r w' :
  remote_copy_end w = (r, w') ->
  exists fl,
    trace w' = trace w ++ EvFlushActiveConnections :: fl
    /\ Forall flush_io fl
    /\ (r = Ok tt -> none_uploading w').
Proof.
  intros H. unfold remote_copy_end in H.
  apply bind_inv in H as [([] & w1 & H1 & H2)|(e & H1 & ->)].
  - pose proof (flush_active_connections_events _ _ _ H1) as (fl & T & F).
    apply flush_ok_none_uploading in H1 as [_ Hnone].
    rewrite end_copy_on_data_nodes_idle in H2 by exact Hnone.
    injection H2 as <- <-. exists fl. auto.
  - pose proof (flush_active_connections_events _ _ _ H1) as (fl & T & F).
    exists fl. split; [exact T|]. split; [exact F | discriminate].
Qed.

(** X7: [remote_copy_end] ends every COPY through the flush alone: it
    never calls [remote_connection_end_copy], because the flush either
    raises or leaves no connection in use in COPY_IN; when it returns, no
    connection in use is in COPY_IN. *)
Theorem remote_copy_end_flushes_only w r w' :
  remote_copy_end w = (r, w') ->
  exists fl,
    trace w' = trace w ++ EvFlushActiveConnections :: fl
    /\ Forall flush_io fl
    /\ List.filter is_end_copy fl = []
    /\ (r = Ok tt -> none_uploading w').
Proof.
  intros H. apply remote_copy_end_events in H as (fl & T & F & Hnone).
  exists fl. split; [exact T|]. split; [exact F|]. split; [|exact Hnone].
  apply (filter_none flush_io); [|exact F].
  intros e. unfold flush_io. now destruct e.
Qed.

Lemma remote_copy_end_flushes_only_witness :
  exists fl,
    trace (snd (remote_copy_end (demo_uploading_world [5] demo_flush_answers)))
    = [] ++ EvFlushActiveConnections :: fl
    /\ Forall flush_io fl
    /\ List.filter is_end_copy fl = []
    /\ (fst (remote_copy_end (demo_uploading_world [5] demo_flush_answers)) = Ok tt ->
        none_uploading (snd (remote_copy_end (demo_uploading_world [5] demo_flush_answers)))).
Proof.
  apply (remote_copy_end_flushes_only (demo_uploading_world [5] demo_flush_answers)).
  vm_compute. reflexivity.
Defined.

(** ** [end_copy_on_data_nodes] on its own *)

Lemma end_copy_keeps_others c c' w ok w' :
  remote_connection_end_copy c w = (Ok ok, w') ->
  c' <> c -> conns w' c' = conns w c'.
Proof.
  intros H Hne. rewrite end_copy_eq in H. cbv zeta in H.
  destruct (negb _); injection H as _ <-; cbn; [|reflexivity].
  now rewrite fn_lookup_insert_ne by congruence.
Qed.

Lemma foldM_end_copy_outcome l failure w r w' :
  foldM end_copy_on_data_node l failure w = (r, w') ->
  exists evs,
    trace w' = trace w ++ evs
    /\ connection_state w' = connection_state w
    /\ Forall (fun e => is_end_copy e = true) evs
    /\ r = Ok (failure || existsb is_failed_end_copy evs)
    /\ (forall c, In c l -> uploading w c -> exists ok, In (EvEndCopy c ok) evs)
    /\ (forall c, ~ uploading w c -> ~ uploading w' c)
    /\ (forall c, In c l -> uploading w' c -> In (EvEndCopy c false) evs).
Proof.
  revert failure w. induction l as [|c l IH]; intros failure w H; cbn [foldM] in H.
  - injection H as <- <-. exists []. rewrite app_nil_r, orb_false_r.
    repeat split; auto; intros c [].
  - apply bind_inv in H as [(f1 & w1 & H1 & H2)|(e & H1 & _)].
    2:{ exfalso. unfold end_copy_on_data_node in H1. run H1 get_status_eq.
        destruct (status_eqb _ _); [|discriminate].
        apply bind_inv in H1 as [(ok & w1 & H1 & H2)|(e' & H1 & _)]; [discriminate|].
        now destruct (end_copy_never_raises _ _ _ _ H1). }
    unfold end_copy_on_data_node in H1. run H1 get_status_eq.
    destruct (status_eqb (conn_status (conns w c)) CONN_COPY_IN) eqn:Est.
    + apply status_eqb_eq in Est.
      apply bind_inv in H1 as [(ok & w0 & H0 & H1)|(e' & H0 & _)];
        [|now destruct (end_copy_never_raises _ _ _ _ H0)].
      injection H1 as <- <-.
      pose proof (end_copy_keeps_others c) as Hothers.
      pose proof H0 as H0'. rewrite end_copy_eq in H0'. cbv zeta in H0'.
      set (ok' := negb (int_answer 1 (answers w) =? 0)) in *.
      assert (Eok : ok = ok') by (now injection H0').
      assert (T0 : trace w0 = trace w ++ [EvEndCopy c ok]).
      { rewrite Eok. destruct ok'; now injection H0' as _ <-. }
      assert (S0 : connection_state w0 = connection_state w).
      { destruct ok'; now injection H0' as _ <-. }
      assert (U0 : ok = true -> ~ uploading w0 c).
      { intros ->. rewrite <- Eok in H0'. injection H0' as <-. unfold uploading. cbn.
        rewrite fn_lookup_insert. cbn. discriminate. }
      assert (K0 : forall c', ~ uploading w c' -> ~ uploading w0 c').
      { intros c' Hc'. unfold uploading in *.
        destruct (Z.eq_dec c' c) as [->|Hne]; [congruence|].
        now rewrite (Hothers c' _ _ _ H0 Hne). }
      apply IH in H2 as (evs & T & S & F & R & A & K & B).
      exists (EvEndCopy c ok :: evs).
      split; [rewrite T, T0; now rewrite <- app_assoc|].
      split; [congruence|]. split; [constructor; auto|].
      split; [rewrite R; destruct ok, failure; reflexivity|].
      split; [|split].
      * intros c' [<-|Hin] Hup; [exists ok; now left|].
        destruct (Z.eq_dec c' c) as [->|Hne]; [exists ok; now left|].
        destruct (A c' Hin) as [ok1 Hok1]; [|exists ok1; now right].
        unfold uploading in *. now rewrite (Hothers c' _ _ _ H0 Hne).
      * intros c' Hc'. apply K, K0, Hc'.
      * intros c' Hin Hup.
        destruct (Z.eq_dec c' c) as [->|Hne].
        -- destruct ok; [|now left]. exfalso. revert Hup. apply K, U0. reflexivity.
        -- destruct Hin as [->|Hin]; [congruence|]. right. now apply B.
    + injection H1 as <- <-.
      assert (Hnot : ~ uploading w c).
      { unfold uploading. intros E. apply status_eqb_eq in E. congruence. }
      apply IH in H2 as (evs & T & S & F & R & A & K & B).
      exists evs. repeat split; auto.
      * intros c' [<-|Hin] Hup; [contradiction | auto].
      * intros c' [<-|Hin] Hup; [exfalso; revert Hup; now apply K | auto].
Qed.

(** X8: [end_copy_on_data_nodes] goes on after a connection failed to end
    its COPY: every connection in use that is in COPY_IN gets its
    [remote_connection_end_copy], nothing else is called, and the error is
    raised at the end, exactly when some call failed; when it returns, no
    connection in use is in COPY_IN. *)
Theorem end_copy_on_data_nodes_best_effort w r w' :
  end_copy_on_data_nodes w = (r, w') ->
  exists evs,
    trace w' = trace w ++ evs
    /\ Forall (fun e => is_end_copy e = true) evs
    /\ (forall c, In c (connections_in_use (connection_state w)) -> uploading w c ->
                  exists ok, In (EvEndCopy c ok) evs)
    /\ r = (if existsb is_failed_end_copy evs then Raise ErrEndCopy else Ok tt)
    /\ (r = Ok tt -> none_uploading w').
Proof.
  intros H. unfold end_copy_on_data_nodes in H. run H get_state_eq.
  apply bind_inv in H as [(f & w1 & H1 & H2)|(e & H1 & ->)].
  - apply foldM_end_copy_outcome in H1 as (evs & T & S & F & R & A & K & B).
    injection R as ->. cbn [orb] in H2.
    exists evs. split; [|split; [exact F|split; [exact A|]]].
    + destruct (existsb _ evs); now injection H2 as _ <-.
    + destruct (existsb is_failed_end_copy evs) eqn:E; injection H2 as <- <-;
        (split; [reflexivity|]); [discriminate|].
      intros _ c Hin Hup. rewrite S in Hin. apply B in Hup; [|exact Hin].
      assert (X : existsb is_failed_end_copy evs = true)
        by (apply existsb_exists; eauto).
      congruence.
  - apply foldM_end_copy_outcome in H1 as (evs & _ & _ & _ & R & _). discriminate R.
Qed.

Lemma end_copy_on_data_nodes_best_effort_witness :
  exists evs,
    trace (snd (end_copy_on_data_nodes (demo_uploading_world [5; 6] [AInt 0; AInt 1])))
    = [] ++ evs
    /\ Forall (fun e => is_end_copy e = true) evs
    /\ (forall c, In c [5; 6] ->
                  uploading (demo_uploading_world [5; 6] [AInt 0; AInt 1]) c ->
                  exists ok, In (EvEndCopy c ok) evs)
    /\ Raise ErrEndCopy
       = (if existsb is_failed_end_copy evs then Raise ErrEndCopy else Ok tt)
    /\ (Raise ErrEndCopy = Ok tt ->
        none_uploading
          (snd (end_copy_on_data_nodes (demo_uploading_world [5; 6] [AInt 0; AInt 1])))).
Proof.
  apply (end_copy_on_data_nodes_best_effort
           (demo_uploading_world [5; 6] [AInt 0; AInt 1]) (Raise ErrEndCopy)).
  vm_compute. reflexivity.
Defined.

(* ================================================================= *)
(** * Further properties: a flush with nothing to end *)

Lemma flush_end_copy_idle acc c w :
  ~ uploading w c -> flush_end_copy acc c w = (Ok acc, w).
Proof.
  intros Hc. unfold flush_end_copy. erewrite bind_ok by apply get_status_eq.
  destruct (status_eqb (conn_status (conns w c)) CONN_COPY_IN) eqn:E; [|reflexivity].
  apply status_eqb_eq in E. now destruct Hc.
Qed.

Lemma foldM_flush_end_copy_idle l acc w :
  (forall c, In c l -> ~ uploading w c) ->
  foldM flush_end_copy l acc w = (Ok acc, w).
Proof.
  induction l as [|c l IH]; intros Hl; cbn [foldM]; [reflexivity|].
  erewrite bind_ok by (apply flush_end_copy_idle, Hl; now left).
  apply IH. intros c' Hc'. apply Hl. now right.
Qed.

Lemma flush_active_connections_idle w :
  none_uploading w ->
  flush_active_connections w
  = (if int_answer 0 (answers w) =? 0 then Ok tt else Raise ErrInterrupt,
     pop (log w EvFlushActiveConnections)).
Proof.
  intros Hnone. unfold flush_active_connections.
  erewrite bind_ok by apply emit_eq.
  unfold flush_drain. unfold bind at 1. unfold bind at 1.
  rewrite get_state_eq.
  erewrite bind_ok by (apply foldM_flush_end_copy_idle; exact Hnone).
  erewrite bind_ok by apply pending_answers_eq.
  cbn [flush_loop]. unfold bind at 1. unfold bind at 1.
  rewrite CHECK_FOR_INTERRUPTS_eq. cbn [answers log with_trace].
  destruct (int_answer 0 (answers w) =? 0); reflexivity.
Qed.

(** X9: when no connection in use is in COPY_IN, [flush_active_connections]
    calls nothing on any connection: it looks for a pending interrupt once,
    raising if there is one, and leaves every connection and the cache as
    they were. *)
Theorem flush_nothing_uploading w r w' :
  none_uploading w ->
  flush_active_connections w = (r, w') ->
  trace w' = trace w ++ [EvFlushActiveConnections]
  /\ conns w' = conns w
  /\ connection_state w' = connection_state w
  /\ answers w' = tail (answers w)
  /\ r = (if int_answer 0 (answers w) =? 0 then Ok tt else Raise ErrInterrupt).
Proof.
  intros Hnone H. rewrite (flush_active_connections_idle w Hnone) in H.
  injection H as <- <-. cbn. auto.
Qed.

Lemma flush_nothing_uploading_witness :
  trace (snd (flush_active_connections (demo_world []))) = [] ++ [EvFlushActiveConnections]
  /\ conns (snd (flush_active_connections (demo_world []))) = conns (demo_world [])
  /\ connection_state (snd (flush_active_connections (demo_world [])))
     = connection_state (demo_world [])
  /\ answers (snd (flush_active_connections (demo_world []))) = tail []
  /\ fst (flush_active_connections (demo_world [])) = Ok tt.
Proof.
  apply (flush_nothing_uploading (demo_world [])
           (fst (flush_active_connections (demo_world [])))
           (snd (flush_active_connections (demo_world [])))).
  - intros c [].
  - vm_compute. reflexivity.
Defined.

(* ================================================================= *)
(** * Further properties: the whole load *)

Lemma uint64_add_l a b : uint64 (uint64 a + b) = uint64 (a + b).
Proof. unfold uint64, wrap. now rewrite Zplus_mod_idemp_l. Qed.

Lemma copy_batches_total {Row} (row_len : Row -> Z) src b processed :
  snd (copy_batches row_len src b processed)
  = uint64 (processed + current_batch_rows b + Z.of_nat (length src)).
Proof.
  revert b processed. induction src as [|row src IH]; intros b processed;
    cbn [copy_batches length].
  - cbn [snd]. f_equal. lia.
  - cbv zeta. destruct (batch_has_room _).
    + rewrite IH. cbn [batch_add current_batch_rows]. f_equal. lia.
    + specialize (IH empty_batch
                    (uint64 (processed + current_batch_rows (batch_add row_len b row)))).
      destruct (copy_batches row_len src empty_batch _) as [sent total].
      cbn [snd] in *. rewrite IH. cbn [empty_batch batch_add current_batch_rows].
      rewrite Z.add_0_r, uint64_add_l. f_equal. lia.
Qed.

(** X10: a load that returns has counted every row of the source, once:
    the result is the number of rows read, in 64 bits, whatever the batches
    were. *)
Theorem load_counts_rows cat stmt table schema_name table_name attnums binary src w
    total w' :
  remote_distributed_copy cat stmt table schema_name table_name attnums binary src w
  = (Ok total, w') ->
  total = uint64 (Z.of_nat (length src))
  /\ (Z.of_nat (length src) < 2 ^ 64 -> total = Z.of_nat (length src)).
Proof.
  intros H.
  assert (E : total = uint64 (Z.of_nat (length src))).
  { destruct (remote_copy_begin cat stmt table schema_name table_name attnums binary)
      as [[context state]|e] eqn:Hbegin.
    - destruct (load_batches _ _ _ _ _ _ _ _ _ _ _ _ _ Hbegin H) as [-> _].
      rewrite copy_batches_total, length_map. cbn. reflexivity.
    - rewrite (load_setup_raises _ _ _ _ _ _ _ _ _ _ Hbegin) in H. discriminate. }
  split; [exact E|]. intros Hlt. rewrite E. unfold uint64, wrap.
  apply Z.mod_small. lia.
Qed.

Lemma load_counts_rows_witness :
  2 = uint64 (Z.of_nat (length [demo_row; demo_late_row]))
  /\ (Z.of_nat (length [demo_row; demo_late_row]) < 2 ^ 64 ->
      2 = Z.of_nat (length [demo_row; demo_late_row])).
Proof.
  apply (load_counts_rows demo_catalog demo_stmt demo_hypertable "public"%string
           "metrics"%string [1; 2; 3] false [demo_row; demo_late_row]
           (demo_world demo_one_batch_answers) 2
           (snd (demo_load [demo_row; demo_late_row] demo_one_batch_answers))).
  vm_compute. reflexivity.
Defined.

(** X11: once the copy context is set up, every way out of
    [remote_distributed_copy] goes through [remote_copy_end]: whether the
    loop returned or raised, the run ends with a flush of the active
    connections, after which nothing but the calls of that flush is made.
    An error of the loop is raised again after the flush, unless the flush
    raises itself. *)
Theorem load_ends_with_flush cat stmt table schema_name table_name attnums binary src
    w r w' context state :
  remote_copy_begin cat stmt table schema_name table_name attnums binary
  = Ok (context, state) ->
  remote_distributed_copy cat stmt table schema_name table_name attnums binary src w
  = (r, w') ->
  exists pre fl,
    trace w' = trace w ++ pre ++ EvFlushActiveConnections :: fl
    /\ Forall flush_io fl
    /\ (forall total, r = Ok total -> none_uploading w')
    /\ (forall e w0,
           copy_loop cat src context 0 (with_state w state) = (Raise e, w0) ->
           exists e', r = Raise e'
                      /\ (remote_copy_end w0 = (Ok tt, w') -> e' = e)).
Proof.
  intros Hbegin H. unfold remote_distributed_copy in H.
  unfold bind at 1, lift in H. rewrite Hbegin in H.
  unfold bind at 1 in H. cbn [put_state] in H.
  unfold bind at 1, try_catch in H.
  destruct (copy_loop cat src context 0 (with_state w state)) as [[p|e] w0] eqn:Hloop.
  - assert (T0 : exists pre, trace w0 = trace w ++ pre).
    { destruct (copy_loop_bracketed _ _ _ _ _ _ _ Hloop) as (pre & T & _). eauto. }
    destruct T0 as [pre T0].
    apply bind_inv in H as [(u & w2 & H2 & H3)|(e & H2 & ->)].
    + injection H3 as <- <-.
      apply remote_copy_end_events in H2 as (fl & T & F & Hnone).
      destruct u. exists pre, fl. split; [now rewrite T, T0, <- app_assoc|].
      split; [exact F|]. split; [auto | discriminate].
    + apply remote_copy_end_events in H2 as (fl & T & F & _).
      exists pre, fl. split; [now rewrite T, T0, <- app_assoc|].
      split; [exact F|]. split; discriminate.
  - assert (T0 : exists pre, trace w0 = trace w ++ pre).
    { destruct (copy_loop_bracketed _ _ _ _ _ _ _ Hloop) as (pre & T & _). eauto. }
    destruct T0 as [pre T0].
    destruct (remote_copy_end w0) as [[[]|e'] w1] eqn:Hend; injection H as <- <-;
      pose proof (remote_copy_end_events _ _ _ Hend) as (fl & T & F & _);
      exists pre, fl; (split; [now rewrite T, T0, <- app_assoc|]);
      (split; [exact F|]); (split; [discriminate|]);
      intros e1 w1' [= <- <-]; eexists; (split; [reflexivity|]); intros Hok.
    + reflexivity.
    + congruence.
Qed.

Lemma load_ends_with_flush_witness :
  exists pre fl,
    trace (snd (demo_load [demo_row] [])) = [] ++ pre ++ EvFlushActiveConnections :: fl
    /\ Forall flush_io fl.
Proof.
  destruct (load_ends_with_flush demo_catalog demo_stmt demo_hypertable "public"%string
              "metrics"%string [1; 2; 3] false [demo_row] (demo_world [])
              (fst (demo_load [demo_row] [])) (snd (demo_load [demo_row] []))
              _ _ eq_refl) as (pre & fl & T & F & _).
  - vm_compute. reflexivity.
  - exists pre, fl. split; [exact T | exact F].
Defined.

Lemma remote_copy_begin_in_use cat stmt table schema_name table_name attnums binary
    context state :
  remote_copy_begin cat stmt table schema_name table_name attnums binary
  = Ok (context, state) ->
  connections_in_use state = [].
Proof.
  unfold remote_copy_begin, res_bind. intros H.
  destruct (deparse_copy_cmd _ _ _ _ _); [|discriminate].
  destruct binary.
  - now injection H as _ <-.
  - destruct (generate_text_copy_context _ _ _ _); [|discriminate].
    now injection H as _ <-.
Qed.

(** X12: a load from an empty source still makes one pass, over an empty
    batch, and one flush: it looks up no chunk, asks for no connection,
    sends nothing and returns 0, provided no interrupt is pending at its two
    checks. *)
Theorem load_of_empty_source cat stmt table schema_name table_name attnums binary w
    context state :
  remote_copy_begin cat stmt table schema_name table_name attnums binary
  = Ok (context, state) ->
  int_answer 0 (answers w) = 0 ->
  int_answer 0 (tail (answers w)) = 0 ->
  exists w',
    remote_distributed_copy cat stmt table schema_name table_name attnums binary [] w
    = (Ok 0, w')
    /\ trace w' = trace w ++ [EvProcessBatch 0 0; EvFlushActiveConnections]
    /\ conns w' = conns w
    /\ connection_state w' = state.
Proof.
  intros Hbegin Hi1 Hi2.
  pose proof (remote_copy_begin_batch _ _ _ _ _ _ _ _ _ Hbegin) as Hbatch.
  pose proof (remote_copy_begin_in_use _ _ _ _ _ _ _ _ _ Hbegin) as Huse.
  unfold remote_distributed_copy. unfold bind at 1, lift. rewrite Hbegin.
  unfold bind at 1. cbn [put_state].
  set (w1 := with_state w state).
  assert (Hloop : copy_loop cat [] context 0 w1
                  = (Ok 0, log (pop w1) (EvProcessBatch 0 0))).
  { cbn [copy_loop head]. unfold bind at 1. rewrite CHECK_FOR_INTERRUPTS_eq.
    change (answers w1) with (answers w). rewrite Hi1. cbn [Z.eqb].
    unfold bind at 1, lift. rewrite read_next_copy_row_end.
    unfold send_batch, remote_copy_process_and_send_data, route_rows, open_and_send.
    rewrite Hbatch. reflexivity. }
  unfold bind at 1, try_catch. rewrite Hloop.
  set (w2 := log (pop w1) (EvProcessBatch 0 0)).
  assert (Hnone : none_uploading w2).
  { intros c Hc. cbn in Hc. rewrite Huse in Hc. destruct Hc. }
  unfold remote_copy_end. unfold bind at 1. unfold bind at 1.
  rewrite (flush_active_connections_idle w2 Hnone).
  change (answers w2) with (tail (answers w)). rewrite Hi2. cbn [Z.eqb].
  rewrite end_copy_on_data_nodes_idle.
  - eexists. split; [reflexivity|]. cbn. rewrite <- app_assoc. auto.
  - intros c Hc. cbn in Hc. rewrite Huse in Hc. destruct Hc.
Qed.

Lemma load_of_empty_source_witness :
  exists w',
    remote_distributed_copy demo_catalog demo_stmt demo_hypertable "public" "metrics"
      [1; 2; 3] false [] (demo_world [])
    = (Ok 0, w')
    /\ trace w' = [] ++ [EvProcessBatch 0 0; EvFlushActiveConnections]
    /\ conns w' = conns (demo_world []).
Proof.
  destruct (load_of_empty_source demo_catalog demo_stmt demo_hypertable "public"%string
              "metrics"%string [1; 2; 3] false (demo_world []) _ _ eq_refl eq_refl eq_refl)
    as (w' & H & T & C & _).
  exists w'. auto.
Defined.

(* ================================================================= *)
(** * Further properties: sending one slot *)

(** ** The writes of [send_copy_data] *)

Lemma forM_put_copy_data row l w r w' :
  forM (fun conn =>
          let* ok := remote_connection_put_copy_data conn row in
          if negb ok then raise ErrPutCopyData else ret tt) l w = (r, w') ->
  conns w' = conns w
  /\ connection_state w' = connection_state w
  /\ exists evs,
      trace w' = trace w ++ evs
      /\ match r with
         | Ok _ => evs = map (fun c => EvRemotePutCopyData c row true) l
         | Raise e =>
             e = ErrPutCopyData
             /\ exists done c rest,
                 l = done ++ c :: rest
                 /\ evs = map (fun c => EvRemotePutCopyData c row true) done
                          ++ [EvRemotePutCopyData c row false]
         end.
Proof.
  unfold forM. revert w. induction l as [|c l IH]; intros w H; cbn [foldM] in H.
  - injection H as <- <-. repeat split. exists []. now rewrite app_nil_r.
  - unfold bind at 1 in H. unfold bind at 1 in H. rewrite put_copy_data_eq in H.
    cbv zeta in H. destruct (negb (int_answer 1 (answers w) =? 0)); cbn [negb] in H.
    + apply IH in H as (C & S & evs & T & O). repeat split; auto.
      exists (EvRemotePutCopyData c row true :: evs).
      split; [rewrite T; cbn; now rewrite <- app_assoc|].
      destruct r as [u|e]; [now rewrite O|].
      destruct O as (-> & done & c' & rest & -> & ->). split; [reflexivity|].
      exists (c :: done), c', rest. auto.
    + injection H as <- <-. repeat split.
      exists [EvRemotePutCopyData c row false]. split; [reflexivity|].
      split; [reflexivity|]. exists [], c, l. auto.
Qed.

Lemma send_copy_data_ok row_data connections w b w' :
  send_copy_data row_data connections w = (Ok b, w') ->
  b = true
  /\ conns w' = conns w
  /\ connection_state w' = connection_state w
  /\ trace w' = trace w ++ map (fun c => EvRemotePutCopyData c row_data true) connections.
Proof.
  intros H. unfold send_copy_data in H.
  apply bind_inv in H as [(u & w1 & H1 & H2)|(e & _ & E)]; [|discriminate].
  injection H2 as <- <-.
  apply forM_put_copy_data in H1 as (C & S & evs & T & ->). auto.
Qed.

(** X13: [send_copy_data] writes the row to the connections in list order,
    once to each; it stops at the first connection that refuses the row,
    raising after that write, and touches neither the status of a
    connection nor the cache. *)
Theorem send_copy_data_writes row_data connections w r w' :
  send_copy_data row_data connections w = (r, w') ->
  conns w' = conns w
  /\ connection_state w' = connection_state w
  /\ exists evs,
      trace w' = trace w ++ evs
      /\ match r with
         | Ok b =>
             b = true
             /\ evs = map (fun c => EvRemotePutCopyData c row_data true) connections
         | Raise e =>
             e = ErrPutCopyData
             /\ exists done c rest,
                 connections = done ++ c :: rest
                 /\ evs = map (fun c => EvRemotePutCopyData c row_data true) done
                          ++ [EvRemotePutCopyData c row_data false]
         end.
Proof.
  intros H. unfold send_copy_data in H.
  apply bind_inv in H as [(u & w1 & H1 & H2)|(e & H1 & ->)].
  - injection H2 as <- <-.
    apply forM_put_copy_data in H1 as (C & S & evs & T & O).
    repeat split; auto. exists evs. auto.
  - apply forM_put_copy_data in H1 as (C & S & evs & T & O).
    repeat split; auto. exists evs. auto.
Qed.

Lemma send_copy_data_writes_witness :
  exists evs,
    trace (snd (send_copy_data [x01] [5; 6] (demo_world [AInt 1; AInt 0]))) = [] ++ evs
    /\ match fst (send_copy_data [x01] [5; 6] (demo_world [AInt 1; AInt 0])) with
       | Ok b =>
           b = true /\ evs = map (fun c => EvRemotePutCopyData c [x01] true) [5; 6]
       | Raise e =>
           e = ErrPutCopyData
           /\ exists done c rest,
               [5; 6] = done ++ c :: rest
               /\ evs = map (fun c => EvRemotePutCopyData c [x01] true) done
                        ++ [EvRemotePutCopyData c [x01] false]
       end.
Proof.
  apply (send_copy_data_writes [x01] [5; 6] (demo_world [AInt 1; AInt 0])).
  vm_compute. reflexivity.
Defined.

(** ** The connections of a chunk *)

Lemma find_cached_connection_app required_id cache more conn :
  find_cached_connection required_id cache = Some conn ->
  find_cached_connection required_id (cache ++ more) = Some conn.
Proof.
  unfold find_cached_connection. induction cache as [|e cache IH]; cbn; [discriminate|].
  destruct (_ && _); [auto | exact IH].
Qed.

Lemma find_cached_connection_snoc required_id cache conn :
  find_cached_connection required_id cache = None ->
  find_cached_connection required_id (cache ++ [ {| id := required_id; connection := conn |} ])
  = Some conn.
Proof.
  unfold find_cached_connection. induction cache as [|e cache IH]; cbn.
  - now rewrite !Z.eqb_refl.
  - destruct (_ && _); [discriminate | exact IH].
Qed.

Lemma cached_connection_begun required_id : follows begun (cached_connection required_id).
Proof. begun_same. Qed.

Lemma cached_connection_result required_id w conn w' :
  cached_connection required_id w = (Ok conn, w') ->
  begun w w'
  /\ cache_grows w w'
  /\ find_cached_connection required_id (data_node_connections (connection_state w'))
     = Some conn.
Proof.
  intros H. split; [eapply cached_connection_begun; eauto|].
  unfold cached_connection in H. run H get_state_eq.
  destruct (find_cached_connection required_id _) as [c|] eqn:Hfind.
  - injection H as <- <-. auto.
  - unfold bind in H. rewrite get_connection_eq in H. cbv zeta in H.
    destruct (int_answer 0 (answers w) <? 0); [discriminate|].
    rewrite cache_connection_eq in H. injection H as <- <-. cbn.
    split; [eexists; reflexivity|].
    now apply find_cached_connection_snoc.
Qed.

Lemma begin_copy_unless_processing_result required_id conn w w' :
  begin_copy_unless_processing required_id conn w = (Ok tt, w') ->
  begun w w'
  /\ data_node_connections (connection_state w')
     = data_node_connections (connection_state w)
  /\ copy_ready w' conn.
Proof.
  intros H. unfold begin_copy_unless_processing in H.
  run H get_state_eq. run H get_status_eq.
  destruct (conn_status (conns w conn)) eqn:Est; cbn [status_eqb] in H;
    try discriminate; run H get_status_eq; rewrite Est in H; cbn [status_eqb] in H.
  - apply bind_inv in H as [(ok & w1 & H1 & H2)|(e & H1 & E)]; [|discriminate].
    pose proof (begin_copy_same_state _ _ _ _ _ _ H1) as S1.
    apply begin_copy_begun in H1 as [B1 C1]; [|exact Est].
    destruct ok; cbn [negb] in H2; [|discriminate].
    pose proof (add_connection_in_use_begun _ _ _ _ H2) as B2.
    destruct (add_connection_in_use_grows _ _ _ _ H2) as [more Hmore].
    assert (Hcache : data_node_connections (connection_state w')
                     = data_node_connections (connection_state w1)).
    { unfold add_connection_in_use in H2. run H2 get_state_eq.
      destruct (list_member _ _); now injection H2 as <-. }
    split; [eauto|]. unfold same_state in S1. split; [congruence|].
    assert (Hc : conn_status (conns w' conn) = CONN_COPY_IN).
    { eapply begun_keeps_copy_in; [exact B2 | now apply C1]. }
    unfold copy_ready. rewrite Hc. split; discriminate.
  - injection H as <-. split; [apply begun_refl|]. split; [reflexivity|].
    unfold copy_ready. rewrite Est. split; discriminate.
  - injection H as <-. split; [apply begun_refl|]. split; [reflexivity|].
    unfold copy_ready. rewrite Est. split; discriminate.
Qed.

Lemma begun_keeps_ready w w' c : begun w w' -> copy_ready w c -> copy_ready w' c.
Proof.
  intros (evs & _ & H) [H1 H2]. unfold copy_ready.
  destruct (H c) as [->|(A & _)]; [auto | contradiction].
Qed.

Lemma foldM_connection_for_data_node userid nodes acc w result w' :
  foldM (connection_for_data_node userid) nodes acc w = (Ok result, w') ->
  begun w w'
  /\ cache_grows w w'
  /\ exists new,
      result = acc ++ new
      /\ Forall2 (fun cdn c =>
                    find_cached_connection
                      (remote_connection_id (foreign_server_oid cdn) userid)
                      (data_node_connections (connection_state w')) = Some c) nodes new
      /\ Forall (copy_ready w') new.
Proof.
  revert acc w. induction nodes as [|cdn nodes IH]; intros acc w H; cbn [foldM] in H.
  - injection H as <- <-. split; [apply begun_refl|]. split; [apply cache_grows_refl|].
    exists []. rewrite app_nil_r. auto.
  - apply bind_inv in H as [(acc1 & w1 & H1 & H2)|(e & _ & E)]; [|discriminate].
    unfold connection_for_data_node in H1.
    apply bind_inv in H1 as [(c & wa & Ha & H1)|(e & _ & E)]; [|discriminate].
    apply bind_inv in H1 as [([] & wb & Hb & H1)|(e & _ & E)]; [|discriminate].
    injection H1 as <- <-.
    apply cached_connection_result in Ha as (Ca & Ga & Fa).
    apply begin_copy_unless_processing_result in Hb as (Bb & Cb & Rb).
    apply IH in H2 as (B2 & G2 & new & -> & F2 & R2).
    assert (Gb : cache_grows wa wb) by (exists []; now rewrite app_nil_r).
    split; [eauto|]. split; [eauto|].
    exists (c :: new). split; [now rewrite <- app_assoc|].
    destruct G2 as [more2 Hmore2]. destruct Gb as [moreb Hmoreb].
    split; constructor; auto.
    + rewrite Hmore2, Hmoreb. now apply find_cached_connection_app, find_cached_connection_app.
    + eapply begun_keeps_ready; eauto.
Qed.

Lemma create_connection_list_ready chunk_data_nodes userid w result w' :
  create_connection_list_for_chunk chunk_data_nodes userid w = (Ok result, w') ->
  Forall2 (fun cdn c =>
             find_cached_connection
               (remote_connection_id (foreign_server_oid cdn) userid)
               (data_node_connections (connection_state w')) = Some c)
          chunk_data_nodes result
  /\ Forall (copy_ready w') result.
Proof.
  intros H. unfold create_connection_list_for_chunk in H.
  apply foldM_connection_for_data_node in H as (_ & G & new & -> & F & R).
  cbn [app]. auto.
Qed.

(** X14: when [create_connection_list_for_chunk] returns, its list holds
    one connection per data node of the chunk, in order, each the cached
    connection of the identity made of that node and the user, and none of
    them idle or in the processing state; the cache has only grown. *)
Theorem create_connection_list_for_chunk_result chunk_data_nodes userid w result w' :
  create_connection_list_for_chunk chunk_data_nodes userid w = (Ok result, w') ->
  length result = length chunk_data_nodes
  /\ Forall2 (fun cdn c =>
                find_cached_connection
                  (remote_connection_id (foreign_server_oid cdn) userid)
                  (data_node_connections (connection_state w')) = Some c)
             chunk_data_nodes result
  /\ Forall (copy_ready w') result
  /\ cache_grows w w'.
Proof.
  intros H. unfold create_connection_list_for_chunk in H.
  apply foldM_connection_for_data_node in H as (_ & G & new & -> & F & R).
  cbn [app]. split; [symmetry; eapply Forall2_length; eauto | auto].
Qed.

Lemma create_connection_list_for_chunk_result_witness :
  length (match fst (create_connection_list_for_chunk
                       [ {| foreign_server_oid := 501 |}; {| foreign_server_oid := 502 |} ]
                       10 (demo_uploading_world [5] [AInt 6; AInt 1])) with
          | Ok l => l
          | Raise _ => []
          end) = 2%nat.
Proof.
  destruct (create_connection_list_for_chunk_result
              [ {| foreign_server_oid := 501 |}; {| foreign_server_oid := 502 |} ]
              10 (demo_uploading_world [5] [AInt 6; AInt 1]) [5; 6]
              (snd (create_connection_list_for_chunk
                      [ {| foreign_server_oid := 501 |}; {| foreign_server_oid := 502 |} ]
                      10 (demo_uploading_world [5] [AInt 6; AInt 1])))) as [H _].
  - vm_compute. reflexivity.
  - exact H.
Defined.

(** ** The row made from a slot *)

Lemma slot_text_step_text cat textctx slot last pos acc attnum :
  slot_text_step cat textctx slot last (pos, acc) attnum
  = (S pos,
     acc ++ list_byte_of_string
              (field_text (null_string textctx) (slot_field cat textctx slot attnum))
         ++ [byte_of_ascii (if Nat.eqb pos last then "010"%char else delimiter textctx)]).
Proof.
  unfold slot_text_step, slot_field, appendStringInfo_sc.
  now destruct (aref false (tts_isnull slot) (AttrNumberGetAttrOffset attnum)).
Qed.

Lemma slot_text_fold cat textctx slot init x pos acc :
  fold_left (slot_text_step cat textctx slot (pos + length init)%nat) (init ++ [x]) (pos, acc)
  = (S (pos + length init),
     acc ++ concat (map (fun a => list_byte_of_string
                                    (field_text (null_string textctx)
                                       (slot_field cat textctx slot a))
                                  ++ [byte_of_ascii (delimiter textctx)]) init)
         ++ list_byte_of_string
              (field_text (null_string textctx) (slot_field cat textctx slot x))
         ++ [byte_of_ascii "010"%char]).
Proof.
  revert pos acc. induction init as [|a init IH]; intros pos acc.
  - cbn [app fold_left length map concat]. rewrite slot_text_step_text.
    rewrite Nat.add_0_r, Nat.eqb_refl. reflexivity.
  - cbn [app fold_left length map concat]. rewrite slot_text_step_text.
    replace (pos + S (length init))%nat with (S pos + length init)%nat by lia.
    rewrite IH. destruct (Nat.eqb_spec pos (S pos + length init)); [lia|].
    f_equal. rewrite <- !app_assoc. reflexivity.
Qed.

(** X15: in text mode the row made from a slot has the layout of a row read
    from the file: the texts of the copied columns, the null marker for a
    null, joined by the delimiter and closed by a newline; with no copied
    column it is empty, without a newline. *)
Theorem slot_row_data_text cat context textctx slot :
  data_context context = TextContext textctx ->
  slot_row_data cat context slot
  = match attnums context with
    | [] => []
    | _ =>
        list_byte_of_string
          (text_row_spec (map (slot_field cat textctx slot) (attnums context))
                         (null_string textctx) (delimiter textctx))
    end.
Proof.
  intros Hctx. unfold slot_row_data. rewrite Hctx.
  destruct (attnums context) as [|a l] eqn:E; [reflexivity|]. rewrite <- E.
  assert (Hne : attnums context <> []) by (rewrite E; discriminate).
  destruct (exists_last Hne) as (init & x & Hl). rewrite Hl.
  replace (pred (length (init ++ [x]))) with (0 + length init)%nat
    by (rewrite length_app; cbn; lia).
  rewrite slot_text_fold. cbn [snd app makeStringInfo].
  unfold text_row_spec. rewrite list_byte_of_string_app, map_app. cbn [map].
  rewrite concat_snoc_bytes, map_map, <- app_assoc. reflexivity.
Qed.

Lemma slot_row_data_text_witness :
  slot_row_data demo_catalog demo_context {| tts_values := [7; 0; 9];
                                             tts_isnull := [false; true; false] |}
  = list_byte_of_string
      (text_row_spec [Some EmptyString; None; Some EmptyString] DEFAULT_PG_NULL_VALUE ",").
Proof.
  apply (slot_row_data_text demo_catalog demo_context demo_text_context).
  reflexivity.
Defined.

Lemma slot_arrays_fold (slot : TupleTableSlot) attnums (vals : list Datum)
    (nls : list bool) :
  fold_left (fun '(vals, nls) attnum =>
               let i := AttrNumberGetAttrOffset attnum in
               (<[Z.to_nat i := aref 0 (tts_values slot) i]> vals,
                <[Z.to_nat i := aref false (tts_isnull slot) i]> nls))
            attnums (vals, nls)
  = (fold_left (fun (l : list Datum) attnum =>
                  <[Z.to_nat (AttrNumberGetAttrOffset attnum)
                    := aref 0 (tts_values slot) (AttrNumberGetAttrOffset attnum)]> l)
               attnums vals,
     fold_left (fun (l : list bool) attnum =>
                  <[Z.to_nat (AttrNumberGetAttrOffset attnum)
                    := aref false (tts_isnull slot) (AttrNumberGetAttrOffset attnum)]> l)
               attnums nls).
Proof.
  revert vals nls. induction attnums as [|a l IH]; intros vals nls; cbn [fold_left];
    [reflexivity | apply IH].
Qed.

Lemma cleared_length (l : list Z) (nls : list bool) :
  length (fold_left (fun nulls i => <[Z.to_nat i := false]> nulls) l nls) = length nls.
Proof.
  revert nls. induction l as [|i l IH]; intros nls; cbn [fold_left]; [reflexivity|].
  now rewrite IH, length_insert.
Qed.

Lemma generate_binary_copy_data_ext cat values nulls values' nulls' attnums out_functions :
  Forall (fun a => aref 0 values (a - 1) = aref 0 values' (a - 1)
                   /\ aref false nulls (a - 1) = aref false nulls' (a - 1)) attnums ->
  generate_binary_copy_data cat values nulls attnums out_functions
  = generate_binary_copy_data cat values' nulls' attnums out_functions.
Proof.
  intros H. rewrite !generate_binary_copy_data_spec. unfold binary_row_spec. f_equal.
  f_equal. apply map_ext_in. intros a Ha. rewrite Forall_forall in H.
  destruct (H a Ha) as [Hv Hn]. unfold binary_field_spec. now rewrite Hv, Hn.
Qed.

(** X16: in binary mode the row made from a slot is the encoding of the
    slot's own values and null flags: whatever the value and null arrays of
    the context held from an earlier row does not show in it, as long as
    the copied columns are columns of those arrays. *)
Theorem slot_row_data_binary cat context binctx slot :
  data_context context = BinaryContext binctx ->
  length (nulls binctx) = length (values binctx) ->
  Forall (fun a => 1 <= a <= Z.of_nat (length (values binctx))) (attnums context) ->
  slot_row_data cat context slot
  = generate_binary_copy_data cat (tts_values slot) (tts_isnull slot) (attnums context)
      (bin_out_functions binctx).
Proof.
  intros Hctx Hlen Hall. unfold slot_row_data. rewrite Hctx, slot_arrays_fold.
  apply generate_binary_copy_data_ext.
  rewrite Forall_forall. intros a Ha.
  rewrite Forall_forall in Hall. pose proof (Hall a Ha) as Hr. cbv beta in Hr.
  assert (Hex : existsb (Z.eqb (Z.of_nat (Z.to_nat (a - 1)) + 1)) (attnums context) = true).
  { apply existsb_exists. exists a. split; [exact Ha|]. apply Z.eqb_eq. lia. }
  split.
  - destruct (insert_fold_lookup
                (fun attnum => aref 0 (tts_values slot) (AttrNumberGetAttrOffset attnum))
                (attnums context) (values binctx) (Z.to_nat (a - 1))) as [_ H2].
    + now apply Forall_forall.
    + unfold Datum in *. lia.
    + rewrite Hex in H2. unfold aref at 1. destruct (Z.ltb_spec (a - 1) 0); [lia|].
      cbv beta in H2. apply (f_equal (default 0)) in H2. etransitivity; [exact H2|].
      cbn. unfold AttrNumberGetAttrOffset. f_equal. lia.
  - set (cleared := fold_left _ (upto _) (nulls binctx)).
    assert (Hc : length cleared = length (values binctx))
      by (unfold cleared; now rewrite cleared_length).
    destruct (insert_fold_lookup
                (fun attnum => aref false (tts_isnull slot) (AttrNumberGetAttrOffset attnum))
                (attnums context) cleared (Z.to_nat (a - 1))) as [_ H2].
    + rewrite Hc. now apply Forall_forall.
    + rewrite Hc. unfold Datum in *. lia.
    + rewrite Hex in H2. unfold aref at 1. destruct (Z.ltb_spec (a - 1) 0); [lia|].
      cbv beta in H2. apply (f_equal (default false)) in H2. etransitivity; [exact H2|].
      cbn. unfold AttrNumberGetAttrOffset. f_equal. lia.
Qed.

Lemma slot_row_data_binary_witness :
  slot_row_data demo_catalog demo_binary_context demo_slot
  = generate_binary_copy_data demo_catalog [7; 0; 9] [false; true; false] [1; 2; 3]
      [1184; 23; 25].
Proof.
  apply (slot_row_data_binary demo_catalog demo_binary_context
           {| bin_out_functions := [1184; 23; 25];
              values := [99; 98; 97];
              nulls := [true; true; true] |} demo_slot).
  - reflexivity.
  - reflexivity.
  - repeat constructor; cbn; lia.
Defined.

(** ** The whole of [remote_copy_send_slot] *)

Lemma create_connection_list_setup nodes userid :
  follows (extends slot_setup) (create_connection_list_for_chunk nodes userid).
Proof.
  unfold create_connection_list_for_chunk, connection_for_data_node, cached_connection,
    begin_copy_unless_processing, slot_setup.
  frame.
Qed.

(** X17: a slot that is sent is written once to each data node of its
    chunk, in the order of the chunk's data nodes, each time on the
    connection cached for that data node and the user of the insert state,
    none of them idle or processing; the writes come after everything else
    and no flush is made, so that the COPYs stay open for the next slot.  A
    slot that fails, while its connections are made ready or while it is
    written, is followed by the flush of [remote_copy_end] before the error
    goes on. *)
Theorem remote_copy_send_slot_outcome cat context slot cis w r w' :
  remote_copy_send_slot cat context slot cis w = (r, w') ->
  match r with
  | Ok b =>
      b = true
      /\ exists connections setup,
          trace w' = trace w ++ setup
                     ++ map (fun c => EvRemotePutCopyData c
                                        (slot_row_data cat context slot) true)
                            connections
          /\ Forall slot_setup setup
          /\ Forall2 (fun cdn c =>
                        find_cached_connection
                          (remote_connection_id (foreign_server_oid cdn) (cis_user_id cis))
                          (data_node_connections (connection_state w')) = Some c)
                     (chunk_data_nodes cis) connections
          /\ Forall (copy_ready w') connections
  | Raise e =>
      exists pre fl,
        trace w' = trace w ++ pre ++ EvFlushActiveConnections :: fl
        /\ Forall flush_io fl
  end.
Proof.
  intros H. unfold remote_copy_send_slot, try_catch in H.
  set (body := let* connections :=
                 create_connection_list_for_chunk (chunk_data_nodes cis) (cis_user_id cis) in
               send_copy_data (slot_row_data cat context slot) connections) in H.
  destruct (body w) as [[b|e] w0] eqn:Hbody.
  - injection H as <- <-. subst body.
    apply bind_inv in Hbody as [(connections & w1 & H1 & H2)|(e & _ & E)]; [|discriminate].
    pose proof (create_connection_list_setup _ _ _ _ _ H1) as (evs1 & T1 & F1).
    apply create_connection_list_ready in H1 as (L & R).
    apply send_copy_data_ok in H2 as (-> & C & S & T2).
    split; [reflexivity|].
    exists connections, evs1.
    split; [now rewrite T2, T1, app_assoc|]. split; [exact F1|]. split.
    + rewrite S. exact L.
    + eapply Forall_impl; [|exact R]. intros c. unfold copy_ready. now rewrite C.
  - assert (T0 : exists pre, trace w0 = trace w ++ pre).
    { assert (F : follows (extends any_event) body).
      { subst body. unfold send_copy_data, create_connection_list_for_chunk,
          connection_for_data_node, cached_connection, begin_copy_unless_processing,
          any_event. frame. }
      destruct (F _ _ _ Hbody) as (pre & T & _). eauto. }
    destruct T0 as [pre T0].
    destruct (remote_copy_end w0) as [[[]|e'] w1] eqn:Hend; injection H as <- <-;
      apply remote_copy_end_events in Hend as (fl & T & F & _);
      exists pre, fl; (split; [now rewrite T, T0, <- app_assoc | exact F]).
Qed.

Lemma remote_copy_send_slot_outcome_witness :
  exists connections setup,
    trace (snd (remote_copy_send_slot demo_catalog demo_context demo_slot
                  demo_insert_state
                  (demo_uploading_world [5] [AInt 6; AInt 1; AInt 1; AInt 1])))
    = [] ++ setup
         ++ map (fun c => EvRemotePutCopyData c
                            (slot_row_data demo_catalog demo_context demo_slot) true)
                connections
    /\ Forall slot_setup setup
    /\ Forall2 (fun cdn c =>
                  find_cached_connection
                    (remote_connection_id (foreign_server_oid cdn) 10)
                    (data_node_connections
                       (connection_state
                          (snd (remote_copy_send_slot demo_catalog demo_context demo_slot
                                  demo_insert_state
                                  (demo_uploading_world [5]
                                     [AInt 6; AInt 1; AInt 1; AInt 1])))))
                  = Some c)
               [ {| foreign_server_oid := 501 |}; {| foreign_server_oid := 502 |} ]
               connections
    /\ Forall (copy_ready
                 (snd (remote_copy_send_slot demo_catalog demo_context demo_slot
                         demo_insert_state
                         (demo_uploading_world [5] [AInt 6; AInt 1; AInt 1; AInt 1]))))
              connections.
Proof.
  apply (proj2 (remote_copy_send_slot_outcome demo_catalog demo_context demo_slot
                  demo_insert_state
                  (demo_uploading_world [5] [AInt 6; AInt 1; AInt 1; AInt 1])
                  (Ok true)
                  (snd (remote_copy_send_slot demo_catalog demo_context demo_slot
                          demo_insert_state
                          (demo_uploading_world [5] [AInt 6; AInt 1; AInt 1; AInt 1])))
                  ltac:(vm_compute; reflexivity))).
Defined.

(* ================================================================= *)
(** * Further properties: reading the rows back *)

Section ReadBack.
Context (cat : Catalog) (values : list Datum) (nulls : list bool)
        (out_functions : list FmgrInfo).

Lemma read_binary_field_written n a tail :
  len (SendFunctionCall cat (aref 0 out_functions (a - 1)) (aref 0 values (a - 1)))
  <= MaxAllocSize ->
  read_binary_fields (S n) (binary_field_spec cat values nulls out_functions a ++ tail)
  = option_map (fun '(fs, rest) =>
                  (binary_field_value cat values nulls out_functions a :: fs, rest))
               (read_binary_fields n tail).
Proof.
  intros Ha. unfold binary_field_spec, binary_field_value.
  destruct (aref false nulls (a - 1)).
  - cbn [read_binary_fields].
    assert (L : (length (be_bytes 4 4294967295 ++ tail) <? 4)%nat = false).
    { apply Nat.ltb_ge. rewrite length_app, length_be_bytes. lia. }
    rewrite L. cbv zeta.
    rewrite (take_app_length' (be_bytes 4 4294967295)) by now rewrite length_be_bytes.
    rewrite (drop_app_length' (be_bytes 4 4294967295)) by now rewrite length_be_bytes.
    rewrite be_value_be_bytes by (cbn; lia). reflexivity.
  - cbv zeta. set (v := SendFunctionCall cat _ _) in *.
    rewrite <- app_assoc. cbn [read_binary_fields].
    assert (L : (length (be_bytes 4 (Z.of_nat (length v)) ++ v ++ tail) <? 4)%nat = false).
    { apply Nat.ltb_ge. rewrite length_app, length_be_bytes. lia. }
    rewrite L. cbv zeta.
    rewrite (take_app_length' (be_bytes 4 (Z.of_nat (length v))))
      by now rewrite length_be_bytes.
    rewrite (drop_app_length' (be_bytes 4 (Z.of_nat (length v))))
      by now rewrite length_be_bytes.
    unfold len, MaxAllocSize in Ha.
    rewrite be_value_be_bytes by (cbn; lia).
    destruct (Z.eqb_spec (Z.of_nat (length v)) 4294967295) as [E|_]; [lia|].
    rewrite Nat2Z.id.
    assert (L2 : (length (v ++ tail) <? length v)%nat = false).
    { apply Nat.ltb_ge. rewrite length_app. lia. }
    rewrite L2, take_app_length, drop_app_length. reflexivity.
Qed.

Lemma read_binary_fields_written attnums rest :
  Forall (fun a =>
            len (SendFunctionCall cat (aref 0 out_functions (a - 1))
                                  (aref 0 values (a - 1))) <= MaxAllocSize) attnums ->
  read_binary_fields (length attnums)
    (concat (map (binary_field_spec cat values nulls out_functions) attnums) ++ rest)
  = Some (map (binary_field_value cat values nulls out_functions) attnums, rest).
Proof.
  induction 1 as [|a l Ha _ IH]; [reflexivity|].
  cbn [length map concat]. rewrite <- app_assoc.
  rewrite read_binary_field_written by exact Ha. rewrite IH. reflexivity.
Qed.

Lemma read_binary_row_written attnums :
  Z.of_nat (length attnums) < 65536 ->
  Forall (fun a =>
            len (SendFunctionCall cat (aref 0 out_functions (a - 1))
                                  (aref 0 values (a - 1))) <= MaxAllocSize) attnums ->
  read_binary_row (generate_binary_copy_data cat values nulls attnums out_functions)
  = Some (map (binary_field_value cat values nulls out_functions) attnums).
Proof.
  intros Hn Hall. rewrite generate_binary_copy_data_spec. unfold binary_row_spec.
  unfold read_binary_row.
  match goal with
  | |- context [(length ?x <? 2)%nat] => assert (L : (length x <? 2)%nat = false)
  end.
  { apply Nat.ltb_ge. rewrite length_app, length_be_bytes. lia. }
  rewrite L.
  rewrite (take_app_length' (be_bytes 2 (Z.of_nat (length attnums))))
    by now rewrite length_be_bytes.
  rewrite (drop_app_length' (be_bytes 2 (Z.of_nat (length attnums))))
    by now rewrite length_be_bytes.
  rewrite be_value_be_bytes by (cbn; lia). rewrite Nat2Z.id.
  rewrite <- (app_nil_r (concat _)), read_binary_fields_written by exact Hall.
  reflexivity.
Qed.
End ReadBack.

(** X18: the bytes of a binary row determine its fields: two rows with the
    same bytes have the same number of fields, the same nulls and the same
    value bytes, field by field, as long as each has fewer than 65536 fields
    and no value longer than an allocation may be.  In particular the
    length of a value is never taken for the mark of a null. *)
Theorem generate_binary_copy_data_injective cat values nulls out_functions attnums
    values' nulls' out_functions' attnums' :
  Z.of_nat (length attnums) < 65536 ->
  Z.of_nat (length attnums') < 65536 ->
  Forall (fun a =>
            len (SendFunctionCall cat (aref 0 out_functions (a - 1))
                                  (aref 0 values (a - 1))) <= MaxAllocSize) attnums ->
  Forall (fun a =>
            len (SendFunctionCall cat (aref 0 out_functions' (a - 1))
                                  (aref 0 values' (a - 1))) <= MaxAllocSize) attnums' ->
  generate_binary_copy_data cat values nulls attnums out_functions
  = generate_binary_copy_data cat values' nulls' attnums' out_functions' ->
  map (binary_field_value cat values nulls out_functions) attnums
  = map (binary_field_value cat values' nulls' out_functions') attnums'.
Proof.
  intros Hn Hn' Hall Hall' E.
  pose proof (read_binary_row_written cat values nulls out_functions attnums Hn Hall) as R.
  pose proof (read_binary_row_written cat values' nulls' out_functions' attnums' Hn' Hall')
    as R'.
  rewrite E, R' in R. now injection R.
Qed.

Lemma generate_binary_copy_data_injective_witness :
  map (binary_field_value demo_catalog [7; 0] [false; true] [23; 23]) [1; 2]
  = map (binary_field_value demo_catalog [7; 99] [false; true] [23; 25]) [1; 2].
Proof.
  apply (generate_binary_copy_data_injective demo_catalog [7; 0] [false; true] [23; 23]
           [1; 2] [7; 99] [false; true] [23; 25] [1; 2]).
  - cbn. lia.
  - cbn. lia.
  - repeat (apply Forall_cons; [vm_compute; discriminate|]). apply Forall_nil.
  - repeat (apply Forall_cons; [vm_compute; discriminate|]). apply Forall_nil.
  - vm_compute. reflexivity.
Defined.

Lemma string_concat_app sep pre rest :
  rest <> [] ->
  String.concat sep (pre ++ rest)
  = (String.concat EmptyString (map (fun x => x ++ sep) pre) ++ String.concat sep rest)%string.
Proof.
  intros Hrest. induction pre as [|x pre IH]; [reflexivity|].
  cbn [app map]. rewrite string_concat_cons by (destruct pre, rest; cbn; congruence).
  rewrite IH.
  destruct (map (fun x => (x ++ sep)%string) pre) as [|y ys] eqn:E.
  - cbn. now rewrite string_app_assoc.
  - rewrite (string_concat_cons EmptyString (x ++ sep)) by discriminate.
    cbn [append]. now rewrite !string_app_assoc.
Qed.

Lemma string_concat_split_field sep f g rest :
  String.concat sep ((f ++ sep ++ g)%string :: rest) = String.concat sep (f :: g :: rest).
Proof.
  destruct rest as [|x rest].
  - reflexivity.
  - rewrite !string_concat_cons by discriminate. now rewrite !string_app_assoc.
Qed.

(** X19: [parse_next_text_row] writes the fields as they are, without
    escaping: a field that holds the delimiter gives the same row bytes as
    two fields split there, and a field equal to the null marker gives the
    same row bytes as a null field. *)
Theorem parse_next_text_row_verbatim attnums ctx pre post vals nls :
  (forall f g,
      option_map fst
        (parse_next_text_row
           (Some {| raw_fields := pre ++ Some (f ++ String (delimiter ctx) g)%string :: post;
                    row_values := vals; row_nulls := nls |}) attnums ctx)
      = option_map fst
          (parse_next_text_row
             (Some {| raw_fields := pre ++ Some f :: Some g :: post;
                      row_values := vals; row_nulls := nls |}) attnums ctx))
  /\ option_map fst
       (parse_next_text_row
          (Some {| raw_fields := pre ++ Some (null_string ctx) :: post;
                   row_values := vals; row_nulls := nls |}) attnums ctx)
     = option_map fst
         (parse_next_text_row
            (Some {| raw_fields := pre ++ None :: post;
                     row_values := vals; row_nulls := nls |}) attnums ctx).
Proof.
  assert (Hne : forall (x : option string) l, pre ++ x :: l <> [])
    by (intros x l; destruct pre; discriminate).
  unfold parse_next_text_row.
  cbn [option_map fst fields nfields null_string delimiter raw_fields].
  split; [intros f g|];
    rewrite !text_row_data_stored, !text_row_data_spec by apply Hne; do 2 f_equal;
    unfold text_row_spec; f_equal; rewrite !map_app; cbn [map field_text].
  - rewrite !string_concat_app by discriminate. f_equal.
    apply (string_concat_split_field (String (delimiter ctx) EmptyString)).
  - reflexivity.
Qed.

(* ================================================================= *)
(** * Further properties: what a pass is given *)

Lemma read_next_copy_row_ok cat n context row context' :
  context_ok n context ->
  read_next_copy_row cat context (Some row) = Ok (Some context') ->
  context_ok n context'
  /\ current_batch_rows (batch context') = current_batch_rows (batch context) + 1.
Proof.
  intros [Hr Hp Hc Hd] H. unfold read_next_copy_row, res_bind in H.
  destruct (data_context context) as [ctx|ctx] eqn:Ectx;
    cbn [parse_next_text_row parse_next_binary_row option_map] in H.
  - destruct (get_current_point_for_text_copy cat _) as [p|] eqn:Ep; [|discriminate].
    injection H as <-. unfold get_current_point_for_text_copy in Ep.
    cbn [text_dimensions fields] in Ep.
    apply res_mapM_length in Ep.
    split; [|reflexivity].
    split; cbn [batch batch_points data_context batch_add batch_rows current_batch_rows
                  text_dimensions ht].
    + rewrite length_app, Hr. cbn. lia.
    + rewrite !length_app, Hp. reflexivity.
    + apply Forall_app. split; [exact Hc|]. repeat constructor. congruence.
    + exact Hd.
  - destruct (get_current_point_for_binary_copy cat _ _) as [p|] eqn:Ep; [|discriminate].
    injection H as <-. unfold get_current_point_for_binary_copy in Ep.
    unfold calculate_hyperspace_point_from_binary in Ep.
    apply res_mapM_length in Ep.
    split; [|reflexivity].
    split; cbn [batch batch_points data_context batch_add batch_rows current_batch_rows ht].
    + rewrite length_app, Hr. cbn. lia.
    + rewrite !length_app, Hp. reflexivity.
    + apply Forall_app. split; [exact Hc|]. repeat constructor. congruence.
    + exact Hd.
Qed.

Lemma reset_batch_ok n context : context_ok n context -> context_ok n (reset_batch context).
Proof. intros [Hr Hp Hc Hd]. split; cbn; auto. Qed.

Lemma aref_Forall {A} (P : A -> Prop) (d : A) (l : list A) (k : nat) :
  Forall P l -> (k < length l)%nat -> P (aref d l (Z.of_nat k)).
Proof.
  intros Hl Hk. rewrite aref_nat.
  destruct (lookup_lt_is_Some_2 l k Hk) as [p E]. rewrite E. cbn.
  exact (Forall_lookup_1 _ _ _ _ Hl E).
Qed.

Lemma batch_point_coords n context i :
  context_ok n context ->
  In i (upto (current_batch_rows (batch context))) ->
  length (aref [] (batch_points context) i) = n.
Proof.
  intros [Hr Hp Hc Hd] Hi. unfold upto in Hi. apply in_map_iff in Hi as (k & <- & Hk).
  apply in_seq in Hk. rewrite Hr, Nat2Z.id in Hk.
  apply (aref_Forall (fun p => length p = n)); [exact Hc|].
  destruct Hk as [_ Hk]. cbn in Hk. eapply Nat.lt_le_trans; [exact Hk|].
  apply Nat.eq_le_incl. symmetry. exact Hp.
Qed.

Lemma flush_loop_pass_input n fuel cs :
  follows (extends (pass_input_ok n)) (flush_loop fuel cs).
Proof.
  revert cs. induction fuel as [|fuel IH]; intros cs; cbn [flush_loop]; frame.
Qed.

#[global] Hint Resolve flush_loop_pass_input : frames.

Lemma flush_pass_input n : follows (extends (pass_input_ok n)) flush_active_connections.
Proof.
  unfold flush_active_connections, flush_drain, flush_end_copy, flush_cleanup, flush_verify.
  frame.
Qed.

#[global] Hint Resolve flush_pass_input : frames.

Lemma route_row_pass_input n context acc i :
  length (aref [] (batch_points context) i) = n ->
  follows (extends (pass_input_ok n)) (route_row context acc i).
Proof. intros Hlen. unfold route_row. frame. Qed.

Lemma foldM_route_row_pass_input n context l acc :
  (forall i, In i l -> length (aref [] (batch_points context) i) = n) ->
  follows (extends (pass_input_ok n)) (foldM (route_row context) l acc).
Proof.
  revert acc. induction l as [|i l IH]; intros acc Hl; cbn [foldM].
  - frame.
  - apply follows_bind; [frame_side .. | |].
    + apply route_row_pass_input, Hl. now left.
    + intros acc'. apply IH. intros j Hj. apply Hl. now right.
Qed.

Lemma open_and_send_pass_input n context nodes :
  follows (extends (pass_input_ok n)) (open_and_send context nodes).
Proof.
  unfold open_and_send, open_data_node_connection, data_node_connection,
    begin_copy_if_needed, send_data_node.
  frame.
Qed.

Lemma process_batch_pass_input n context :
  context_ok n context ->
  0 <= current_batch_rows (batch context) <= MAX_BATCH_ROWS ->
  follows (extends (pass_input_ok n)) (remote_copy_process_and_send_data context).
Proof.
  intros Hok Hrows. unfold remote_copy_process_and_send_data, route_rows.
  apply follows_bind; [frame_side .. | |]; [apply emits_emit; exact Hrows|]. intros _.
  apply follows_bind; [frame_side .. | |].
  - apply follows_bind; [frame_side .. | |].
    + apply foldM_route_row_pass_input. intros i Hi. eapply batch_point_coords; eauto.
    + intros [df nodes]. frame.
  - intros nodes. apply open_and_send_pass_input.
Qed.

Lemma copy_loop_pass_input cat n src context processed :
  context_ok n context ->
  0 <= current_batch_rows (batch context) < MAX_BATCH_ROWS ->
  follows (extends (pass_input_ok n)) (copy_loop cat src context processed).
Proof.
  revert context processed.
  assert (Hsend : forall context processed,
             context_ok n context ->
             0 <= current_batch_rows (batch context) <= MAX_BATCH_ROWS ->
             follows (extends (pass_input_ok n)) (send_batch context processed)).
  { intros context processed Hok Hrows. unfold send_batch.
    apply follows_bind; [frame_side .. | |]; [now apply process_batch_pass_input|].
    intros _. frame. }
  induction src as [|row src IH]; intros context processed Hok Hrows; cbn [copy_loop head].
  - apply follows_bind; [frame_side .. | |]; [frame|]. intros _.
    unfold bind at 1, lift. rewrite read_next_copy_row_end.
    apply Hsend; [exact Hok | lia].
  - apply follows_bind; [frame_side .. | |]; [frame|]. intros _.
    intros w r w' H. unfold bind at 1, lift in H.
    destruct (read_next_copy_row cat context (Some row)) as [read|e] eqn:Hread.
    2:{ injection H as _ <-. apply extends_refl. }
    destruct (read_next_copy_row_row _ _ _ _ Hread) as (context' & -> & _).
    destruct (read_next_copy_row_ok _ _ _ _ _ Hok Hread) as [Hok' Hrows'].
    revert w r w' H.
    change (follows (extends (pass_input_ok n))
              (if batch_has_room (batch context')
               then copy_loop cat src context' processed
               else let* processed := send_batch context' processed in
                    copy_loop cat src (reset_batch context') processed)).
    destruct (batch_has_room (batch context')) eqn:Eroom.
    + apply IH; [exact Hok'|]. apply has_room_iff in Eroom. lia.
    + apply follows_bind; [frame_side .. | |]; [apply Hsend; [exact Hok' | lia]|].
      intros p. apply IH; [now apply reset_batch_ok|]. cbn. unfold MAX_BATCH_ROWS. lia.
Qed.

Lemma remote_copy_end_pass_input n : follows (extends (pass_input_ok n)) remote_copy_end.
Proof. unfold remote_copy_end, end_copy_on_data_nodes, end_copy_on_data_node. frame. Qed.

Lemma remote_copy_begin_ok cat stmt table schema_name table_name attnums binary
    context state :
  remote_copy_begin cat stmt table schema_name table_name attnums binary
  = Ok (context, state) ->
  context_ok (length (dimensions (space table))) context.
Proof.
  unfold remote_copy_begin, res_bind. intros H.
  destruct (deparse_copy_cmd _ _ _ _ _); [|discriminate].
  destruct binary.
  - injection H as <- _. split; cbn; auto.
  - destruct (generate_text_copy_context cat (options stmt) table attnums) as [ctx|] eqn:E;
      [|discriminate].
    injection H as <- _. split; cbn; auto.
    unfold generate_text_copy_context, res_bind in E.
    destruct (validate_options cat (options stmt)) as [[delim null]|]; [|discriminate].
    pose proof (generate_copy_dimensions_result cat (dimensions (space table)) attnums table)
      as Hres.
    destruct (first_missing attnums (dimensions (space table))).
    + rewrite Hres in E. discriminate.
    + destruct Hres as (infos & Hinfos & Hmap & _). rewrite Hinfos in E.
      injection E as <-. cbn. rewrite <- Hmap. now rewrite length_map.
Qed.

(** X20: throughout a load, whatever its outcome, every batch that enters a
    pass holds at most 1024 rows, the size of the row array, and every point
    that is looked up or gets a chunk has one coordinate per dimension of
    the hypertable. *)
Theorem load_pass_inputs cat stmt table schema_name table_name attnums binary src w r w' :
  remote_distributed_copy cat stmt table schema_name table_name attnums binary src w
  = (r, w') ->
  exists evs,
    trace w' = trace w ++ evs
    /\ Forall (pass_input_ok (length (dimensions (space table)))) evs.
Proof.
  intros H.
  destruct (remote_copy_begin cat stmt table schema_name table_name attnums binary)
    as [[context state]|e] eqn:Hbegin.
  - pose proof (remote_copy_begin_ok _ _ _ _ _ _ _ _ _ Hbegin) as Hok.
    pose proof (remote_copy_begin_batch _ _ _ _ _ _ _ _ _ Hbegin) as Hbatch.
    unfold remote_distributed_copy in H.
    unfold bind at 1, lift in H. rewrite Hbegin in H.
    unfold bind at 1 in H. cbn [put_state] in H.
    assert (F : follows (extends (pass_input_ok (length (dimensions (space table)))))
                  (let* processed :=
                     try_catch (copy_loop cat src context 0) remote_copy_end in
                   remote_copy_end >> ret processed)).
    { apply follows_bind; [frame_side .. | |].
      - apply follows_try_catch; [frame_side .. | |].
        + apply copy_loop_pass_input; [exact Hok|]. rewrite Hbatch. cbn.
          unfold MAX_BATCH_ROWS. lia.
        + apply remote_copy_end_pass_input.
      - intros p. apply follows_bind; [frame_side .. | |]; [apply remote_copy_end_pass_input|].
        intros _. frame. }
    apply F in H. exact H.
  - rewrite (load_setup_raises _ _ _ _ _ _ _ _ _ _ Hbegin) in H. injection H as _ <-.
    exists []. rewrite app_nil_r. auto.
Qed.

Lemma load_pass_inputs_witness :
  exists evs,
    trace (snd (demo_load [demo_row; demo_late_row] demo_one_batch_answers)) = [] ++ evs
    /\ Forall (pass_input_ok 2) evs.
Proof.
  apply (load_pass_inputs demo_catalog demo_stmt demo_hypertable "public"%string
           "metrics"%string [1; 2; 3] false [demo_row; demo_late_row]
           (demo_world demo_one_batch_answers)
           (fst (demo_load [demo_row; demo_late_row] demo_one_batch_answers))).
  vm_compute. reflexivity.
Defined.
